(** * Particle Dance: the simulation and game-state engine

    A shallow embedding of [js/game.js], [js/particles.js], [js/input.js]
    and the utility functions, the properties of the engine that the
    specification states, and further properties that the code shows.

    Modelling conventions.
    - A JavaScript number is an exact real ([R]); [NaN], which the code can
      produce from a missing argument, is the separate constructor of
      [jsnum].  Integer-valued counters ([score], [level], the counts) are
      [Z]; loop bounds are [nat].
    - Objects that are shared between two arrays (a particle is in its
      emitter's pool and in [Game.particles]) live in a heap and the arrays
      hold addresses.
    - [Math.random], [Date.now] and [setTimeout] belong to the host: the
      results of [Math.random] are an infinite tape with a read position,
      the clock is a number of milliseconds, and the pending time-outs are
      a list of deadlines.
    - A thrown exception leaves the mutations made before it in place, so a
      method returns its completion together with the state.
    - The rendering fields of the entities (the [draw] methods, the icon of a
      power-up) are left out; a colour is kept because choosing one reads
      the random tape. *)

From Stdlib Require Import Reals Lra Lia ZArith List String Ascii Bool Arith.
From Stdlib Require Import DecimalString.
Import ListNotations.

Open Scope R_scope.

(* ================================================================= *)
(** ** Numbers, comparisons and exceptions *)

Definition Rltb (a b : R) : bool := if Rlt_dec a b then true else false.
Definition Rleb (a b : R) : bool := if Rle_dec a b then true else false.
Definition Reqb (a b : R) : bool := if Req_dec_T a b then true else false.

(** The result of an arithmetic expression some of whose operands may be
    [undefined]: [ToNumber(undefined)] is [NaN] and [NaN] is absorbing. *)
Inductive jsnum : Type :=
| NaN
| Num (r : R).

(** An actual argument of a call: [None] is an argument that the call
    site does not pass, which the callee reads as [undefined]. *)
Definition ToNumber (arg : option R) : jsnum :=
  match arg with
  | Some r => Num r
  | None => NaN
  end.

Definition jsnum_lift2 (op : R -> R -> R) (a b : jsnum) : jsnum :=
  match a, b with
  | Num x, Num y => Num (op x y)
  | _, _ => NaN
  end.

Definition jsnum_add := jsnum_lift2 Rplus.
Definition jsnum_sub := jsnum_lift2 Rminus.
Definition jsnum_mul := jsnum_lift2 Rmult.

(** [a < b] of JavaScript: false as soon as one side is [NaN]. *)
Definition jsnum_lt (a b : jsnum) : bool :=
  match a, b with
  | Num x, Num y => Rltb x y
  | _, _ => false
  end.

Inductive exn : Type :=
| ReferenceError   (* a binding read in its temporal dead zone *)
| TypeError.       (* an assignment to a [const] binding *)

Inductive outcome (A : Type) : Type :=
| Normal (a : A)
| Throw (e : exn).
Arguments Normal {A} a.
Arguments Throw {A} e.

(** How a local binding was declared. *)
Inductive decl_kind : Type := Const | Let.

(** [v++] on a local binding of kind [k] holding [v]. *)
Definition increment (k : decl_kind) (v : Z) : outcome Z :=
  match k with
  | Const => Throw TypeError
  | Let => Normal (v + 1)%Z
  end.

(* ================================================================= *)
(** ** Utility functions *)

(** [Math.floor], as an integer. *)
Definition Math_floor (r : R) : Z := Int_part r.

(** [Math.atan2(y, x)]. *)
Definition Math_atan2 (y x : R) : R :=
  if Rltb 0 x then atan (y / x)
  else if Rltb x 0 then
    (if Rleb 0 y then atan (y / x) + PI else atan (y / x) - PI)
  else if Rltb 0 y then PI / 2
  else if Rltb y 0 then - (PI / 2)
  else 0.

(** [random(min, max)] where [u] is the value that [Math.random()]
    returns:  [Math.random() * (max - min) + min]. *)
Definition random (u : R) (min max : option R) : jsnum :=
  jsnum_add (jsnum_mul (Num u) (jsnum_sub (ToNumber max) (ToNumber min)))
            (ToNumber min).

(** The same body when both arguments are passed. *)
Definition random_between (u min max : R) : R := u * (max - min) + min.

(** [randomInt(min, max)]: [Math.floor(random(min, max + 1))]. *)
Definition randomInt (u : R) (min max : Z) : Z :=
  Math_floor (random_between u (IZR min) (IZR max + 1)).

Definition distance (x1 y1 x2 y2 : R) : R :=
  sqrt ((x2 - x1) ^ 2 + (y2 - y1) ^ 2).

Definition angle (x1 y1 x2 y2 : R) : R :=
  Math_atan2 (y2 - y1) (x2 - x1).

Definition clamp (value min max : R) : R :=
  Rmin (Rmax value min) max.

(** The lexical lookup of the identifier [angle] at a call [angle(...)].
    [tdz] lists the [const]/[let] names of the enclosing blocks of the
    calling function whose declaration has not been evaluated yet when
    the call runs: those bindings exist from the start of their block but
    reading one before its initialisation throws.  When no local binding
    shadows the name, the global function is found. *)
Definition resolve_angle (tdz : list string)
  : outcome (R -> R -> R -> R -> R) :=
  if existsb (String.eqb "angle") tdz then Throw ReferenceError
  else Normal angle.

Definition colors : list string :=
  [ "#FF5252"; "#FF4081"; "#E040FB"; "#7C4DFF"; "#536DFE";
    "#448AFF"; "#40C4FF"; "#18FFFF"; "#64FFDA"; "#69F0AE";
    "#B2FF59"; "#EEFF41"; "#FFFF00"; "#FFD740"; "#FFAB40";
    "#FF6E40" ]%string.

(** [array[i]]: [undefined] outside the array. *)
Definition js_index {A : Type} (l : list A) (i : Z) : option A :=
  if (i <? 0)%Z then None else nth_error l (Z.to_nat i).

Definition getRandomColor (u : R) : option string :=
  js_index colors (randomInt u 0 (Z.of_nat (List.length colors) - 1)).

(** [a || b] on an optional number: [undefined] and [0] are falsy. *)
Definition js_or (o : option R) (dflt : R) : R :=
  match o with
  | Some r => if Reqb r 0 then dflt else r
  | None => dflt
  end.

Definition js_orZ (o : option Z) (dflt : Z) : Z :=
  match o with
  | Some z => if (z =? 0)%Z then dflt else z
  | None => dflt
  end.

(* ================================================================= *)
(** ** Further utility functions *)

Definition pointInRect (px py rx ry rw rh : R) : bool :=
  Rleb rx px && Rleb px (rx + rw) && Rleb ry py && Rleb py (ry + rh).

(** [String(num)] for an integer [num]: its decimal digits, after a minus
    sign when it is negative (JavaScript writes an integer this way below
    10^21). *)
Definition String_of_integer (num : Z) : string :=
  NilZero.string_of_int (Z.to_int num).

(** [while (s.length < size) s = '0' + s], for at most [fuel] rounds. *)
Fixpoint formatNumber_loop (fuel : nat) (s : string) (size : Z) : string :=
  match fuel with
  | O => s
  | S k =>
      if (Z.of_nat (String.length s) <? size)%Z
      then formatNumber_loop k (String "0" s) size
      else s
  end.

(** [formatNumber(num, size)] for integers.  Each round makes [s] longer
    by one, so [size] rounds are enough. *)
Definition formatNumber (num size : Z) : string :=
  formatNumber_loop (Z.to_nat size) (String_of_integer num) size.

(** [ToInt32] and [a << k] on integers: the left operand is taken modulo
    2^32 as a signed number, the shift count modulo 32, and the result is
    again a signed 32-bit number. *)
Definition ToInt32 (z : Z) : Z :=
  let m := (z mod 2 ^ 32)%Z in
  if (m <? 2 ^ 31)%Z then m else (m - 2 ^ 32)%Z.

Definition shiftLeft (a k : Z) : Z :=
  ToInt32 (Z.shiftl (ToInt32 a) (k mod 32)).

Definition hex_digit (d : Z) : ascii :=
  nth (Z.to_nat d) (list_ascii_of_string "0123456789abcdef") "0"%char.

(** The digits of a natural number in base 16, the last one first; [acc]
    holds the digits already written. *)
Fixpoint toString16_loop (fuel : nat) (n : Z) (acc : string) : string :=
  match fuel with
  | O => acc
  | S k =>
      let acc' := String (hex_digit (n mod 16)) acc in
      if (n <? 16)%Z then acc' else toString16_loop k (n / 16) acc'
  end.

(** [n.toString(16)] for an integer [n].  A number has at most as many
    hexadecimal digits as binary ones, which bounds the rounds. *)
Definition toString16 (n : Z) : string :=
  if (n <? 0)%Z
  then String "-" (toString16_loop (S (Z.to_nat (Z.log2 (- n)))) (- n)
                                   EmptyString)
  else toString16_loop (S (Z.to_nat (Z.log2 n))) n EmptyString.

(** [s.slice(1)]. *)
Definition slice1 (s : string) : string :=
  match s with
  | EmptyString => EmptyString
  | String _ rest => rest
  end.

Definition rgbToHex (r g b : Z) : string :=
  String "#" (slice1 (toString16 (shiftLeft 1 24 + shiftLeft r 16
                                  + shiftLeft g 8 + b)%Z)).

(** The class [[a-f\d]] of the pattern of [hexToRgb] under its [i] flag,
    with the value of the digit. *)
Definition hex_value (c : ascii) : option Z :=
  let n := Z.of_nat (nat_of_ascii c) in
  if ((48 <=? n) && (n <=? 57))%Z then Some (n - 48)%Z
  else if ((97 <=? n) && (n <=? 102))%Z then Some (n - 87)%Z
  else if ((65 <=? n) && (n <=? 70))%Z then Some (n - 55)%Z
  else None.

(** [parseInt(s, 16)] on a group of the pattern, which holds two
    characters of the class. *)
Definition parseInt16 (c1 c2 : ascii) : option Z :=
  match hex_value c1, hex_value c2 with
  | Some v1, Some v2 => Some (16 * v1 + v2)%Z
  | _, _ => None
  end.

(** [hexToRgb]: the pattern [/^#?([a-f\d]{2})([a-f\d]{2})([a-f\d]{2})$/i]
    matches an optional [#] followed by exactly six characters of the
    class; [None] is the [null] of a string that does not match. *)
Definition hexToRgb (hex : string) : option (Z * Z * Z) :=
  let body := match hex with
              | String "#" rest => rest
              | _ => hex
              end in
  match list_ascii_of_string body with
  | [c1; c2; c3; c4; c5; c6] =>
      match parseInt16 c1 c2, parseInt16 c3 c4, parseInt16 c5 c6 with
      | Some r, Some g, Some b => Some (r, g, b)
      | _, _, _ => None
      end
  | _ => None
  end.

(* ================================================================= *)
(** ** The random tape *)

Record Dice : Type := mkDice {
  Math_random : nat -> R;   (* the n-th result of [Math.random()] *)
  draws : nat               (* how many have been read *)
}.

Definition draw (d : Dice) : R * Dice :=
  (Math_random d (draws d), mkDice (Math_random d) (S (draws d))).

(** [a || random(lo, hi)]: the tape is read only when [a] is falsy. *)
Definition js_or_random (o : option R) (lo hi : R) (d : Dice) : R * Dice :=
  match o with
  | Some r =>
      if Reqb r 0
      then let (u, d') := draw d in (random_between u lo hi, d')
      else (r, d)
  | None => let (u, d') := draw d in (random_between u lo hi, d')
  end.

(** [c || getRandomColor()]. *)
Definition js_or_color (o : option string) (d : Dice)
  : option string * Dice :=
  match o with
  | Some c => if String.eqb c EmptyString then
                let (u, d') := draw d in (getRandomColor u, d')
              else (Some c, d)
  | None => let (u, d') := draw d in (getRandomColor u, d')
  end.

Definition point : Type := (R * R)%type.

(* ================================================================= *)
(** ** Path *)

Module Path.

Record t : Type := mk {
  points : list point;
  maxPoints : nat;
  life : R;
  decay : R;
  active : bool
}.

Definition with_life (l : R) (p : t) : t :=
  mk (points p) (maxPoints p) l (decay p) (active p).

(** [addPoint]: push, then drop the oldest point beyond [maxPoints]. *)
Definition addPoint (x y : R) (p : t) : t :=
  let pts := points p ++ [(x, y)] in
  let pts' := if (maxPoints p <? List.length pts)%nat then tl pts else pts in
  mk pts' (maxPoints p) (life p) (decay p) (active p).

Definition update (p : t) : t :=
  if negb (active p) then p
  else
    let l := life p - decay p in
    mk (points p) (maxPoints p) l (decay p)
       (if Rleb l 0 then false else active p).

Record options : Type := mkOptions {
  o_maxPoints : option nat;
  o_life : option R;
  o_decay : option R
}.

(** The constructor; [options.maxPoints || 100] takes 100 for 0 too. *)
Definition new (o : options) : t :=
  mk []
     (match o_maxPoints o with
      | Some (S n) => S n
      | _ => 100%nat
      end)
     (js_or (o_life o) 1) (js_or (o_decay o) 0.005) true.

Definition clear (p : t) : t :=
  mk [] (maxPoints p) (life p) (decay p) (active p).

End Path.

(* ================================================================= *)
(** ** Obstacle *)

Module Obstacle.

Record t : Type := mk {
  x : R;
  y : R;
  radius : R;
  pulseSpeed : R;
  pulseAmount : R;
  pulsePhase : R;
  active : bool
}.

Record options : Type := mkOptions {
  o_radius : option R;
  o_pulseSpeed : option R;
  o_pulseAmount : option R
}.

Definition new (x0 y0 : R) (o : options) (d : Dice) : t * Dice :=
  let (u, d') := draw d in
  (mk x0 y0 (js_or (o_radius o) 30) (js_or (o_pulseSpeed o) 0.05)
      (js_or (o_pulseAmount o) 0.2) (random_between u 0 (PI * 2)) true,
   d').

Definition update (o : t) : t :=
  if negb (active o) then o
  else
    let ph := pulsePhase o + pulseSpeed o in
    mk (x o) (y o) (radius o) (pulseSpeed o) (pulseAmount o)
       (if Rltb (PI * 2) ph then ph - PI * 2 else ph) (active o).

Definition checkCollision (px py : R) (o : t) : bool :=
  Rleb (distance px py (x o) (y o)) (radius o).

End Obstacle.

(* ================================================================= *)
(** ** CollectionPoint *)

Module CollectionPoint.

Record t : Type := mk {
  x : R;
  y : R;
  radius : R;
  value : Z;
  pulseSpeed : R;
  pulseAmount : R;
  pulsePhase : R;
  active : bool;
  collected : bool
}.

Record options : Type := mkOptions {
  o_radius : option R;
  o_value : option Z;
  o_pulseSpeed : option R;
  o_pulseAmount : option R
}.

Definition new (x0 y0 : R) (o : options) (d : Dice) : t * Dice :=
  let (u, d') := draw d in
  (mk x0 y0 (js_or (o_radius o) 20) (js_orZ (o_value o) 10)
      (js_or (o_pulseSpeed o) 0.05) (js_or (o_pulseAmount o) 0.3)
      (random_between u 0 (PI * 2)) true false,
   d').

Definition update (c : t) : t :=
  if negb (active c) || collected c then c
  else
    let ph := pulsePhase c + pulseSpeed c in
    mk (x c) (y c) (radius c) (value c) (pulseSpeed c) (pulseAmount c)
       (if Rltb (PI * 2) ph then ph - PI * 2 else ph)
       (active c) (collected c).

Definition checkCollision (px py : R) (c : t) : bool :=
  negb (collected c) && Rleb (distance px py (x c) (y c)) (radius c).

(** [collect]: the value that is returned, and the point afterwards. *)
Definition collect (c : t) : Z * t :=
  if collected c then (0%Z, c)
  else (value c,
        mk (x c) (y c) (radius c) (value c) (pulseSpeed c) (pulseAmount c)
           (pulsePhase c) (active c) true).

End CollectionPoint.

(* ================================================================= *)
(** ** PowerUp *)

Inductive PowerUpType : Type := timeSlow | magnet | shield | multiplier.

Module PowerUp.

Record t : Type := mk {
  x : R;
  y : R;
  type : PowerUpType;
  radius : R;
  duration : Z;            (* milliseconds *)
  pulseSpeed : R;
  pulseAmount : R;
  pulsePhase : R;
  active : bool;
  collected : bool;
  rotation : R;
  rotationSpeed : R
}.

Record options : Type := mkOptions {
  o_radius : option R;
  o_duration : option Z;
  o_pulseSpeed : option R;
  o_pulseAmount : option R
}.

Definition new (x0 y0 : R) (ty : PowerUpType) (o : options) (d : Dice)
  : t * Dice :=
  let (u, d') := draw d in
  (mk x0 y0 ty (js_or (o_radius o) 15) (js_orZ (o_duration o) 5000)
      (js_or (o_pulseSpeed o) 0.05) (js_or (o_pulseAmount o) 0.3)
      (random_between u 0 (PI * 2)) true false 0 0.02,
   d').

Definition update (p : t) : t :=
  if negb (active p) || collected p then p
  else
    let ph := pulsePhase p + pulseSpeed p in
    let ro := rotation p + rotationSpeed p in
    mk (x p) (y p) (type p) (radius p) (duration p) (pulseSpeed p)
       (pulseAmount p)
       (if Rltb (PI * 2) ph then ph - PI * 2 else ph)
       (active p) (collected p)
       (if Rltb (PI * 2) ro then ro - PI * 2 else ro)
       (rotationSpeed p).

Definition checkCollision (px py : R) (p : t) : bool :=
  negb (collected p) && Rleb (distance px py (x p) (y p)) (radius p).

(** [collect]: [null] for a collected power-up, else its payload. *)
Definition collect (p : t) : option (PowerUpType * Z) * t :=
  if collected p then (None, p)
  else (Some (type p, duration p),
        mk (x p) (y p) (type p) (radius p) (duration p) (pulseSpeed p)
           (pulseAmount p) (pulsePhase p) (active p) true (rotation p)
           (rotationSpeed p)).

End PowerUp.

(* ================================================================= *)
(** ** Particle *)

Definition obind {A B : Type} (m : outcome A) (f : A -> outcome B)
  : outcome B :=
  match m with
  | Normal a => f a
  | Throw e => Throw e
  end.

Module Particle.

Record t : Type := mk {
  x : R;
  y : R;
  size : R;
  speedX : R;
  speedY : R;
  color : option string;
  life : R;                 (* 0-1, where 1 is full life *)
  decay : R;
  gravity : R;
  trail : list point;
  maxTrailLength : nat;
  active : bool;
  pathFollowForce : R;
  mass : R
}.

Record options : Type := mkOptions {
  o_size : option R;
  o_speedX : option R;
  o_speedY : option R;
  o_color : option string;
  o_life : option R;
  o_gravity : option R
}.

(** The constructor.  [decay], [maxTrailLength] and [pathFollowForce] are
    passed by no caller, so their defaults apply. *)
Definition new (x0 y0 : R) (o : options) (d : Dice) : t * Dice :=
  let (sz, d1) := js_or_random (o_size o) 2 6 d in
  let (sx, d2) := js_or_random (o_speedX o) (-1) 1 d1 in
  let (sy, d3) := js_or_random (o_speedY o) (-1) 1 d2 in
  let (c, d4) := js_or_color (o_color o) d3 in
  (mk x0 y0 sz sx sy c (js_or (o_life o) 1) 0.005 (js_or (o_gravity o) 0)
      [] 10 true 0.1 (sz * 0.5),
   d4).

Definition with_speed (sx sy : R) (p : t) : t :=
  mk (x p) (y p) (size p) sx sy (color p) (life p) (decay p) (gravity p)
     (trail p) (maxTrailLength p) (active p) (pathFollowForce p) (mass p).

Definition with_active (b : bool) (p : t) : t :=
  mk (x p) (y p) (size p) (speedX p) (speedY p) (color p) (life p) (decay p)
     (gravity p) (trail p) (maxTrailLength p) b (pathFollowForce p) (mass p).

(** One iteration of the inner loop over the segments of a path.  [best]
    is [closestDistance] with [closestPoint]: [None] stands for the initial
    [Infinity] and [null], below which every distance is. *)
Definition closer (p : t) (best : option (R * point)) (seg : point * point)
  : option (R * point) :=
  let '((p1x, p1y), (p2x, p2y)) := seg in
  let lineLength := distance p1x p1y p2x p2y in
  if Reqb lineLength 0 then best
  else
    let t := clamp (((x p - p1x) * (p2x - p1x) + (y p - p1y) * (p2y - p1y))
                    / (lineLength * lineLength)) 0 1 in
    let closestX := p1x + t * (p2x - p1x) in
    let closestY := p1y + t * (p2y - p1y) in
    let dist := distance (x p) (y p) closestX closestY in
    match best with
    | None => Some (dist, (closestX, closestY))
    | Some (closestDistance, _) =>
        if Rltb dist closestDistance then Some (dist, (closestX, closestY))
        else best
    end.

(** The pairs [points[i]], [points[i + 1]] in increasing [i]. *)
Definition segments (pts : list point) : list (point * point) :=
  combine pts (tl pts).

Definition closest_on_path (p : t) (best : option (R * point))
  (path : Path.t) : option (R * point) :=
  if (List.length (Path.points path) <? 2)%nat then best
  else fold_left (closer p) (segments (Path.points path)) best.

(** "Follow nearby paths". *)
Definition follow_paths (paths : list Path.t) (p : t) : outcome t :=
  if (0 <? List.length paths)%nat then
    match fold_left (closest_on_path p) paths None with
    | Some (closestDistance, (cx, cy)) =>
        if Rltb closestDistance 100 then
          obind (resolve_angle ["angleToPath"; "force"]%string)
            (fun angle_ =>
               let angleToPath := angle_ (x p) (y p) cx cy in
               let force := pathFollowForce p * (1 - closestDistance / 100) in
               Normal (with_speed (speedX p + cos angleToPath * force)
                                  (speedY p + sin angleToPath * force) p))
        else Normal p
    | None => Normal p
    end
  else Normal p.

(** One iteration of "Avoid obstacles". *)
Definition avoid (acc : outcome t) (o : Obstacle.t) : outcome t :=
  obind acc (fun p =>
    let dist := distance (x p) (y p) (Obstacle.x o) (Obstacle.y o) in
    if Rltb dist (Obstacle.radius o + 50) then
      obind (resolve_angle ["angleAway"; "force"]%string)
        (fun angle_ =>
           let angleAway := angle_ (Obstacle.x o) (Obstacle.y o) (x p) (y p) in
           let force := 2 * (1 - dist / (Obstacle.radius o + 50)) in
           Normal (with_speed (speedX p + cos angleAway * force)
                              (speedY p + sin angleAway * force) p))
    else Normal p).

Definition avoid_obstacles (obstacles : list Obstacle.t) (p : t)
  : outcome t :=
  fold_left avoid obstacles (Normal p).

(** Friction, position, trail and life: the end of [update]. *)
Definition integrate (p : t) : t :=
  let sx := speedX p * 0.98 in
  let sy := speedY p * 0.98 in
  let nx := x p + sx in
  let ny := y p + sy in
  let tr := trail p ++ [(nx, ny)] in
  let tr' := if (maxTrailLength p <? List.length tr)%nat then tl tr else tr in
  let l := life p - decay p in
  mk nx ny (size p) sx sy (color p) l (decay p) (gravity p) tr'
     (maxTrailLength p) (if Rleb l 0 then false else active p)
     (pathFollowForce p) (mass p).

Definition update (paths : list Path.t) (obstacles : list Obstacle.t)
  (p : t) : outcome t :=
  if negb (active p) then Normal p
  else
    let p1 := with_speed (speedX p) (speedY p + gravity p) p in
    obind (follow_paths paths p1) (fun p2 =>
    obind (avoid_obstacles obstacles p2) (fun p3 =>
    Normal (integrate p3))).

Definition isOutOfBounds (width height : R) (p : t) : bool :=
  Rltb (x p) (-50) || Rltb (width + 50) (x p) ||
  Rltb (y p) (-50) || Rltb (height + 50) (y p).

End Particle.

(* ================================================================= *)
(** ** The host: heap of particles, random tape, clock, time-outs *)

Definition addr : Type := nat.

(** What a tick does, in the order in which it does it.  The list is not
    a field of the program: it records the calls so that their order can be
    stated. *)
Inductive event : Type :=
| EvPhysics (a : addr)         (* [Particle.update] on the particle at [a] *)
| EvObstacleTest (a : addr)    (* an [Obstacle.checkCollision] at its position *)
| EvCollectionTest (a : addr)  (* a [CollectionPoint.checkCollision] *)
| EvPowerUpTest (a : addr)     (* a [PowerUp.checkCollision] *)
| EvPrune (a : addr)           (* the removal test of [Game.update] *)
| EvLevelCheck                 (* "Check if level is complete" *)
| EvGameOverCheck.             (* "Check if game is over" *)

Record Host : Type := mkHost {
  heap : list Particle.t;
  dice : Dice;
  clock : Z;                           (* [Date.now()], in milliseconds *)
  timers : list (Z * PowerUpType);     (* deadline and captured [type] of the
                                          callbacks given to [setTimeout] *)
  trace : list event
}.

Definition with_heap (hp : list Particle.t) (h : Host) : Host :=
  mkHost hp (dice h) (clock h) (timers h) (trace h).

Definition with_dice (d : Dice) (h : Host) : Host :=
  mkHost (heap h) d (clock h) (timers h) (trace h).

Definition with_timers (ts : list (Z * PowerUpType)) (h : Host) : Host :=
  mkHost (heap h) (dice h) (clock h) ts (trace h).

Definition with_clock (t : Z) (h : Host) : Host :=
  mkHost (heap h) (dice h) t (timers h) (trace h).

Definition log (ev : event) (h : Host) : Host :=
  mkHost (heap h) (dice h) (clock h) (timers h) (trace h ++ [ev]).

Definition load (a : addr) (h : Host) : option Particle.t :=
  nth_error (heap h) a.

Fixpoint list_set {A : Type} (l : list A) (i : nat) (v : A) : list A :=
  match l, i with
  | [], _ => []
  | _ :: tl, O => v :: tl
  | hd :: tl, S j => hd :: list_set tl j v
  end.

Definition store (a : addr) (p : Particle.t) (h : Host) : Host :=
  with_heap (list_set (heap h) a p) h.

Definition alloc (p : Particle.t) (h : Host) : addr * Host :=
  (List.length (heap h), with_heap (heap h ++ [p]) h).

(** [Math.random()]. *)
Definition roll (h : Host) : R * Host :=
  let (u, d) := draw (dice h) in (u, with_dice d h).

(** [array.splice(i, 1)]. *)
Definition splice {A : Type} (i : nat) (l : list A) : list A :=
  firstn i l ++ skipn (S i) l.

(* ================================================================= *)
(** ** ParticleEmitter *)

Module ParticleEmitter.

Record t : Type := mk {
  x : R;
  y : R;
  rate : R;                    (* particles per frame *)
  spread : R;
  speed : R;
  size : R * R;                (* min, max *)
  color : option string;
  life : R * R;                (* min, max *)
  gravity : R;
  active : bool;
  particles : list addr;
  maxParticles : Z;
  rateFraction : option R      (* [None]: the property does not exist yet *)
}.

Record options : Type := mkOptions {
  o_rate : option R;
  o_spread : option R;
  o_speed : option R;
  o_size : option (R * R);
  o_color : option string;
  o_life : option (R * R);
  o_maxParticles : option Z
}.

(** The constructor.  [gravity] and [active] are passed by no caller. *)
Definition new (x0 y0 : R) (o : options) (d : Dice) : t * Dice :=
  let (c, d') := js_or_color (o_color o) d in
  (mk x0 y0 (js_or (o_rate o) 5) (js_or (o_spread o) (PI / 4))
      (js_or (o_speed o) 2)
      (match o_size o with Some s => s | None => (2, 6) end)
      c
      (match o_life o with Some l => l | None => (0.5, 1) end)
      0 true [] (js_orZ (o_maxParticles o) 100) None,
   d').

Definition with_rateFraction (f : option R) (e : t) : t :=
  mk (x e) (y e) (rate e) (spread e) (speed e) (size e) (color e) (life e)
     (gravity e) (active e) (particles e) (maxParticles e) f.

Definition with_particles (ps : list addr) (e : t) : t :=
  mk (x e) (y e) (rate e) (spread e) (speed e) (size e) (color e) (life e)
     (gravity e) (active e) ps (maxParticles e) (rateFraction e).

(** The body of the creation loop of [emit], once. *)
Definition emit_one (e : t) (h : Host) : addr * t * Host :=
  let (u1, h1) := roll h in
  let angle := random_between u1 (- spread e / 2) (spread e / 2) in
  let (u2, h2) := roll h1 in
  let speed := speed e * random_between u2 0.8 1.2 in
  let (u3, h3) := roll h2 in
  let (u4, h4) := roll h3 in
  let (particle, d) :=
    Particle.new (x e) (y e)
      (Particle.mkOptions
         (Some (random_between u3 (fst (size e)) (snd (size e))))
         (Some (cos angle * speed))
         (Some (sin angle * speed))
         (color e)
         (Some (random_between u4 (fst (life e)) (snd (life e))))
         (Some (gravity e)))
      (dice h4) in
  let (a, h5) := alloc particle (with_dice d h4) in
  (a, with_particles (particles e ++ [a]) e, h5).

(** [for (let i = 0; i < particlesToCreate; i++)], [n] iterations left;
    [newParticles] is the accumulator. *)
Fixpoint emit_loop (n : nat) (newParticles : list addr) (e : t) (h : Host)
  : list addr * t * Host :=
  match n with
  | O => (newParticles, e, h)
  | S k =>
      if (maxParticles e <=? Z.of_nat (List.length (particles e)))%Z
      then (newParticles, e, h)
      else
        let '(a, e', h') := emit_one e h in
        emit_loop k (newParticles ++ [a]) e' h'
  end.

Definition emit (e : t) (h : Host) : outcome (list addr) * t * Host :=
  if negb (active e) then (Normal [], e, h)
  else
    let particlesToCreate := Math_floor (rate e) in
    let e1 := with_rateFraction (Some (js_or (rateFraction e) 0)) e in
    let f := js_or (rateFraction e) 0 + (rate e - IZR particlesToCreate) in
    let e2 := with_rateFraction (Some f) e1 in
    if Rleb 1 f then
      (* [particlesToCreate] is declared [const] *)
      match increment Const particlesToCreate with
      | Throw ex => (Throw ex, e2, h)
      | Normal n =>
          let e3 := with_rateFraction (Some (f - 1)) e2 in
          let '(l, e4, h') := emit_loop (Z.to_nat n) [] e3 h in
          (Normal l, e4, h')
      end
    else
      let '(l, e3, h') := emit_loop (Z.to_nat particlesToCreate) [] e2 h in
      (Normal l, e3, h').

(** [for (let i = this.particles.length - 1; i >= 0; i--)] of [update]:
    [i] is the number of indices still to visit, so the body runs at
    index [i - 1]. *)
Fixpoint update_from (i : nat) (paths : list Path.t)
  (obstacles : list Obstacle.t) (width height : R) (e : t) (h : Host)
  : outcome unit * t * Host :=
  match i with
  | O => (Normal tt, e, h)
  | S j =>
      match nth_error (particles e) j with
      | None => update_from j paths obstacles width height e h
      | Some a =>
          match load a h with
          | None => update_from j paths obstacles width height e h
          | Some p =>
              match Particle.update paths obstacles p with
              | Throw ex => (Throw ex, e, log (EvPhysics a) h)
              | Normal p' =>
                  let h' := store a p' (log (EvPhysics a) h) in
                  let e' :=
                    if negb (Particle.active p')
                       || Particle.isOutOfBounds width height p'
                    then with_particles (splice j (particles e)) e
                    else e in
                  update_from j paths obstacles width height e' h'
              end
          end
      end
  end.

Definition update (paths : list Path.t) (obstacles : list Obstacle.t)
  (width height : R) (e : t) (h : Host) : outcome unit * t * Host :=
  update_from (List.length (particles e)) paths obstacles width height e h.

End ParticleEmitter.

(* ================================================================= *)
(** ** InputHandler: the paths that the engine reads *)

Module InputHandler.

Record t : Type := mk {
  paths : list (Path.t * Z);     (* a path and the [timestamp] of its start *)
  maxPaths : nat;
  pathLifetime : Z               (* milliseconds *)
}.

Definition new : t := mk [] 5 3000.

(** [update]: drop the paths older than [pathLifetime], refresh the
    [life] of the others. *)
Definition update (now : Z) (i : t) : t :=
  mk (map (fun po : Path.t * Z =>
             (Path.with_life
                (1 - IZR (now - snd po) / IZR (pathLifetime i)) (fst po),
              snd po))
          (filter (fun po : Path.t * Z =>
                     negb (pathLifetime i <? now - snd po)%Z) (paths i)))
     (maxPaths i) (pathLifetime i).

Definition getActivePaths (i : t) : list Path.t := map fst (paths i).

Definition clearPaths (i : t) : t := mk [] (maxPaths i) (pathLifetime i).

End InputHandler.

(* ================================================================= *)
(** ** InputHandler: the strokes of the player *)

(** The handler with its event handlers.  [currentPath] and an entry of
    [paths] are one [Path] object, which [handleMove] changes through the
    first and the engine reads through the second: the [Path] objects
    live in a store and the fields hold their addresses. *)
Module Drawing.

Record t : Type := mk {
  store : list Path.t;           (* the Path objects created so far *)
  paths : list (nat * Z);        (* [this.paths]: path and [timestamp] *)
  isDrawing : bool;
  currentPath : option nat;      (* [None] is [null] *)
  maxPaths : nat;
  pathLifetime : Z               (* milliseconds *)
}.

Definition new : t := mk [] [] false None 5 3000.

Definition with_store (v : list Path.t) (s : t) : t :=
  mk v (paths s) (isDrawing s) (currentPath s) (maxPaths s) (pathLifetime s).

Definition with_paths (v : list (nat * Z)) (s : t) : t :=
  mk (store s) v (isDrawing s) (currentPath s) (maxPaths s) (pathLifetime s).

(** The object at an address.  An address that the handler holds is
    always in the store; the default is for the other ones. *)
Definition path_at (s : t) (a : nat) : Path.t :=
  nth a (store s) (Path.mk [] 0 0 0 false).

(** [handleStart(e)] at the time [now]; ([x], [y]) is the place of the
    event on the canvas and [isPlaying] the flag of the game. *)
Definition handleStart (isPlaying : bool) (x y : R) (now : Z) (s : t) : t :=
  if negb isPlaying then s
  else
    let path :=
      Path.addPoint x y (Path.new (Path.mkOptions None None (Some 0.003))) in
    let a := List.length (store s) in
    let pushed := paths s ++ [(a, now)] in
    mk (store s ++ [path])
       (if (maxPaths s <? List.length pushed)%nat then tl pushed else pushed)
       true (Some a) (maxPaths s) (pathLifetime s).

Definition handleMove (x y : R) (s : t) : t :=
  if negb (isDrawing s) then s
  else
    match currentPath s with
    | None => s
    | Some a =>
        with_store (list_set (store s) a (Path.addPoint x y (path_at s a))) s
    end.

Definition handleEnd (s : t) : t :=
  mk (store s) (paths s) false None (maxPaths s) (pathLifetime s).

(** The loop of [update], from the last entry down: [i] entries are
    still to visit. *)
Fixpoint update_from (i : nat) (now : Z) (s : t) : t :=
  match i with
  | O => s
  | S j =>
      match nth_error (paths s) j with
      | None => update_from j now s
      | Some (a, timestamp) =>
          let age := (now - timestamp)%Z in
          if (pathLifetime s <? age)%Z
          then update_from j now (with_paths (splice j (paths s)) s)
          else
            update_from j now
              (with_store
                 (list_set (store s) a
                    (Path.with_life (1 - IZR age / IZR (pathLifetime s))
                                    (path_at s a)))
                 s)
      end
  end.

Definition update (now : Z) (s : t) : t :=
  update_from (List.length (paths s)) now s.

Definition getActivePaths (s : t) : list Path.t :=
  map (fun e => path_at s (fst e)) (paths s).

Definition clearPaths (s : t) : t :=
  mk (store s) [] false None (maxPaths s) (pathLifetime s).

(** What the engine reads of the handler. *)
Definition view (s : t) : InputHandler.t :=
  InputHandler.mk (map (fun e => (path_at s (fst e), snd e)) (paths s))
                  (maxPaths s) (pathLifetime s).

End Drawing.

(* ================================================================= *)
(** ** Game *)

Module Game.

(** [activePowerUps]: one flag per type. *)
Record ActivePowerUps : Type := mkActive {
  a_timeSlow : bool;
  a_magnet : bool;
  a_shield : bool;
  a_multiplier : bool
}.

Definition no_powerUps : ActivePowerUps := mkActive false false false false.

(** [activePowerUps[type]]. *)
Definition get_active (ty : PowerUpType) (a : ActivePowerUps) : bool :=
  match ty with
  | timeSlow => a_timeSlow a
  | magnet => a_magnet a
  | shield => a_shield a
  | multiplier => a_multiplier a
  end.

(** [activePowerUps[type] = b]. *)
Definition set_active (ty : PowerUpType) (b : bool) (a : ActivePowerUps)
  : ActivePowerUps :=
  match ty with
  | timeSlow => mkActive b (a_magnet a) (a_shield a) (a_multiplier a)
  | magnet => mkActive (a_timeSlow a) b (a_shield a) (a_multiplier a)
  | shield => mkActive (a_timeSlow a) (a_magnet a) b (a_multiplier a)
  | multiplier => mkActive (a_timeSlow a) (a_magnet a) (a_shield a) b
  end.

Record t : Type := mk {
  input : InputHandler.t;
  isPlaying : bool;
  isPaused : bool;
  score : Z;
  level : Z;
  emitters : list ParticleEmitter.t;
  obstacles : list Obstacle.t;
  collectionPoints : list CollectionPoint.t;
  powerUps : list PowerUp.t;
  particles : list addr;
  activePowerUps : ActivePowerUps;
  particleSpeed : R;
  spawnRate : R;
  obstacleCount : Z;
  collectionPointCount : Z;
  powerUpChance : R;          (* chance per frame to spawn a power-up *)
  width : R;                  (* [canvas.width] *)
  height : R                  (* [canvas.height] *)
}.

(** The constructor, for a window of the given size. *)
Definition new (w h : R) : t :=
  mk InputHandler.new false false 0 1 [] [] [] [] [] no_powerUps
     1 1 3 3 0.01 w h.

Definition with_input (v : InputHandler.t) (g : t) : t :=
  mk v (isPlaying g) (isPaused g) (score g) (level g) (emitters g)
     (obstacles g) (collectionPoints g) (powerUps g) (particles g)
     (activePowerUps g) (particleSpeed g) (spawnRate g) (obstacleCount g)
     (collectionPointCount g) (powerUpChance g) (width g) (height g).

Definition with_isPlaying (v : bool) (g : t) : t :=
  mk (input g) v (isPaused g) (score g) (level g) (emitters g)
     (obstacles g) (collectionPoints g) (powerUps g) (particles g)
     (activePowerUps g) (particleSpeed g) (spawnRate g) (obstacleCount g)
     (collectionPointCount g) (powerUpChance g) (width g) (height g).

Definition with_score (v : Z) (g : t) : t :=
  mk (input g) (isPlaying g) (isPaused g) v (level g) (emitters g)
     (obstacles g) (collectionPoints g) (powerUps g) (particles g)
     (activePowerUps g) (particleSpeed g) (spawnRate g) (obstacleCount g)
     (collectionPointCount g) (powerUpChance g) (width g) (height g).

Definition with_level (v : Z) (g : t) : t :=
  mk (input g) (isPlaying g) (isPaused g) (score g) v (emitters g)
     (obstacles g) (collectionPoints g) (powerUps g) (particles g)
     (activePowerUps g) (particleSpeed g) (spawnRate g) (obstacleCount g)
     (collectionPointCount g) (powerUpChance g) (width g) (height g).

Definition with_emitters (v : list ParticleEmitter.t) (g : t) : t :=
  mk (input g) (isPlaying g) (isPaused g) (score g) (level g) v
     (obstacles g) (collectionPoints g) (powerUps g) (particles g)
     (activePowerUps g) (particleSpeed g) (spawnRate g) (obstacleCount g)
     (collectionPointCount g) (powerUpChance g) (width g) (height g).

Definition with_obstacles (v : list Obstacle.t) (g : t) : t :=
  mk (input g) (isPlaying g) (isPaused g) (score g) (level g) (emitters g)
     v (collectionPoints g) (powerUps g) (particles g)
     (activePowerUps g) (particleSpeed g) (spawnRate g) (obstacleCount g)
     (collectionPointCount g) (powerUpChance g) (width g) (height g).

Definition with_collectionPoints (v : list CollectionPoint.t) (g : t) : t :=
  mk (input g) (isPlaying g) (isPaused g) (score g) (level g) (emitters g)
     (obstacles g) v (powerUps g) (particles g)
     (activePowerUps g) (particleSpeed g) (spawnRate g) (obstacleCount g)
     (collectionPointCount g) (powerUpChance g) (width g) (height g).

Definition with_powerUps (v : list PowerUp.t) (g : t) : t :=
  mk (input g) (isPlaying g) (isPaused g) (score g) (level g) (emitters g)
     (obstacles g) (collectionPoints g) v (particles g)
     (activePowerUps g) (particleSpeed g) (spawnRate g) (obstacleCount g)
     (collectionPointCount g) (powerUpChance g) (width g) (height g).

Definition with_particles (v : list addr) (g : t) : t :=
  mk (input g) (isPlaying g) (isPaused g) (score g) (level g) (emitters g)
     (obstacles g) (collectionPoints g) (powerUps g) v
     (activePowerUps g) (particleSpeed g) (spawnRate g) (obstacleCount g)
     (collectionPointCount g) (powerUpChance g) (width g) (height g).

Definition with_activePowerUps (v : ActivePowerUps) (g : t) : t :=
  mk (input g) (isPlaying g) (isPaused g) (score g) (level g) (emitters g)
     (obstacles g) (collectionPoints g) (powerUps g) (particles g)
     v (particleSpeed g) (spawnRate g) (obstacleCount g)
     (collectionPointCount g) (powerUpChance g) (width g) (height g).

(** The three difficulty settings that [nextLevel] changes. *)
Definition with_difficulty (ps sr pc : R) (g : t) : t :=
  mk (input g) (isPlaying g) (isPaused g) (score g) (level g) (emitters g)
     (obstacles g) (collectionPoints g) (powerUps g) (particles g)
     (activePowerUps g) ps sr (obstacleCount g)
     (collectionPointCount g) pc (width g) (height g).

(* ----------------------------------------------------------------- *)
(** *** createLevel *)

(** The [for ... of this.emitters] test of the placement loops: no
    emitter is closer than [d]. *)
Definition far_from_emitters (d : R) (es : list ParticleEmitter.t)
  (x y : R) : bool :=
  forallb (fun e => negb (Rltb (distance x y (ParticleEmitter.x e)
                                         (ParticleEmitter.y e)) d)) es.

Definition far_from_obstacles (os : list Obstacle.t) (x y : R) : bool :=
  forallb (fun o => negb (Rltb (distance x y (Obstacle.x o) (Obstacle.y o))
                               (Obstacle.radius o + 50))) os.

Definition far_from_points (cs : list CollectionPoint.t) (x y : R) : bool :=
  forallb (fun c => negb (negb (CollectionPoint.collected c)
                          && Rltb (distance x y (CollectionPoint.x c)
                                            (CollectionPoint.y c))
                                  (CollectionPoint.radius c + 50))) cs.

(** [while (!validPosition && attempts < 50)]: [left] is [50 - attempts].
    The result is the last [x], [y] drawn when the loop ends with
    [validPosition] true, and [None] when it ends with it false. *)
Fixpoint find_position (valid : R -> R -> bool) (left : nat) (w h : R)
  (hst : Host) : option point * Host :=
  match left with
  | O => (None, hst)
  | S k =>
      let (u1, h1) := roll hst in
      let x := random_between u1 50 (w - 50) in
      let (u2, h2) := roll h1 in
      let y := random_between u2 50 (h - 50) in
      if valid x y then (Some (x, y), h2)
      else find_position valid k w h h2
  end.

(** The body of the emitter loop for index [i]. *)
Definition create_emitter (emitterCount : Z) (i : nat) (g : t) (h : Host)
  : t * Host :=
  let angle := (INR i / IZR emitterCount) * PI * 2 in
  let distance := Rmin (width g) (height g) * 0.3 in
  let x := width g / 2 + cos angle * distance in
  let y := height g / 2 + sin angle * distance in
  let (u, h1) := roll h in
  let (emitter, d) :=
    ParticleEmitter.new x y
      (ParticleEmitter.mkOptions
         (Some (spawnRate g * (1 + IZR (level g) * 0.2)))
         (Some (PI / 3))
         (Some (particleSpeed g * (1 + IZR (level g) * 0.1)))
         (Some (2, 4 + IZR (level g) * 0.2))
         (getRandomColor u)
         (Some (0.7, 1))
         (Some (100 + level g * 10)%Z))
      (dice h1) in
  (with_emitters (emitters g ++ [emitter]) g, with_dice d h1).

(** The body of the obstacle loop. *)
Definition create_obstacle (g : t) (h : Host) : t * Host :=
  let (pos, h1) :=
    find_position (far_from_emitters 150 (emitters g)) 50
                  (width g) (height g) h in
  match pos with
  | Some (x, y) =>
      let (u1, h2) := roll h1 in
      let (u2, h3) := roll h2 in
      let (u3, h4) := roll h3 in
      let (obstacle, d) :=
        Obstacle.new x y
          (Obstacle.mkOptions (Some (random_between u1 20 40))
                              (Some (random_between u2 0.03 0.07))
                              (Some (random_between u3 0.1 0.3)))
          (dice h4) in
      (with_obstacles (obstacles g ++ [obstacle]) g, with_dice d h4)
  | None => (g, h1)
  end.

(** The body of the collection-point loop. *)
Definition create_collectionPoint (g : t) (h : Host) : t * Host :=
  let (pos, h1) :=
    find_position
      (fun x y => far_from_emitters 100 (emitters g) x y
                  && far_from_obstacles (obstacles g) x y)
      50 (width g) (height g) h in
  match pos with
  | Some (x, y) =>
      let value := (10 * (1 + level g / 2))%Z in
      let (u1, h2) := roll h1 in
      let (u2, h3) := roll h2 in
      let (collectionPoint, d) :=
        CollectionPoint.new x y
          (CollectionPoint.mkOptions (Some (15 + IZR (level g)))
                                     (Some value)
                                     (Some (random_between u1 0.03 0.07))
                                     (Some (random_between u2 0.2 0.4)))
          (dice h3) in
      (with_collectionPoints (collectionPoints g ++ [collectionPoint]) g,
       with_dice d h3)
  | None => (g, h1)
  end.

(** [n] runs of a loop body that only reads and writes the state. *)
Fixpoint repeat_body (body : t -> Host -> t * Host) (n : nat)
  (g : t) (h : Host) : t * Host :=
  match n with
  | O => (g, h)
  | S k => let (g', h') := body g h in repeat_body body k g' h'
  end.

(** The same for a body that reads the loop index. *)
Fixpoint for_index (body : nat -> t -> Host -> t * Host) (i n : nat)
  (g : t) (h : Host) : t * Host :=
  match n with
  | O => (g, h)
  | S k => let (g', h') := body i g h in for_index body (S i) k g' h'
  end.

Definition createLevel (g : t) (h : Host) : t * Host :=
  let emitterCount := Z.min (1 + level g / 3) 3 in
  let (g1, h1) :=
    for_index (create_emitter emitterCount) 0 (Z.to_nat emitterCount) g h in
  let obstacleCount := (obstacleCount g1 + level g1 / 2)%Z in
  let (g2, h2) :=
    repeat_body create_obstacle (Z.to_nat obstacleCount)
                (with_obstacles [] g1) h1 in
  let collectionPointCount := (collectionPointCount g2 + level g2 / 3)%Z in
  repeat_body create_collectionPoint (Z.to_nat collectionPointCount)
              (with_collectionPoints [] g2) h2.

(* ----------------------------------------------------------------- *)
(** *** Power-ups, levels, start and end *)

Definition types : list PowerUpType := [timeSlow; magnet; shield; multiplier].

(** [spawnPowerUp].  [Math.random()] is below 1, so [randomInt] stays
    within [types]; the default of [nth] is for the other tapes. *)
Definition spawnPowerUp (g : t) (h : Host) : t * Host :=
  let (u, h0) := roll h in
  let type :=
    nth (Z.to_nat (randomInt u 0 (Z.of_nat (List.length types) - 1)))
        types timeSlow in
  let (pos, h1) :=
    find_position
      (fun x y => far_from_emitters 100 (emitters g) x y
                  && far_from_obstacles (obstacles g) x y
                  && far_from_points (collectionPoints g) x y)
      50 (width g) (height g) h0 in
  match pos with
  | Some (x, y) =>
      let (powerUp, d) :=
        PowerUp.new x y type
          (PowerUp.mkOptions None (Some (5000 + level g * 500)%Z) None None)
          (dice h1) in
      (with_powerUps (powerUps g ++ [powerUp]) g, with_dice d h1)
  | None => (g, h1)
  end.

(** [activatePowerUp(type, duration)]: the flag is set and a callback that
    clears it is handed to [setTimeout]; nothing is cancelled. *)
Definition activatePowerUp (type : PowerUpType) (duration : Z)
  (g : t) (h : Host) : t * Host :=
  (with_activePowerUps (set_active type true (activePowerUps g)) g,
   with_timers (timers h ++ [((clock h + duration)%Z, type)]) h).

(** The host runs the time-out callbacks whose deadline has come, each one
    once: [this.activePowerUps[type] = false]. *)
Definition fire_timers (g : t) (h : Host) : t * Host :=
  let due := filter (fun tm : Z * PowerUpType => (fst tm <=? clock h)%Z)
                    (timers h) in
  let pending := filter (fun tm : Z * PowerUpType =>
                           negb (fst tm <=? clock h)%Z) (timers h) in
  (with_activePowerUps
     (fold_left (fun a tm => set_active (snd tm) false a) due
                (activePowerUps g)) g,
   with_timers pending h).

(** Time passes until [now] and the callbacks that are due run. *)
Definition advance (now : Z) (g : t) (h : Host) : t * Host :=
  fire_timers g (with_clock now h).

Definition nextLevel (g : t) (h : Host) : t * Host :=
  let g1 := with_level (level g + 1)%Z g in
  let g2 := with_difficulty (particleSpeed g1 * 1.1) (spawnRate g1 * 1.1)
                            (Rmin (powerUpChance g1 * 1.05) 0.05) g1 in
  let (g3, h3) := createLevel g2 h in
  (with_score (score g3 + 100 * level g3)%Z g3, h3).

(** [endGame], without the stored high score and the screens. *)
Definition endGame (g : t) : t := with_isPlaying false g.

(** [start], up to the first call of the game loop. *)
Definition start (g : t) (h : Host) : t * Host :=
  if isPlaying g then (g, h)
  else
    createLevel
      (mk (InputHandler.clearPaths (input g)) true false 0 1 [] [] [] [] []
          no_powerUps 1 1 (obstacleCount g) (collectionPointCount g)
          (powerUpChance g) (width g) (height g))
      h.

(* ----------------------------------------------------------------- *)
(** *** update: the tick *)

(** "Update emitters and create new particles": the loop over
    [this.emitters]; [done] are the emitters already visited. *)
Fixpoint update_emitters (paths : list Path.t)
  (done todo : list ParticleEmitter.t) (g : t) (h : Host)
  : outcome unit * t * Host :=
  match todo with
  | [] => (Normal tt, with_emitters done g, h)
  | emitter :: rest =>
      let '(r, e1, h1) := ParticleEmitter.emit emitter h in
      match r with
      | Throw ex => (Throw ex, with_emitters (done ++ e1 :: rest) g, h1)
      | Normal newParticles =>
          let g1 := with_particles (particles g ++ newParticles) g in
          let '(r2, e2, h2) :=
            ParticleEmitter.update paths (obstacles g1) (width g1)
                                   (height g1) e1 h1 in
          match r2 with
          | Throw ex => (Throw ex, with_emitters (done ++ e2 :: rest) g1, h2)
          | Normal _ => update_emitters paths (done ++ [e2]) rest g1 h2
          end
      end
  end.

(** "Find closest collection point": one iteration; [None] is the initial
    [null] with [Infinity]. *)
Definition nearest (p : Particle.t) (best : option (R * CollectionPoint.t))
  (pt : CollectionPoint.t) : option (R * CollectionPoint.t) :=
  if negb (CollectionPoint.collected pt) then
    let dist := distance (Particle.x p) (Particle.y p)
                         (CollectionPoint.x pt) (CollectionPoint.y pt) in
    match best with
    | None => Some (dist, pt)
    | Some (closestDistance, _) =>
        if Rltb dist closestDistance then Some (dist, pt) else best
    end
  else best.

(** "Apply magnet effect if active": the block under
    [if (this.activePowerUps.magnet)].  Its inner block declares
    [const angle = angle(...)] and [const force]. *)
Definition magnet_effect (points : list CollectionPoint.t) (p : Particle.t)
  : outcome Particle.t :=
  match fold_left (nearest p) points None with
  | Some (closestDistance, closestPoint) =>
      if Rltb closestDistance 200 then
        obind (resolve_angle ["angle"; "force"]%string)
          (fun angle_ =>
             let angle := angle_ (Particle.x p) (Particle.y p)
                                 (CollectionPoint.x closestPoint)
                                 (CollectionPoint.y closestPoint) in
             let force := 0.2 * (1 - closestDistance / 200) in
             Normal (Particle.with_speed
                       (Particle.speedX p + cos angle * force)
                       (Particle.speedY p + sin angle * force) p))
      else Normal p
  | None => Normal p
  end.

(** "Apply time slow effect if active". *)
Definition time_slow (a : ActivePowerUps) (p : Particle.t) : Particle.t :=
  let speedMultiplier := if a_timeSlow a then 0.5 else 1 in
  Particle.with_speed (Particle.speedX p * speedMultiplier)
                      (Particle.speedY p * speedMultiplier) p.

(** "Check collision with obstacles": true when one is hit, at which the
    loop breaks. *)
Fixpoint obstacle_tests (a : addr) (px py : R) (os : list Obstacle.t)
  (h : Host) : bool * Host :=
  match os with
  | [] => (false, h)
  | obstacle :: rest =>
      let h' := log (EvObstacleTest a) h in
      if Obstacle.checkCollision px py obstacle then (true, h')
      else obstacle_tests a px py rest h'
  end.

(** "Check collision with collection points": the points afterwards and
    the score afterwards. *)
Fixpoint collection_tests (a : addr) (px py : R) (mult : bool)
  (cs : list CollectionPoint.t) (score : Z) (h : Host)
  : list CollectionPoint.t * Z * Host :=
  match cs with
  | [] => ([], score, h)
  | point :: rest =>
      let h' := log (EvCollectionTest a) h in
      if CollectionPoint.checkCollision px py point then
        let (value, point') := CollectionPoint.collect point in
        let scoreGain := if mult then (value * 2)%Z else value in
        let '(rest', s', h'') :=
          collection_tests a px py mult rest (score + scoreGain)%Z h' in
        (point' :: rest', s', h'')
      else
        let '(rest', s', h'') :=
          collection_tests a px py mult rest score h' in
        (point :: rest', s', h'')
  end.

(** "Check collision with power-ups": [done] are the power-ups already
    visited. *)
Fixpoint powerUp_tests (a : addr) (px py : R) (done todo : list PowerUp.t)
  (g : t) (h : Host) : t * Host :=
  match todo with
  | [] => (with_powerUps done g, h)
  | powerUp :: rest =>
      let h' := log (EvPowerUpTest a) h in
      if PowerUp.checkCollision px py powerUp then
        let (powerUpData, powerUp') := PowerUp.collect powerUp in
        match powerUpData with
        | Some (type, duration) =>
            let (g', h'') := activatePowerUp type duration g h' in
            powerUp_tests a px py (done ++ [powerUp']) rest g' h''
        | None => powerUp_tests a px py (done ++ [powerUp']) rest g h'
        end
      else powerUp_tests a px py (done ++ [powerUp]) rest g h'
  end.

(** The body of "Update particles" at index [i]. *)
Definition update_particle (paths : list Path.t) (i : nat) (g : t)
  (h : Host) : outcome unit * t * Host :=
  match nth_error (particles g) i with
  | None => (Normal tt, g, h)
  | Some a =>
      match load a h with
      | None => (Normal tt, g, h)
      | Some particle =>
          let p1 := time_slow (activePowerUps g) particle in
          match (if a_magnet (activePowerUps g)
                 then magnet_effect (collectionPoints g) p1
                 else Normal p1) with
          | Throw ex => (Throw ex, g, store a p1 h)
          | Normal p2 =>
              match Particle.update paths (obstacles g) p2 with
              | Throw ex => (Throw ex, g, log (EvPhysics a) (store a p2 h))
              | Normal p3 =>
                  let h1 := log (EvPhysics a) (store a p3 h) in
                  let (hit, h2) :=
                    if negb (a_shield (activePowerUps g))
                    then obstacle_tests a (Particle.x p3) (Particle.y p3)
                                        (obstacles g) h1
                    else (false, h1) in
                  let p4 := if hit then Particle.with_active false p3
                            else p3 in
                  let '(cs, s, h3) :=
                    collection_tests a (Particle.x p4) (Particle.y p4)
                      (a_multiplier (activePowerUps g))
                      (collectionPoints g) (score g) (store a p4 h2) in
                  let g1 := with_score s (with_collectionPoints cs g) in
                  let (g2, h4) :=
                    powerUp_tests a (Particle.x p4) (Particle.y p4) []
                                  (powerUps g1) g1 h3 in
                  let h5 := log (EvPrune a) h4 in
                  let g3 :=
                    if negb (Particle.active p4)
                       || Particle.isOutOfBounds (width g2) (height g2) p4
                    then with_particles (splice i (particles g2)) g2
                    else g2 in
                  (Normal tt, g3, h5)
              end
          end
      end
  end.

(** [for (let i = this.particles.length - 1; i >= 0; i--)]: [n] indices
    are still to visit, the next one is [n - 1]. *)
Fixpoint update_particles (paths : list Path.t) (n : nat) (g : t)
  (h : Host) : outcome unit * t * Host :=
  match n with
  | O => (Normal tt, g, h)
  | S i =>
      let '(r, g', h') := update_particle paths i g h in
      match r with
      | Throw ex => (Throw ex, g', h')
      | Normal _ => update_particles paths i g' h'
      end
  end.

(** "Update obstacles", "Update collection points", "Update power-ups". *)
Definition update_entities (g : t) : t :=
  let g1 := with_obstacles (map Obstacle.update (obstacles g)) g in
  let g2 := with_collectionPoints
              (map CollectionPoint.update (collectionPoints g1)) g1 in
  with_powerUps
    (filter (fun p => negb (negb (PowerUp.active p) || PowerUp.collected p))
            (map PowerUp.update (powerUps g2)))
    g2.

(** "Randomly spawn power-ups": [if (random() < this.powerUpChance)].
    The call passes no argument to [random]. *)
Definition spawn_test (u : R) (g : t) : bool :=
  jsnum_lt (random u None None) (Num (powerUpChance g)).

Definition maybe_spawn (g : t) (h : Host) : t * Host :=
  let (u, h1) := roll h in
  if spawn_test u g then spawnPowerUp g h1 else (g, h1).

(** The test of "Check if level is complete". *)
Definition level_complete (g : t) : bool :=
  forallb CollectionPoint.collected (collectionPoints g).

Definition check_level (g : t) (h : Host) : t * Host :=
  let h1 := log EvLevelCheck h in
  if level_complete g then nextLevel g h1 else (g, h1).

(** "Check if game is over". *)
Definition canCreateParticles (g : t) : bool :=
  existsb (fun e => ParticleEmitter.active e
                    && (Z.of_nat (List.length (ParticleEmitter.particles e))
                        <? ParticleEmitter.maxParticles e)%Z)
          (emitters g).

Definition check_gameOver (g : t) (h : Host) : t * Host :=
  let h1 := log EvGameOverCheck h in
  if (List.length (particles g) =? 0)%nat then
    if negb (canCreateParticles g) then (endGame g, h1) else (g, h1)
  else (g, h1).

(** What follows the particle loop. *)
Definition finish_tick (g : t) (h : Host) : t * Host :=
  let g1 := update_entities g in
  let (g2, h2) := maybe_spawn g1 h in
  let (g3, h3) := check_level g2 h2 in
  check_gameOver g3 h3.

Definition update (g : t) (h : Host) : outcome unit * t * Host :=
  if negb (isPlaying g) || isPaused g then (Normal tt, g, h)
  else
    let g0 := with_input (InputHandler.update (clock h) (input g)) g in
    let paths := InputHandler.getActivePaths (input g0) in
    let '(r1, g1, h1) := update_emitters paths [] (emitters g0) g0 h in
    match r1 with
    | Throw ex => (Throw ex, g1, h1)
    | Normal _ =>
        let '(r2, g2, h2) :=
          update_particles paths (List.length (particles g1)) g1 h1 in
        match r2 with
        | Throw ex => (Throw ex, g2, h2)
        | Normal _ =>
            let (g3, h3) := finish_tick g2 h2 in
            (Normal tt, g3, h3)
        end
    end.

(* ----------------------------------------------------------------- *)
(** *** The game loop, pause and restart *)

Definition with_isPaused (v : bool) (g : t) : t :=
  mk (input g) (isPlaying g) v (score g) (level g) (emitters g)
     (obstacles g) (collectionPoints g) (powerUps g) (particles g)
     (activePowerUps g) (particleSpeed g) (spawnRate g) (obstacleCount g)
     (collectionPointCount g) (powerUpChance g) (width g) (height g).

(** The names under which a [Game] object holds a value: the properties
    that the constructor assigns, and the methods of the class.  No other
    code adds a property to the object. *)
Definition own_properties : list string :=
  [ "canvas"; "ctx"; "input"; "ui"; "isPlaying"; "isPaused"; "score";
    "level"; "soundEnabled"; "emitters"; "obstacles"; "collectionPoints";
    "powerUps"; "particles"; "activePowerUps"; "particleSpeed";
    "spawnRate"; "obstacleCount"; "collectionPointCount";
    "powerUpChance" ]%string.

Definition methods : list string :=
  [ "setupEventListeners"; "resizeCanvas"; "start"; "createLevel";
    "togglePause"; "restart"; "endGame"; "update"; "spawnPowerUp";
    "activatePowerUp"; "nextLevel"; "draw"; "gameLoop" ]%string.

(** [this.name.textContent = ...]: [this.name] is [undefined] when the
    object has nothing under [name], and setting a property of
    [undefined] throws. *)
Definition set_textContent_of (name : string) : outcome unit :=
  if existsb (String.eqb name) (own_properties ++ methods) then Normal tt
  else Throw TypeError.

(** What happens between two frames: the player draws, which leaves the
    input handler in the state [inp], and time passes until [now], at
    which the time-outs that are due have run. *)
Definition between_frames (inp : InputHandler.t) (now : Z) (g : t)
  (h : Host) : t * Host :=
  advance now (with_input inp g) h.

Section Loop.

(** [draw()] paints the canvas and changes nothing of the game. *)
Variable draw : t -> Host -> outcome unit.

(** [gameLoop()]; the boolean says whether the call has come to
    [requestAnimationFrame], which asks for the next call. *)
Definition gameLoop (g : t) (h : Host) : outcome bool * t * Host :=
  if negb (isPlaying g) || isPaused g then (Normal false, g, h)
  else
    let '(r, g', h') := update g h in
    match r with
    | Throw ex => (Throw ex, g', h')
    | Normal _ =>
        match draw g' h' with
        | Throw ex => (Throw ex, g', h')
        | Normal _ => (Normal true, g', h')
        end
    end.

(** [togglePause()]; the boolean says whether the call has come to the
    end, where it starts the game loop again when the game is not
    paused. *)
Definition togglePause (g : t) (h : Host) : outcome bool * t * Host :=
  if negb (isPlaying g) then (Normal false, g, h)
  else
    let g1 := with_isPaused (negb (isPaused g)) g in
    match set_textContent_of "pauseButton" with
    | Throw ex => (Throw ex, g1, h)
    | Normal _ =>
        if negb (isPaused g1) then
          let '(r, g2, h2) := gameLoop g1 h in
          match r with
          | Throw ex => (Throw ex, g2, h2)
          | Normal _ => (Normal true, g2, h2)
          end
        else (Normal true, g1, h)
    end.

End Loop.

(** [restart()]. *)
Definition restart (g : t) (h : Host) : t * Host := start g h.

End Game.

(* ================================================================= *)
(** * Notions and scenarios of the statements *)

(** ** Hosts *)

(** A tape on which [Math.random()] always returns 0, and a host with
    nothing else in it. *)
Definition quiet_dice : Dice := mkDice (fun _ => 0) 0.

Definition empty_host : Host := mkHost [] quiet_dice 0 [] [].

(** [h'] is [h] with the random tape read further: same heap, clock,
    time-outs and trace. *)
Definition dice_only (h h' : Host) : Prop :=
  exists d : Dice, h' = with_dice d h.

(** Several events logged one after the other. *)
Definition logs (evs : list event) (h : Host) : Host :=
  mkHost (heap h) (dice h) (clock h) (timers h) (trace h ++ evs).

(** ** Emission *)

(** The remainder that a call of [emit] computes before its test. *)
Definition carried (e : ParticleEmitter.t) : R :=
  js_or (ParticleEmitter.rateFraction e) 0
  + (ParticleEmitter.rate e - IZR (Math_floor (ParticleEmitter.rate e))).

(** The state of an emitter and of the host after [n] calls of [emit],
    whether they returned or threw. *)
Fixpoint after_emits (n : nat) (e : ParticleEmitter.t) (h : Host)
  : ParticleEmitter.t * Host :=
  match n with
  | O => (e, h)
  | S k =>
      let '(_, e', h') := ParticleEmitter.emit e h in after_emits k e' h'
  end.

(** An emitter of one and a half particles per frame that has emitted
    once: its carried remainder is one half. *)
Definition emitter_after_one_call : ParticleEmitter.t :=
  ParticleEmitter.mk 0 0 1.5 (PI / 4) 2 (2, 6) (Some "#FF5252"%string)
                     (0.5, 1) 0 true [] 100 (Some 0.5).

(** ** Power-up pickups *)

(** One type of power-up is picked up at time [t1] with a payload of [d1]
    milliseconds and again at [t2] with [d2]; the state at time [t]. *)
Definition two_pickups (ty : PowerUpType) (t1 d1 t2 d2 t : Z)
  (g : Game.t) (h : Host) : Game.t * Host :=
  let (g1, h1) := Game.advance t1 g h in
  let (g2, h2) := Game.activatePowerUp ty d1 g1 h1 in
  let (g3, h3) := Game.advance t2 g2 h2 in
  let (g4, h4) := Game.activatePowerUp ty d2 g3 h3 in
  Game.advance t g4 h4.

(** ** Level generation *)

(** What the constructor call of [createLevel] gives a new emitter. *)
Definition fresh_emitter (level : Z) (e : ParticleEmitter.t) : Prop :=
  ParticleEmitter.active e = true /\
  ParticleEmitter.particles e = [] /\
  ParticleEmitter.maxParticles e = js_orZ (Some (100 + level * 10)%Z) 100.

(** An obstacle stands clear of the emitters [es]. *)
Definition clear_of_emitters (es : list ParticleEmitter.t) (o : Obstacle.t)
  : Prop :=
  forall e, In e es ->
    150 <= distance (Obstacle.x o) (Obstacle.y o)
                    (ParticleEmitter.x e) (ParticleEmitter.y e).

(** What [createLevel] gives a new collection point. *)
Definition fresh_point (level : Z) (c : CollectionPoint.t) : Prop :=
  CollectionPoint.collected c = false /\
  CollectionPoint.value c = js_orZ (Some (10 * (1 + level / 2))%Z) 10.


(** What holds of every game from [start] on: the level is positive and
    no collection point has a negative value. *)
Definition well_formed (g : Game.t) : Prop :=
  (1 <= Game.level g)%Z /\
  Forall (fun c => (0 <= CollectionPoint.value c)%Z)
         (Game.collectionPoints g).

(** ** The particle loop *)

(** The physics of the particle loop for one particle: time slow, magnet,
    [Particle.update]. *)
Definition particle_physics (paths : list Path.t) (g : Game.t)
  (p : Particle.t) : outcome Particle.t :=
  obind (if Game.a_magnet (Game.activePowerUps g)
         then Game.magnet_effect (Game.collectionPoints g)
                                 (Game.time_slow (Game.activePowerUps g) p)
         else Normal (Game.time_slow (Game.activePowerUps g) p))
        (Particle.update paths (Game.obstacles g)).

(** The obstacle test of the particle loop, as a value. *)
Definition obstacle_hit (g : Game.t) (p : Particle.t) : bool :=
  negb (Game.a_shield (Game.activePowerUps g))
  && existsb (Obstacle.checkCollision (Particle.x p) (Particle.y p))
             (Game.obstacles g).

(** What the collection loop does to one point when the particle is at
    ([px], [py]), and the score that the point yields. *)
Definition collect_if_hit (px py : R) (c : CollectionPoint.t)
  : CollectionPoint.t :=
  if CollectionPoint.checkCollision px py c
  then snd (CollectionPoint.collect c) else c.

Definition gain (mult : bool) (px py : R) (c : CollectionPoint.t) : Z :=
  if CollectionPoint.checkCollision px py c then
    if mult then (fst (CollectionPoint.collect c) * 2)%Z
    else fst (CollectionPoint.collect c)
  else 0%Z.

Definition total_gain (mult : bool) (px py : R)
  (cs : list CollectionPoint.t) : Z :=
  fold_right Z.add 0%Z (map (gain mult px py) cs).

Definition sum_values (cs : list CollectionPoint.t) : Z :=
  fold_right Z.add 0%Z (map CollectionPoint.value cs).

(** A collection point after the collection loop of a particle at
    ([px], [py]): the same point, collected if it was or if it is hit. *)
Definition collected_by (px py : R) (c c' : CollectionPoint.t) : Prop :=
  CollectionPoint.x c' = CollectionPoint.x c /\
  CollectionPoint.y c' = CollectionPoint.y c /\
  CollectionPoint.radius c' = CollectionPoint.radius c /\
  CollectionPoint.value c' = CollectionPoint.value c /\
  CollectionPoint.collected c'
  = CollectionPoint.collected c || CollectionPoint.checkCollision px py c.

(** ** Traces *)

Definition is_physics (ev : event) : Prop := exists a, ev = EvPhysics a.

Definition is_test_of (a : addr) (ev : event) : Prop :=
  ev = EvObstacleTest a \/ ev = EvCollectionTest a \/ ev = EvPowerUpTest a.

(** What the particle loop logs for one particle: its physics step, then
    its collision tests, then its removal test. *)
Definition particle_block (b : list event) : Prop :=
  exists a tests,
    b = EvPhysics a :: tests ++ [EvPrune a] /\ Forall (is_test_of a) tests.

(** ** Several ticks *)

(** [n] ticks one after the other, as long as none throws. *)
Fixpoint ticks (n : nat) (g : Game.t) (h : Host)
  : outcome unit * Game.t * Host :=
  match n with
  | O => (Normal tt, g, h)
  | S k =>
      let '(r, g', h') := Game.update g h in
      match r with
      | Throw ex => (Throw ex, g', h')
      | Normal _ => ticks k g' h'
      end
  end.

(** What one tick does to a particle of [Game.particles] on which no
    force acts (no path, no obstacle, Magnet inactive): the time-slow
    scaling, then [Particle.update]. *)
Definition free_step (flags : Game.ActivePowerUps) (p : Particle.t)
  : Particle.t :=
  let p1 := Game.time_slow flags p in
  if Particle.active p1 then
    Particle.integrate
      (Particle.with_speed (Particle.speedX p1)
                           (Particle.speedY p1 + Particle.gravity p1) p1)
  else p1.

Fixpoint free_steps (n : nat) (flags : Game.ActivePowerUps)
  (p : Particle.t) : Particle.t :=
  match n with
  | O => p
  | S k => free_steps k flags (free_step flags p)
  end.

(** A game in play whose only particle, at address [a] and equal to [p],
    belongs to no emitter pool; no obstacle, power-up or path; the
    active power-ups are [flags]; the level is not complete. *)
Definition orphan (flags : Game.ActivePowerUps) (a : addr) (p : Particle.t)
  (g : Game.t) (h : Host) : Prop :=
  Game.isPlaying g = true /\ Game.isPaused g = false /\
  Game.emitters g = [] /\ Game.obstacles g = [] /\ Game.powerUps g = [] /\
  InputHandler.paths (Game.input g) = [] /\
  Game.activePowerUps g = flags /\
  Game.particles g = [a] /\
  load a h = Some p /\
  Game.level_complete g = false.

(** The particle [p] is alive, inside the canvas of [g] and inside no
    collection point of [g]. *)
Definition unhindered (g : Game.t) (p : Particle.t) : Prop :=
  Particle.active p = true /\
  Particle.isOutOfBounds (Game.width g) (Game.height g) p = false /\
  Forall (fun c => CollectionPoint.checkCollision
                     (Particle.x p) (Particle.y p) c = false)
         (Game.collectionPoints g).

(** ** The games of the examples *)

(** A particle at rest, a particle that moves to the right at one unit
    per tick, and a collection point worth 10 of radius 20. *)
Definition resting_particle (x y : R) : Particle.t :=
  Particle.mk x y 3 0 0 None 1 0.005 0 [] 10 true 0.1 1.5.

Definition moving_particle : Particle.t :=
  Particle.mk 0 0 3 1 0 None 1 0.005 0 [] 10 true 0.1 1.5.

Definition target (x y : R) : CollectionPoint.t :=
  CollectionPoint.mk x y 20 10 0.05 0.3 0 true false.

(** A game in play at level 1 on a canvas of 800 by 600 with one
    particle, at address 0, and neither emitter nor obstacle; and a host
    whose heap holds that particle. *)
Definition one_particle_game (points : list CollectionPoint.t)
  (a : Game.ActivePowerUps) : Game.t :=
  Game.mk InputHandler.new true false 0 1 [] [] points [] [0%nat] a
          1 1 3 3 0.01 800 600.

Definition one_particle_host (p : Particle.t) : Host :=
  mkHost [p] quiet_dice 0 [] [].

(** The Magnet power-up is active and a collection point is 100 units
    away from the particle. *)
Definition magnet_game : Game.t :=
  one_particle_game [target 100 0] (Game.mkActive false true false false).

(** Two collection points around the origin and a third one far away. *)
Definition overlap_game : Game.t :=
  one_particle_game [target 0 0; target 10 0; target 1000 0]
                    Game.no_powerUps.

(** The same game with Time-slow active and inactive. *)
Definition time_slow_on : Game.ActivePowerUps :=
  Game.mkActive true false false false.

Definition slow_game : Game.t :=
  one_particle_game [target 1000 0] time_slow_on.

Definition normal_game : Game.t :=
  one_particle_game [target 1000 0] Game.no_powerUps.

(** A game in play with two particles at rest, at addresses 0 and 1, and
    one collection point far from both. *)
Definition two_particle_game : Game.t :=
  Game.mk InputHandler.new true false 0 1 [] [] [target 1000 0] []
          [0%nat; 1%nat] Game.no_powerUps 1 1 3 3 0.01 800 600.

Definition two_particle_host : Host :=
  mkHost [resting_particle 0 0; resting_particle 5 0] quiet_dice 0 [] [].

(** A game that has just been constructed for a window of 100 by 100. *)
Definition small_game : Game.t := Game.new 100 100.

(** ** Strings and digits *)

(** A string of [k] zeros. *)
Definition zeros (k : nat) : string :=
  string_of_list_ascii (repeat "0"%char k).

(** The number that a list of base-16 digits writes, the last digit
    first. *)
Fixpoint digits_value (ds : list Z) : Z :=
  match ds with
  | [] => 0%Z
  | d :: rest => (d + 16 * digits_value rest)%Z
  end.

Definition is_digit16 (d : Z) : Prop := (0 <= d < 16)%Z.

(** ** Paths *)

(** The points [pts] added to a path one after the other. *)
Definition addPoints (pts : list point) (p : Path.t) : Path.t :=
  fold_left (fun q xy => Path.addPoint (fst xy) (snd xy) q) pts p.

(** The last [n] elements of a list, all of them when it has fewer. *)
Definition lastn {A : Type} (n : nat) (l : list A) : list A :=
  skipn (List.length l - n) l.

(** A path that keeps two points, and three points to add to it. *)
Definition short_path : Path.t :=
  Path.new (Path.mkOptions (Some 2%nat) None None).

Definition three_points : list point := [(1, 1); (2, 2); (3, 3)].

(** ** Particles *)

(** The point of a segment at the share [s] of the way from its first end
    to its second. *)
Definition on_segment (seg : point * point) (s : R) : point :=
  (fst (fst seg) + s * (fst (snd seg) - fst (fst seg)),
   snd (fst seg) + s * (snd (snd seg) - snd (fst seg))).

(** The segments of all the paths. *)
Definition all_segments (paths : list Path.t) : list (point * point) :=
  flat_map (fun path => Particle.segments (Path.points path)) paths.

(** A particle away from the obstacle of [avoiding_obstacle], within its
    reach. *)
Definition near_particle : Particle.t :=
  Particle.mk 40 0 3 0 0 None 1 0.005 0 [] 10 true 0.1 1.5.

Definition avoiding_obstacle : Obstacle.t :=
  Obstacle.mk 0 0 30 0.05 0.2 0 true.

(** A segment whose two ends are one point, which [closer] skips. *)
Definition degenerate (seg : point * point) : Prop :=
  distance (fst (fst seg)) (snd (fst seg)) (fst (snd seg)) (snd (snd seg))
  = 0.

(** [best] is what a search for the point of the segments [segs] nearest
    to ([px], [py]) should end with: nothing when every segment is
    degenerate, and else a point of a segment together with its distance,
    which no point of a segment that is not degenerate undercuts. *)
Definition nearest_on (px py : R) (segs : list (point * point))
  (best : option (R * point)) : Prop :=
  match best with
  | None => forall seg, In seg segs -> degenerate seg
  | Some (d, c) =>
      d = distance px py (fst c) (snd c) /\
      (exists seg s, In seg segs /\ 0 <= s <= 1 /\ c = on_segment seg s) /\
      forall seg s, In seg segs -> ~ degenerate seg -> 0 <= s <= 1 ->
        d <= distance px py (fst (on_segment seg s)) (snd (on_segment seg s))
  end.

(** A path from (0, 10) to (100, 10), which passes 10 above
    [near_particle]. *)
Definition straight_path : Path.t :=
  Path.mk [(0, 10); (100, 10)] 100 1 0.003 true.

(** ** Emitters *)

(** A particle as [emit] creates it: active, at the place of the
    emitter, with an empty trail. *)
Definition born_at (e : ParticleEmitter.t) (p : Particle.t) : Prop :=
  Particle.x p = ParticleEmitter.x e /\
  Particle.y p = ParticleEmitter.y e /\
  Particle.active p = true /\
  Particle.trail p = [].

(** How many particles the pool of an emitter can still take. *)
Definition room (e : ParticleEmitter.t) : nat :=
  Z.to_nat (ParticleEmitter.maxParticles e
            - Z.of_nat (List.length (ParticleEmitter.particles e))).

(** An emitter of two particles per frame whose pool can take one more
    particle. *)
Definition nearly_full_emitter : ParticleEmitter.t :=
  ParticleEmitter.mk 0 0 2 (PI / 4) 2 (2, 6) (Some "#FF5252"%string)
                     (0.5, 1) 0 true [0%nat; 1%nat] 3 None.

(** The particle at [a] after one call of its [update]. *)
Definition moved (paths : list Path.t) (obstacles : list Obstacle.t)
  (h : Host) (a : addr) : option Particle.t :=
  match load a h with
  | Some p =>
      match Particle.update paths obstacles p with
      | Normal p' => Some p'
      | Throw _ => Some p
      end
  | None => None
  end.

(** The test that keeps a particle in the pool of its emitter, on the
    particle at [a] after its [update]: it is active and within the
    bounds. *)
Definition survives (paths : list Path.t) (obstacles : list Obstacle.t)
  (w hgt : R) (h : Host) (a : addr) : bool :=
  match moved paths obstacles h a with
  | Some p' => Particle.active p' && negb (Particle.isOutOfBounds w hgt p')
  | None => true
  end.

(** The addresses [l] are distinct and each of them holds a particle. *)
Definition pool_ok (l : list addr) (h : Host) : Prop :=
  NoDup l /\ Forall (fun a => (a < List.length (heap h))%nat) l.

(** A pool of two particles: one that the next update leaves alive, and
    one that has no life left. *)
Definition dying_particle : Particle.t :=
  Particle.mk 0 0 3 0 0 None 0.005 0.005 0 [] 10 true 0.1 1.5.

Definition two_pool_emitter : ParticleEmitter.t :=
  ParticleEmitter.mk 0 0 2 (PI / 4) 2 (2, 6) (Some "#FF5252"%string)
                     (0.5, 1) 0 true [0%nat; 1%nat] 100 None.

Definition two_pool_host : Host :=
  mkHost [resting_particle 0 0; dying_particle] quiet_dice 0 [] [].

(** ** The layout of a level *)

(** [h'] is [h] with the random tape read further on: the same tape, and
    the same heap, clock, time-outs and trace. *)
Definition tape_only (h h' : Host) : Prop :=
  exists n : nat, h' = with_dice (mkDice (Math_random (dice h)) n) h.

(** [Math.random()] returns a number from 0 up to, and not including, 1. *)
Definition fair (h : Host) : Prop :=
  forall n : nat, 0 <= Math_random (dice h) n < 1.

(** The canvas is at least 100 wide and 100 high, so that the rectangle
    from which the positions are drawn is not empty. *)
Definition roomy (g : Game.t) : Prop :=
  100 <= Game.width g /\ 100 <= Game.height g.

(** A position that keeps 50 from each side of the canvas. *)
Definition within_margin (g : Game.t) (x y : R) : Prop :=
  50 <= x <= Game.width g - 50 /\ 50 <= y <= Game.height g - 50.

(** An emitter as [createLevel] creates it in the game [g]. *)
Definition emitter_of_level (g : Game.t) (e : ParticleEmitter.t) : Prop :=
  ParticleEmitter.active e = true /\
  ParticleEmitter.particles e = [] /\
  ParticleEmitter.rateFraction e = None /\
  ParticleEmitter.maxParticles e
  = js_orZ (Some (100 + Game.level g * 10)%Z) 100 /\
  ParticleEmitter.rate e
  = js_or (Some (Game.spawnRate g * (1 + IZR (Game.level g) * 0.2))) 5 /\
  exists angle : R,
    ParticleEmitter.x e
    = Game.width g / 2
      + cos angle * (Rmin (Game.width g) (Game.height g) * 0.3) /\
    ParticleEmitter.y e
    = Game.height g / 2
      + sin angle * (Rmin (Game.width g) (Game.height g) * 0.3).

(** An obstacle as [createLevel] places it in the game [g]; [fair_tape]
    says that the random tape is fair. *)
Definition obstacle_placed (g : Game.t) (fair_tape : Prop) (o : Obstacle.t)
  : Prop :=
  clear_of_emitters (Game.emitters g) o /\
  Obstacle.active o = true /\
  (fair_tape ->
   20 <= Obstacle.radius o <= 40 /\
   (roomy g -> within_margin g (Obstacle.x o) (Obstacle.y o))).

(** A collection point as [createLevel] places it in the game [g]. *)
Definition point_placed (g : Game.t) (fair_tape : Prop)
  (c : CollectionPoint.t) : Prop :=
  fresh_point (Game.level g) c /\
  CollectionPoint.radius c = js_or (Some (15 + IZR (Game.level g))) 20 /\
  (forall e, In e (Game.emitters g) ->
     100 <= distance (CollectionPoint.x c) (CollectionPoint.y c)
                     (ParticleEmitter.x e) (ParticleEmitter.y e)) /\
  (forall o, In o (Game.obstacles g) ->
     Obstacle.radius o + 50
     <= distance (CollectionPoint.x c) (CollectionPoint.y c)
                 (Obstacle.x o) (Obstacle.y o)) /\
  (fair_tape -> roomy g ->
   within_margin g (CollectionPoint.x c) (CollectionPoint.y c)).

(** A power-up as [spawnPowerUp] places it in the game [g]. *)
Definition powerUp_placed (g : Game.t) (fair_tape : Prop) (p : PowerUp.t)
  : Prop :=
  PowerUp.collected p = false /\ PowerUp.active p = true /\
  PowerUp.radius p = 15 /\
  PowerUp.duration p = js_orZ (Some (5000 + Game.level g * 500)%Z) 5000 /\
  (forall e, In e (Game.emitters g) ->
     100 <= distance (PowerUp.x p) (PowerUp.y p)
                     (ParticleEmitter.x e) (ParticleEmitter.y e)) /\
  (forall o, In o (Game.obstacles g) ->
     Obstacle.radius o + 50
     <= distance (PowerUp.x p) (PowerUp.y p) (Obstacle.x o) (Obstacle.y o)) /\
  (forall c, In c (Game.collectionPoints g) ->
     CollectionPoint.collected c = false ->
     CollectionPoint.radius c + 50
     <= distance (PowerUp.x p) (PowerUp.y p)
                 (CollectionPoint.x c) (CollectionPoint.y c)) /\
  (fair_tape -> roomy g -> within_margin g (PowerUp.x p) (PowerUp.y p)).

(** ** Sessions *)

(** No power-up is on the field and none is active. *)
Definition quiet (g : Game.t) : Prop :=
  Game.powerUps g = [] /\ Game.activePowerUps g = Game.no_powerUps.

(** What the particle loop may change of a game in which no power-up is
    on the field: the particles, the score and the collection points. *)
Definition particle_loop_frame (g g' : Game.t) : Prop :=
  g' = Game.with_particles (Game.particles g')
         (Game.with_score (Game.score g')
            (Game.with_collectionPoints (Game.collectionPoints g') g)).

(** What the emitter loop may change of a game: the emitters and the
    particles. *)
Definition emitter_loop_frame (g g' : Game.t) : Prop :=
  g' = Game.with_particles (Game.particles g')
         (Game.with_emitters (Game.emitters g') g).

(** A game in play whose first emitter is the one that [start] creates,
    of 1.2 particles per frame, after [k] calls of its [emit]. *)
Definition armed (k : nat) (g : Game.t) : Prop :=
  Game.isPlaying g = true /\ Game.isPaused g = false /\ quiet g /\
  exists e rest,
    Game.emitters g = e :: rest /\
    ParticleEmitter.active e = true /\
    ParticleEmitter.rate e = 1.2 /\
    js_or (ParticleEmitter.rateFraction e) 0 = INR k * 0.2 /\
    (List.length (ParticleEmitter.particles e) <= k)%nat /\
    ParticleEmitter.maxParticles e = 110%Z.

(** A [draw] that paints without throwing. *)
Definition plain_draw (g : Game.t) (h : Host) : outcome unit := Normal tt.

(** ** The strokes of the player *)

(** What can happen to the input handler: the pointer goes down, moves
    and goes up, the engine calls [update], the game clears the paths. *)
Inductive input_event : Type :=
| Press (isPlaying : bool) (x y : R) (now : Z)
| Move (x y : R)
| Release
| Age (now : Z)
| Clear.

Definition handle (s : Drawing.t) (ev : input_event) : Drawing.t :=
  match ev with
  | Press isPlaying x y now => Drawing.handleStart isPlaying x y now s
  | Move x y => Drawing.handleMove x y s
  | Release => Drawing.handleEnd s
  | Age now => Drawing.update now s
  | Clear => Drawing.clearPaths s
  end.

Definition run (evs : list input_event) (s : Drawing.t) : Drawing.t :=
  fold_left handle evs s.

(** A stroke holds from 1 to 100 points. *)
Definition stroke_ok (p : Path.t) : Prop :=
  (1 <= List.length (Path.points p) <= 100)%nat /\
  Path.maxPoints p = 100%nat.

(** What holds of the handler at all times: at most five paths, distinct
    objects of the store, as is the current path; and every stroke of the
    store is as [stroke_ok] says. *)
Definition drawing_ok (s : Drawing.t) : Prop :=
  Drawing.maxPaths s = 5%nat /\
  (List.length (Drawing.paths s) <= 5)%nat /\
  NoDup (map fst (Drawing.paths s)) /\
  Forall (fun e => (fst e < List.length (Drawing.store s))%nat)
         (Drawing.paths s) /\
  (forall a, Drawing.currentPath s = Some a ->
             (a < List.length (Drawing.store s))%nat) /\
  Forall stroke_ok (Drawing.store s).

(** The test of [update] that keeps an entry, and what it does to the
    path of an entry that it keeps. *)
Definition young (lifetime now : Z) (e : nat * Z) : bool :=
  negb (lifetime <? now - snd e)%Z.

Definition refreshed (lifetime now : Z) (ts : Z) (p : Path.t) : Path.t :=
  Path.with_life (1 - IZR (now - ts) / IZR lifetime) p.

(** A press, two moves and a release, then an [update] in time. *)
Definition one_stroke : list input_event :=
  [Press true 10 10 0; Move 20 10; Move 30 10; Release; Age 1000].

(** ** The level-complete transition *)

(** A collection point later in the same level: the same point, which
    is collected if it was. *)
Definition same_point (c c' : CollectionPoint.t) : Prop :=
  CollectionPoint.x c' = CollectionPoint.x c /\
  CollectionPoint.y c' = CollectionPoint.y c /\
  CollectionPoint.radius c' = CollectionPoint.radius c /\
  CollectionPoint.value c' = CollectionPoint.value c /\
  (CollectionPoint.collected c = true ->
   CollectionPoint.collected c' = true).




(** The settings of a game that only [start], [nextLevel] and [endGame]
    change. *)
Definition same_settings (g g' : Game.t) : Prop :=
  Game.isPlaying g' = Game.isPlaying g /\
  Game.isPaused g' = Game.isPaused g /\
  Game.level g' = Game.level g /\
  Game.obstacles g' = Game.obstacles g /\
  Game.particleSpeed g' = Game.particleSpeed g /\
  Game.spawnRate g' = Game.spawnRate g /\
  Game.obstacleCount g' = Game.obstacleCount g /\
  Game.collectionPointCount g' = Game.collectionPointCount g /\
  Game.powerUpChance g' = Game.powerUpChance g /\
  Game.width g' = Game.width g /\
  Game.height g' = Game.height g.



(** ** The time-slow scaling in a game with emitters *)

(** The paths that a tick of [g] reads. *)
Definition tick_paths (g : Game.t) (h : Host) : list Path.t :=
  InputHandler.getActivePaths
    (InputHandler.update (clock h) (Game.input g)).

(** What [Particle.update] makes of a particle on which neither a path
    nor an obstacle acts: gravity, friction, motion, trail and life. *)
Definition coast (p : Particle.t) : Particle.t :=
  match Particle.update [] [] p with
  | Normal p' => p'
  | Throw _ => p
  end.

(** [paths] and [obstacles] exert no force on [p]: its physics step
    among them is the one that it makes without them. *)
Definition unforced (paths : list Path.t) (obstacles : list Obstacle.t)
  (p : Particle.t) : Prop :=
  Particle.update paths obstacles p = Particle.update [] [] p.

(** How often [a] occurs in a list of particles, and in the pools of the
    emitters of [g]: so often the emitter loop of a tick calls
    [Particle.update] on it. *)
Definition occurrences (a : addr) (l : list addr) : nat :=
  count_occ Nat.eq_dec l a.

Definition pools_of (a : addr) (g : Game.t) : nat :=
  list_sum
    (map (fun e => occurrences a (ParticleEmitter.particles e))
         (Game.emitters g)).

(** The calls of [Particle.update] on a particle of [Game.particles] in
    [n] ticks: in each tick those of the emitter loop and one of the
    particle loop. *)
Fixpoint physics_steps (a : addr) (n : nat) (g : Game.t) (h : Host) : nat :=
  match n with
  | O => 0
  | S k =>
      let '(_, g', h') := Game.update g h in
      (S (pools_of a g) + physics_steps a k g' h')%nat
  end.

(** No path and no obstacle acts on the particle at [a] in the tick of
    [g]: neither at the calls of the emitter loop, nor at the call of
    the particle loop, which the time-slow scaling precedes. *)
Definition force_free_tick (a : addr) (g : Game.t) (h : Host) : Prop :=
  forall p, load a h = Some p ->
    (forall j, (j < pools_of a g)%nat ->
       unforced (tick_paths g h) (Game.obstacles g) (Nat.iter j coast p)) /\
    unforced (tick_paths g h) (Game.obstacles g)
             (Game.time_slow (Game.activePowerUps g)
                             (Nat.iter (pools_of a g) coast p)).

(** The game with its Time-slow flag set to [v], and the particle with
    both velocity components multiplied by 0.5. *)
Definition with_timeSlow (v : bool) (g : Game.t) : Game.t :=
  Game.with_activePowerUps
    (Game.set_active timeSlow v (Game.activePowerUps g)) g.

Definition halved (p : Particle.t) : Particle.t :=
  Particle.with_speed (Particle.speedX p * 0.5) (Particle.speedY p * 0.5) p.

(** A game in play with Time-slow active whose particle, at address 0, is
    in the pool of an emitter that emits nothing. *)
Definition idle_emitter : ParticleEmitter.t :=
  ParticleEmitter.mk 400 300 1.2 (PI / 3) 1 (2, 4) None (0.7, 1) 0 false
                     [0%nat] 100 None.

Definition pooled_game : Game.t :=
  Game.mk InputHandler.new true false 0 1 [idle_emitter] [] [target 1000 0]
          [] [0%nat] time_slow_on 1 1 3 3 0.01 800 600.

(** A game in play whose only particle, at address [a] and equal to [p],
    is in the pool of its only emitter, which emits nothing; no obstacle,
    power-up or path; the active power-ups are [flags]; the level is not
    complete. *)
Definition pooled (flags : Game.ActivePowerUps) (a : addr) (p : Particle.t)
  (g : Game.t) (h : Host) : Prop :=
  Game.isPlaying g = true /\ Game.isPaused g = false /\
  (exists e, Game.emitters g = [e] /\
             ParticleEmitter.active e = false /\
             ParticleEmitter.particles e = [a]) /\
  Game.obstacles g = [] /\ Game.powerUps g = [] /\
  InputHandler.paths (Game.input g) = [] /\
  Game.activePowerUps g = flags /\
  Game.particles g = [a] /\
  load a h = Some p /\
  Game.level_complete g = false.

(** What a tick of such a game makes of its particle when no force acts
    on it: the step that the pool gives it, then the scaling and the step
    of the particle loop. *)
Definition pooled_step (flags : Game.ActivePowerUps) (p : Particle.t)
  : Particle.t :=
  free_step flags (coast p).

(* ================================================================= *)
(** * Properties *)

(** ** Comparisons *)

Lemma Rltb_true (a b : R) : a < b -> Rltb a b = true.
Proof. intros H. unfold Rltb. destruct (Rlt_dec a b); [reflexivity | contradiction]. Qed.

Lemma Rltb_false (a b : R) : b <= a -> Rltb a b = false.
Proof. intros H. unfold Rltb. destruct (Rlt_dec a b); [lra | reflexivity]. Qed.

Lemma Rltb_true_inv (a b : R) : Rltb a b = true -> a < b.
Proof. unfold Rltb. destruct (Rlt_dec a b); [trivial | discriminate]. Qed.

Lemma Rltb_false_inv (a b : R) : Rltb a b = false -> b <= a.
Proof. unfold Rltb. destruct (Rlt_dec a b); [discriminate | lra]. Qed.

Lemma Rleb_true (a b : R) : a <= b -> Rleb a b = true.
Proof. intros H. unfold Rleb. destruct (Rle_dec a b); [reflexivity | contradiction]. Qed.

Lemma Rleb_false (a b : R) : b < a -> Rleb a b = false.
Proof. intros H. unfold Rleb. destruct (Rle_dec a b); [lra | reflexivity]. Qed.

Lemma distance_le (x1 y1 x2 y2 r : R) :
  0 <= r ->
  (x2 - x1) * (x2 - x1) + (y2 - y1) * (y2 - y1) <= r * r ->
  distance x1 y1 x2 y2 <= r.
Proof.
  intros Hr H. unfold distance.
  rewrite <- (sqrt_square r Hr).
  apply sqrt_le_1_alt. simpl. lra.
Qed.

Lemma distance_gt (x1 y1 x2 y2 r : R) :
  0 <= r ->
  r * r < (x2 - x1) * (x2 - x1) + (y2 - y1) * (y2 - y1) ->
  r < distance x1 y1 x2 y2.
Proof.
  intros Hr H. unfold distance.
  rewrite <- (sqrt_square r Hr) at 1.
  apply sqrt_lt_1_alt. simpl. split; [nra | lra].
Qed.

Lemma distance_on_x_axis (x1 x2 y : R) :
  x1 <= x2 -> distance x1 y x2 y = x2 - x1.
Proof.
  intros H. unfold distance.
  replace ((x2 - x1) ^ 2 + (y - y) ^ 2) with ((x2 - x1) * (x2 - x1)) by ring.
  apply sqrt_square. lra.
Qed.

(** ** Integer parts *)

Lemma Math_floor_between (r : R) (z : Z) :
  IZR z <= r < IZR z + 1 -> Math_floor r = z.
Proof.
  intros H. unfold Math_floor. symmetry. apply Int_part_spec. lra.
Qed.

(* ================================================================= *)
(** ** The spawn test of power-ups (C3) *)

Lemma random_no_arguments (u : R) : random u None None = NaN.
Proof. reflexivity. Qed.

Lemma random_two_arguments (u a b : R) :
  random u (Some a) (Some b) = Num (random_between u a b).
Proof. reflexivity. Qed.

(** C3, as the code has it.  The specification says that each tick a
    power-up placement is attempted with probability [powerUpChance]:
    some value of [Math.random()] makes the tick call [spawnPowerUp].
    In the code the test is [random() < this.powerUpChance], and [random]
    without arguments is [NaN]: whatever [Math.random()] returns and
    whatever the chance is, the test is false and the tick leaves the
    game as it is, having read the tape once. *)
Theorem spawn_never_attempted (g : Game.t) (h : Host) :
  (forall u : R, Game.spawn_test u g = false) /\
  Game.maybe_spawn g h = (g, snd (roll h)).
Proof.
  assert (Hn : forall u, Game.spawn_test u g = false)
    by (intros u; reflexivity).
  split; [exact Hn |].
  unfold Game.maybe_spawn.
  destruct (roll h) as [u h1]. rewrite Hn. reflexivity.
Qed.

(* ================================================================= *)
(** ** The fractional emission rate (C2) *)

Lemma js_or_zero (o : option R) :
  js_or o 0 = match o with Some r => r | None => 0 end.
Proof.
  destruct o as [r |]; [| reflexivity]. unfold js_or, Reqb.
  destruct (Req_dec_T r 0); congruence.
Qed.

Lemma emit_one_fields (e : ParticleEmitter.t) (h : Host) :
  let '(_, e', _) := ParticleEmitter.emit_one e h in
  ParticleEmitter.rateFraction e' = ParticleEmitter.rateFraction e /\
  ParticleEmitter.rate e' = ParticleEmitter.rate e /\
  ParticleEmitter.active e' = ParticleEmitter.active e /\
  ParticleEmitter.maxParticles e' = ParticleEmitter.maxParticles e.
Proof.
  unfold ParticleEmitter.emit_one.
  destruct (roll h) as [u1 h1]. destruct (roll h1) as [u2 h2].
  destruct (roll h2) as [u3 h3]. destruct (roll h3) as [u4 h4].
  destruct (Particle.new _ _ _ _) as [p d].
  destruct (alloc p _) as [a h5]. simpl. auto.
Qed.

Lemma emit_loop_fields (n : nat) :
  forall (l : list addr) (e : ParticleEmitter.t) (h : Host),
  let '(_, e', _) := ParticleEmitter.emit_loop n l e h in
  ParticleEmitter.rateFraction e' = ParticleEmitter.rateFraction e /\
  ParticleEmitter.rate e' = ParticleEmitter.rate e /\
  ParticleEmitter.active e' = ParticleEmitter.active e /\
  ParticleEmitter.maxParticles e' = ParticleEmitter.maxParticles e.
Proof.
  induction n as [| k IH]; intros l e h; simpl; [auto |].
  destruct (_ <=? _)%Z; [auto |].
  pose proof (emit_one_fields e h) as H1.
  destruct (ParticleEmitter.emit_one e h) as [[a e1] h1].
  specialize (IH (l ++ [a]) e1 h1).
  destruct (ParticleEmitter.emit_loop k (l ++ [a]) e1 h1) as [[l' e2] h2].
  destruct H1 as (A1 & A2 & A3 & A4). destruct IH as (B1 & B2 & B3 & B4).
  repeat split; congruence.
Qed.

(** While the remainder stays below 1, [emit] returns and stores it. *)
Lemma emit_no_carry (e : ParticleEmitter.t) (h : Host) :
  ParticleEmitter.active e = true ->
  carried e < 1 ->
  let '(r, e', _) := ParticleEmitter.emit e h in
  (exists l, r = Normal l) /\
  ParticleEmitter.rateFraction e' = Some (carried e) /\
  ParticleEmitter.rate e' = ParticleEmitter.rate e /\
  ParticleEmitter.active e' = true.
Proof.
  intros Ha Hf. unfold ParticleEmitter.emit. rewrite Ha. simpl negb. cbv iota.
  fold (carried e). rewrite (Rleb_false _ _ Hf).
  match goal with |- context [ParticleEmitter.emit_loop ?n ?l ?x ?y] =>
    pose proof (emit_loop_fields n l x y) as H;
    destruct (ParticleEmitter.emit_loop n l x y) as [[l' e'] h']
  end.
  simpl in H. destruct H as (H1 & H2 & H3 & _).
  repeat split; [eexists; reflexivity | assumption | assumption | congruence].
Qed.

(** C2, as the code has it.  The specification says that [emit] carries
    the fractional part of the rate from call to call, creates one more
    particle when the carried remainder reaches 1, and never fails.  In
    the code the count is a [const] and the extra particle is
    [particlesToCreate++]: in the call in which the remainder reaches 1,
    [emit] throws a [TypeError], creates no particle, and leaves the
    remainder at its value of 1 or more. *)
Theorem emit_throws_on_carry (e : ParticleEmitter.t) (h : Host) :
  ParticleEmitter.active e = true ->
  1 <= carried e ->
  ParticleEmitter.emit e h
  = (Throw TypeError,
     ParticleEmitter.with_rateFraction (Some (carried e)) e, h).
Proof.
  intros Ha Hf. unfold ParticleEmitter.emit. rewrite Ha. simpl negb. cbv iota.
  fold (carried e). rewrite (Rleb_true _ _ Hf). reflexivity.
Qed.

Lemma Math_floor_3_2 : Math_floor 1.5 = 1%Z.
Proof. apply Math_floor_between. lra. Qed.

Lemma emit_throws_on_carry_witness :
  ParticleEmitter.emit emitter_after_one_call empty_host
  = (Throw TypeError,
     ParticleEmitter.with_rateFraction (Some (carried emitter_after_one_call))
       emitter_after_one_call,
     empty_host).
Proof.
  apply emit_throws_on_carry.
  - reflexivity.
  - unfold carried, emitter_after_one_call.
    cbn [ParticleEmitter.rateFraction ParticleEmitter.rate].
    rewrite js_or_zero, Math_floor_3_2. lra.
Defined.

(** Once [emit] has thrown it throws at every later call: the remainder
    is never brought back below 1. *)
Lemma emit_keeps_throwing (e : ParticleEmitter.t) (h h' : Host) :
  ParticleEmitter.active e = true ->
  1 <= carried e ->
  fst (fst (ParticleEmitter.emit
              (ParticleEmitter.with_rateFraction (Some (carried e)) e) h'))
  = Throw TypeError.
Proof.
  intros Ha Hf. rewrite emit_throws_on_carry; [reflexivity | exact Ha |].
  unfold carried at 1.
  cbn [ParticleEmitter.with_rateFraction ParticleEmitter.rateFraction
       ParticleEmitter.rate].
  rewrite js_or_zero.
  pose proof (base_Int_part (ParticleEmitter.rate e)) as [Hb _].
  unfold Math_floor. lra.
Qed.

(** With a rate that is not a whole number, some call of [emit] throws. *)
Lemma emit_eventually_throws_aux (n : nat) :
  forall (e : ParticleEmitter.t) (h : Host),
  ParticleEmitter.active e = true ->
  1 <= js_or (ParticleEmitter.rateFraction e) 0
       + INR (S n) * (ParticleEmitter.rate e
                      - IZR (Math_floor (ParticleEmitter.rate e))) ->
  exists k, (k <= n)%nat /\
    let (e', h') := after_emits k e h in
    fst (fst (ParticleEmitter.emit e' h')) = Throw TypeError.
Proof.
  induction n as [| n IH]; intros e h Ha Hf.
  - exists 0%nat. split; [lia |]. simpl.
    rewrite emit_throws_on_carry; [reflexivity | exact Ha |].
    unfold carried. simpl in Hf. lra.
  - destruct (Rle_dec 1 (carried e)) as [Hc | Hc].
    + exists 0%nat. split; [lia |]. simpl.
      rewrite emit_throws_on_carry; [reflexivity | exact Ha | exact Hc].
    + pose proof (emit_no_carry e h Ha ltac:(lra)) as H1.
      destruct (ParticleEmitter.emit e h) as [[r e1] h1] eqn:E.
      destruct H1 as (_ & Hrf & Hrate & Hact).
      destruct (IH e1 h1 Hact) as (k & Hk & Hthrow).
      * rewrite Hrf, Hrate. rewrite js_or_zero. unfold carried.
        rewrite S_INR in Hf. lra.
      * exists (S k). split; [lia |]. simpl. rewrite E. exact Hthrow.
Qed.

Lemma emit_eventually_throws (e : ParticleEmitter.t) (h : Host) :
  ParticleEmitter.active e = true ->
  ParticleEmitter.rate e <> IZR (Math_floor (ParticleEmitter.rate e)) ->
  exists k,
    let (e', h') := after_emits k e h in
    fst (fst (ParticleEmitter.emit e' h')) = Throw TypeError.
Proof.
  intros Ha Hfrac.
  pose proof (base_Int_part (ParticleEmitter.rate e)) as [Hb _].
  fold (Math_floor (ParticleEmitter.rate e)) in Hb.
  set (fr := ParticleEmitter.rate e - IZR (Math_floor (ParticleEmitter.rate e))).
  assert (Hpos : 0 < fr) by (unfold fr; lra).
  set (f0 := js_or (ParticleEmitter.rateFraction e) 0).
  destruct (INR_unbounded ((1 - f0) / fr)) as [n Hn].
  destruct (emit_eventually_throws_aux n e h Ha) as (k & _ & Hk).
  - fold fr f0. rewrite S_INR.
    assert (1 - f0 < INR n * fr).
    { apply (Rmult_lt_compat_r fr) in Hn; [| exact Hpos].
      unfold Rdiv in Hn. rewrite Rmult_assoc, Rinv_l in Hn; lra. }
    lra.
  - exists k. exact Hk.
Qed.

(* ================================================================= *)
(** ** The magnet effect (C1) *)

(** [Particle.update] finds the global [angle] at both of its calls, and
    returns. *)
Lemma avoid_obstacles_normal (obstacles : list Obstacle.t) :
  forall p : Particle.t,
  exists p', Particle.avoid_obstacles obstacles p = Normal p'.
Proof.
  unfold Particle.avoid_obstacles.
  induction obstacles as [| o os IH]; intros p; simpl.
  - eexists; reflexivity.
  - destruct (Rltb _ _); simpl; apply IH.
Qed.

Lemma follow_paths_normal (paths : list Path.t) (p : Particle.t) :
  exists p', Particle.follow_paths paths p = Normal p'.
Proof.
  unfold Particle.follow_paths.
  destruct (_ <? _)%nat; [| eexists; reflexivity].
  destruct (fold_left _ _ _) as [[d [cx cy]] |]; [| eexists; reflexivity].
  destruct (Rltb d 100); simpl; eexists; reflexivity.
Qed.

Lemma Particle_update_normal (paths : list Path.t)
  (obstacles : list Obstacle.t) (p : Particle.t) :
  exists p', Particle.update paths obstacles p = Normal p'.
Proof.
  unfold Particle.update.
  destruct (negb (Particle.active p)); [eexists; reflexivity |].
  destruct (follow_paths_normal paths
              (Particle.with_speed (Particle.speedX p)
                 (Particle.speedY p + Particle.gravity p) p)) as [p2 ->].
  simpl. destruct (avoid_obstacles_normal obstacles p2) as [p3 ->].
  simpl. eexists; reflexivity.
Qed.

(** The search of the magnet block ends on a point that is at most as far
    as any uncollected point. *)
Lemma nearest_fold_some (p : Particle.t) (pts : list CollectionPoint.t) :
  forall (d0 : R) (c0 : CollectionPoint.t),
  exists d c, fold_left (Game.nearest p) pts (Some (d0, c0)) = Some (d, c)
              /\ d <= d0.
Proof.
  induction pts as [| pt pts IH]; intros d0 c0; simpl.
  - exists d0, c0. split; [reflexivity | lra].
  - unfold Game.nearest at 2.
    destruct (negb (CollectionPoint.collected pt)); [| apply IH].
    destruct (Rltb _ d0) eqn:E; [| apply IH].
    apply Rltb_true_inv in E.
    edestruct IH as (d & c & -> & Hd).
    exists d, c. split; [reflexivity | lra].
Qed.

Lemma nearest_fold_bound (p : Particle.t) (pts : list CollectionPoint.t) :
  forall (best : option (R * CollectionPoint.t)) (c : CollectionPoint.t),
  In c pts ->
  CollectionPoint.collected c = false ->
  exists d c', fold_left (Game.nearest p) pts best = Some (d, c')
    /\ d <= distance (Particle.x p) (Particle.y p)
                     (CollectionPoint.x c) (CollectionPoint.y c).
Proof.
  induction pts as [| pt pts IH]; intros best c Hin Hc; [destruct Hin |].
  destruct Hin as [-> | Hin]; [| simpl; apply (IH _ c Hin Hc)].
  simpl. unfold Game.nearest at 2. rewrite Hc. simpl negb. cbv iota.
  destruct best as [[d0 c0] |].
  - destruct (Rltb _ d0) eqn:E.
    + edestruct (nearest_fold_some p pts) as (d & c' & -> & Hd).
      exists d, c'. split; [reflexivity | exact Hd].
    + apply Rltb_false_inv in E.
      destruct (nearest_fold_some p pts d0 c0) as (d & c' & -> & Hd).
      exists d, c'. split; [reflexivity | lra].
  - destruct (nearest_fold_some p pts
                (distance (Particle.x p) (Particle.y p)
                          (CollectionPoint.x c) (CollectionPoint.y c)) c)
      as (d & c' & -> & Hd).
    exists d, c'. split; [reflexivity | exact Hd].
Qed.

Lemma magnet_effect_throws (pts : list CollectionPoint.t) (p : Particle.t)
  (c : CollectionPoint.t) :
  In c pts ->
  CollectionPoint.collected c = false ->
  distance (Particle.x p) (Particle.y p)
           (CollectionPoint.x c) (CollectionPoint.y c) < 200 ->
  Game.magnet_effect pts p = Throw ReferenceError.
Proof.
  intros Hin Hc Hd. unfold Game.magnet_effect.
  destruct (nearest_fold_bound p pts None c Hin Hc) as (d & c' & -> & Hle).
  rewrite Rltb_true by lra. reflexivity.
Qed.

(** C1, as the code has it.  The specification says that with the Magnet
    power-up active a particle that has an uncollected collection point
    within 200 units is pulled toward the nearest one, and that the
    physics path raises no exception.  In the code the block that applies
    the pull declares [const angle = angle(...)]: the call reads the
    block's own binding before its initialisation.  For every particle of
    [Game.particles] in that situation the body of the particle loop
    throws a [ReferenceError]; the time-slow scaling has been written to
    the particle, no force has been added, and no collision of the tick
    has been tested. *)
Theorem magnet_throws (paths : list Path.t) (i : nat) (a : addr)
  (g : Game.t) (h : Host) (p : Particle.t) (c : CollectionPoint.t) :
  nth_error (Game.particles g) i = Some a ->
  load a h = Some p ->
  Game.a_magnet (Game.activePowerUps g) = true ->
  In c (Game.collectionPoints g) ->
  CollectionPoint.collected c = false ->
  distance (Particle.x p) (Particle.y p)
           (CollectionPoint.x c) (CollectionPoint.y c) < 200 ->
  Game.update_particle paths i g h
  = (Throw ReferenceError, g,
     store a (Game.time_slow (Game.activePowerUps g) p) h).
Proof.
  intros Hi Hl Hm Hin Hc Hd. unfold Game.update_particle.
  rewrite Hi, Hl, Hm.
  rewrite (magnet_effect_throws _ _ c Hin Hc); [reflexivity |].
  exact Hd.
Qed.

Lemma magnet_throws_witness :
  Game.update_particle [] 0 magnet_game
    (one_particle_host (resting_particle 0 0))
  = (Throw ReferenceError, magnet_game,
     store 0%nat
       (Game.time_slow (Game.activePowerUps magnet_game)
                       (resting_particle 0 0))
       (one_particle_host (resting_particle 0 0))).
Proof.
  apply (magnet_throws [] 0 0%nat magnet_game
           (one_particle_host (resting_particle 0 0))
           (resting_particle 0 0) (target 100 0)).
  - reflexivity.
  - reflexivity.
  - reflexivity.
  - left. reflexivity.
  - reflexivity.
  - simpl. rewrite distance_on_x_axis; lra.
Defined.

(** The whole tick on that state ends with the exception. *)
Lemma magnet_tick_throws :
  fst (fst (Game.update magnet_game
              (one_particle_host (resting_particle 0 0))))
  = Throw ReferenceError.
Proof.
  unfold Game.update.
  change (negb (Game.isPlaying magnet_game) || Game.isPaused magnet_game)
    with false. cbv iota.
  change (Game.update_emitters _ _ _ _ _)
    with (@Normal unit tt, magnet_game,
          one_particle_host (resting_particle 0 0)).
  cbv iota beta.
  change (List.length (Game.particles magnet_game)) with 1%nat.
  unfold Game.update_particles, Game.update_particle.
  change (nth_error (Game.particles magnet_game) 0) with (Some 0%nat).
  cbv iota beta.
  change (load 0%nat (one_particle_host (resting_particle 0 0)))
    with (Some (resting_particle 0 0)).
  cbv iota beta.
  change (Game.a_magnet (Game.activePowerUps magnet_game)) with true.
  cbv iota beta.
  rewrite (magnet_effect_throws _ _ (target 100 0)).
  - reflexivity.
  - left. reflexivity.
  - reflexivity.
  - simpl. rewrite distance_on_x_axis; lra.
Qed.

(* ================================================================= *)
(** ** Picking up a power-up that is active (C6) *)

Lemma get_set_active_same (ty : PowerUpType) (b : bool)
  (a : Game.ActivePowerUps) :
  Game.get_active ty (Game.set_active ty b a) = b.
Proof. destruct ty; reflexivity. Qed.

Lemma get_set_active_other (ty ty' : PowerUpType) (b : bool)
  (a : Game.ActivePowerUps) :
  ty' <> ty ->
  Game.get_active ty' (Game.set_active ty b a) = Game.get_active ty' a.
Proof. destruct ty, ty'; intros H; try reflexivity; contradiction. Qed.

(** C6 fails as stated: Magnet is picked up at time 0 for 5500 ms and
    again at 3000 for 5500 ms; at 6000, which is within the second
    payload, the flag is false: the first time-out has cleared it. *)
Lemma second_pickup_cut_short :
  (3000 <= 6000 < 3000 + 5500)%Z /\
  Game.get_active magnet
    (Game.activePowerUps
       (fst (two_pickups magnet 0 5500 3000 5500 6000
                         (Game.new 800 600) empty_host)))
  = false.
Proof. split; [lia | reflexivity]. Qed.

(** C6, amended.  A pickup sets the flag of its type and schedules a
    time-out of its own; the pending time-out of an earlier pickup is not
    cancelled.  When a type is picked up while it is active, its flag
    stays true until the first of the two deadlines and is false from
    then on; the flags of the other types are as they were. *)
Theorem pickup_while_active (ty : PowerUpType) (t1 d1 t2 d2 t : Z)
  (g : Game.t) (h : Host) :
  timers h = [] ->
  (t1 <= t2 < t1 + d1)%Z ->
  (t2 <= t)%Z ->
  let g' := fst (two_pickups ty t1 d1 t2 d2 t g h) in
  Game.get_active ty (Game.activePowerUps g')
  = ((t <? t1 + d1) && (t <? t2 + d2))%Z
  /\ forall ty', ty' <> ty ->
       Game.get_active ty' (Game.activePowerUps g')
       = Game.get_active ty' (Game.activePowerUps g).
Proof.
  intros Ht H12 H2t.
  unfold two_pickups, Game.advance, Game.fire_timers, Game.activatePowerUp.
  cbn [with_clock with_timers timers clock fst snd Game.activePowerUps
       Game.with_activePowerUps].
  rewrite Ht.
  cbn [filter fold_left app fst snd Game.activePowerUps
       Game.with_activePowerUps].
  assert (E1 : (t1 + d1 <=? t2)%Z = false) by (apply Z.leb_gt; lia).
  rewrite E1.
  cbn [filter fold_left app fst snd negb Game.activePowerUps
       Game.with_activePowerUps].
  destruct (t1 + d1 <=? t)%Z eqn:Ea; destruct (t2 + d2 <=? t)%Z eqn:Eb;
    cbn [filter fold_left app fst snd negb Game.activePowerUps
         Game.with_activePowerUps];
    (split;
     [ rewrite ?get_set_active_same;
       rewrite 2!Z.ltb_antisym, Ea, Eb; reflexivity
     | intros ty' Hne; rewrite ?get_set_active_other by exact Hne;
       reflexivity ]).
Qed.

Lemma pickup_while_active_witness :
  let g' := fst (two_pickups shield 0 5500 3000 6000 7000
                             (Game.new 800 600) empty_host) in
  Game.get_active shield (Game.activePowerUps g')
  = ((7000 <? 0 + 5500) && (7000 <? 3000 + 6000))%Z
  /\ forall ty', ty' <> shield ->
       Game.get_active ty' (Game.activePowerUps g')
       = Game.get_active ty' (Game.activePowerUps (Game.new 800 600)).
Proof.
  apply (pickup_while_active shield 0 5500 3000 6000 7000
           (Game.new 800 600) empty_host).
  - reflexivity.
  - lia.
  - lia.
Defined.

(* ================================================================= *)
(** ** Level generation (C9) *)

Lemma dice_only_refl (h : Host) : dice_only h h.
Proof. exists (dice h). destruct h; reflexivity. Qed.

Lemma dice_only_trans (h1 h2 h3 : Host) :
  dice_only h1 h2 -> dice_only h2 h3 -> dice_only h1 h3.
Proof. intros [d1 ->] [d2 ->]. exists d2. reflexivity. Qed.

Lemma dice_only_with_dice (h h' : Host) (d : Dice) :
  dice_only h h' -> dice_only h (with_dice d h').
Proof. intros [d1 ->]. exists d. reflexivity. Qed.

Lemma roll_dice_only (h : Host) : dice_only h (snd (roll h)).
Proof. unfold roll, draw. simpl. eexists; reflexivity. Qed.

Lemma dice_only_trace (h h' : Host) : dice_only h h' -> trace h' = trace h.
Proof. intros [d ->]. reflexivity. Qed.

Lemma dice_only_heap (h h' : Host) : dice_only h h' -> heap h' = heap h.
Proof. intros [d ->]. reflexivity. Qed.

Ltac roll_step h u h' H :=
  let E := fresh "E" in
  pose proof (roll_dice_only h) as H;
  destruct (roll h) as [u h'] eqn:E; cbn [snd] in H.

(** The placement loop returns only a position that passed its test. *)
Lemma find_position_spec (valid : R -> R -> bool) (n : nat) (w hgt : R) :
  forall hst : Host,
  dice_only hst (snd (Game.find_position valid n w hgt hst)) /\
  (forall x y, fst (Game.find_position valid n w hgt hst) = Some (x, y) ->
               valid x y = true).
Proof.
  induction n as [| k IH]; intros hst; cbn [Game.find_position].
  - split; [apply dice_only_refl | discriminate].
  - roll_step hst u1 h1 H1. roll_step h1 u2 h2 H2.
    destruct (valid _ _) eqn:V.
    + cbn [fst snd].
      split; [eapply dice_only_trans; eassumption |].
      intros x y [= <- <-]. exact V.
    + destruct (IH h2) as [Hd Hv]. split; [| exact Hv].
      eapply dice_only_trans; [| exact Hd].
      eapply dice_only_trans; eassumption.
Qed.

(** When no position of the sampled rectangle passes the test, the 50
    attempts are used up and the loop ends without a position. *)
Lemma find_position_exhausted (valid : R -> R -> bool) (n : nat)
  (w hgt : R) :
  (forall u1 u2, valid (random_between u1 50 (w - 50))
                       (random_between u2 50 (hgt - 50)) = false) ->
  forall hst : Host, fst (Game.find_position valid n w hgt hst) = None.
Proof.
  intros Hv.
  induction n as [| k IH]; intros hst; cbn [Game.find_position];
    [reflexivity |].
  destruct (roll hst) as [u1 h1]. destruct (roll h1) as [u2 h2].
  rewrite Hv. apply IH.
Qed.

Lemma far_from_emitters_spec (d : R) (es : list ParticleEmitter.t)
  (x y : R) :
  Game.far_from_emitters d es x y = true ->
  forall e, In e es ->
    d <= distance x y (ParticleEmitter.x e) (ParticleEmitter.y e).
Proof.
  unfold Game.far_from_emitters. rewrite forallb_forall.
  intros H e He. specialize (H e He).
  apply negb_true_iff in H. apply Rltb_false_inv in H. exact H.
Qed.

Lemma Game_with_emitters_id (g : Game.t) :
  Game.with_emitters (Game.emitters g) g = g.
Proof. destruct g; reflexivity. Qed.

Lemma Game_with_obstacles_id (g : Game.t) :
  Game.with_obstacles (Game.obstacles g) g = g.
Proof. destruct g; reflexivity. Qed.

Lemma Game_with_collectionPoints_id (g : Game.t) :
  Game.with_collectionPoints (Game.collectionPoints g) g = g.
Proof. destruct g; reflexivity. Qed.

(** The constructors keep the position and the settings that the caller
    passes. *)
Lemma ParticleEmitter_new_spec (x y : R) (o : ParticleEmitter.options)
  (d : Dice) :
  let e := fst (ParticleEmitter.new x y o d) in
  ParticleEmitter.x e = x /\ ParticleEmitter.y e = y /\
  ParticleEmitter.active e = true /\ ParticleEmitter.particles e = [] /\
  ParticleEmitter.maxParticles e
  = js_orZ (ParticleEmitter.o_maxParticles o) 100.
Proof.
  unfold ParticleEmitter.new. destruct (js_or_color _ _) as [c d'].
  simpl. auto.
Qed.

Lemma create_emitter_spec (count : Z) (i : nat) (g : Game.t) (h : Host) :
  exists e,
    fst (Game.create_emitter count i g h)
    = Game.with_emitters (Game.emitters g ++ [e]) g /\
    fresh_emitter (Game.level g) e /\
    ParticleEmitter.x e
    = Game.width g / 2
      + cos (INR i / IZR count * PI * 2)
        * (Rmin (Game.width g) (Game.height g) * 0.3) /\
    ParticleEmitter.y e
    = Game.height g / 2
      + sin (INR i / IZR count * PI * 2)
        * (Rmin (Game.width g) (Game.height g) * 0.3) /\
    dice_only h (snd (Game.create_emitter count i g h)).
Proof.
  unfold Game.create_emitter.
  roll_step h u h1 H1.
  match goal with |- context [ParticleEmitter.new ?x ?y ?o ?d] =>
    pose proof (ParticleEmitter_new_spec x y o d) as Hs;
    destruct (ParticleEmitter.new x y o d) as [e d'] end.
  cbn [fst snd] in *. destruct Hs as (Hx & Hy & Ha & Hp & Hm).
  exists e. repeat split; try assumption.
  apply dice_only_with_dice. exact H1.
Qed.

Lemma for_index_create_emitter (count : Z) (n : nat) :
  forall (i : nat) (g : Game.t) (h : Host),
  exists es,
    fst (Game.for_index (Game.create_emitter count) i n g h)
    = Game.with_emitters (Game.emitters g ++ es) g /\
    List.length es = n /\
    Forall (fresh_emitter (Game.level g)) es /\
    dice_only h (snd (Game.for_index (Game.create_emitter count) i n g h)).
Proof.
  induction n as [| k IH]; intros i g h; cbn [Game.for_index].
  - exists []. rewrite app_nil_r, Game_with_emitters_id. cbn [fst snd].
    repeat split; [constructor | apply dice_only_refl].
  - destruct (create_emitter_spec count i g h)
      as (e & Hg & He & _ & _ & Hd).
    destruct (Game.create_emitter count i g h) as [g1 h1].
    cbn [fst snd] in Hg, Hd. subst g1.
    destruct (IH (S i) (Game.with_emitters (Game.emitters g ++ [e]) g) h1)
      as (es & Hg' & Hlen & Hf & Hd').
    exists (e :: es). rewrite Hg'. cbn [Game.emitters Game.with_emitters].
    rewrite <- app_assoc. cbn [app List.length].
    repeat split; [congruence | constructor; assumption |].
    eapply dice_only_trans; eassumption.
Qed.

Lemma create_obstacle_spec (g : Game.t) (h : Host) :
  dice_only h (snd (Game.create_obstacle g h)) /\
  (fst (Game.create_obstacle g h) = g \/
   exists o,
     fst (Game.create_obstacle g h)
     = Game.with_obstacles (Game.obstacles g ++ [o]) g /\
     clear_of_emitters (Game.emitters g) o).
Proof.
  unfold Game.create_obstacle.
  destruct (find_position_spec (Game.far_from_emitters 150 (Game.emitters g))
              50 (Game.width g) (Game.height g) h) as [Hd Hv].
  destruct (Game.find_position _ _ _ _ _) as [[[x y] |] h1];
    cbn [fst snd] in *.
  - roll_step h1 u1 h2 H2. roll_step h2 u2 h3 H3. roll_step h3 u3 h4 H4.
    unfold Obstacle.new. destruct (draw (dice h4)) as [u d].
    cbn [fst snd]. split.
    + apply dice_only_with_dice.
      repeat (eapply dice_only_trans; [eassumption |]). apply dice_only_refl.
    + right. eexists. split; [reflexivity |].
      intros e He. cbn [Obstacle.x Obstacle.y].
      apply (far_from_emitters_spec 150 (Game.emitters g) x y);
        [apply Hv; reflexivity | exact He].
  - split; [exact Hd | left; reflexivity].
Qed.

Lemma repeat_create_obstacle (n : nat) :
  forall (g : Game.t) (h : Host),
  exists os,
    fst (Game.repeat_body Game.create_obstacle n g h)
    = Game.with_obstacles (Game.obstacles g ++ os) g /\
    (List.length os <= n)%nat /\
    Forall (clear_of_emitters (Game.emitters g)) os /\
    dice_only h (snd (Game.repeat_body Game.create_obstacle n g h)).
Proof.
  induction n as [| k IH]; intros g h; cbn [Game.repeat_body].
  - exists []. rewrite app_nil_r, Game_with_obstacles_id. cbn [fst snd].
    repeat split; [reflexivity | constructor | apply dice_only_refl].
  - destruct (create_obstacle_spec g h) as [Hd Hg].
    destruct (Game.create_obstacle g h) as [g1 h1]. cbn [fst snd] in Hd, Hg.
    destruct (IH g1 h1) as (os & Hg' & Hlen & Hf & Hd').
    destruct Hg as [-> | (o & -> & Ho)].
    + exists os. rewrite Hg'.
      repeat split; [lia | exact Hf |].
      eapply dice_only_trans; eassumption.
    + exists (o :: os). rewrite Hg'.
      cbn [Game.obstacles Game.with_obstacles Game.emitters] in *.
      rewrite <- app_assoc. cbn [app List.length].
      repeat split; [lia | constructor; assumption |].
      eapply dice_only_trans; eassumption.
Qed.

Lemma create_collectionPoint_spec (g : Game.t) (h : Host) :
  dice_only h (snd (Game.create_collectionPoint g h)) /\
  (fst (Game.create_collectionPoint g h) = g \/
   exists c,
     fst (Game.create_collectionPoint g h)
     = Game.with_collectionPoints (Game.collectionPoints g ++ [c]) g /\
     fresh_point (Game.level g) c).
Proof.
  unfold Game.create_collectionPoint.
  match goal with |- context [Game.find_position ?v ?n ?w ?hg ?hs] =>
    destruct (find_position_spec v n w hg hs) as [Hd _];
    destruct (Game.find_position v n w hg hs) as [[[x y] |] h1] end;
    cbn [fst snd] in *.
  - roll_step h1 u1 h2 H2. roll_step h2 u2 h3 H3.
    unfold CollectionPoint.new. destruct (draw (dice h3)) as [u d].
    cbn [fst snd]. split.
    + apply dice_only_with_dice.
      repeat (eapply dice_only_trans; [eassumption |]). apply dice_only_refl.
    + right. eexists. split; [reflexivity |].
      split; reflexivity.
  - split; [exact Hd | left; reflexivity].
Qed.

Lemma repeat_create_collectionPoint (n : nat) :
  forall (g : Game.t) (h : Host),
  exists cs,
    fst (Game.repeat_body Game.create_collectionPoint n g h)
    = Game.with_collectionPoints (Game.collectionPoints g ++ cs) g /\
    (List.length cs <= n)%nat /\
    Forall (fresh_point (Game.level g)) cs /\
    dice_only h (snd (Game.repeat_body Game.create_collectionPoint n g h)).
Proof.
  induction n as [| k IH]; intros g h; cbn [Game.repeat_body].
  - exists []. rewrite app_nil_r, Game_with_collectionPoints_id.
    cbn [fst snd].
    repeat split; [reflexivity | constructor | apply dice_only_refl].
  - destruct (create_collectionPoint_spec g h) as [Hd Hg].
    destruct (Game.create_collectionPoint g h) as [g1 h1].
    cbn [fst snd] in Hd, Hg.
    destruct (IH g1 h1) as (cs & Hg' & Hlen & Hf & Hd').
    destruct Hg as [-> | (c & -> & Hc)].
    + exists cs. rewrite Hg'.
      repeat split; [lia | exact Hf |].
      eapply dice_only_trans; eassumption.
    + exists (c :: cs). rewrite Hg'.
      cbn [Game.collectionPoints Game.with_collectionPoints Game.level] in *.
      rewrite <- app_assoc. cbn [app List.length].
      repeat split; [lia | constructor; assumption |].
      eapply dice_only_trans; eassumption.
Qed.

(** [createLevel] appends its emitters to those that the game already
    has, and replaces the obstacles and the collection points. *)
Lemma createLevel_spec (g : Game.t) (h : Host) :
  exists es os cs,
    fst (Game.createLevel g h)
    = Game.with_collectionPoints cs
        (Game.with_obstacles os
           (Game.with_emitters (Game.emitters g ++ es) g)) /\
    List.length es = Z.to_nat (Z.min (1 + Game.level g / 3) 3) /\
    Forall (fresh_emitter (Game.level g)) es /\
    (List.length os
     <= Z.to_nat (Game.obstacleCount g + Game.level g / 2))%nat /\
    Forall (clear_of_emitters (Game.emitters g ++ es)) os /\
    (List.length cs
     <= Z.to_nat (Game.collectionPointCount g + Game.level g / 3))%nat /\
    Forall (fresh_point (Game.level g)) cs /\
    dice_only h (snd (Game.createLevel g h)).
Proof.
  unfold Game.createLevel.
  destruct (for_index_create_emitter (Z.min (1 + Game.level g / 3) 3)
              (Z.to_nat (Z.min (1 + Game.level g / 3) 3)) 0 g h)
    as (es & Hg1 & Hlen & Hfe & Hd1).
  destruct (Game.for_index _ _ _ _ _) as [g1 h1]. cbn [fst snd] in Hg1, Hd1.
  subst g1. cbn [Game.obstacleCount Game.level Game.with_emitters].
  match goal with |- context [Game.repeat_body Game.create_obstacle ?n ?x ?y] =>
    destruct (repeat_create_obstacle n x y) as (os & Hg2 & Hlo & Hfo & Hd2);
    destruct (Game.repeat_body Game.create_obstacle n x y) as [g2 h2] end.
  cbn [fst snd] in Hg2, Hd2. subst g2.
  cbn [Game.collectionPointCount Game.level Game.with_emitters
       Game.with_obstacles Game.obstacles Game.emitters app] in *.
  match goal with
  |- context [Game.repeat_body Game.create_collectionPoint ?n ?x ?y] =>
    destruct (repeat_create_collectionPoint n x y)
      as (cs & Hg3 & Hlc & Hfc & Hd3) end.
  exists es, os, cs. rewrite Hg3. split; [reflexivity |].
  cbn [Game.level Game.with_collectionPoints Game.with_obstacles
       Game.with_emitters] in Hfc.
  repeat split; try assumption.
  eapply dice_only_trans; [exact Hd1 |].
  eapply dice_only_trans; [exact Hd2 | exact Hd3].
Qed.

(** When the sampled rectangle has no valid position, no obstacle is
    added, and nothing is raised: the loop just goes on. *)
Lemma repeat_create_obstacle_blocked (n : nat) :
  forall (g : Game.t) (h : Host),
  (forall u1 u2,
     Game.far_from_emitters 150 (Game.emitters g)
       (random_between u1 50 (Game.width g - 50))
       (random_between u2 50 (Game.height g - 50)) = false) ->
  fst (Game.repeat_body Game.create_obstacle n g h) = g.
Proof.
  induction n as [| k IH]; intros g h Hv; cbn [Game.repeat_body];
    [reflexivity |].
  unfold Game.create_obstacle at 1.
  pose proof (find_position_exhausted _ 50 _ _ Hv h) as Hn.
  destruct (Game.find_position _ _ _ _ _) as [pos h1]. cbn [fst] in Hn.
  subst pos. apply IH. exact Hv.
Qed.

Lemma Rmin_same (r : R) : Rmin r r = r.
Proof. unfold Rmin. destruct (Rle_dec r r); reflexivity. Qed.

(** On a canvas of 100 by 100 the sampled rectangle is the single point
    (50, 50), which is 30 units from the emitter of level 1: the level
    has no obstacle although three are requested. *)
Lemma small_canvas_has_no_obstacle (h : Host) :
  Game.obstacles (fst (Game.createLevel small_game h)) = [] /\
  Z.to_nat (Game.obstacleCount small_game + Game.level small_game / 2)
  = 3%nat.
Proof.
  split; [| reflexivity].
  unfold Game.createLevel.
  change (Z.to_nat (Z.min (1 + Game.level small_game / 3) 3)) with 1%nat.
  cbn [Game.for_index].
  destruct (create_emitter_spec
              (Z.min (1 + Game.level small_game / 3) 3) 0 small_game h)
    as (e & Hg & _ & Hx & Hy & _).
  destruct (Game.create_emitter _ 0 small_game h) as [g1 h1].
  cbn [fst] in Hg. subst g1.
  cbn [Game.obstacleCount Game.level Game.with_emitters].
  match goal with
  |- context [Game.repeat_body Game.create_obstacle ?n ?x ?y] =>
    pose proof (repeat_create_obstacle_blocked n x y) as Hb;
    destruct (Game.repeat_body Game.create_obstacle n x y) as [g2 h2] end.
  cbn [fst] in Hb. rewrite Hb.
  - match goal with
    |- context [Game.repeat_body Game.create_collectionPoint ?n ?x ?y] =>
      destruct (repeat_create_collectionPoint n x y) as (cs & -> & _) end.
    reflexivity.
  - intros u1 u2.
    cbn [Game.emitters Game.with_obstacles Game.with_emitters Game.width
         Game.height small_game Game.new app].
    unfold Game.far_from_emitters. cbn [forallb].
    replace (random_between u1 50 (100 - 50)) with 50
      by (unfold random_between; ring).
    replace (random_between u2 50 (100 - 50)) with 50
      by (unfold random_between; ring).
    cbn [Game.width Game.height small_game Game.new] in Hx, Hy.
    replace (INR 0 / IZR (Z.min (1 + Game.level small_game / 3) 3) * PI * 2)
      with 0 in Hx, Hy by (simpl; unfold Rdiv; ring).
    rewrite cos_0, Rmin_same in Hx. rewrite sin_0, Rmin_same in Hy.
    rewrite Hx, Hy.
    rewrite Rltb_true; [reflexivity |].
    apply Rle_lt_trans with 30; [| lra].
    apply distance_le; lra.
Qed.

(** C9.  After [createLevel], every obstacle of the level is at least
    150 units from every emitter of the game; the level has at most the
    requested number of obstacles, and can have fewer: an obstacle whose
    50 attempts fail is left out and the generation goes on. *)
Theorem obstacles_clear_of_emitters :
  (forall (g : Game.t) (h : Host),
     let g' := fst (Game.createLevel g h) in
     (forall o e, In o (Game.obstacles g') -> In e (Game.emitters g') ->
        150 <= distance (Obstacle.x o) (Obstacle.y o)
                        (ParticleEmitter.x e) (ParticleEmitter.y e)) /\
     (List.length (Game.obstacles g')
      <= Z.to_nat (Game.obstacleCount g + Game.level g / 2))%nat) /\
  (forall h : Host,
     Game.obstacles (fst (Game.createLevel small_game h)) = [] /\
     Z.to_nat (Game.obstacleCount small_game + Game.level small_game / 2)
     = 3%nat).
Proof.
  split; [| exact small_canvas_has_no_obstacle].
  intros g h g'. subst g'.
  destruct (createLevel_spec g h)
    as (es & os & cs & -> & _ & _ & Hlen & Hclear & _).
  cbn [Game.obstacles Game.emitters Game.with_collectionPoints
       Game.with_obstacles Game.with_emitters].
  split; [| exact Hlen].
  intros o e Ho He. rewrite Forall_forall in Hclear.
  exact (Hclear o Ho e He).
Qed.

(* ================================================================= *)
(** ** The score over a tick (C10) *)

Lemma maybe_spawn_id (g : Game.t) (h : Host) :
  Game.maybe_spawn g h = (g, snd (roll h)).
Proof.
  unfold Game.maybe_spawn. destruct (roll h) as [u h1]. reflexivity.
Qed.

Lemma collect_value (c : CollectionPoint.t) :
  CollectionPoint.value (snd (CollectionPoint.collect c))
  = CollectionPoint.value c /\
  CollectionPoint.collected (snd (CollectionPoint.collect c)) = true /\
  fst (CollectionPoint.collect c)
  = (if CollectionPoint.collected c then 0 else CollectionPoint.value c)%Z.
Proof.
  unfold CollectionPoint.collect.
  destruct (CollectionPoint.collected c) eqn:E; simpl; auto.
Qed.

Lemma collection_tests_score (a : addr) (px py : R) (mult : bool)
  (cs : list CollectionPoint.t) :
  forall (s : Z) (h : Host),
  Forall (fun c => (0 <= CollectionPoint.value c)%Z) cs ->
  let '(cs', s', _) := Game.collection_tests a px py mult cs s h in
  Forall (fun c => (0 <= CollectionPoint.value c)%Z) cs' /\ (s <= s')%Z.
Proof.
  induction cs as [| c cs IH]; intros s h Hf; cbn [Game.collection_tests].
  - split; [constructor | lia].
  - inversion Hf as [| c0 cs0 Hc Hcs]; subst.
    destruct (CollectionPoint.checkCollision px py c).
    + destruct (collect_value c) as (Hv & _ & Hg).
      destruct (CollectionPoint.collect c) as [value c'].
      cbn [fst snd] in Hv, Hg.
      match goal with
      |- context [Game.collection_tests a px py mult cs ?s1 ?h1] =>
        specialize (IH s1 h1 Hcs);
        destruct (Game.collection_tests a px py mult cs s1 h1)
          as [[cs' s'] h''] end.
      destruct IH as [IH1 IH2]. split.
      * constructor; [rewrite Hv; exact Hc | exact IH1].
      * assert (0 <= value)%Z
          by (rewrite Hg; destruct (CollectionPoint.collected c); lia).
        destruct mult; lia.
    + match goal with
      |- context [Game.collection_tests a px py mult cs ?s1 ?h1] =>
        specialize (IH s1 h1 Hcs);
        destruct (Game.collection_tests a px py mult cs s1 h1)
          as [[cs' s'] h''] end.
      destruct IH as [IH1 IH2]. split; [constructor; assumption | exact IH2].
Qed.

(** The fields that decide the score are not touched by the power-up
    loop, nor by the emitter loop. *)
Lemma powerUp_tests_fields (a : addr) (px py : R) (todo : list PowerUp.t) :
  forall (done : list PowerUp.t) (g : Game.t) (h : Host),
  let g' := fst (Game.powerUp_tests a px py done todo g h) in
  Game.score g' = Game.score g /\ Game.level g' = Game.level g /\
  Game.collectionPoints g' = Game.collectionPoints g /\
  Game.particles g' = Game.particles g /\
  Game.width g' = Game.width g /\ Game.height g' = Game.height g.
Proof.
  induction todo as [| p todo IH]; intros done g h;
    cbn [Game.powerUp_tests].
  - cbn. repeat split.
  - destruct (PowerUp.checkCollision px py p); [| apply IH].
    destruct (PowerUp.collect p) as [[[ty du] |] p']; [| apply IH].
    unfold Game.activatePowerUp.
    match goal with |- context [Game.powerUp_tests a px py ?d todo ?x ?y] =>
      destruct (IH d x y) as (H1 & H2 & H3 & H4 & H5 & H6) end.
    cbv zeta. rewrite H1, H2, H3, H4, H5, H6. cbn. repeat split.
Qed.

Lemma update_emitters_fields (paths : list Path.t)
  (todo : list ParticleEmitter.t) :
  forall (done : list ParticleEmitter.t) (g : Game.t) (h : Host),
  let '(_, g', _) := Game.update_emitters paths done todo g h in
  Game.score g' = Game.score g /\ Game.level g' = Game.level g /\
  Game.collectionPoints g' = Game.collectionPoints g.
Proof.
  induction todo as [| e todo IH]; intros done g h;
    cbn [Game.update_emitters].
  - cbn. auto.
  - destruct (ParticleEmitter.emit e h) as [[[l | ex] e1] h1]; [| cbn; auto].
    destruct (ParticleEmitter.update _ _ _ _ e1 h1) as [[[[] | ex] e2] h2];
      [| cbn; auto].
    match goal with |- context [Game.update_emitters paths ?d todo ?x ?y] =>
      specialize (IH d x y);
      destruct (Game.update_emitters paths d todo x y) as [[r g'] h'] end.
    exact IH.
Qed.

Lemma update_particle_score (paths : list Path.t) (i : nat) (g : Game.t)
  (h : Host) :
  well_formed g ->
  let '(_, g', _) := Game.update_particle paths i g h in
  well_formed g' /\ (Game.score g <= Game.score g')%Z.
Proof.
  intros [Hl Hv]. unfold Game.update_particle.
  destruct (nth_error (Game.particles g) i) as [a |];
    [| split; [split; assumption | lia]].
  destruct (load a h) as [p |]; [| split; [split; assumption | lia]].
  destruct (if Game.a_magnet (Game.activePowerUps g) then _ else _)
    as [p2 | ex]; [| split; [split; assumption | lia]].
  destruct (Particle.update paths (Game.obstacles g) p2) as [p3 | ex];
    [| split; [split; assumption | lia]].
  destruct (if negb (Game.a_shield (Game.activePowerUps g)) then _ else _)
    as [hit h2].
  match goal with |- context [Game.collection_tests ?a ?x ?y ?m ?cs ?s ?hh] =>
    pose proof (collection_tests_score a x y m cs s hh Hv) as Hc;
    destruct (Game.collection_tests a x y m cs s hh) as [[cs' s'] h3] end.
  destruct Hc as [Hc1 Hc2].
  match goal with |- context [Game.powerUp_tests ?a ?x ?y ?d ?t ?gg ?hh] =>
    pose proof (powerUp_tests_fields a x y t d gg hh) as Hp;
    destruct (Game.powerUp_tests a x y d t gg hh) as [g2 h4] end.
  cbn [fst] in Hp. destruct Hp as (H1 & H2 & H3 & _).
  cbn [Game.score Game.level Game.collectionPoints Game.with_score
       Game.with_collectionPoints] in H1, H2, H3.
  destruct (negb _ || _);
    (split; [split |];
     cbn [Game.score Game.level Game.collectionPoints Game.with_particles];
     congruence || (rewrite ?H1, ?H2, ?H3; assumption)).
Qed.

Lemma update_particles_score (paths : list Path.t) (n : nat) :
  forall (g : Game.t) (h : Host),
  well_formed g ->
  let '(_, g', _) := Game.update_particles paths n g h in
  well_formed g' /\ (Game.score g <= Game.score g')%Z.
Proof.
  induction n as [| i IH]; intros g h Hw; cbn [Game.update_particles].
  - split; [exact Hw | lia].
  - pose proof (update_particle_score paths i g h Hw) as H1.
    destruct (Game.update_particle paths i g h) as [[[[] | ex] g1] h1];
      [| exact H1].
    destruct H1 as [Hw1 Hs1]. specialize (IH g1 h1 Hw1).
    destruct (Game.update_particles paths i g1 h1) as [[r g2] h2].
    destruct IH as [Hw2 Hs2]. split; [exact Hw2 | lia].
Qed.

Lemma CollectionPoint_update_fields (c : CollectionPoint.t) :
  CollectionPoint.value (CollectionPoint.update c) = CollectionPoint.value c
  /\ CollectionPoint.collected (CollectionPoint.update c)
     = CollectionPoint.collected c.
Proof.
  unfold CollectionPoint.update. destruct (negb _ || _); simpl; auto.
Qed.

Lemma update_entities_score (g : Game.t) :
  well_formed g ->
  well_formed (Game.update_entities g) /\
  Game.score (Game.update_entities g) = Game.score g.
Proof.
  intros [Hl Hv]. unfold Game.update_entities. cbn. split; [| reflexivity].
  split; [exact Hl |].
  rewrite Forall_forall in *. intros c Hc.
  apply in_map_iff in Hc. destruct Hc as (c0 & <- & Hc0).
  destruct (CollectionPoint_update_fields c0) as [-> _]. apply Hv, Hc0.
Qed.

(** The bonus of a level is positive, and the points of the new level
    have a positive value. *)
Lemma nextLevel_score (g : Game.t) (h : Host) :
  well_formed g ->
  well_formed (fst (Game.nextLevel g h)) /\
  Game.score (fst (Game.nextLevel g h))
  = (Game.score g + 100 * (Game.level g + 1))%Z.
Proof.
  intros [Hl Hv]. unfold Game.nextLevel.
  match goal with |- context [Game.createLevel ?x ?y] =>
    destruct (createLevel_spec x y)
      as (es & os & cs & Hg & _ & _ & _ & _ & _ & Hcs & _);
    destruct (Game.createLevel x y) as [g3 h3] end.
  cbn [fst] in Hg. subst g3.
  cbn [fst Game.level Game.score Game.collectionPoints Game.with_score
       Game.with_collectionPoints Game.with_obstacles Game.with_emitters
       Game.with_difficulty Game.with_level] in Hcs |- *.
  split; [| reflexivity]. split; [simpl; lia |]. simpl.
  rewrite Forall_forall in *. intros c Hc.
  destruct (Hcs c Hc) as [_ ->]. cbn [js_orZ].
  assert (0 <= (Game.level g + 1) / 2)%Z by (apply Z.div_pos; lia).
  destruct (_ =? 0)%Z; lia.
Qed.

Lemma finish_tick_score (g : Game.t) (h : Host) :
  well_formed g ->
  well_formed (fst (Game.finish_tick g h)) /\
  (Game.score g <= Game.score (fst (Game.finish_tick g h)))%Z.
Proof.
  intros Hw. unfold Game.finish_tick.
  destruct (update_entities_score g Hw) as [Hw1 Hs1].
  rewrite maybe_spawn_id. unfold Game.check_level.
  assert (Hgo : forall g0 h0,
             well_formed g0 ->
             well_formed (fst (Game.check_gameOver g0 h0)) /\
             Game.score (fst (Game.check_gameOver g0 h0)) = Game.score g0).
  { intros g0 h0 Hw0. unfold Game.check_gameOver.
    destruct (_ =? _)%nat; [| auto].
    destruct (negb _); auto. }
  destruct (Game.level_complete (Game.update_entities g)).
  - destruct (nextLevel_score (Game.update_entities g)
                (log EvLevelCheck (snd (roll h))) Hw1) as [Hw2 Hs2].
    destruct (Game.nextLevel _ _) as [g3 h3]. cbn [fst] in Hw2, Hs2.
    destruct (Hgo g3 h3 Hw2) as [Hw3 Hs3].
    split; [exact Hw3 |]. rewrite Hs3, Hs2, Hs1.
    destruct Hw1 as [Hl _]. lia.
  - destruct (Hgo (Game.update_entities g)
                  (log EvLevelCheck (snd (roll h))) Hw1) as [Hw3 Hs3].
    split; [exact Hw3 |]. rewrite Hs3, Hs1. lia.
Qed.

(** C10.  From a game whose level is positive and whose collection
    points have no negative value, a tick, whether it returns or throws,
    leaves such a game, and the score that it leaves is at least the
    score that it found. *)
Theorem score_never_decreases (g : Game.t) (h : Host) :
  well_formed g ->
  let '(_, g', _) := Game.update g h in
  well_formed g' /\ (Game.score g <= Game.score g')%Z.
Proof.
  intros Hw. unfold Game.update.
  destruct (negb (Game.isPlaying g) || Game.isPaused g);
    [split; [exact Hw | lia] |].
  set (g0 := Game.with_input _ g).
  assert (Hw0 : well_formed g0) by exact Hw.
  assert (Hs0 : Game.score g0 = Game.score g) by reflexivity.
  rewrite <- Hs0. clearbody g0. clear Hs0 Hw.
  pose proof (update_emitters_fields
                (InputHandler.getActivePaths (Game.input g0)) (Game.emitters g0)
                [] g0 h) as H1.
  destruct (Game.update_emitters _ [] (Game.emitters g0) g0 h)
    as [[r1 g1] h1].
  destruct H1 as (Hs1 & Hl1 & Hc1).
  assert (Hw1 : well_formed g1)
    by (destruct Hw0; split; [rewrite Hl1 | rewrite Hc1]; assumption).
  destruct r1 as [[] | ex]; [| split; [exact Hw1 | lia]].
  pose proof (update_particles_score
                (InputHandler.getActivePaths (Game.input g0))
                (List.length (Game.particles g1)) g1 h1 Hw1) as H2.
  destruct (Game.update_particles _ _ g1 h1) as [[r2 g2] h2].
  destruct H2 as [Hw2 Hs2].
  destruct r2 as [[] | ex]; [| split; [exact Hw2 | lia]].
  destruct (finish_tick_score g2 h2 Hw2) as [Hw3 Hs3].
  destruct (Game.finish_tick g2 h2) as [g3 h3]. cbn [fst] in Hw3, Hs3.
  split; [exact Hw3 | lia].
Qed.

Lemma overlap_game_well_formed : well_formed overlap_game.
Proof.
  split; [cbn; lia |].
  repeat constructor; cbn; lia.
Qed.

Lemma score_never_decreases_witness :
  let '(_, g', _) :=
    Game.update overlap_game (one_particle_host (resting_particle 0 0)) in
  well_formed g' /\ (Game.score overlap_game <= Game.score g')%Z.
Proof.
  apply (score_never_decreases overlap_game
           (one_particle_host (resting_particle 0 0))).
  exact overlap_game_well_formed.
Defined.

(** [start] makes such a game, with a score of 0. *)
Lemma start_well_formed (g : Game.t) (h : Host) :
  Game.isPlaying g = false ->
  well_formed (fst (Game.start g h)) /\
  Game.score (fst (Game.start g h)) = 0%Z.
Proof.
  intros Hp. unfold Game.start. rewrite Hp.
  match goal with |- context [Game.createLevel ?x ?y] =>
    destruct (createLevel_spec x y)
      as (es & os & cs & -> & _ & _ & _ & _ & _ & Hcs & _) end.
  cbn [fst Game.level Game.with_collectionPoints Game.with_obstacles
       Game.with_emitters] in Hcs.
  split; [| reflexivity]. split; [simpl; lia |]. simpl.
  rewrite Forall_forall in *. intros c Hc.
  destruct (Hcs c Hc) as [_ ->]. simpl. lia.
Qed.

(** The time-outs change no score and no collection point. *)
Lemma advance_score (now : Z) (g : Game.t) (h : Host) :
  well_formed g ->
  well_formed (fst (Game.advance now g h)) /\
  Game.score (fst (Game.advance now g h)) = Game.score g.
Proof. intros Hw. split; [exact Hw | reflexivity]. Qed.

(* ================================================================= *)
(** ** The level-complete transition (C8) *)

Lemma level_complete_update_entities (g : Game.t) :
  Game.level_complete (Game.update_entities g) = Game.level_complete g.
Proof.
  unfold Game.level_complete, Game.update_entities.
  cbn [Game.collectionPoints Game.with_powerUps Game.with_collectionPoints
       Game.with_obstacles].
  induction (Game.collectionPoints g) as [| c cs IH]; [reflexivity |].
  cbn [map forallb]. rewrite IH.
  destruct (CollectionPoint_update_fields c) as [_ ->]. reflexivity.
Qed.


Lemma nextLevel_spec (g : Game.t) (h : Host) :
  exists es os cs,
    fst (Game.nextLevel g h)
    = Game.with_score (Game.score g + 100 * (Game.level g + 1))%Z
        (Game.with_collectionPoints cs
           (Game.with_obstacles os
              (Game.with_emitters (Game.emitters g ++ es)
                 (Game.with_difficulty
                    (Game.particleSpeed g * 1.1) (Game.spawnRate g * 1.1)
                    (Rmin (Game.powerUpChance g * 1.05) 0.05)
                    (Game.with_level (Game.level g + 1)%Z g))))) /\
    List.length es = Z.to_nat (Z.min (1 + (Game.level g + 1) / 3) 3) /\
    Forall (fresh_emitter (Game.level g + 1)) es /\
    Forall (clear_of_emitters (Game.emitters g ++ es)) os /\
    Forall (fresh_point (Game.level g + 1)) cs /\
    dice_only h (snd (Game.nextLevel g h)).
Proof.
  unfold Game.nextLevel.
  match goal with |- context [Game.createLevel ?x ?y] =>
    destruct (createLevel_spec x y)
      as (es & os & cs & Hg & Hlen & Hfe & _ & Hfo & _ & Hfc & Hd);
    destruct (Game.createLevel x y) as [g3 h3] end.
  cbn [fst snd] in Hg, Hd. subst g3.
  exists es, os, cs. repeat split; assumption.
Qed.



(* ================================================================= *)
(** ** Collections of one particle in one tick (C5) *)

Lemma logs_nil (h : Host) : logs [] h = h.
Proof. destruct h. unfold logs. cbn. rewrite app_nil_r. reflexivity. Qed.

Lemma logs_log (ev : event) (evs : list event) (h : Host) :
  logs evs (log ev h) = logs (ev :: evs) h.
Proof. unfold logs, log. cbn. rewrite <- app_assoc. reflexivity. Qed.

(** The collection loop visits every point, without a [break]. *)
Lemma collection_tests_closed (a : addr) (px py : R) (mult : bool)
  (cs : list CollectionPoint.t) :
  forall (s : Z) (h : Host),
  Game.collection_tests a px py mult cs s h
  = (map (collect_if_hit px py) cs,
     (s + total_gain mult px py cs)%Z,
     logs (repeat (EvCollectionTest a) (List.length cs)) h).
Proof.
  induction cs as [| c cs IH]; intros s h; cbn [Game.collection_tests].
  - cbn. rewrite logs_nil, Z.add_0_r. reflexivity.
  - unfold total_gain. cbn [map fold_right List.length repeat].
    fold (total_gain mult px py cs).
    unfold collect_if_hit at 1, gain at 1.
    destruct (CollectionPoint.checkCollision px py c).
    + destruct (CollectionPoint.collect c) as [value c']. cbn [fst snd].
      rewrite IH, logs_log. do 2 f_equal. destruct mult; lia.
    + rewrite IH, logs_log. do 2 f_equal.
Qed.

Lemma obstacle_tests_closed (a : addr) (px py : R) (os : list Obstacle.t) :
  forall h : Host,
  exists k, (k <= List.length os)%nat /\
    Game.obstacle_tests a px py os h
    = (existsb (Obstacle.checkCollision px py) os,
       logs (repeat (EvObstacleTest a) k) h).
Proof.
  induction os as [| o os IH]; intros h; cbn [Game.obstacle_tests existsb].
  - exists 0%nat. cbn [repeat]. rewrite logs_nil. split; [lia | reflexivity].
  - destruct (Obstacle.checkCollision px py o).
    + exists 1%nat. cbn. split; [lia | reflexivity].
    + destruct (IH (log (EvObstacleTest a) h)) as (k & Hk & ->).
      exists (S k). rewrite logs_log. cbn. split; [lia | reflexivity].
Qed.

(** The power-up loop changes neither the heap nor the points. *)
Lemma powerUp_tests_host (a : addr) (px py : R) (todo : list PowerUp.t) :
  forall (done : list PowerUp.t) (g : Game.t) (h : Host),
  let h' := snd (Game.powerUp_tests a px py done todo g h) in
  heap h' = heap h /\ dice h' = dice h /\ clock h' = clock h /\
  trace h' = trace h ++ repeat (EvPowerUpTest a) (List.length todo).
Proof.
  induction todo as [| p todo IH]; intros done g h;
    cbn [Game.powerUp_tests List.length repeat].
  - cbn. rewrite app_nil_r. repeat split.
  - assert (Hstep : forall d g0 h0,
              heap h0 = heap h -> dice h0 = dice h -> clock h0 = clock h ->
              trace h0 = trace h ++ [EvPowerUpTest a] ->
              let h' := snd (Game.powerUp_tests a px py d todo g0 h0) in
              heap h' = heap h /\ dice h' = dice h /\ clock h' = clock h /\
              trace h' = trace h ++ EvPowerUpTest a
                                    :: repeat (EvPowerUpTest a)
                                              (List.length todo)).
    { intros d g0 h0 H1 H2 H3 H4.
      destruct (IH d g0 h0) as (I1 & I2 & I3 & I4).
      cbv zeta. rewrite I1, I2, I3, I4, H1, H2, H3, H4, <- app_assoc.
      repeat split. }
    destruct (PowerUp.checkCollision px py p);
      [| apply Hstep; reflexivity].
    destruct (PowerUp.collect p) as [[[ty du] |] p'];
      [| apply Hstep; reflexivity].
    unfold Game.activatePowerUp. apply Hstep; reflexivity.
Qed.

Lemma load_store_same (a : addr) (p q : Particle.t) (h : Host) :
  load a h = Some q -> load a (store a p h) = Some p.
Proof.
  unfold load, store. cbn [heap with_heap].
  generalize (heap h). intros l. revert a.
  induction l as [| x l IH]; intros [| a]; cbn; try discriminate; auto.
Qed.

(** The body of the particle loop when it returns: what it leaves of the
    particle, of the collection points and of the score. *)
Lemma update_particle_collects (paths : list Path.t) (i : nat) (a : addr)
  (g : Game.t) (h : Host) (p p3 : Particle.t) :
  nth_error (Game.particles g) i = Some a ->
  load a h = Some p ->
  particle_physics paths g p = Normal p3 ->
  let p4 := if obstacle_hit g p3 then Particle.with_active false p3
            else p3 in
  let '(r, g', h') := Game.update_particle paths i g h in
  r = Normal tt /\
  load a h' = Some p4 /\
  Game.collectionPoints g'
  = map (collect_if_hit (Particle.x p3) (Particle.y p3))
        (Game.collectionPoints g) /\
  Game.score g'
  = (Game.score g
     + total_gain (Game.a_multiplier (Game.activePowerUps g))
                  (Particle.x p3) (Particle.y p3)
                  (Game.collectionPoints g))%Z.
Proof.
  intros Hi Hl Hp p4. unfold Game.update_particle. rewrite Hi, Hl.
  unfold particle_physics in Hp.
  destruct (if Game.a_magnet (Game.activePowerUps g) then _ else _)
    as [p2 | ex]; [| discriminate].
  cbn [obind] in Hp. rewrite Hp.
  assert (Hhit : exists h2,
            (if negb (Game.a_shield (Game.activePowerUps g))
             then Game.obstacle_tests a (Particle.x p3) (Particle.y p3)
                    (Game.obstacles g) (log (EvPhysics a) (store a p3 h))
             else (false, log (EvPhysics a) (store a p3 h)))
            = (obstacle_hit g p3, h2)
            /\ heap h2 = heap (store a p3 h)).
  { unfold obstacle_hit.
    destruct (negb (Game.a_shield (Game.activePowerUps g))).
    - destruct (obstacle_tests_closed a (Particle.x p3) (Particle.y p3)
                  (Game.obstacles g) (log (EvPhysics a) (store a p3 h)))
        as (k & _ & ->).
      eexists. split; reflexivity.
    - eexists. split; reflexivity. }
  destruct Hhit as (h2 & -> & Hh2).
  fold p4.
  assert (Hxy : Particle.x p4 = Particle.x p3 /\ Particle.y p4 = Particle.y p3)
    by (unfold p4; destruct (obstacle_hit g p3); split; reflexivity).
  destruct Hxy as [-> ->].
  rewrite collection_tests_closed.
  match goal with |- context [Game.powerUp_tests ?a ?x ?y ?d ?t ?gg ?hh] =>
    pose proof (powerUp_tests_fields a x y t d gg hh) as Hf;
    pose proof (powerUp_tests_host a x y t d gg hh) as Hh;
    destruct (Game.powerUp_tests a x y d t gg hh) as [g2 h4] end.
  cbn [fst snd] in Hf, Hh.
  destruct Hf as (Hs & _ & Hc & _). destruct Hh as (Hheap & _).
  assert (Hload : load a (log (EvPrune a) h4) = Some p4).
  { unfold load. cbn [log heap]. rewrite Hheap. cbn [logs heap store with_heap].
    rewrite Hh2. apply (load_store_same a p4 p3 (store a p3 h)).
    apply (load_store_same a p3 p h Hl). }
  destruct (negb (Particle.active p4) || _);
    (split; [reflexivity |]; split; [exact Hload |];
     cbn [Game.collectionPoints Game.score Game.with_particles];
     rewrite Hs, Hc; split; reflexivity).
Qed.

Lemma finish_tick_no_transition (g : Game.t) (h : Host) :
  Game.level_complete g = false ->
  Game.collectionPoints (fst (Game.finish_tick g h))
  = map CollectionPoint.update (Game.collectionPoints g) /\
  Game.score (fst (Game.finish_tick g h)) = Game.score g /\
  Game.level (fst (Game.finish_tick g h)) = Game.level g.
Proof.
  intros Hc. unfold Game.finish_tick. rewrite maybe_spawn_id.
  unfold Game.check_level. rewrite level_complete_update_entities, Hc.
  unfold Game.check_gameOver.
  destruct (_ =? _)%nat; [destruct (negb _) |]; repeat split.
Qed.

(** The position of the resting particle after its physics step. *)
Lemma resting_particle_distance (cx : R) :
  0 <= cx ->
  distance (0 + 0 * 1 * 0.98) (0 + (0 * 1 + 0) * 0.98) cx 0 = cx.
Proof.
  intros H.
  replace (0 + 0 * 1 * 0.98) with 0 by lra.
  replace (0 + (0 * 1 + 0) * 0.98) with 0 by lra.
  rewrite distance_on_x_axis; lra.
Qed.

(** C5 fails as stated: the particle of [overlap_game] is inside two
    uncollected collection points; after the tick both are collected
    and the score has grown by the two values. *)
Lemma one_particle_collects_two_points :
  let '(_, g', _) :=
    Game.update overlap_game (one_particle_host (resting_particle 0 0)) in
  List.length (Game.particles overlap_game) = 1%nat /\
  map CollectionPoint.collected (Game.collectionPoints overlap_game)
  = [false; false; false] /\
  map CollectionPoint.collected (Game.collectionPoints g')
  = [true; true; false] /\
  Game.score overlap_game = 0%Z /\
  Game.score g' = 20%Z.
Proof.
  unfold Game.update.
  change (negb (Game.isPlaying overlap_game) || Game.isPaused overlap_game)
    with false. cbv iota.
  set (g0 := Game.with_input _ overlap_game).
  change (InputHandler.getActivePaths (Game.input g0)) with (@nil Path.t).
  change (Game.update_emitters [] [] (Game.emitters g0) g0
            (one_particle_host (resting_particle 0 0)))
    with (@Normal unit tt, Game.with_emitters [] g0,
          one_particle_host (resting_particle 0 0)).
  cbv iota beta.
  change (List.length (Game.particles (Game.with_emitters [] g0)))
    with 1%nat.
  cbn [Game.update_particles].
  pose proof (update_particle_collects [] 0 0%nat
                (Game.with_emitters [] g0)
                (one_particle_host (resting_particle 0 0))
                (resting_particle 0 0)
                (Particle.integrate
                   (Particle.with_speed (0 * 1) (0 * 1 + 0)
                      (Game.time_slow Game.no_powerUps
                                      (resting_particle 0 0))))
                eq_refl eq_refl eq_refl) as H.
  cbv zeta in H.
  destruct (Game.update_particle [] 0 (Game.with_emitters [] g0) _)
    as [[r g2] h2].
  destruct H as (-> & _ & Hc & Hs).
  cbn [Particle.x Particle.y Particle.integrate Particle.with_speed
       Particle.speedX Particle.speedY] in Hc, Hs.
  assert (Hcs : Game.collectionPoints g2
                = [snd (CollectionPoint.collect (target 0 0));
                   snd (CollectionPoint.collect (target 10 0));
                   target 1000 0]
                /\ Game.score g2 = 20%Z).
  { rewrite Hc, Hs.
    cbn [Game.collectionPoints Game.with_emitters g0 Game.with_input
         overlap_game one_particle_game map Game.score Game.activePowerUps
         Game.a_multiplier Game.no_powerUps].
    unfold total_gain, collect_if_hit, gain, CollectionPoint.checkCollision.
    cbn [map fold_right CollectionPoint.collected CollectionPoint.x
         CollectionPoint.y CollectionPoint.radius target negb andb].
    rewrite !resting_particle_distance by lra.
    rewrite (Rleb_true 0 20), (Rleb_true 10 20), (Rleb_false 1000 20) by lra.
    split; reflexivity. }
  destruct Hcs as [Hcs Hs2].
  destruct (finish_tick_no_transition g2 h2) as (Hf1 & Hf2 & _).
  { unfold Game.level_complete. rewrite Hcs. reflexivity. }
  destruct (Game.finish_tick g2 h2) as [g3 h3]. cbn [fst] in Hf1, Hf2.
  rewrite Hf1, Hf2, Hcs, Hs2.
  repeat split.
Qed.

Lemma collect_if_hit_spec (px py : R) (c : CollectionPoint.t) :
  collected_by px py c (collect_if_hit px py c).
Proof.
  unfold collected_by, collect_if_hit, CollectionPoint.checkCollision,
    CollectionPoint.collect.
  destruct (CollectionPoint.collected c) eqn:E; cbn [negb andb orb];
    [rewrite E; repeat split |].
  destruct (Rleb _ _); cbn; rewrite ?E; repeat split.
Qed.

Lemma total_gain_spec (mult : bool) (px py : R)
  (cs : list CollectionPoint.t) :
  total_gain mult px py cs
  = ((if mult then 2 else 1)
     * sum_values (filter (CollectionPoint.checkCollision px py) cs))%Z.
Proof.
  unfold total_gain, sum_values.
  induction cs as [| c cs IH]; cbn [map fold_right filter]; [lia |].
  rewrite IH. unfold gain.
  destruct (CollectionPoint.checkCollision px py c) eqn:E;
    cbn [map fold_right]; [| lia].
  destruct (collect_value c) as (_ & _ & ->).
  unfold CollectionPoint.checkCollision in E.
  destruct (CollectionPoint.collected c); [discriminate |].
  destruct mult; lia.
Qed.

(** C5, amended.  When the body of the particle loop returns for a
    particle, every collection point that was uncollected and whose
    circle contains the position that the physics step gave the particle
    has become collected, not only one of them; the other points are
    unchanged; the score has grown by the sum of the values of those
    points, doubled when Multiplier is active; and the particle is
    active exactly if its physics step left it active and the obstacle
    test did not hit: collecting does not deactivate it. *)
Theorem particle_collects_every_covering_point (paths : list Path.t)
  (i : nat) (a : addr) (g : Game.t) (h : Host) (p p3 : Particle.t) :
  nth_error (Game.particles g) i = Some a ->
  load a h = Some p ->
  particle_physics paths g p = Normal p3 ->
  let '(_, g', h') := Game.update_particle paths i g h in
  Forall2 (collected_by (Particle.x p3) (Particle.y p3))
          (Game.collectionPoints g) (Game.collectionPoints g') /\
  Game.score g'
  = (Game.score g
     + (if Game.a_multiplier (Game.activePowerUps g) then 2 else 1)
       * sum_values
           (filter (CollectionPoint.checkCollision (Particle.x p3)
                                                   (Particle.y p3))
                   (Game.collectionPoints g)))%Z /\
  exists p', load a h' = Some p' /\
    Particle.active p' = Particle.active p3 && negb (obstacle_hit g p3).
Proof.
  intros Hi Hl Hp.
  pose proof (update_particle_collects paths i a g h p p3 Hi Hl Hp) as H.
  cbv zeta in H.
  destruct (Game.update_particle paths i g h) as [[r g'] h'].
  destruct H as (_ & Hload & Hc & Hs).
  split; [| split].
  - rewrite Hc. clear.
    induction (Game.collectionPoints g) as [| c cs IH]; cbn [map];
      constructor; [apply collect_if_hit_spec | exact IH].
  - rewrite Hs, total_gain_spec. reflexivity.
  - eexists. split; [exact Hload |].
    destruct (obstacle_hit g p3); cbn;
      [rewrite andb_false_r | rewrite andb_true_r]; reflexivity.
Qed.

Lemma particle_collects_every_covering_point_witness :
  let p3 := Particle.integrate
              (Particle.with_speed (0 * 1) (0 * 1 + 0)
                 (Game.time_slow Game.no_powerUps (resting_particle 0 0))) in
  let '(_, g', h') :=
    Game.update_particle [] 0 overlap_game
                         (one_particle_host (resting_particle 0 0)) in
  Forall2 (collected_by (Particle.x p3) (Particle.y p3))
          (Game.collectionPoints overlap_game) (Game.collectionPoints g') /\
  Game.score g'
  = (Game.score overlap_game
     + (if Game.a_multiplier (Game.activePowerUps overlap_game)
        then 2 else 1)
       * sum_values
           (filter (CollectionPoint.checkCollision (Particle.x p3)
                                                   (Particle.y p3))
                   (Game.collectionPoints overlap_game)))%Z /\
  exists p', load 0%nat h' = Some p' /\
    Particle.active p'
    = Particle.active p3 && negb (obstacle_hit overlap_game p3).
Proof.
  intros p3.
  apply (particle_collects_every_covering_point [] 0 0%nat overlap_game
           (one_particle_host (resting_particle 0 0))
           (resting_particle 0 0) p3).
  - reflexivity.
  - reflexivity.
  - reflexivity.
Defined.

(** A tick of a game in play that returns has ended with that part, on
    a game of the same level. *)
Lemma update_particle_level (paths : list Path.t) (i : nat) (g : Game.t)
  (h : Host) :
  Game.level (snd (fst (Game.update_particle paths i g h))) = Game.level g.
Proof.
  unfold Game.update_particle.
  destruct (nth_error (Game.particles g) i) as [a |]; [| reflexivity].
  destruct (load a h) as [p |]; [| reflexivity].
  destruct (if Game.a_magnet (Game.activePowerUps g) then _ else _)
    as [p2 | ex]; [| reflexivity].
  destruct (Particle.update paths (Game.obstacles g) p2) as [p3 | ex];
    [| reflexivity].
  destruct (if negb (Game.a_shield (Game.activePowerUps g)) then _ else _)
    as [hit h2].
  rewrite collection_tests_closed.
  match goal with |- context [Game.powerUp_tests ?a ?x ?y ?d ?t ?gg ?hh] =>
    pose proof (powerUp_tests_fields a x y t d gg hh) as Hp;
    destruct (Game.powerUp_tests a x y d t gg hh) as [g2 h4] end.
  cbn [fst] in Hp. destruct Hp as (_ & Hl & _).
  destruct (negb _ || _); cbn [fst snd Game.level Game.with_particles];
    exact Hl.
Qed.

Lemma update_particles_level (paths : list Path.t) (n : nat) :
  forall (g : Game.t) (h : Host),
  Game.level (snd (fst (Game.update_particles paths n g h))) = Game.level g.
Proof.
  induction n as [| i IH]; intros g h; cbn [Game.update_particles];
    [reflexivity |].
  pose proof (update_particle_level paths i g h) as H1.
  destruct (Game.update_particle paths i g h) as [[[[] | ex] g1] h1];
    cbn [fst snd] in H1 |- *; [| exact H1].
  rewrite IH. exact H1.
Qed.

Lemma update_ends_with_finish_tick (g g' : Game.t) (h h' : Host) :
  Game.isPlaying g = true ->
  Game.isPaused g = false ->
  Game.update g h = (Normal tt, g', h') ->
  exists g2 h2,
    Game.finish_tick g2 h2 = (g', h') /\ Game.level g2 = Game.level g.
Proof.
  intros Hp Hq. unfold Game.update. rewrite Hp, Hq. cbn [negb orb].
  match goal with |- context [Game.update_emitters ?p ?d ?t ?x ?y] =>
    pose proof (update_emitters_fields p t d x y) as H1;
    destruct (Game.update_emitters p d t x y) as [[r1 g1] h1] end.
  destruct H1 as (_ & Hl1 & _).
  destruct r1 as [[] | ex]; [| discriminate].
  match goal with |- context [Game.update_particles ?p ?n ?x ?y] =>
    pose proof (update_particles_level p n x y) as H2;
    destruct (Game.update_particles p n x y) as [[r2 g2] h2] end.
  cbn [fst snd] in H2.
  destruct r2 as [[] | ex]; [| discriminate].
  destruct (Game.finish_tick g2 h2) as [g3 h3] eqn:E.
  intros [= <- <-]. exists g2, h2. split; [exact E |].
  rewrite H2, Hl1. reflexivity.
Qed.

(* ================================================================= *)
(** ** The order of the operations of a tick (C7) *)

Lemma Forall_repeat {A : Type} (P : A -> Prop) (x : A) (n : nat) :
  P x -> Forall P (repeat x n).
Proof. intros H. induction n; cbn; constructor; assumption. Qed.

(** [emit] logs nothing; the update of a pool logs physics steps only. *)
Lemma emit_one_trace (e : ParticleEmitter.t) (h : Host) :
  trace (snd (ParticleEmitter.emit_one e h)) = trace h.
Proof.
  unfold ParticleEmitter.emit_one.
  roll_step h u1 h1 H1. roll_step h1 u2 h2 H2.
  roll_step h2 u3 h3 H3. roll_step h3 u4 h4 H4.
  destruct (Particle.new _ _ _ _) as [p d].
  unfold alloc. cbn.
  rewrite (dice_only_trace _ _ H4), (dice_only_trace _ _ H3),
    (dice_only_trace _ _ H2), (dice_only_trace _ _ H1).
  reflexivity.
Qed.

Lemma emit_loop_trace (n : nat) :
  forall (l : list addr) (e : ParticleEmitter.t) (h : Host),
  trace (snd (ParticleEmitter.emit_loop n l e h)) = trace h.
Proof.
  induction n as [| k IH]; intros l e h; cbn [ParticleEmitter.emit_loop];
    [reflexivity |].
  destruct (_ <=? _)%Z; [reflexivity |].
  pose proof (emit_one_trace e h) as H1.
  destruct (ParticleEmitter.emit_one e h) as [[a e1] h1]. cbn [snd] in H1.
  rewrite IH. exact H1.
Qed.

Lemma emit_trace (e : ParticleEmitter.t) (h : Host) :
  trace (snd (ParticleEmitter.emit e h)) = trace h.
Proof.
  unfold ParticleEmitter.emit.
  destruct (negb _); [reflexivity |].
  destruct (Rleb _ _); cbn [increment]; [reflexivity |].
  match goal with |- context [ParticleEmitter.emit_loop ?n ?l ?x ?y] =>
    pose proof (emit_loop_trace n l x y) as H;
    destruct (ParticleEmitter.emit_loop n l x y) as [[l' e'] h'] end.
  exact H.
Qed.

Lemma update_from_trace (paths : list Path.t) (obstacles : list Obstacle.t)
  (w hgt : R) (i : nat) :
  forall (e : ParticleEmitter.t) (h : Host),
  exists evs,
    trace (snd (ParticleEmitter.update_from i paths obstacles w hgt e h))
    = trace h ++ evs /\ Forall is_physics evs.
Proof.
  induction i as [| j IH]; intros e h; cbn [ParticleEmitter.update_from].
  - exists []. rewrite app_nil_r. split; [reflexivity | constructor].
  - destruct (nth_error (ParticleEmitter.particles e) j) as [a |];
      [| apply IH].
    destruct (load a h) as [p |]; [| apply IH].
    destruct (Particle_update_normal paths obstacles p) as [p' ->].
    match goal with
    |- context [ParticleEmitter.update_from j _ _ _ _ ?x ?y] =>
      destruct (IH x y) as (evs & -> & Hf) end.
    exists (EvPhysics a :: evs). cbn. rewrite <- app_assoc.
    split; [reflexivity |]. constructor; [eexists; reflexivity | exact Hf].
Qed.

Lemma update_emitters_trace (paths : list Path.t)
  (todo : list ParticleEmitter.t) :
  forall (done : list ParticleEmitter.t) (g : Game.t) (h : Host),
  exists evs,
    trace (snd (Game.update_emitters paths done todo g h)) = trace h ++ evs
    /\ Forall is_physics evs.
Proof.
  induction todo as [| e todo IH]; intros done g h;
    cbn [Game.update_emitters].
  - exists []. rewrite app_nil_r. split; [reflexivity | constructor].
  - pose proof (emit_trace e h) as H1.
    destruct (ParticleEmitter.emit e h) as [[[l | ex] e1] h1];
      cbn [snd] in H1.
    + unfold ParticleEmitter.update.
      match goal with
      |- context [ParticleEmitter.update_from ?i ?p ?o ?w ?hg ?x ?y] =>
        destruct (update_from_trace p o w hg i x y) as (evs1 & H2 & Hf1);
        destruct (ParticleEmitter.update_from i p o w hg x y)
          as [[[[] | ex] e2] h2] end; cbn [snd] in H2.
      * match goal with
        |- context [Game.update_emitters paths ?d todo ?x ?y] =>
          destruct (IH d x y) as (evs2 & -> & Hf2) end.
        exists (evs1 ++ evs2). rewrite H2, H1, <- app_assoc.
        split; [reflexivity | apply Forall_app; split; assumption].
      * exists evs1. cbn [snd]. rewrite H2, H1. split; [reflexivity | exact Hf1].
    + exists []. cbn [snd]. rewrite H1, app_nil_r.
      split; [reflexivity | constructor].
Qed.

(** The body of the particle loop logs nothing or one block. *)
Lemma update_particle_trace (paths : list Path.t) (i : nat) (g : Game.t)
  (h : Host) :
  exists b,
    trace (snd (Game.update_particle paths i g h)) = trace h ++ b /\
    (b = [] \/
     particle_block b /\ fst (fst (Game.update_particle paths i g h))
                        = Normal tt).
Proof.
  unfold Game.update_particle.
  destruct (nth_error (Game.particles g) i) as [a |];
    [| exists []; rewrite app_nil_r; split; [reflexivity | left; reflexivity]].
  destruct (load a h) as [p |];
    [| exists []; rewrite app_nil_r; split; [reflexivity | left; reflexivity]].
  destruct (if Game.a_magnet (Game.activePowerUps g) then _ else _)
    as [p2 | ex];
    [| exists []; cbn; rewrite app_nil_r;
       split; [reflexivity | left; reflexivity]].
  destruct (Particle_update_normal paths (Game.obstacles g) p2) as [p3 ->].
  assert (Hhit : exists hit k,
            (if negb (Game.a_shield (Game.activePowerUps g))
             then Game.obstacle_tests a (Particle.x p3) (Particle.y p3)
                    (Game.obstacles g) (log (EvPhysics a) (store a p3 h))
             else (false, log (EvPhysics a) (store a p3 h)))
            = (hit, logs (repeat (EvObstacleTest a) k)
                         (log (EvPhysics a) (store a p3 h)))).
  { destruct (negb (Game.a_shield (Game.activePowerUps g))).
    - destruct (obstacle_tests_closed a (Particle.x p3) (Particle.y p3)
                  (Game.obstacles g) (log (EvPhysics a) (store a p3 h)))
        as (k & _ & ->).
      eexists; eexists; reflexivity.
    - exists false, 0%nat. cbn [repeat]. rewrite logs_nil. reflexivity. }
  destruct Hhit as (hit & k & ->).
  rewrite collection_tests_closed.
  match goal with |- context [Game.powerUp_tests ?a ?x ?y ?d ?t ?gg ?hh] =>
    pose proof (powerUp_tests_host a x y t d gg hh) as Hh;
    destruct (Game.powerUp_tests a x y d t gg hh) as [g2 h4] end.
  cbn [snd] in Hh. destruct Hh as (_ & _ & _ & Ht).
  exists (EvPhysics a
          :: (repeat (EvObstacleTest a) k
              ++ repeat (EvCollectionTest a)
                        (List.length (Game.collectionPoints g))
              ++ repeat (EvPowerUpTest a) (List.length (Game.powerUps g)))
          ++ [EvPrune a]).
  split.
  - cbn [snd fst log trace]. rewrite Ht.
    cbn [trace logs log store with_heap Game.powerUps Game.with_score
         Game.with_collectionPoints].
    rewrite <- !app_assoc. reflexivity.
  - right. split; [| reflexivity].
    exists a. eexists. split; [reflexivity |].
    apply Forall_app; split; [| apply Forall_app; split];
      apply Forall_repeat; unfold is_test_of; auto.
Qed.

Lemma update_particles_trace (paths : list Path.t) (n : nat) :
  forall (g : Game.t) (h : Host),
  exists blocks,
    trace (snd (Game.update_particles paths n g h))
    = trace h ++ List.concat blocks /\
    Forall particle_block blocks.
Proof.
  induction n as [| i IH]; intros g h; cbn [Game.update_particles].
  - exists []. cbn. rewrite app_nil_r. split; [reflexivity | constructor].
  - destruct (update_particle_trace paths i g h) as (b & Hb & Hcase).
    destruct (Game.update_particle paths i g h) as [[r g1] h1].
    cbn [fst snd] in Hb, Hcase.
    destruct r as [[] | ex].
    + destruct (IH g1 h1) as (blocks & -> & Hf).
      rewrite Hb. destruct Hcase as [-> | [Hblock _]].
      * exists blocks. rewrite app_nil_r. split; [reflexivity | exact Hf].
      * exists (b :: blocks). cbn [List.concat]. rewrite <- app_assoc.
        split; [reflexivity | constructor; assumption].
    + destruct Hcase as [-> | [_ Hr]]; [| discriminate].
      exists []. cbn [snd List.concat]. rewrite Hb. split; [reflexivity | constructor].
Qed.

Lemma finish_tick_trace (g : Game.t) (h : Host) :
  trace (snd (Game.finish_tick g h))
  = trace h ++ [EvLevelCheck; EvGameOverCheck].
Proof.
  unfold Game.finish_tick. rewrite maybe_spawn_id.
  pose proof (dice_only_trace _ _ (roll_dice_only h)) as Hr.
  unfold Game.check_level.
  assert (Hgo : forall g0 h0,
            trace (snd (Game.check_gameOver g0 h0))
            = trace h0 ++ [EvGameOverCheck]).
  { intros g0 h0. unfold Game.check_gameOver.
    destruct (_ =? _)%nat; [destruct (negb _) |]; reflexivity. }
  destruct (Game.level_complete (Game.update_entities g)).
  - destruct (nextLevel_spec (Game.update_entities g)
                (log EvLevelCheck (snd (roll h))))
      as (es & os & cs & _ & _ & _ & _ & _ & Hd).
    destruct (Game.nextLevel _ _) as [g3 h3]. cbn [snd] in Hd.
    rewrite Hgo, (dice_only_trace _ _ Hd). cbn [log trace].
    rewrite Hr, <- app_assoc. reflexivity.
  - rewrite Hgo. cbn [log trace]. rewrite Hr, <- app_assoc. reflexivity.
Qed.

(** C7, amended.  The trace of a tick of a game in play is: physics
    steps of the particles of the emitter pools; then, for one particle
    of [Game.particles] after the other, its physics step, its collision
    tests and its removal test, so that the tests of one particle come
    before the physics step of the next; and, when the tick returns, the
    level-complete test and the game-over test, after every collision
    test and every removal. *)
Theorem tick_order (g : Game.t) (h : Host) :
  Game.isPlaying g = true ->
  Game.isPaused g = false ->
  let '(r, _, h') := Game.update g h in
  exists emitted blocks,
    trace h'
    = trace h ++ emitted ++ List.concat blocks
      ++ match r with
         | Normal _ => [EvLevelCheck; EvGameOverCheck]
         | Throw _ => []
         end /\
    Forall is_physics emitted /\
    Forall particle_block blocks.
Proof.
  intros Hp Hq. unfold Game.update. rewrite Hp, Hq. cbn [negb orb].
  match goal with |- context [Game.update_emitters ?p ?d ?t ?x ?y] =>
    destruct (update_emitters_trace p t d x y) as (evs & He & Hfe);
    destruct (Game.update_emitters p d t x y) as [[r1 g1] h1] end.
  cbn [snd] in He. destruct r1 as [[] | ex].
  - match goal with |- context [Game.update_particles ?p ?n ?x ?y] =>
      destruct (update_particles_trace p n x y) as (blocks & Hb & Hfb);
      destruct (Game.update_particles p n x y) as [[r2 g2] h2] end.
    cbn [snd] in Hb. destruct r2 as [[] | ex].
    + pose proof (finish_tick_trace g2 h2) as Hf.
      destruct (Game.finish_tick g2 h2) as [g3 h3]. cbn [snd] in Hf.
      exists evs, blocks. rewrite Hf, Hb, He, <- !app_assoc.
      repeat split; assumption.
    + exists evs, blocks. rewrite Hb, He, app_nil_r, <- !app_assoc.
      repeat split; assumption.
  - exists evs, []. cbn [List.concat]. rewrite He, !app_nil_r.
    repeat split; [assumption | constructor].
Qed.

Lemma tick_order_witness :
  let '(r, _, h') := Game.update two_particle_game two_particle_host in
  exists emitted blocks,
    trace h'
    = trace two_particle_host ++ emitted ++ List.concat blocks
      ++ match r with
         | Normal _ => [EvLevelCheck; EvGameOverCheck]
         | Throw _ => []
         end /\
    Forall is_physics emitted /\
    Forall particle_block blocks.
Proof.
  apply (tick_order two_particle_game two_particle_host).
  - reflexivity.
  - reflexivity.
Defined.

Lemma nth_error_splice_before {A : Type} (l : list A) (i j : nat) :
  (j < i)%nat -> nth_error (splice i l) j = nth_error l j.
Proof.
  unfold splice. revert i j.
  induction l as [| x l IH]; intros i j H.
  - destruct i, j; reflexivity.
  - destruct i as [| i]; [lia |].
    destruct j as [| j]; [reflexivity |].
    cbn [firstn skipn app nth_error]. apply (IH i j). lia.
Qed.

Lemma list_set_length {A : Type} (l : list A) (i : nat) (v : A) :
  List.length (list_set l i v) = List.length l.
Proof.
  revert i. induction l as [| x l IH]; intros [| i]; cbn; auto.
Qed.

Lemma load_some_iff (a : addr) (h : Host) :
  (exists p, load a h = Some p) <-> (a < List.length (heap h))%nat.
Proof.
  unfold load. rewrite <- nth_error_Some.
  destruct (nth_error (heap h) a); split; intros H;
    try congruence; try (eexists; reflexivity).
  destruct H as [p H]. discriminate.
Qed.

(** The body of the particle loop in a game without obstacle and without
    power-up, Magnet inactive: it returns, and its block is the physics
    step, one test for each collection point, and the removal test. *)
Lemma update_particle_plain (paths : list Path.t) (i : nat) (a : addr)
  (g : Game.t) (h : Host) (p : Particle.t) :
  Game.obstacles g = [] ->
  Game.powerUps g = [] ->
  Game.a_magnet (Game.activePowerUps g) = false ->
  nth_error (Game.particles g) i = Some a ->
  load a h = Some p ->
  let '(r, g', h') := Game.update_particle paths i g h in
  r = Normal tt /\
  trace h'
  = trace h
    ++ EvPhysics a
       :: repeat (EvCollectionTest a)
                 (List.length (Game.collectionPoints g))
       ++ [EvPrune a] /\
  Game.obstacles g' = [] /\
  Game.powerUps g' = [] /\
  Game.activePowerUps g' = Game.activePowerUps g /\
  List.length (Game.collectionPoints g')
  = List.length (Game.collectionPoints g) /\
  (forall j, (j < i)%nat ->
     nth_error (Game.particles g') j = nth_error (Game.particles g) j) /\
  List.length (heap h') = List.length (heap h).
Proof.
  intros Ho Hu Hm Hi Hl. unfold Game.update_particle.
  rewrite Hi, Hl, Hm, Ho.
  destruct (Particle_update_normal paths []
              (Game.time_slow (Game.activePowerUps g) p)) as [p3 ->].
  assert (Hhit : (if negb (Game.a_shield (Game.activePowerUps g))
                  then Game.obstacle_tests a (Particle.x p3) (Particle.y p3)
                         [] (log (EvPhysics a) (store a p3 h))
                  else (false, log (EvPhysics a) (store a p3 h)))
                 = (false, log (EvPhysics a) (store a p3 h)))
    by (destruct (negb _); reflexivity).
  rewrite Hhit. clear Hhit.
  rewrite collection_tests_closed.
  cbn [Game.powerUps Game.with_score Game.with_collectionPoints].
  rewrite Hu. cbn [Game.powerUp_tests].
  destruct (negb (Particle.active p3) || _);
    (split; [reflexivity |];
     split;
     [ cbn [trace log logs store with_heap]; rewrite <- !app_assoc;
       reflexivity |];
     cbn [Game.obstacles Game.powerUps Game.activePowerUps
          Game.collectionPoints Game.particles Game.with_particles
          Game.with_powerUps Game.with_score Game.with_collectionPoints];
     split; [exact Ho |]; split; [reflexivity |]; split; [reflexivity |];
     split; [apply length_map |]; split;
     [ intros j Hj; try apply nth_error_splice_before; auto
     | cbn [heap log logs store with_heap];
       rewrite !list_set_length; reflexivity ]).
Qed.

(** C7 fails as stated: in a tick of [two_particle_game] the collision
    test of the particle at address 1 (second event) runs before the
    physics step of the particle at address 0 (fourth event). *)
Lemma collision_test_before_physics :
  let '(_, _, h') := Game.update two_particle_game two_particle_host in
  trace two_particle_host = [] /\
  trace h'
  = [EvPhysics 1%nat; EvCollectionTest 1%nat; EvPrune 1%nat;
     EvPhysics 0%nat; EvCollectionTest 0%nat; EvPrune 0%nat;
     EvLevelCheck; EvGameOverCheck].
Proof.
  unfold Game.update.
  change (negb (Game.isPlaying two_particle_game)
          || Game.isPaused two_particle_game) with false. cbv iota.
  set (g0 := Game.with_input _ two_particle_game).
  change (InputHandler.getActivePaths (Game.input g0)) with (@nil Path.t).
  change (Game.update_emitters [] [] (Game.emitters g0) g0 two_particle_host)
    with (@Normal unit tt, Game.with_emitters [] g0, two_particle_host).
  cbv iota beta.
  change (List.length (Game.particles (Game.with_emitters [] g0)))
    with 2%nat.
  cbn [Game.update_particles].
  pose proof (update_particle_plain [] 1 1%nat (Game.with_emitters [] g0)
                two_particle_host (resting_particle 5 0)
                eq_refl eq_refl eq_refl eq_refl eq_refl) as H1.
  destruct (Game.update_particle [] 1 (Game.with_emitters [] g0)
                                 two_particle_host) as [[r1 g1] h1].
  destruct H1 as (-> & Ht1 & Ho1 & Hu1 & Ha1 & Hc1 & Hn1 & Hh1).
  assert (Hl0 : exists p, load 0%nat h1 = Some p).
  { apply load_some_iff. rewrite Hh1. cbn. lia. }
  destruct Hl0 as [p0 Hl0].
  pose proof (update_particle_plain [] 0 0%nat g1 h1 p0 Ho1 Hu1) as H2.
  rewrite Ha1 in H2. specialize (H2 eq_refl).
  rewrite (Hn1 0%nat) in H2 by lia. specialize (H2 eq_refl Hl0).
  destruct (Game.update_particle [] 0 g1 h1) as [[r2 g2] h2].
  destruct H2 as (-> & Ht2 & _).
  pose proof (finish_tick_trace g2 h2) as Hf.
  destruct (Game.finish_tick g2 h2) as [g3 h3]. cbn [snd] in Hf.
  split; [reflexivity |].
  rewrite Hf, Ht2, Ht1, Hc1. reflexivity.
Qed.

(* ================================================================= *)
(** ** The time-slow scaling over several ticks (C4) *)

Lemma particle_physics_free (g : Game.t) (p : Particle.t) :
  Game.a_magnet (Game.activePowerUps g) = false ->
  Game.obstacles g = [] ->
  particle_physics [] g p = Normal (free_step (Game.activePowerUps g) p).
Proof.
  intros Hm Ho. unfold particle_physics, free_step. rewrite Hm, Ho.
  cbn [obind]. unfold Particle.update.
  destruct (Particle.active (Game.time_slow (Game.activePowerUps g) p));
    reflexivity.
Qed.

Lemma checkCollision_update (px py : R) (c : CollectionPoint.t) :
  CollectionPoint.checkCollision px py (CollectionPoint.update c)
  = CollectionPoint.checkCollision px py c.
Proof.
  unfold CollectionPoint.checkCollision, CollectionPoint.update.
  destruct (negb _ || _); reflexivity.
Qed.

Lemma collect_if_hit_missed (px py : R) (cs : list CollectionPoint.t) :
  Forall (fun c => CollectionPoint.checkCollision px py c = false) cs ->
  map (collect_if_hit px py) cs = cs /\
  forall mult, total_gain mult px py cs = 0%Z.
Proof.
  intros H. induction H as [| c cs Hc _ (IH1 & IH2)].
  - split; [reflexivity | intros mult; reflexivity].
  - split.
    + cbn [map]. unfold collect_if_hit at 1. rewrite Hc, IH1. reflexivity.
    + intros mult. specialize (IH2 mult). unfold total_gain in *.
      cbn [map fold_right]. unfold gain at 1. rewrite Hc, IH2. reflexivity.
Qed.

Lemma finish_tick_quiet (g : Game.t) (h : Host) :
  Game.level_complete g = false ->
  Game.particles g <> [] ->
  Game.finish_tick g h
  = (Game.update_entities g,
     log EvGameOverCheck (log EvLevelCheck (snd (roll h)))).
Proof.
  intros Hc Hp. unfold Game.finish_tick. rewrite maybe_spawn_id.
  unfold Game.check_level. rewrite level_complete_update_entities, Hc.
  unfold Game.check_gameOver.
  change (Game.particles (Game.update_entities g)) with (Game.particles g).
  destruct (Game.particles g); [contradiction | reflexivity].
Qed.

(** One tick of a game with an orphan particle that nothing hinders. *)
Lemma orphan_tick (flags : Game.ActivePowerUps) (a : addr)
  (p : Particle.t) (g : Game.t) (h : Host) :
  Game.a_magnet flags = false ->
  orphan flags a p g h ->
  unhindered g (free_step flags p) ->
  let '(r, g', h') := Game.update g h in
  r = Normal tt /\
  orphan flags a (free_step flags p) g' h' /\
  Game.width g' = Game.width g /\ Game.height g' = Game.height g /\
  Game.collectionPoints g'
  = map CollectionPoint.update (Game.collectionPoints g).
Proof.
  unfold orphan at 1, unhindered.
  intros Hm (Hplay & Hpause & He & Ho & Hu & Hpaths & Hf & Hps & Hl & Hlc)
         (Hact & Hoob & Hmiss).
  unfold Game.update. rewrite Hplay, Hpause. cbn [negb orb].
  set (g0 := Game.with_input _ g).
  assert (Hin : InputHandler.paths (Game.input g0) = []).
  { unfold g0. cbn [Game.input Game.with_input].
    unfold InputHandler.update. cbn [InputHandler.paths].
    rewrite Hpaths. reflexivity. }
  unfold InputHandler.getActivePaths. rewrite Hin. cbn [map].
  change (Game.emitters g0) with (Game.emitters g). rewrite He.
  cbn [Game.update_emitters].
  change (Game.particles (Game.with_emitters [] g0))
    with (Game.particles g).
  rewrite Hps. cbn [List.length Game.update_particles].
  set (g1 := Game.with_emitters [] g0).
  assert (Hphys : particle_physics [] g1 p = Normal (free_step flags p)).
  { rewrite <- Hf. apply (particle_physics_free g1 p).
    - change (Game.activePowerUps g1) with (Game.activePowerUps g).
      rewrite Hf. exact Hm.
    - exact Ho. }
  assert (Hi1 : nth_error (Game.particles g1) 0 = Some a)
    by (change (Game.particles g1) with (Game.particles g);
        rewrite Hps; reflexivity).
  pose proof (update_particle_collects [] 0 a g1 h p (free_step flags p)
                Hi1 Hl Hphys) as Hc.
  assert (Hnohit : obstacle_hit g1 (free_step flags p) = false).
  { unfold obstacle_hit. change (Game.obstacles g1) with (Game.obstacles g).
    rewrite Ho. apply andb_false_r. }
  rewrite Hnohit in Hc. cbv zeta in Hc.
  unfold Game.update_particle in *. rewrite Hi1, Hl in *.
  unfold particle_physics in Hphys.
  destruct (if Game.a_magnet (Game.activePowerUps g1) then _ else _)
    as [p2 | ex]; [| discriminate].
  cbn [obind] in Hphys.
  change (Game.obstacles g1) with (Game.obstacles g) in *.
  rewrite Hphys in *. rewrite Ho in *.
  assert (Hsh : (if negb (Game.a_shield (Game.activePowerUps g1))
                 then Game.obstacle_tests a
                        (Particle.x (free_step flags p))
                        (Particle.y (free_step flags p)) []
                        (log (EvPhysics a) (store a (free_step flags p) h))
                 else (false,
                       log (EvPhysics a) (store a (free_step flags p) h)))
                = (false, log (EvPhysics a) (store a (free_step flags p) h)))
    by (destruct (negb _); reflexivity).
  rewrite Hsh in *. clear Hsh.
  rewrite collection_tests_closed in *.
  change (Game.collectionPoints g1) with (Game.collectionPoints g) in *.
  destruct (collect_if_hit_missed _ _ _ Hmiss) as (Hmap & Hgain).
  rewrite Hmap, Hgain, Z.add_0_r in *.
  change (Game.powerUps
            (Game.with_score (Game.score g1)
               (Game.with_collectionPoints (Game.collectionPoints g) g1)))
    with (Game.powerUps g) in *.
  rewrite Hu in *. cbn [Game.powerUp_tests] in *.
  cbn [Game.width Game.height Game.with_powerUps Game.with_score
       Game.with_collectionPoints Game.with_emitters g1 g0 Game.with_input]
    in *.
  rewrite Hact, Hoob in *. cbn [negb orb] in *.
  destruct Hc as (_ & Hload & _ & _).
  rewrite finish_tick_quiet.
  - split; [reflexivity |].
    split; [| repeat split].
    unfold orphan.
    split; [exact Hplay |]. split; [exact Hpause |].
    split; [reflexivity |].
    split; [change (map Obstacle.update (Game.obstacles g) = []);
            rewrite Ho; reflexivity |].
    split; [reflexivity |]. split; [exact Hin |]. split; [exact Hf |].
    split; [exact Hps |].
    split.
    + unfold load. cbn [log heap].
      rewrite (dice_only_heap _ _ (roll_dice_only _)). exact Hload.
    + rewrite level_complete_update_entities. exact Hlc.
  - exact Hlc.
  - change (Game.particles g <> []). rewrite Hps. discriminate.
Qed.

Lemma unhindered_next (g g' : Game.t) (p : Particle.t) :
  Game.width g' = Game.width g ->
  Game.height g' = Game.height g ->
  Game.collectionPoints g'
  = map CollectionPoint.update (Game.collectionPoints g) ->
  unhindered g p -> unhindered g' p.
Proof.
  intros Hw Hh Hc (Ha & Hb & Hm). unfold unhindered.
  rewrite Hw, Hh, Hc. repeat split; [exact Ha | exact Hb |].
  rewrite Forall_forall in *. intros c Hin.
  apply in_map_iff in Hin. destruct Hin as (c0 & <- & Hin).
  rewrite checkCollision_update. apply Hm, Hin.
Qed.

(** [n] ticks of a game with an orphan particle that nothing hinders on
    its way: every tick returns and the particle has made [n] free
    steps. *)
Lemma orphan_ticks (flags : Game.ActivePowerUps) (a : addr) (n : nat) :
  Game.a_magnet flags = false ->
  forall (p : Particle.t) (g : Game.t) (h : Host),
  orphan flags a p g h ->
  (forall k, (k < n)%nat -> unhindered g (free_steps (S k) flags p)) ->
  let '(r, g', h') := ticks n g h in
  r = Normal tt /\ orphan flags a (free_steps n flags p) g' h'.
Proof.
  intros Hm. induction n as [| n IH]; intros p g h Ho Hu; cbn [ticks].
  - split; [reflexivity | exact Ho].
  - pose proof (orphan_tick flags a p g h Hm Ho (Hu 0%nat ltac:(lia))) as H1.
    destruct (Game.update g h) as [[r g1] h1].
    destruct H1 as (-> & Ho1 & Hw & Hh & Hc).
    apply (IH (free_step flags p) g1 h1 Ho1).
    intros k Hk. apply (unhindered_next g g1); try assumption.
    apply (Hu (S k)). lia.
Qed.

(** A free step of a particle that is alive and stays alive. *)
Lemma free_step_alive (flags : Game.ActivePowerUps) (p : Particle.t) :
  Particle.active p = true ->
  Particle.decay p < Particle.life p ->
  let m := if Game.a_timeSlow flags then 0.5 else 1 in
  let sx := Particle.speedX p * m * 0.98 in
  let sy := (Particle.speedY p * m + Particle.gravity p) * 0.98 in
  free_step flags p
  = Particle.mk (Particle.x p + sx) (Particle.y p + sy) (Particle.size p)
      sx sy (Particle.color p) (Particle.life p - Particle.decay p)
      (Particle.decay p) (Particle.gravity p)
      (if Nat.ltb (Particle.maxTrailLength p)
                  (List.length
                     (Particle.trail p
                      ++ [(Particle.x p + sx, Particle.y p + sy)]))
       then tl (Particle.trail p ++ [(Particle.x p + sx, Particle.y p + sy)])
       else Particle.trail p ++ [(Particle.x p + sx, Particle.y p + sy)])
      (Particle.maxTrailLength p) true (Particle.pathFollowForce p)
      (Particle.mass p).
Proof.
  intros Ha Hl m sx sy. unfold free_step.
  change (Particle.active (Game.time_slow flags p)) with (Particle.active p).
  rewrite Ha. unfold Particle.integrate.
  cbn [Game.time_slow Particle.with_speed Particle.x Particle.y Particle.size
       Particle.speedX Particle.speedY Particle.color Particle.life
       Particle.decay Particle.gravity Particle.trail
       Particle.maxTrailLength Particle.active Particle.pathFollowForce
       Particle.mass].
  rewrite Rleb_false by lra. rewrite Ha. reflexivity.
Qed.

(** The first two free steps of [moving_particle] keep it alive, on the
    canvas and far from the collection point, with Time-slow active or
    not. *)
Ltac free_step_eval :=
  cbn [free_steps];
  rewrite (free_step_alive _ moving_particle eq_refl)
    by (cbn [moving_particle Particle.decay Particle.life]; lra);
  cbn [moving_particle Particle.x Particle.y Particle.size Particle.speedX
       Particle.speedY Particle.color Particle.life Particle.decay
       Particle.gravity Particle.trail Particle.maxTrailLength
       Particle.active Particle.pathFollowForce Particle.mass
       Game.a_timeSlow time_slow_on Game.no_powerUps
       app List.length Nat.ltb Nat.leb];
  try (rewrite free_step_alive
         by (cbn [Particle.active Particle.decay Particle.life];
             first [reflexivity | lra]);
       cbn [Particle.x Particle.y Particle.size Particle.speedX
            Particle.speedY Particle.color Particle.life Particle.decay
            Particle.gravity Particle.trail Particle.maxTrailLength
            Particle.active Particle.pathFollowForce Particle.mass
            Game.a_timeSlow time_slow_on Game.no_powerUps
            app List.length Nat.ltb Nat.leb]).

Ltac unhindered_eval :=
  unfold unhindered;
  cbn [Particle.x Particle.y Particle.active Game.width Game.height
       Game.collectionPoints slow_game normal_game one_particle_game];
  split; [reflexivity |];
  split;
  [ unfold Particle.isOutOfBounds; cbn [Particle.x Particle.y];
    rewrite !Rltb_false by lra; reflexivity
  | constructor; [| constructor];
    unfold CollectionPoint.checkCollision;
    cbn [CollectionPoint.collected CollectionPoint.x CollectionPoint.y
         CollectionPoint.radius target negb andb];
    apply Rleb_false; apply distance_gt; lra ].

Lemma slow_game_unhindered (k : nat) :
  (k < 2)%nat ->
  unhindered slow_game (free_steps (S k) time_slow_on moving_particle).
Proof.
  intros Hk. destruct k as [| [| k]]; [| | lia];
    free_step_eval; unhindered_eval.
Qed.

Lemma normal_game_unhindered (k : nat) :
  (k < 2)%nat ->
  unhindered normal_game (free_steps (S k) Game.no_powerUps moving_particle).
Proof.
  intros Hk. destruct k as [| [| k]]; [| | lia];
    free_step_eval; unhindered_eval.
Qed.

Lemma slow_game_orphan :
  orphan time_slow_on 0%nat moving_particle slow_game
         (one_particle_host moving_particle).
Proof. unfold orphan. repeat split. Qed.

Lemma normal_game_orphan :
  orphan Game.no_powerUps 0%nat moving_particle normal_game
         (one_particle_host moving_particle).
Proof. unfold orphan. repeat split. Qed.

(** C4 fails as stated: after two ticks with Time-slow active the
    velocity of [moving_particle] is a quarter of what it is after
    two ticks without it, not one half. *)
Lemma time_slow_factor_is_a_quarter :
  let '(_, _, hs) := ticks 2 slow_game (one_particle_host moving_particle) in
  let '(_, _, hn) := ticks 2 normal_game (one_particle_host moving_particle) in
  exists ps pn,
    load 0%nat hs = Some ps /\ load 0%nat hn = Some pn /\
    Particle.speedX pn = 0.98 * 0.98 /\
    Particle.speedX ps = 0.25 * Particle.speedX pn /\
    Particle.speedX ps <> 0.5 * Particle.speedX pn.
Proof.
  pose proof (orphan_ticks time_slow_on 0%nat 2 eq_refl moving_particle
                slow_game (one_particle_host moving_particle)
                slow_game_orphan slow_game_unhindered) as Hs.
  pose proof (orphan_ticks Game.no_powerUps 0%nat 2 eq_refl moving_particle
                normal_game (one_particle_host moving_particle)
                normal_game_orphan normal_game_unhindered) as Hn.
  destruct (ticks 2 slow_game _) as [[rs gs] hs].
  destruct (ticks 2 normal_game _) as [[rn gn] hn].
  destruct Hs as (_ & Hs). destruct Hn as (_ & Hn).
  exists (free_steps 2 time_slow_on moving_particle),
         (free_steps 2 Game.no_powerUps moving_particle).
  split; [apply Hs |]. split; [apply Hn |].
  clear Hs Hn.
  assert (Es : Particle.speedX (free_steps 2 time_slow_on moving_particle)
               = 1 * 0.5 * 0.98 * 0.5 * 0.98)
    by (free_step_eval; reflexivity).
  assert (En : Particle.speedX (free_steps 2 Game.no_powerUps moving_particle)
               = 1 * 1 * 0.98 * 1 * 0.98)
    by (free_step_eval; reflexivity).
  rewrite Es, En. repeat split; lra.
Qed.

(* ================================================================= *)
(** * Further properties of the engine *)

(** ** The utility functions *)

Lemma random_between_range (u min max : R) :
  0 <= u < 1 -> min <= max ->
  min <= random_between u min max <= max.
Proof.
  intros [Hu0 Hu1] Hm. unfold random_between. split; nra.
Qed.

(** [random(min, max)] with both arguments, for a result [u] of
    [Math.random()] and [min <= max]: a number from [min] to [max], both
    included.  The bounds are at most 2^1023 apart, so that their
    difference is a number of the program's arithmetic as well. *)
Theorem random_in_range (u min max : R) :
  0 <= u < 1 -> min <= max -> max - min <= 2 ^ 1023 ->
  exists r, random u (Some min) (Some max) = Num r /\ min <= r <= max.
Proof.
  intros Hu Hm _. exists (random_between u min max).
  split; [apply random_two_arguments |].
  apply random_between_range; assumption.
Qed.

Lemma random_in_range_witness :
  exists r, random 0.5 (Some 2) (Some 6) = Num r /\ 2 <= r <= 6.
Proof.
  apply random_in_range; [lra | lra |].
  apply Rle_trans with (2 ^ 2); [lra | apply Rle_pow; [lra | lia]].
Defined.

Lemma randomInt_range (u : R) (min max : Z) :
  0 <= u < 1 -> (min <= max)%Z ->
  (min <= randomInt u min max <= max)%Z.
Proof.
  intros [Hu0 Hu1] Hm. unfold randomInt, Math_floor.
  set (v := random_between u (IZR min) (IZR max + 1)).
  assert (Hv : IZR min <= v < IZR max + 1).
  { apply IZR_le in Hm. unfold v, random_between. split; nra. }
  destruct (base_Int_part v) as [Hlo Hhi]. split.
  - apply Z.lt_succ_r, lt_IZR. rewrite succ_IZR. lra.
  - apply Z.lt_succ_r, lt_IZR. rewrite succ_IZR. lra.
Qed.

Lemma js_index_defined {A : Type} (l : list A) (i : Z) :
  (0 <= i < Z.of_nat (List.length l))%Z ->
  exists a, js_index l i = Some a /\ In a l.
Proof.
  intros Hi. unfold js_index.
  destruct (Z.ltb_spec i 0) as [Hneg | _]; [lia |].
  destruct (nth_error l (Z.to_nat i)) as [a |] eqn:E.
  - exists a. split; [reflexivity | exact (nth_error_In _ _ E)].
  - apply nth_error_None in E. lia.
Qed.

Lemma getRandomColor_in_palette (u : R) :
  0 <= u < 1 -> exists c, getRandomColor u = Some c /\ In c colors.
Proof.
  intros Hu. unfold getRandomColor. apply js_index_defined.
  pose proof (randomInt_range u 0 (Z.of_nat (List.length colors) - 1) Hu)
    as H.
  cbn [colors List.length] in *. lia.
Qed.

(** [getRandomColor()] never returns [undefined]: the index that it
    draws is within the palette. *)
Theorem getRandomColor_defined (u : R) :
  0 <= u < 1 -> exists c, getRandomColor u = Some c /\ In c colors.
Proof. apply getRandomColor_in_palette. Qed.

Lemma getRandomColor_defined_witness :
  exists c, getRandomColor 0.5 = Some c /\ In c colors.
Proof. apply getRandomColor_defined. lra. Defined.


Lemma distance_nonneg (x1 y1 x2 y2 : R) : 0 <= distance x1 y1 x2 y2.
Proof. unfold distance. apply sqrt_pos. Qed.

Lemma distance_square (x1 y1 x2 y2 : R) :
  distance x1 y1 x2 y2 * distance x1 y1 x2 y2
  = (x2 - x1) * (x2 - x1) + (y2 - y1) * (y2 - y1).
Proof.
  unfold distance. rewrite sqrt_sqrt; [ring |].
  apply Rplus_le_le_0_compat; apply pow2_ge_0.
Qed.

Lemma distance_sym (x1 y1 x2 y2 : R) :
  distance x1 y1 x2 y2 = distance x2 y2 x1 y1.
Proof. unfold distance. f_equal. ring. Qed.

(** [Math.atan2(y, x)] is the direction of the vector ([x], [y]). *)
Lemma Math_atan2_polar (y x : R) :
  cos (Math_atan2 y x) * sqrt (x * x + y * y) = x /\
  sin (Math_atan2 y x) * sqrt (x * x + y * y) = y.
Proof.
  assert (Hs : x <> 0 ->
            sqrt (x * x + y * y) = Rabs x * sqrt (1 + (y / x)²)).
  { intros Hx. rewrite <- sqrt_Rsqr_abs, <- sqrt_mult_alt by apply Rle_0_sqr.
    f_equal. unfold Rsqr. field. exact Hx. }
  assert (Hpos : 0 < sqrt (1 + (y / x)²)).
  { apply sqrt_lt_R0. pose proof (Rle_0_sqr (y / x)). lra. }
  unfold Math_atan2.
  destruct (Rlt_dec 0 x) as [Hx | Hx].
  - rewrite (Rltb_true 0 x Hx).
    rewrite cos_atan, sin_atan, Hs by lra.
    rewrite Rabs_right by lra. split; field; lra.
  - rewrite (Rltb_false 0 x) by lra.
    destruct (Rlt_dec x 0) as [Hx' | Hx'].
    + rewrite (Rltb_true x 0 Hx').
      assert (E : Rabs x = - x) by (apply Rabs_left; lra).
      destruct (Rle_dec 0 y) as [Hy | Hy].
      * rewrite (Rleb_true 0 y Hy), neg_cos, neg_sin.
        rewrite cos_atan, sin_atan, Hs, E by lra. split; field; lra.
      * rewrite (Rleb_false 0 y) by lra.
        unfold Rminus. rewrite cos_plus, sin_plus, cos_neg, sin_neg.
        rewrite cos_PI, sin_PI.
        rewrite cos_atan, sin_atan, Hs, E by lra. split; field; lra.
    + rewrite (Rltb_false x 0) by lra.
      assert (x = 0) by lra. subst x.
      replace (0 * 0 + y * y) with (y * y) by ring.
      destruct (Rlt_dec 0 y) as [Hy | Hy].
      * rewrite (Rltb_true 0 y Hy), cos_PI2, sin_PI2.
        rewrite sqrt_square by lra. split; ring.
      * rewrite (Rltb_false 0 y) by lra.
        destruct (Rlt_dec y 0) as [Hy' | Hy'].
        -- rewrite (Rltb_true y 0 Hy'), cos_neg, sin_neg, cos_PI2, sin_PI2.
           replace (y * y) with ((- y) * (- y)) by ring.
           rewrite sqrt_square by lra. split; ring.
        -- rewrite (Rltb_false y 0) by lra.
           assert (y = 0) by lra. subst y.
           rewrite cos_0, sin_0.
           replace (0 * 0) with 0 by ring. rewrite sqrt_0. split; ring.
Qed.

Lemma angle_polar (x1 y1 x2 y2 : R) :
  cos (angle x1 y1 x2 y2) * distance x1 y1 x2 y2 = x2 - x1 /\
  sin (angle x1 y1 x2 y2) * distance x1 y1 x2 y2 = y2 - y1.
Proof.
  unfold angle, distance.
  replace ((x2 - x1) ^ 2 + (y2 - y1) ^ 2)
    with ((x2 - x1) * (x2 - x1) + (y2 - y1) * (y2 - y1)) by ring.
  apply Math_atan2_polar.
Qed.

(** [clamp(value, min, max)]: within the bounds when they are in order,
    the value itself when it is within them; with the bounds the wrong
    way round, always [max]. *)
Theorem clamp_bounds (value min max : R) :
  (min <= max ->
   min <= clamp value min max <= max /\
   (min <= value <= max -> clamp value min max = value)) /\
  (max < min -> clamp value min max = max).
Proof.
  unfold clamp, Rmin, Rmax.
  destruct (Rle_dec value min); destruct (Rle_dec _ max);
    repeat split; intros; lra.
Qed.


Lemma zeros_S (k : nat) (s : string) :
  append (zeros k) (String "0" s) = append (zeros (S k)) s.
Proof.
  unfold zeros. induction k as [| k IH]; [reflexivity |].
  cbn [repeat string_of_list_ascii append] in *. rewrite IH. reflexivity.
Qed.

Lemma length_append (s1 s2 : string) :
  String.length (append s1 s2) = (String.length s1 + String.length s2)%nat.
Proof. induction s1 as [| c s1 IH]; cbn; [reflexivity | now rewrite IH]. Qed.

Lemma length_zeros (k : nat) : String.length (zeros k) = k.
Proof.
  unfold zeros. induction k as [| k IH]; cbn; [reflexivity | now rewrite IH].
Qed.

Lemma formatNumber_loop_pads (fuel : nat) :
  forall (s : string) (size : Z),
    (size - Z.of_nat (String.length s) <= Z.of_nat fuel)%Z ->
    formatNumber_loop fuel s size
    = append (zeros (Z.to_nat (size - Z.of_nat (String.length s)))) s.
Proof.
  induction fuel as [| fuel IH]; intros s size Hf.
  - cbn [formatNumber_loop].
    replace (Z.to_nat (size - Z.of_nat (String.length s))) with 0%nat by lia.
    reflexivity.
  - cbn [formatNumber_loop].
    destruct (Z.ltb_spec (Z.of_nat (String.length s)) size) as [Hlt | Hge].
    + rewrite IH by (cbn [String.length]; lia).
      cbn [String.length]. rewrite zeros_S. f_equal. f_equal. lia.
    + replace (Z.to_nat (size - Z.of_nat (String.length s))) with 0%nat
        by lia.
      reflexivity.
Qed.

(** [formatNumber(num, size)] is [String(num)] after as many zeros as
    it lacks to [size] characters: the result has [size] characters, or
    those of [String(num)] when they are more, and the loop ends.  The
    zeros also come before the sign of a negative number. *)
Theorem formatNumber_pads (num size : Z) :
  let s := String_of_integer num in
  formatNumber num size
  = append (zeros (Z.to_nat (size - Z.of_nat (String.length s)))) s /\
  Z.of_nat (String.length (formatNumber num size))
  = Z.max (Z.of_nat (String.length s)) size /\
  formatNumber (-5) 4 = "00-5"%string.
Proof.
  intros s.
  assert (E : formatNumber num size
              = append (zeros (Z.to_nat (size - Z.of_nat (String.length s))))
                       s).
  { unfold formatNumber. fold s. apply formatNumber_loop_pads. lia. }
  split; [exact E |]. split; [| reflexivity].
  rewrite E, length_append, length_zeros. lia.
Qed.


Lemma digits_value_pos (ds : list Z) :
  Forall is_digit16 ds -> (0 < last ds 0)%Z -> (0 < digits_value ds)%Z.
Proof.
  induction 1 as [| d ds Hd Hall IH]; [cbn; lia |].
  unfold is_digit16 in Hd. destruct ds as [| d' ds'].
  - cbn. lia.
  - intros Hl. change (last (d :: d' :: ds') 0%Z) with (last (d' :: ds') 0%Z)
      in Hl.
    specialize (IH Hl). cbn [digits_value] in IH |- *. lia.
Qed.

Lemma append_snoc (l : list ascii) (c : ascii) (acc : string) :
  append (string_of_list_ascii (l ++ [c])) acc
  = append (string_of_list_ascii l) (String c acc).
Proof.
  induction l as [| a l IH]; [reflexivity |].
  cbn [app string_of_list_ascii append]. now rewrite IH.
Qed.

(** [toString16_loop] writes the digits of a number, the first digit of
    which is not zero, in front of [acc]. *)
Lemma toString16_loop_digits (ds : list Z) :
  forall (d : Z) (fuel : nat) (acc : string),
    Forall is_digit16 (d :: ds) ->
    (ds <> [] -> (0 < last ds 0)%Z) ->
    (List.length ds < fuel)%nat ->
    toString16_loop fuel (digits_value (d :: ds)) acc
    = append (string_of_list_ascii (rev (map hex_digit (d :: ds)))) acc.
Proof.
  induction ds as [| d' ds IH]; intros d fuel acc Hall Hpos Hfuel.
  - destruct fuel as [| fuel]; [cbn in Hfuel; lia |].
    inversion Hall as [| ? ? Hd _]; subst. unfold is_digit16 in Hd.
    cbn [digits_value toString16_loop map rev app string_of_list_ascii
         append].
    replace (d + 16 * 0)%Z with d by lia.
    rewrite Z.mod_small by lia.
    destruct (Z.ltb_spec d 16); [reflexivity | lia].
  - destruct fuel as [| fuel]; [cbn in Hfuel; lia |].
    inversion Hall as [| ? ? Hd Hrest]; subst. unfold is_digit16 in Hd.
    assert (Hv : (0 < digits_value (d' :: ds))%Z).
    { apply digits_value_pos; [exact Hrest | apply Hpos; discriminate]. }
    cbn [toString16_loop].
    change (digits_value (d :: d' :: ds))
      with (d + 16 * digits_value (d' :: ds))%Z.
    set (v := digits_value (d' :: ds)) in *.
    assert (Hmod : ((d + 16 * v) mod 16 = d)%Z)
      by (Z.div_mod_to_equations; lia).
    assert (Hdiv : ((d + 16 * v) / 16 = v)%Z)
      by (Z.div_mod_to_equations; lia).
    rewrite Hmod, Hdiv.
    destruct (Z.ltb_spec (d + 16 * v) 16) as [Hlt | _]; [lia |].
    unfold v. rewrite IH.
    + change (rev (map hex_digit (d :: d' :: ds)))
        with (rev (map hex_digit (d' :: ds)) ++ [hex_digit d]).
      rewrite append_snoc. reflexivity.
    + exact Hrest.
    + intros Hne. destruct ds as [| d'' ds']; [contradiction |].
      specialize (Hpos ltac:(discriminate)). exact Hpos.
    + cbn [List.length] in Hfuel. lia.
Qed.

Lemma hex_value_digit (d : Z) :
  is_digit16 d -> hex_value (hex_digit d) = Some d.
Proof.
  unfold is_digit16. intros Hd.
  assert (E : (d = 0 \/ d = 1 \/ d = 2 \/ d = 3 \/ d = 4 \/ d = 5 \/ d = 6
               \/ d = 7 \/ d = 8 \/ d = 9 \/ d = 10 \/ d = 11 \/ d = 12
               \/ d = 13 \/ d = 14 \/ d = 15)%Z) by lia.
  repeat (destruct E as [E | E]; [subst d; reflexivity |]).
  subst d; reflexivity.
Qed.

Lemma shiftLeft_byte (v : Z) :
  (0 <= v <= 255)%Z ->
  shiftLeft v 16 = (v * 65536)%Z /\ shiftLeft v 8 = (v * 256)%Z.
Proof.
  intros Hv. unfold shiftLeft.
  assert (E : ToInt32 v = v).
  { unfold ToInt32. rewrite Z.mod_small by lia.
    destruct (Z.ltb_spec v (2 ^ 31)); lia. }
  rewrite E. change (16 mod 32)%Z with 16%Z. change (8 mod 32)%Z with 8%Z.
  rewrite !Z.shiftl_mul_pow2 by lia.
  change (2 ^ 16)%Z with 65536%Z. change (2 ^ 8)%Z with 256%Z.
  unfold ToInt32. rewrite !Z.mod_small by lia.
  destruct (Z.ltb_spec (v * 65536) (2 ^ 31));
    destruct (Z.ltb_spec (v * 256) (2 ^ 31)); lia.
Qed.

Lemma byte_digits (v : Z) :
  (0 <= v <= 255)%Z ->
  is_digit16 (v mod 16) /\ is_digit16 (v / 16) /\
  v = (v mod 16 + 16 * (v / 16))%Z.
Proof. unfold is_digit16. intros H. Z.div_mod_to_equations. lia. Qed.

(** The number that [rgbToHex] writes, for components from 0 to 255. *)
Lemma rgb_number (r g b : Z) :
  (0 <= r <= 255)%Z -> (0 <= g <= 255)%Z -> (0 <= b <= 255)%Z ->
  (shiftLeft 1 24 + shiftLeft r 16 + shiftLeft g 8 + b)%Z
  = digits_value [b mod 16; b / 16; g mod 16; g / 16; r mod 16; r / 16; 1]%Z.
Proof.
  intros Hr Hg Hb.
  destruct (shiftLeft_byte r Hr) as [-> _].
  destruct (shiftLeft_byte g Hg) as [_ ->].
  change (shiftLeft 1 24) with 16777216%Z.
  cbn [digits_value].
  destruct (byte_digits r Hr) as (_ & _ & Er).
  destruct (byte_digits g Hg) as (_ & _ & Eg).
  destruct (byte_digits b Hb) as (_ & _ & Eb).
  lia.
Qed.

Lemma rgbToHex_digits (r g b : Z) :
  (0 <= r <= 255)%Z -> (0 <= g <= 255)%Z -> (0 <= b <= 255)%Z ->
  rgbToHex r g b
  = String "#" (string_of_list_ascii
       (map hex_digit [r / 16; r mod 16; g / 16; g mod 16;
                       b / 16; b mod 16]%Z)).
Proof.
  intros Hr Hg Hb. unfold rgbToHex. rewrite rgb_number by assumption.
  set (ds := [b mod 16; b / 16; g mod 16; g / 16; r mod 16; r / 16; 1]%Z).
  destruct (byte_digits r Hr) as (Hr0 & Hr1 & _).
  destruct (byte_digits g Hg) as (Hg0 & Hg1 & _).
  destruct (byte_digits b Hb) as (Hb0 & Hb1 & _).
  assert (Hall : Forall is_digit16 ds).
  { unfold ds. repeat (apply Forall_cons; [assumption |]).
    apply Forall_cons; [unfold is_digit16; lia | apply Forall_nil]. }
  assert (Hlo : (16 ^ 6 <= digits_value ds < 2 * 16 ^ 6)%Z).
  { unfold ds, is_digit16 in *. cbn [digits_value]. lia. }
  unfold toString16.
  destruct (Z.ltb_spec (digits_value ds) 0) as [Hneg | _]; [lia |].
  assert (Hlog : Z.log2 (digits_value ds) = 24%Z).
  { apply Z.log2_unique; [lia |]. change (2 ^ 24)%Z with (16 ^ 6)%Z.
    change (2 ^ Z.succ 24)%Z with (2 * 16 ^ 6)%Z. exact Hlo. }
  rewrite Hlog. unfold ds at 1.
  rewrite toString16_loop_digits.
  - reflexivity.
  - exact Hall.
  - intros _. cbn. lia.
  - cbn. lia.
Qed.

(** [hexToRgb(rgbToHex(r, g, b))] gives [r], [g] and [b] again, for
    components from 0 to 255. *)
Theorem hexToRgb_rgbToHex (r g b : Z) :
  (0 <= r <= 255)%Z -> (0 <= g <= 255)%Z -> (0 <= b <= 255)%Z ->
  hexToRgb (rgbToHex r g b) = Some (r, g, b).
Proof.
  intros Hr Hg Hb. rewrite rgbToHex_digits by assumption.
  destruct (byte_digits r Hr) as (Hr0 & Hr1 & Er).
  destruct (byte_digits g Hg) as (Hg0 & Hg1 & Eg).
  destruct (byte_digits b Hb) as (Hb0 & Hb1 & Eb).
  unfold hexToRgb. cbn [map string_of_list_ascii list_ascii_of_string].
  unfold parseInt16. rewrite !hex_value_digit by assumption.
  repeat f_equal; lia.
Qed.

Lemma hexToRgb_rgbToHex_witness :
  hexToRgb (rgbToHex 255 128 0) = Some (255, 128, 0)%Z.
Proof. apply hexToRgb_rgbToHex; lia. Defined.

Lemma hex_value_range (c : ascii) (v : Z) :
  hex_value c = Some v -> is_digit16 v.
Proof.
  unfold hex_value, is_digit16.
  set (n := Z.of_nat (nat_of_ascii c)).
  destruct (Z.leb_spec 48 n); destruct (Z.leb_spec n 57);
    destruct (Z.leb_spec 97 n); destruct (Z.leb_spec n 102);
    destruct (Z.leb_spec 65 n); destruct (Z.leb_spec n 70);
    cbn [andb]; intros E; inversion E; lia.
Qed.

Lemma parseInt16_range (c1 c2 : ascii) (v : Z) :
  parseInt16 c1 c2 = Some v -> (0 <= v <= 255)%Z.
Proof.
  unfold parseInt16.
  destruct (hex_value c1) as [v1 |] eqn:E1; [| discriminate].
  destruct (hex_value c2) as [v2 |] eqn:E2; [| discriminate].
  apply hex_value_range in E1. apply hex_value_range in E2.
  unfold is_digit16 in E1, E2. intros E.
  assert (Ev : v = (16 * v1 + v2)%Z) by congruence. lia.
Qed.

Lemma length_list_ascii (s : string) :
  List.length (list_ascii_of_string s) = String.length s.
Proof. induction s as [| c s IH]; cbn; [reflexivity | now rewrite IH]. Qed.

(** What [hexToRgb] returns for a string that matches: three numbers
    from 0 to 255; and a string that matches has six characters, or
    seven with the [#], so that the short form [#fff] gives [null]. *)
Theorem hexToRgb_components (hex : string) (r g b : Z) :
  hexToRgb hex = Some (r, g, b) ->
  (0 <= r <= 255)%Z /\ (0 <= g <= 255)%Z /\ (0 <= b <= 255)%Z /\
  (String.length hex = 6%nat \/ String.length hex = 7%nat).
Proof.
  unfold hexToRgb.
  set (body := match hex with
               | String "#" rest => rest
               | _ => hex
               end).
  assert (Hb : body = hex \/ hex = String "#" body).
  { unfold body. destruct hex as [| [[] [] [] [] [] [] [] []] rest];
      auto. }
  clearbody body.
  pose proof (length_list_ascii body) as Hl.
  destruct (list_ascii_of_string body)
    as [| c1 [| c2 [| c3 [| c4 [| c5 [| c6 [| c7 l]]]]]]];
    try discriminate.
  destruct (parseInt16 c1 c2) as [r' |] eqn:Er; [| discriminate].
  destruct (parseInt16 c3 c4) as [g' |] eqn:Eg; [| discriminate].
  destruct (parseInt16 c5 c6) as [b' |] eqn:Eb; [| discriminate].
  intros E. inversion E; subst.
  apply parseInt16_range in Er. apply parseInt16_range in Eg.
  apply parseInt16_range in Eb.
  repeat (split; [assumption |]).
  cbn [List.length] in Hl.
  destruct Hb as [Hb | Hb].
  - left. rewrite <- Hb. lia.
  - right. rewrite Hb. cbn [String.length]. lia.
Qed.

Lemma hexToRgb_components_witness :
  (0 <= 255 <= 255)%Z /\ (0 <= 0 <= 255)%Z /\ (0 <= 128 <= 255)%Z /\
  (String.length "#FF0080" = 6%nat \/ String.length "#FF0080" = 7%nat).
Proof. apply (hexToRgb_components "#FF0080" 255 0 128). reflexivity. Defined.

(** ** Paths *)

Lemma addPoint_fields (x y : R) (p : Path.t) :
  Path.maxPoints (Path.addPoint x y p) = Path.maxPoints p /\
  Path.life (Path.addPoint x y p) = Path.life p /\
  Path.decay (Path.addPoint x y p) = Path.decay p /\
  Path.active (Path.addPoint x y p) = Path.active p.
Proof. repeat split. Qed.

Lemma addPoint_points (x y : R) (p : Path.t) :
  (List.length (Path.points p) <= Path.maxPoints p)%nat ->
  Path.points (Path.addPoint x y p)
  = lastn (Path.maxPoints p) (Path.points p ++ [(x, y)]) /\
  (List.length (Path.points (Path.addPoint x y p)) <= Path.maxPoints p)%nat.
Proof.
  intros Hl. unfold Path.addPoint, lastn. cbn [Path.points].
  rewrite length_app. cbn [List.length].
  destruct (Nat.ltb_spec (Path.maxPoints p)
                         (List.length (Path.points p) + 1)) as [Hfull | Hroom].
  - replace (List.length (Path.points p) + 1 - Path.maxPoints p)%nat
      with 1%nat by lia.
    split; [reflexivity |].
    destruct (Path.points p ++ [(x, y)]) as [| a l] eqn:E.
    + cbn. lia.
    + cbn [tl]. apply (f_equal (@List.length point)) in E.
      rewrite length_app in E. cbn [List.length] in E. lia.
  - replace (List.length (Path.points p) + 1 - Path.maxPoints p)%nat
      with 0%nat by lia.
    split; [reflexivity |]. rewrite length_app. cbn [List.length]. lia.
Qed.

Lemma lastn_app {A : Type} (n : nat) (m rest : list A) :
  lastn n (lastn n m ++ rest) = lastn n (m ++ rest).
Proof.
  unfold lastn. rewrite !length_app, length_skipn.
  destruct (Nat.le_gt_cases (List.length m) n) as [Hs | Hb].
  - replace (List.length m - n)%nat with 0%nat by lia. cbn [skipn].
    f_equal. lia.
  - rewrite (skipn_app (List.length m + List.length rest - n)).
    replace (List.length m + List.length rest - n - List.length m)%nat
      with (List.length rest - n)%nat by lia.
    rewrite skipn_app, length_skipn.
    replace (List.length m - (List.length m - n) + List.length rest - n
             - (List.length m - (List.length m - n)))%nat
      with (List.length rest - n)%nat by lia.
    f_equal. rewrite skipn_skipn. f_equal. lia.
Qed.

Lemma addPoints_points (pts : list point) :
  forall p : Path.t,
    (List.length (Path.points p) <= Path.maxPoints p)%nat ->
    Path.points (addPoints pts p)
    = lastn (Path.maxPoints p) (Path.points p ++ pts) /\
    Path.maxPoints (addPoints pts p) = Path.maxPoints p.
Proof.
  induction pts as [| [x y] pts IH]; intros p Hl.
  - cbn [addPoints fold_left]. rewrite app_nil_r. unfold lastn.
    replace (List.length (Path.points p) - Path.maxPoints p)%nat
      with 0%nat by lia.
    split; reflexivity.
  - change (addPoints ((x, y) :: pts) p)
      with (addPoints pts (Path.addPoint x y p)).
    destruct (addPoint_points x y p Hl) as [E Hl'].
    destruct (IH (Path.addPoint x y p)) as [E1 E2].
    { exact Hl'. }
    split; [| exact E2].
    rewrite E1, E. change (Path.maxPoints (Path.addPoint x y p))
      with (Path.maxPoints p).
    rewrite lastn_app, <- app_assoc. reflexivity.
Qed.

(** A path keeps the points that were added last, in the order in which
    they came, up to [maxPoints] of them. *)
Theorem path_keeps_last_points (pts : list point) (p : Path.t) :
  (List.length (Path.points p) <= Path.maxPoints p)%nat ->
  Path.points (addPoints pts p)
  = lastn (Path.maxPoints p) (Path.points p ++ pts) /\
  (List.length (Path.points (addPoints pts p)) <= Path.maxPoints p)%nat.
Proof.
  intros Hl. destruct (addPoints_points pts p Hl) as [E _].
  split; [exact E |]. rewrite E. unfold lastn. rewrite length_skipn. lia.
Qed.

Lemma path_keeps_last_points_witness :
  Path.points (addPoints three_points short_path)
  = lastn (Path.maxPoints short_path)
          (Path.points short_path ++ three_points) /\
  (List.length (Path.points (addPoints three_points short_path))
   <= Path.maxPoints short_path)%nat.
Proof. apply path_keeps_last_points. cbn. lia. Defined.

(** ** The physics of a particle *)

Lemma with_speed_with_speed (a b c d : R) (p : Particle.t) :
  Particle.with_speed a b (Particle.with_speed c d p)
  = Particle.with_speed a b p.
Proof. reflexivity. Qed.

Lemma avoid_obstacles_speed (obstacles : list Obstacle.t) :
  forall p : Particle.t,
  exists sx sy,
    Particle.avoid_obstacles obstacles p
    = Normal (Particle.with_speed sx sy p).
Proof.
  unfold Particle.avoid_obstacles.
  induction obstacles as [| o os IH]; intros p; cbn [fold_left].
  - exists (Particle.speedX p), (Particle.speedY p). destruct p; reflexivity.
  - unfold Particle.avoid at 2. cbn [obind].
    destruct (Rltb _ _).
    + cbn [resolve_angle existsb String.eqb Ascii.eqb Bool.eqb orb obind].
      match goal with |- context [Normal (Particle.with_speed ?a ?b p)] =>
        destruct (IH (Particle.with_speed a b p)) as (sx & sy & ->) end.
      exists sx, sy. reflexivity.
    + apply IH.
Qed.

Lemma follow_paths_speed (paths : list Path.t) (p : Particle.t) :
  exists sx sy,
    Particle.follow_paths paths p = Normal (Particle.with_speed sx sy p).
Proof.
  assert (Hid : exists sx sy, @Normal Particle.t p
                              = Normal (Particle.with_speed sx sy p)).
  { exists (Particle.speedX p), (Particle.speedY p). destruct p; reflexivity. }
  unfold Particle.follow_paths.
  destruct (_ <? _)%nat; [| exact Hid].
  destruct (fold_left _ _ _) as [[d [cx cy]] |]; [| exact Hid].
  destruct (Rltb d 100); [| exact Hid].
  cbn [resolve_angle existsb String.eqb Ascii.eqb Bool.eqb orb obind].
  eexists; eexists; reflexivity.
Qed.

(** [Particle.update] on a particle that is active: the forces change
    the velocity only, and the rest is [integrate]. *)
Lemma Particle_update_integrate (paths : list Path.t)
  (obstacles : list Obstacle.t) (p : Particle.t) :
  Particle.active p = true ->
  exists sx sy,
    Particle.update paths obstacles p
    = Normal (Particle.integrate (Particle.with_speed sx sy p)).
Proof.
  intros Ha. unfold Particle.update. rewrite Ha. cbn [negb].
  destruct (follow_paths_speed paths
              (Particle.with_speed (Particle.speedX p)
                 (Particle.speedY p + Particle.gravity p) p))
    as (sx & sy & ->).
  cbn [obind]. rewrite with_speed_with_speed.
  destruct (avoid_obstacles_speed obstacles (Particle.with_speed sx sy p))
    as (sx' & sy' & ->).
  cbn [obind]. rewrite with_speed_with_speed. exists sx', sy'. reflexivity.
Qed.

Lemma push_shift {A : Type} (n : nat) (l : list A) (a : A) :
  (List.length l <= n)%nat ->
  (if (n <? List.length (l ++ [a]))%nat then tl (l ++ [a]) else l ++ [a])
  = lastn n (l ++ [a]).
Proof.
  intros Hl. unfold lastn. rewrite length_app. cbn [List.length].
  destruct (Nat.ltb_spec n (List.length l + 1)) as [Hfull | Hroom].
  - replace (List.length l + 1 - n)%nat with 1%nat by lia. reflexivity.
  - replace (List.length l + 1 - n)%nat with 0%nat by lia. reflexivity.
Qed.

(** One call of [Particle.update] never throws.  On an active particle
    it moves the position by the velocity that it leaves, takes [decay]
    off [life] and deactivates the particle when no life is left, and
    records the new position at the end of the trail, which keeps its last
    [maxTrailLength] positions; an inactive particle is left as it is. *)
Theorem Particle_update_effect (paths : list Path.t)
  (obstacles : list Obstacle.t) (p : Particle.t) :
  exists p',
    Particle.update paths obstacles p = Normal p' /\
    (Particle.active p = false -> p' = p) /\
    (Particle.active p = true ->
     Particle.x p' = Particle.x p + Particle.speedX p' /\
     Particle.y p' = Particle.y p + Particle.speedY p' /\
     Particle.life p' = Particle.life p - Particle.decay p /\
     (Particle.active p' = true <-> Particle.decay p < Particle.life p) /\
     ((List.length (Particle.trail p) <= Particle.maxTrailLength p)%nat ->
      Particle.trail p'
      = lastn (Particle.maxTrailLength p)
              (Particle.trail p ++ [(Particle.x p', Particle.y p')])) /\
     Particle.size p' = Particle.size p /\
     Particle.decay p' = Particle.decay p /\
     Particle.gravity p' = Particle.gravity p /\
     Particle.maxTrailLength p' = Particle.maxTrailLength p).
Proof.
  destruct (Particle.active p) eqn:Ha.
  - destruct (Particle_update_integrate paths obstacles p Ha)
      as (sx & sy & E).
    eexists. split; [exact E |]. split; [discriminate |]. intros _.
    cbn [Particle.integrate Particle.with_speed Particle.x Particle.y
         Particle.speedX Particle.speedY Particle.life Particle.decay
         Particle.active Particle.trail Particle.size Particle.gravity
         Particle.maxTrailLength].
    repeat split; try reflexivity.
    + rewrite Ha. destruct (Rle_dec (Particle.life p - Particle.decay p) 0)
        as [Hle | Hgt].
      * rewrite (Rleb_true _ _ Hle). discriminate.
      * intros _. lra.
    + intros Hlt. rewrite Rleb_false by lra. exact Ha.
    + intros Hl. apply push_shift. exact Hl.
  - exists p. unfold Particle.update. rewrite Ha. cbn [negb].
    split; [reflexivity |]. split; [reflexivity | discriminate].
Qed.

(** ** The path that a particle follows *)

Lemma distance_le_distance (x y x1 y1 x2 y2 : R) :
  (x1 - x) * (x1 - x) + (y1 - y) * (y1 - y)
  <= (x2 - x) * (x2 - x) + (y2 - y) * (y2 - y) ->
  distance x y x1 y1 <= distance x y x2 y2.
Proof.
  intros H. unfold distance. apply sqrt_le_1_alt.
  replace ((x1 - x) ^ 2 + (y1 - y) ^ 2)
    with ((x1 - x) * (x1 - x) + (y1 - y) * (y1 - y)) by ring.
  replace ((x2 - x) ^ 2 + (y2 - y) ^ 2)
    with ((x2 - x) * (x2 - x) + (y2 - y) * (y2 - y)) by ring.
  exact H.
Qed.

(** The point that [closer] computes on a segment is the point of the
    segment that is nearest to the particle. *)
Lemma projection_nearest (px py ax ay bx b_y s : R) :
  distance ax ay bx b_y <> 0 ->
  0 <= s <= 1 ->
  let L := distance ax ay bx b_y in
  let t := clamp (((px - ax) * (bx - ax) + (py - ay) * (b_y - ay)) / (L * L))
                 0 1 in
  0 <= t <= 1 /\
  distance px py (ax + t * (bx - ax)) (ay + t * (b_y - ay))
  <= distance px py (ax + s * (bx - ax)) (ay + s * (b_y - ay)).
Proof.
  intros HL Hs L t.
  pose proof (distance_square ax ay bx b_y) as HL2. fold L in HL2.
  pose proof (distance_nonneg ax ay bx b_y) as HL0. fold L in HL0.
  fold L in HL.
  set (dx := bx - ax) in *. set (dy := b_y - ay) in *.
  set (wx := px - ax) in *. set (wy := py - ay) in *.
  set (L2 := L * L) in *.
  assert (HL2pos : 0 < L2) by (unfold L2; nra).
  set (ts := (wx * dx + wy * dy) / L2) in *.
  assert (Hq : wx * dx + wy * dy = ts * L2).
  { unfold ts. field. lra. }
  assert (Ht : 0 <= t <= 1 /\
               (t = ts \/ (t = 0 /\ ts <= 0) \/ (t = 1 /\ 1 <= ts))).
  { unfold t, clamp, Rmin, Rmax.
    destruct (Rle_dec ts 0); destruct (Rle_dec _ 1); lra. }
  destruct Ht as [Ht01 Hcase]. split; [exact Ht01 |].
  apply distance_le_distance.
  replace (ax + t * dx - px) with (t * dx - wx) by (unfold wx; ring).
  replace (ay + t * dy - py) with (t * dy - wy) by (unfold wy; ring).
  replace (ax + s * dx - px) with (s * dx - wx) by (unfold wx; ring).
  replace (ay + s * dy - py) with (s * dy - wy) by (unfold wy; ring).
  assert (E : (s * dx - wx) * (s * dx - wx) + (s * dy - wy) * (s * dy - wy)
              - ((t * dx - wx) * (t * dx - wx)
                 + (t * dy - wy) * (t * dy - wy))
              = L2 * ((s - t) * (s + t - 2 * ts))).
  { replace (L2 * ((s - t) * (s + t - 2 * ts)))
      with ((s * s - t * t) * L2 - 2 * (s - t) * (ts * L2)) by ring.
    rewrite <- Hq. rewrite HL2. ring. }
  assert (Hsign : 0 <= (s - t) * (s + t - 2 * ts)).
  { destruct Hcase as [-> | [[-> Hts] | [-> Hts]]].
    - replace ((s - ts) * (s + ts - 2 * ts)) with ((s - ts) * (s - ts))
        by ring.
      apply Rle_0_sqr.
    - nra.
    - replace ((s - 1) * (s + 1 - 2 * ts))
        with ((1 - s) * (2 * ts - 1 - s)) by ring.
      apply Rmult_le_pos; lra. }
  assert (0 <= L2 * ((s - t) * (s + t - 2 * ts)))
    by (apply Rmult_le_pos; lra).
  lra.
Qed.

Lemma closer_step (p : Particle.t) (segs : list (point * point))
  (best : option (R * point)) (seg : point * point) :
  nearest_on (Particle.x p) (Particle.y p) segs best ->
  nearest_on (Particle.x p) (Particle.y p) (segs ++ [seg])
             (Particle.closer p best seg).
Proof.
  intros Hbest. destruct seg as [[ax ay] [bx b_y]].
  unfold Particle.closer.
  set (L := distance ax ay bx b_y).
  destruct (Req_dec_T L 0) as [H0 | Hne].
  - (* a degenerate segment is skipped *)
    unfold Reqb. destruct (Req_dec_T L 0) as [_ | C]; [| contradiction].
    destruct best as [[d c] |].
    + destruct Hbest as (Hd & (seg & s & Hin & Hs & Hc) & Hmin).
      split; [exact Hd |]. split.
      * exists seg, s. split; [apply in_or_app; left; exact Hin |].
        split; assumption.
      * intros seg' s' Hin' Hnd Hs'. apply in_app_or in Hin'.
        destruct Hin' as [Hin' | [<- | []]].
        -- apply Hmin; assumption.
        -- exfalso. apply Hnd. exact H0.
    + intros seg' Hin'. apply in_app_or in Hin'.
      destruct Hin' as [Hin' | [<- | []]]; [apply Hbest; exact Hin' |].
      exact H0.
  - unfold Reqb. destruct (Req_dec_T L 0) as [C | _]; [contradiction |].
    set (t := clamp (((Particle.x p - ax) * (bx - ax)
                      + (Particle.y p - ay) * (b_y - ay)) / (L * L)) 0 1).
    set (cx := ax + t * (bx - ax)). set (cy := ay + t * (b_y - ay)).
    set (dist := distance (Particle.x p) (Particle.y p) cx cy).
    assert (Hproj : 0 <= t <= 1 /\
              forall s, 0 <= s <= 1 ->
                dist <= distance (Particle.x p) (Particle.y p)
                          (ax + s * (bx - ax)) (ay + s * (b_y - ay))).
    { split.
      - apply (projection_nearest (Particle.x p) (Particle.y p)
                 ax ay bx b_y 0 Hne). lra.
      - intros s Hs.
        apply (projection_nearest (Particle.x p) (Particle.y p)
                 ax ay bx b_y s Hne Hs). }
    destruct Hproj as [Ht Hnear].
    assert (Hnew : nearest_on (Particle.x p) (Particle.y p)
                     [((ax, ay), (bx, b_y))] (Some (dist, (cx, cy)))).
    { split; [reflexivity |]. split.
      - exists ((ax, ay), (bx, b_y)), t.
        split; [left; reflexivity |]. split; [exact Ht | reflexivity].
      - intros seg' s' [<- | []] _ Hs'. apply Hnear. exact Hs'. }
    destruct best as [[d c] |].
    + destruct Hbest as (Hd & (seg & s & Hin & Hs & Hc) & Hmin).
      destruct (Rlt_dec dist d) as [Hlt | Hge].
      * rewrite (Rltb_true _ _ Hlt).
        destruct Hnew as (Hd' & (seg' & s' & Hin' & Hs' & Hc') & Hmin').
        split; [exact Hd' |]. split.
        -- exists seg', s'. split; [apply in_or_app; right; exact Hin' |].
           split; assumption.
        -- intros seg'' s'' Hin'' Hnd Hs''. apply in_app_or in Hin''.
           destruct Hin'' as [Hin'' | Hin''].
           ++ specialize (Hmin seg'' s'' Hin'' Hnd Hs''). lra.
           ++ apply Hmin'; assumption.
      * rewrite Rltb_false by lra.
        split; [exact Hd |]. split.
        -- exists seg, s. split; [apply in_or_app; left; exact Hin |].
           split; assumption.
        -- intros seg'' s'' Hin'' Hnd Hs''. apply in_app_or in Hin''.
           destruct Hin'' as [Hin'' | Hin''].
           ++ apply Hmin; assumption.
           ++ destruct Hnew as (_ & _ & Hmin').
              specialize (Hmin' seg'' s'' Hin'' Hnd Hs''). lra.
    + destruct Hnew as (Hd' & (seg' & s' & Hin' & Hs' & Hc') & Hmin').
      split; [exact Hd' |]. split.
      * exists seg', s'. split; [apply in_or_app; right; exact Hin' |].
        split; assumption.
      * intros seg'' s'' Hin'' Hnd Hs''. apply in_app_or in Hin''.
        destruct Hin'' as [Hin'' | Hin''].
        -- exfalso. apply Hnd. apply Hbest. exact Hin''.
        -- apply Hmin'; assumption.
Qed.

Lemma closer_fold (p : Particle.t) (segs : list (point * point)) :
  forall (seen : list (point * point)) (best : option (R * point)),
    nearest_on (Particle.x p) (Particle.y p) seen best ->
    nearest_on (Particle.x p) (Particle.y p) (seen ++ segs)
               (fold_left (Particle.closer p) segs best).
Proof.
  induction segs as [| seg segs IH]; intros seen best Hbest.
  - rewrite app_nil_r. exact Hbest.
  - cbn [fold_left].
    replace (seen ++ seg :: segs) with ((seen ++ [seg]) ++ segs)
      by (rewrite <- app_assoc; reflexivity).
    apply IH, closer_step, Hbest.
Qed.

Lemma closest_on_path_fold (p : Particle.t) (best : option (R * point))
  (path : Path.t) :
  Particle.closest_on_path p best path
  = fold_left (Particle.closer p) (Particle.segments (Path.points path)) best.
Proof.
  unfold Particle.closest_on_path.
  destruct (Path.points path) as [| a [| b l]]; reflexivity.
Qed.

Lemma closest_on_paths_fold (p : Particle.t) (paths : list Path.t) :
  forall best : option (R * point),
    fold_left (Particle.closest_on_path p) paths best
    = fold_left (Particle.closer p) (all_segments paths) best.
Proof.
  induction paths as [| path paths IH]; intros best; [reflexivity |].
  cbn [fold_left all_segments flat_map]. rewrite fold_left_app.
  rewrite closest_on_path_fold. apply IH.
Qed.

Lemma closest_on_paths_nearest (p : Particle.t) (paths : list Path.t) :
  nearest_on (Particle.x p) (Particle.y p) (all_segments paths)
             (fold_left (Particle.closest_on_path p) paths None).
Proof.
  rewrite closest_on_paths_fold.
  apply (closer_fold p (all_segments paths) [] None). intros seg [].
Qed.

Lemma cos_sin_angle (x1 y1 x2 y2 : R) :
  0 < distance x1 y1 x2 y2 ->
  cos (angle x1 y1 x2 y2) = (x2 - x1) / distance x1 y1 x2 y2 /\
  sin (angle x1 y1 x2 y2) = (y2 - y1) / distance x1 y1 x2 y2.
Proof.
  intros Hd. destruct (angle_polar x1 y1 x2 y2) as [Hc Hs].
  rewrite <- Hc, <- Hs. split; field; lra.
Qed.

(** "Follow nearby paths".  The search ends on the point of the paths
    that is nearest to the particle.  When that point is less than 100
    away, the velocity gets a pull toward it of size
    [pathFollowForce * (1 - d / 100)]; when it is 100 away or more, or
    when no path has two distinct points, the particle is left as it
    is. *)
Theorem follow_paths_nearest (paths : list Path.t) (p : Particle.t) :
  let best := fold_left (Particle.closest_on_path p) paths None in
  nearest_on (Particle.x p) (Particle.y p) (all_segments paths) best /\
  match best with
  | None => Particle.follow_paths paths p = Normal p
  | Some (d, (cx, cy)) =>
      (100 <= d -> Particle.follow_paths paths p = Normal p) /\
      (0 < d < 100 ->
       let force := Particle.pathFollowForce p * (1 - d / 100) in
       Particle.follow_paths paths p
       = Normal (Particle.with_speed
                   (Particle.speedX p + (cx - Particle.x p) / d * force)
                   (Particle.speedY p + (cy - Particle.y p) / d * force)
                   p))
  end.
Proof.
  intros best. pose proof (closest_on_paths_nearest p paths) as Hn.
  fold best in Hn. split; [exact Hn |].
  destruct paths as [| path paths']; [reflexivity |].
  unfold Particle.follow_paths. fold best.
  change (0 <? List.length (path :: paths'))%nat with true. cbv iota.
  clearbody best.
  destruct best as [[d [cx cy]] |]; [| reflexivity].
  destruct Hn as (Hd & _ & _). cbn [fst snd] in Hd. split.
  - intros Hfar. rewrite (Rltb_false d 100) by lra. reflexivity.
  - intros Hnear. cbv zeta. rewrite (Rltb_true d 100) by lra.
    cbn [resolve_angle existsb String.eqb Ascii.eqb Bool.eqb orb obind].
    destruct (cos_sin_angle (Particle.x p) (Particle.y p) cx cy)
      as [Hc Hs]; [rewrite <- Hd; lra |].
    rewrite Hc, Hs, <- Hd. reflexivity.
Qed.

Lemma follow_paths_nearest_witness :
  let best := fold_left (Particle.closest_on_path near_particle)
                        [straight_path] None in
  nearest_on (Particle.x near_particle) (Particle.y near_particle)
             (all_segments [straight_path]) best.
Proof. apply (follow_paths_nearest [straight_path] near_particle). Defined.

(** "Avoid obstacles", for one obstacle.  A particle that is less than
    [radius + 50] away from the centre of the obstacle, and not on it,
    gets a push straight away from the centre, of a size between 0 and 2
    that grows as the particle comes nearer; a particle that is farther
    away is left as it is. *)
Theorem avoid_pushes_away (p : Particle.t) (o : Obstacle.t) :
  let dist := distance (Particle.x p) (Particle.y p)
                       (Obstacle.x o) (Obstacle.y o) in
  let reach := Obstacle.radius o + 50 in
  (reach <= dist -> Particle.avoid (Normal p) o = Normal p) /\
  (0 < dist < reach ->
   let force := 2 * (1 - dist / reach) in
   0 < force < 2 /\
   Particle.avoid (Normal p) o
   = Normal (Particle.with_speed
               (Particle.speedX p
                + (Particle.x p - Obstacle.x o) / dist * force)
               (Particle.speedY p
                + (Particle.y p - Obstacle.y o) / dist * force)
               p)).
Proof.
  intros dist reach. unfold Particle.avoid. cbn [obind]. fold dist reach.
  split.
  - intros Hfar. rewrite (Rltb_false dist reach) by lra. reflexivity.
  - intros [Hpos Hnear]. cbv zeta. split.
    + assert (0 < dist / reach < 1).
      { split; [apply Rdiv_lt_0_compat; lra |].
        apply (Rmult_lt_reg_r reach); [lra |]. unfold Rdiv.
        rewrite Rmult_assoc, Rinv_l by lra. lra. }
      lra.
    + rewrite (Rltb_true dist reach) by lra.
      cbn [resolve_angle existsb String.eqb Ascii.eqb Bool.eqb orb obind].
      assert (Hsym : distance (Obstacle.x o) (Obstacle.y o)
                              (Particle.x p) (Particle.y p) = dist)
        by apply distance_sym.
      destruct (cos_sin_angle (Obstacle.x o) (Obstacle.y o)
                  (Particle.x p) (Particle.y p)) as [Hc Hs];
        [rewrite Hsym; exact Hpos |].
      rewrite Hc, Hs, Hsym. reflexivity.
Qed.

Lemma near_particle_distance :
  distance (Particle.x near_particle) (Particle.y near_particle)
           (Obstacle.x avoiding_obstacle) (Obstacle.y avoiding_obstacle)
  = 40.
Proof.
  cbn [near_particle avoiding_obstacle Particle.x Particle.y Obstacle.x
       Obstacle.y].
  rewrite distance_sym, distance_on_x_axis by lra. ring.
Qed.

Lemma avoid_pushes_away_witness :
  let dist := distance (Particle.x near_particle) (Particle.y near_particle)
                       (Obstacle.x avoiding_obstacle)
                       (Obstacle.y avoiding_obstacle) in
  let force := 2 * (1 - dist / (Obstacle.radius avoiding_obstacle + 50)) in
  0 < force < 2 /\
  Particle.avoid (Normal near_particle) avoiding_obstacle
  = Normal (Particle.with_speed
              (Particle.speedX near_particle
               + (Particle.x near_particle - Obstacle.x avoiding_obstacle)
                 / dist * force)
              (Particle.speedY near_particle
               + (Particle.y near_particle - Obstacle.y avoiding_obstacle)
                 / dist * force)
              near_particle).
Proof.
  apply (avoid_pushes_away near_particle avoiding_obstacle).
  rewrite near_particle_distance. cbn [avoiding_obstacle Obstacle.radius].
  lra.
Defined.

(** ** What an emitter creates *)

Lemma Particle_new_born (x y : R) (o : Particle.options) (d : Dice) :
  let p := fst (Particle.new x y o d) in
  Particle.x p = x /\ Particle.y p = y /\ Particle.active p = true /\
  Particle.trail p = [].
Proof.
  unfold Particle.new.
  destruct (js_or_random (Particle.o_size o) 2 6 d) as [sz d1].
  destruct (js_or_random (Particle.o_speedX o) (-1) 1 d1) as [sx d2].
  destruct (js_or_random (Particle.o_speedY o) (-1) 1 d2) as [sy d3].
  destruct (js_or_color (Particle.o_color o) d3) as [c d4].
  cbn. repeat split.
Qed.

Lemma emit_one_spec (e : ParticleEmitter.t) (h : Host) :
  let '(a, e', h') := ParticleEmitter.emit_one e h in
  a = List.length (heap h) /\
  e' = ParticleEmitter.with_particles (ParticleEmitter.particles e ++ [a]) e /\
  exists p, heap h' = heap h ++ [p] /\ born_at e p.
Proof.
  unfold ParticleEmitter.emit_one. cbn [roll draw].
  match goal with |- context [Particle.new ?x ?y ?o ?d] =>
    pose proof (Particle_new_born x y o d) as Hb;
    destruct (Particle.new x y o d) as [p d'] end.
  cbn [fst] in Hb. cbn [alloc with_dice with_heap heap].
  split; [reflexivity |]. split; [reflexivity |].
  exists p. split; [reflexivity | exact Hb].
Qed.

Lemma emit_loop_spec (n : nat) :
  forall (acc : list addr) (e : ParticleEmitter.t) (h : Host),
    let '(l, e', h') := ParticleEmitter.emit_loop n acc e h in
    exists created,
      List.length created = Nat.min n (room e) /\
      l = acc ++ seq (List.length (heap h)) (List.length created) /\
      e' = ParticleEmitter.with_particles
             (ParticleEmitter.particles e
              ++ seq (List.length (heap h)) (List.length created)) e /\
      heap h' = heap h ++ created /\
      Forall (born_at e) created.
Proof.
  induction n as [| n IH]; intros acc e h.
  - cbn [ParticleEmitter.emit_loop]. exists []. cbn [List.length seq].
    rewrite !app_nil_r. repeat split; try reflexivity.
    + destruct e; reflexivity.
    + constructor.
  - cbn [ParticleEmitter.emit_loop].
    destruct (Z.leb_spec (ParticleEmitter.maxParticles e)
                (Z.of_nat (List.length (ParticleEmitter.particles e))))
      as [Hfull | Hroom].
    + exists []. cbn [List.length seq]. rewrite !app_nil_r.
      repeat split; try reflexivity.
      * unfold room. lia.
      * destruct e; reflexivity.
      * constructor.
    + pose proof (emit_one_spec e h) as H1.
      destruct (ParticleEmitter.emit_one e h) as [[a e1] h1].
      destruct H1 as (-> & -> & p & Hh1 & Hp).
      specialize (IH (acc ++ [List.length (heap h)])
                     (ParticleEmitter.with_particles
                        (ParticleEmitter.particles e ++ [List.length (heap h)])
                        e) h1).
      destruct (ParticleEmitter.emit_loop n _ _ h1) as [[l e'] h'].
      destruct IH as (created & Hlen & -> & -> & Hh' & Hall).
      exists (p :: created).
      assert (Hroom1 : room (ParticleEmitter.with_particles
                               (ParticleEmitter.particles e
                                ++ [List.length (heap h)]) e)
                       = (room e - 1)%nat).
      { unfold room. cbn [ParticleEmitter.with_particles
                          ParticleEmitter.maxParticles
                          ParticleEmitter.particles].
        rewrite length_app. cbn [List.length]. lia. }
      assert (Hlen1 : List.length (heap h1) = S (List.length (heap h))).
      { rewrite Hh1, length_app. cbn [List.length]. lia. }
      split; [| split; [| split; [| split]]].
      * cbn [List.length]. rewrite Hlen, Hroom1. unfold room in *. lia.
      * cbn [List.length seq]. rewrite Hlen1, <- app_assoc. reflexivity.
      * cbn [ParticleEmitter.with_particles ParticleEmitter.particles
             ParticleEmitter.x ParticleEmitter.y ParticleEmitter.rate
             ParticleEmitter.spread ParticleEmitter.speed
             ParticleEmitter.size ParticleEmitter.color ParticleEmitter.life
             ParticleEmitter.gravity ParticleEmitter.active
             ParticleEmitter.maxParticles ParticleEmitter.rateFraction
             List.length seq].
        rewrite Hlen1, <- app_assoc. reflexivity.
      * rewrite Hh', Hh1, <- app_assoc. reflexivity.
      * constructor; [exact Hp |].
        eapply Forall_impl; [| exact Hall]. intros q Hq. exact Hq.
Qed.

(** What a call of [emit] creates.  A call that returns has created
    [Math.floor(rate)] particles, or as many of them as the pool had room
    for, and none on an inactive emitter; they are new objects, active
    and at the place of the emitter; the pool has got the particles that
    are returned and no other, and it is not larger than [maxParticles]
    unless it was before.  A call that throws has created nothing. *)
Theorem emit_creates (e : ParticleEmitter.t) (h : Host) :
  let '(r, e', h') := ParticleEmitter.emit e h in
  match r with
  | Throw _ =>
      ParticleEmitter.particles e' = ParticleEmitter.particles e /\ h' = h
  | Normal l =>
      ParticleEmitter.particles e' = ParticleEmitter.particles e ++ l /\
      l = seq (List.length (heap h)) (List.length l) /\
      List.length l
      = (if ParticleEmitter.active e
         then Nat.min (Z.to_nat (Math_floor (ParticleEmitter.rate e)))
                      (room e)
         else 0%nat) /\
      (exists created,
         heap h' = heap h ++ created /\
         List.length created = List.length l /\
         Forall (born_at e) created) /\
      (Z.of_nat (List.length (ParticleEmitter.particles e'))
       <= Z.max (Z.of_nat (List.length (ParticleEmitter.particles e)))
                (ParticleEmitter.maxParticles e))%Z
  end.
Proof.
  unfold ParticleEmitter.emit.
  destruct (ParticleEmitter.active e) eqn:Ha; cbn [negb].
  2:{ cbn [List.length seq]. rewrite app_nil_r.
      repeat split; try reflexivity.
      - exists []. rewrite app_nil_r. repeat split. constructor.
      - lia. }
  destruct (Rleb 1 _).
  - cbn [increment]. split; reflexivity.
  - match goal with |- context [ParticleEmitter.emit_loop ?n ?acc ?e0 ?h0] =>
      pose proof (emit_loop_spec n acc e0 h0) as H;
      destruct (ParticleEmitter.emit_loop n acc e0 h0) as [[l e'] h'] end.
    destruct H as (created & Hlen & -> & -> & Hh' & Hall).
    cbn [app ParticleEmitter.with_particles ParticleEmitter.particles
         ParticleEmitter.with_rateFraction ParticleEmitter.maxParticles]
      in *.
    rewrite length_seq.
    assert (Hroom : room (ParticleEmitter.with_rateFraction
                            (Some (js_or (ParticleEmitter.rateFraction e) 0
                                   + (ParticleEmitter.rate e
                                      - IZR (Math_floor
                                               (ParticleEmitter.rate e)))))
                            (ParticleEmitter.with_rateFraction
                               (Some (js_or (ParticleEmitter.rateFraction e) 0))
                               e))
                    = room e) by reflexivity.
    rewrite Hroom in Hlen.
    split; [reflexivity |]. split; [reflexivity |].
    split; [exact Hlen |]. split.
    + exists created. split; [exact Hh' |]. split; [reflexivity |].
      eapply Forall_impl; [| exact Hall]. intros q Hq. exact Hq.
    + rewrite length_app, length_seq, Hlen. unfold room. lia.
Qed.

Lemma emit_creates_witness :
  let '(r, e', h') := ParticleEmitter.emit nearly_full_emitter empty_host in
  match r with
  | Throw _ =>
      ParticleEmitter.particles e'
      = ParticleEmitter.particles nearly_full_emitter /\ h' = empty_host
  | Normal l =>
      ParticleEmitter.particles e'
      = ParticleEmitter.particles nearly_full_emitter ++ l /\
      l = seq (List.length (heap empty_host)) (List.length l) /\
      List.length l
      = (if ParticleEmitter.active nearly_full_emitter
         then Nat.min (Z.to_nat (Math_floor
                                   (ParticleEmitter.rate nearly_full_emitter)))
                      (room nearly_full_emitter)
         else 0%nat) /\
      (exists created,
         heap h' = heap empty_host ++ created /\
         List.length created = List.length l /\
         Forall (born_at nearly_full_emitter) created) /\
      (Z.of_nat (List.length (ParticleEmitter.particles e'))
       <= Z.max (Z.of_nat (List.length
                             (ParticleEmitter.particles nearly_full_emitter)))
                (ParticleEmitter.maxParticles nearly_full_emitter))%Z
  end.
Proof. apply (emit_creates nearly_full_emitter empty_host). Defined.

(** ** The pruning of a pool *)

Lemma firstn_S_nth {A : Type} (l : list A) (j : nat) (a : A) :
  nth_error l j = Some a -> firstn (S j) l = firstn j l ++ [a].
Proof.
  revert l. induction j as [| j IH]; intros [| b l] E; try discriminate.
  - cbn in E. inversion E. reflexivity.
  - cbn [nth_error] in E.
    change (firstn (S (S j)) (b :: l)) with (b :: firstn (S j) l).
    rewrite (IH l E). reflexivity.
Qed.

Lemma skipn_nth {A : Type} (l : list A) (j : nat) (a : A) :
  nth_error l j = Some a -> skipn j l = a :: skipn (S j) l.
Proof.
  revert l. induction j as [| j IH]; intros [| b l] E; try discriminate.
  - cbn in E. inversion E. reflexivity.
  - cbn [nth_error] in E.
    change (skipn (S j) (b :: l)) with (skipn j l).
    change (skipn (S (S j)) (b :: l)) with (skipn (S j) l).
    apply IH. exact E.
Qed.

Lemma split_at_nth {A : Type} (l : list A) (j : nat) (a : A) :
  nth_error l j = Some a -> l = firstn j l ++ a :: skipn (S j) l.
Proof.
  intros E. rewrite <- (skipn_nth l j a E). symmetry. apply firstn_skipn.
Qed.

Lemma In_firstn {A : Type} (l : list A) (n : nat) (a : A) :
  In a (firstn n l) -> In a l.
Proof.
  intros H. rewrite <- (firstn_skipn n l). apply in_or_app. left. exact H.
Qed.

Lemma In_skipn {A : Type} (l : list A) (n : nat) (a : A) :
  In a (skipn n l) -> In a l.
Proof.
  intros H. rewrite <- (firstn_skipn n l). apply in_or_app. right. exact H.
Qed.

Lemma firstn_splice {A : Type} (l : list A) (j : nat) :
  (j <= List.length l)%nat -> firstn j (splice j l) = firstn j l.
Proof.
  intros Hj. unfold splice. rewrite firstn_app, length_firstn.
  replace (j - Nat.min j (List.length l))%nat with 0%nat by lia.
  cbn [firstn]. rewrite app_nil_r. apply firstn_all2.
  rewrite length_firstn. lia.
Qed.

Lemma skipn_splice {A : Type} (l : list A) (j : nat) :
  (j <= List.length l)%nat -> skipn j (splice j l) = skipn (S j) l.
Proof.
  intros Hj. unfold splice. rewrite skipn_app, length_firstn.
  replace (j - Nat.min j (List.length l))%nat with 0%nat by lia.
  cbn [skipn]. rewrite skipn_all2; [reflexivity |].
  rewrite length_firstn. lia.
Qed.

Lemma load_store_other (a b : addr) (p : Particle.t) (h : Host) :
  a <> b -> load b (store a p h) = load b h.
Proof.
  intros Hne. unfold load, store. cbn [heap with_heap].
  revert a b Hne. induction (heap h) as [| q l IH]; intros a b Hne.
  - destruct a; reflexivity.
  - destruct a as [| a]; destruct b as [| b]; cbn [list_set nth_error];
      try reflexivity; [contradiction | apply IH; congruence].
Qed.

Lemma load_log (ev : event) (a : addr) (h : Host) :
  load a (log ev h) = load a h.
Proof. reflexivity. Qed.

Lemma store_length (a : addr) (p : Particle.t) (h : Host) :
  List.length (heap (store a p h)) = List.length (heap h).
Proof. unfold store. cbn [heap with_heap]. apply list_set_length. Qed.

Lemma moved_ext (paths : list Path.t) (obstacles : list Obstacle.t)
  (h h' : Host) (a : addr) :
  load a h' = load a h -> moved paths obstacles h' a = moved paths obstacles h a.
Proof. intros E. unfold moved. rewrite E. reflexivity. Qed.

Lemma survives_ext (paths : list Path.t) (obstacles : list Obstacle.t)
  (w hgt : R) (h h' : Host) (a : addr) :
  load a h' = load a h ->
  survives paths obstacles w hgt h' a = survives paths obstacles w hgt h a.
Proof.
  intros E. unfold survives. rewrite (moved_ext _ _ _ _ _ E). reflexivity.
Qed.

Lemma update_from_closed (paths : list Path.t) (obstacles : list Obstacle.t)
  (w hgt : R) (i : nat) :
  forall (e : ParticleEmitter.t) (h : Host),
    pool_ok (ParticleEmitter.particles e) h ->
    (i <= List.length (ParticleEmitter.particles e))%nat ->
    let P := ParticleEmitter.particles e in
    let '(r, e', h') :=
      ParticleEmitter.update_from i paths obstacles w hgt e h in
    r = Normal tt /\
    e' = ParticleEmitter.with_particles
           (filter (survives paths obstacles w hgt h) (firstn i P)
            ++ skipn i P) e /\
    (forall a, In a (firstn i P) ->
               load a h' = moved paths obstacles h a) /\
    (forall a, ~ In a (firstn i P) -> load a h' = load a h) /\
    List.length (heap h') = List.length (heap h).
Proof.
  induction i as [| j IH]; intros e h [Hnd Hval] Hi P;
    fold P in Hnd, Hval, Hi.
  - cbn [ParticleEmitter.update_from firstn skipn filter app].
    split; [reflexivity |]. split; [destruct e; reflexivity |].
    split; [intros a [] |]. split; reflexivity.
  - cbn [ParticleEmitter.update_from]. fold P.
    destruct (nth_error P j) as [a |] eqn:Ea.
    2:{ apply nth_error_None in Ea. lia. }
    assert (Hina : In a P) by (eapply nth_error_In; exact Ea).
    assert (Hlt : (a < List.length (heap h))%nat).
    { rewrite Forall_forall in Hval. apply Hval. exact Hina. }
    destruct (load a h) as [p |] eqn:El.
    2:{ apply nth_error_None in El. lia. }
    destruct (Particle_update_normal paths obstacles p) as [p' Ep].
    rewrite Ep.
    set (h1 := store a p' (log (EvPhysics a) h)).
    set (dead := negb (Particle.active p')
                 || Particle.isOutOfBounds w hgt p').
    set (e1 := if dead then ParticleEmitter.with_particles (splice j P) e
               else e).
    assert (Hsplit : P = firstn j P ++ a :: skipn (S j) P)
      by (apply split_at_nth; exact Ea).
    assert (Hnotin : ~ In a (firstn j P)).
    { intros Hin. rewrite Hsplit in Hnd.
      apply NoDup_remove_2 in Hnd. apply Hnd. apply in_or_app. left.
      exact Hin. }
    assert (Hh1 : List.length (heap h1) = List.length (heap h)).
    { unfold h1. rewrite store_length. reflexivity. }
    assert (Hload1 : forall b, b <> a -> load b h1 = load b h).
    { intros b Hb. unfold h1. rewrite load_store_other by congruence.
      apply load_log. }
    assert (Hloada : load a h1 = Some p').
    { unfold h1. apply (load_store_same a p' p). rewrite load_log.
      exact El. }
    assert (Hmoved : moved paths obstacles h a = Some p').
    { unfold moved. rewrite El, Ep. reflexivity. }
    assert (Hsurv : survives paths obstacles w hgt h a = negb dead).
    { unfold survives. rewrite Hmoved. unfold dead.
      destruct (Particle.active p'); destruct (Particle.isOutOfBounds _ _ _);
        reflexivity. }
    assert (HP1 : firstn j (ParticleEmitter.particles e1) = firstn j P /\
                  skipn j (ParticleEmitter.particles e1)
                  = (if dead then [] else [a]) ++ skipn (S j) P).
    { unfold e1. destruct dead.
      - cbn [ParticleEmitter.with_particles ParticleEmitter.particles].
        split; [apply firstn_splice | apply skipn_splice]; lia.
      - fold P. split; [reflexivity |]. apply skipn_nth. exact Ea. }
    destruct HP1 as [Hf1 Hs1].
    assert (Hok1 : pool_ok (ParticleEmitter.particles e1) h1).
    { unfold e1. destruct dead.
      - cbn [ParticleEmitter.with_particles ParticleEmitter.particles].
        fold P. split.
        + unfold splice. rewrite Hsplit in Hnd.
          apply NoDup_remove_1 in Hnd. exact Hnd.
        + rewrite Forall_forall in Hval |- *. intros b Hb. rewrite Hh1.
          apply Hval. unfold splice in Hb. apply in_app_or in Hb.
          fold P. destruct Hb as [Hb | Hb];
            [eapply In_firstn | eapply In_skipn]; exact Hb.
      - split; [exact Hnd |]. rewrite Forall_forall in Hval |- *.
        intros b Hb. rewrite Hh1. apply Hval. exact Hb. }
    assert (Hj1 : (j <= List.length (ParticleEmitter.particles e1))%nat).
    { unfold e1. destruct dead.
      - cbn [ParticleEmitter.with_particles ParticleEmitter.particles].
        unfold splice. rewrite length_app, length_firstn, length_skipn.
        fold P. lia.
      - fold P. lia. }
    specialize (IH e1 h1 Hok1 Hj1). cbv zeta in IH.
    fold e1 h1 dead.
    change (if dead then ParticleEmitter.with_particles (splice j P) e else e)
      with e1.
    destruct (ParticleEmitter.update_from j paths obstacles w hgt e1 h1)
      as [[r e'] h'].
    destruct IH as (-> & -> & Hin & Hout & Hlen).
    rewrite Hf1, Hs1 in *.
    assert (Hfilter : filter (survives paths obstacles w hgt h1) (firstn j P)
                      = filter (survives paths obstacles w hgt h)
                               (firstn j P)).
    { apply filter_ext_in. intros b Hb. apply survives_ext, Hload1.
      intros ->. contradiction. }
    rewrite (firstn_S_nth P j a Ea).
    split; [reflexivity |]. split; [| split; [| split]].
    + rewrite Hfilter, filter_app. cbn [filter]. rewrite Hsurv.
      unfold e1. destruct dead; cbn [negb app];
        rewrite <- ?app_assoc; reflexivity.
    + intros b Hb. apply in_app_or in Hb. destruct Hb as [Hb | [<- | []]].
      * rewrite (Hin b Hb). apply moved_ext, Hload1.
        intros ->. contradiction.
      * rewrite (Hout a Hnotin), Hloada, Hmoved. reflexivity.
    + intros b Hb. assert (Hb1 : ~ In b (firstn j P)).
      { intros C. apply Hb. apply in_or_app. left. exact C. }
      rewrite (Hout b Hb1). apply Hload1. intros ->. apply Hb.
      apply in_or_app. right. left. reflexivity.
    + rewrite Hlen. exact Hh1.
Qed.

(** [ParticleEmitter.update] on a pool of distinct particles: every
    particle of the pool gets one call of its [update], no other
    particle is touched, nothing is thrown, and the pool keeps, in their
    order, exactly the particles that are then active and within the
    bounds.  The backward loop with [splice] skips no particle. *)
Theorem emitter_update_prunes (paths : list Path.t)
  (obstacles : list Obstacle.t) (w hgt : R) (e : ParticleEmitter.t)
  (h : Host) :
  pool_ok (ParticleEmitter.particles e) h ->
  let '(r, e', h') := ParticleEmitter.update paths obstacles w hgt e h in
  r = Normal tt /\
  ParticleEmitter.particles e'
  = filter (survives paths obstacles w hgt h) (ParticleEmitter.particles e) /\
  (forall a, In a (ParticleEmitter.particles e) ->
             load a h' = moved paths obstacles h a) /\
  (forall a, ~ In a (ParticleEmitter.particles e) -> load a h' = load a h).
Proof.
  intros Hok. unfold ParticleEmitter.update.
  pose proof (update_from_closed paths obstacles w hgt
                (List.length (ParticleEmitter.particles e)) e h Hok
                (Nat.le_refl _)) as H.
  cbv zeta in H.
  destruct (ParticleEmitter.update_from _ paths obstacles w hgt e h)
    as [[r e'] h'].
  destruct H as (-> & -> & Hin & Hout & _).
  rewrite firstn_all, skipn_all, app_nil_r in *.
  split; [reflexivity |]. split; [reflexivity |].
  split; assumption.
Qed.

Lemma emitter_update_prunes_witness :
  let '(r, e', h') :=
    ParticleEmitter.update [] [] 800 600 two_pool_emitter two_pool_host in
  r = Normal tt /\
  ParticleEmitter.particles e'
  = filter (survives [] [] 800 600 two_pool_host)
           (ParticleEmitter.particles two_pool_emitter) /\
  (forall a, In a (ParticleEmitter.particles two_pool_emitter) ->
             load a h' = moved [] [] two_pool_host a) /\
  (forall a, ~ In a (ParticleEmitter.particles two_pool_emitter) ->
             load a h' = load a two_pool_host).
Proof.
  apply (emitter_update_prunes [] [] 800 600 two_pool_emitter two_pool_host).
  split.
  - repeat constructor; cbn; intuition lia.
  - repeat constructor; cbn; lia.
Defined.

(** ** The layout of a level *)

Lemma tape_only_refl (h : Host) : tape_only h h.
Proof. exists (draws (dice h)). destruct h as [hp [f n] c t tr]. reflexivity. Qed.

Lemma tape_only_trans (h1 h2 h3 : Host) :
  tape_only h1 h2 -> tape_only h2 h3 -> tape_only h1 h3.
Proof. intros [n ->] [m ->]. exists m. reflexivity. Qed.

Lemma tape_only_dice_only (h h' : Host) : tape_only h h' -> dice_only h h'.
Proof. intros [n ->]. eexists. reflexivity. Qed.

Lemma tape_only_fair (h h' : Host) : tape_only h h' -> fair h -> fair h'.
Proof. intros [n ->] Hf k. apply Hf. Qed.

Lemma roll_tape (h : Host) :
  tape_only h (snd (roll h)) /\
  fst (roll h) = Math_random (dice h) (draws (dice h)).
Proof. split; [eexists |]; reflexivity. Qed.

Lemma tape_only_draw (h h' : Host) :
  tape_only h h' -> tape_only h (with_dice (snd (draw (dice h'))) h').
Proof. intros [n ->]. eexists. reflexivity. Qed.

Lemma roll_fair (h : Host) : fair h -> 0 <= fst (roll h) < 1.
Proof. intros Hf. apply Hf. Qed.

(** [roll h], named, with what is known of it. *)
Ltac roll_tape_step h u h' Ht Hu :=
  let E := fresh "E" in
  destruct (roll_tape h) as [Ht Hu];
  destruct (roll h) as [u h'] eqn:E; cbn [fst snd] in Ht, Hu.

Lemma random_between_margin (u w : R) :
  0 <= u < 1 -> 100 <= w -> 50 <= random_between u 50 (w - 50) <= w - 50.
Proof. intros Hu Hw. unfold random_between. nra. Qed.

(** The placement loop: a position that it returns has passed the test,
    and it is within the margins when the tape is fair and the canvas is
    roomy. *)
Lemma find_position_rich (valid : R -> R -> bool) (n : nat) (w hgt : R) :
  forall hst : Host,
    tape_only hst (snd (Game.find_position valid n w hgt hst)) /\
    (forall x y,
       fst (Game.find_position valid n w hgt hst) = Some (x, y) ->
       valid x y = true /\
       (fair hst -> 100 <= w -> 100 <= hgt ->
        50 <= x <= w - 50 /\ 50 <= y <= hgt - 50)).
Proof.
  induction n as [| k IH]; intros hst; cbn [Game.find_position].
  - split; [apply tape_only_refl | discriminate].
  - roll_tape_step hst u1 h1 Ht1 Hu1. roll_tape_step h1 u2 h2 Ht2 Hu2.
    destruct (valid _ _) eqn:Ev; cbn [fst snd].
    + split; [eapply tape_only_trans; eassumption |].
      intros x y Epos. inversion Epos; subst x y. split; [exact Ev |].
      intros Hf Hw Hh. split; apply random_between_margin; try assumption.
      * rewrite Hu1. apply Hf.
      * rewrite Hu2. apply (tape_only_fair _ _ Ht1 Hf).
    + destruct (IH h2) as [Ht Hv]. split.
      * eapply tape_only_trans; [exact Ht1 |].
        eapply tape_only_trans; [exact Ht2 | exact Ht].
      * intros x y Epos. destruct (Hv x y Epos) as [Hval Hm].
        split; [exact Hval |]. intros Hf. apply Hm.
        apply (tape_only_fair _ _ Ht2), (tape_only_fair _ _ Ht1), Hf.
Qed.

Lemma create_emitter_rich (count : Z) (i : nat) (g : Game.t) (h : Host) :
  exists e,
    fst (Game.create_emitter count i g h)
    = Game.with_emitters (Game.emitters g ++ [e]) g /\
    emitter_of_level g e /\
    tape_only h (snd (Game.create_emitter count i g h)).
Proof.
  unfold Game.create_emitter.
  roll_tape_step h u h1 Ht1 Hu1.
  unfold ParticleEmitter.new. cbn [ParticleEmitter.o_color].
  assert (Hc : exists n, snd (js_or_color (getRandomColor u) (dice h1))
                         = mkDice (Math_random (dice h1)) n).
  { unfold js_or_color. destruct (dice h1) as [f k].
    destruct (getRandomColor u) as [c |]; [destruct (String.eqb c _) |];
      cbn [draw snd Math_random]; eexists; reflexivity. }
  destruct (js_or_color (getRandomColor u) (dice h1)) as [c d'].
  cbn [fst snd] in *. destruct Hc as [n ->].
  eexists. split; [reflexivity |]. split.
  - unfold emitter_of_level.
    cbn [ParticleEmitter.active ParticleEmitter.particles
         ParticleEmitter.rateFraction ParticleEmitter.maxParticles
         ParticleEmitter.rate ParticleEmitter.x ParticleEmitter.y
         ParticleEmitter.o_rate ParticleEmitter.o_maxParticles].
    repeat (split; [reflexivity |]).
    eexists. split; reflexivity.
  - eapply tape_only_trans; [exact Ht1 |]. eexists. reflexivity.
Qed.

Lemma for_index_create_emitter_rich (count : Z) (n : nat) :
  forall (i : nat) (g : Game.t) (h : Host),
  exists es,
    fst (Game.for_index (Game.create_emitter count) i n g h)
    = Game.with_emitters (Game.emitters g ++ es) g /\
    List.length es = n /\
    Forall (emitter_of_level g) es /\
    tape_only h (snd (Game.for_index (Game.create_emitter count) i n g h)).
Proof.
  induction n as [| k IH]; intros i g h; cbn [Game.for_index].
  - exists []. rewrite app_nil_r, Game_with_emitters_id. cbn [fst snd].
    repeat split; [constructor | apply tape_only_refl].
  - destruct (create_emitter_rich count i g h) as (e & Hg & He & Hd).
    destruct (Game.create_emitter count i g h) as [g1 h1].
    cbn [fst snd] in Hg, Hd. subst g1.
    destruct (IH (S i) (Game.with_emitters (Game.emitters g ++ [e]) g) h1)
      as (es & Hg' & Hlen & Hf & Hd').
    exists (e :: es). rewrite Hg'. cbn [Game.emitters Game.with_emitters].
    rewrite <- app_assoc. cbn [app List.length].
    repeat split; [congruence | constructor; assumption |].
    eapply tape_only_trans; eassumption.
Qed.

Lemma js_or_range (r dflt lo hi : R) :
  lo <= r <= hi -> lo <= dflt <= hi -> lo <= js_or (Some r) dflt <= hi.
Proof. intros Hr Hd. unfold js_or. destruct (Reqb r 0); assumption. Qed.

Lemma create_obstacle_rich (g : Game.t) (h : Host) :
  tape_only h (snd (Game.create_obstacle g h)) /\
  (fst (Game.create_obstacle g h) = g \/
   exists o,
     fst (Game.create_obstacle g h)
     = Game.with_obstacles (Game.obstacles g ++ [o]) g /\
     obstacle_placed g (fair h) o).
Proof.
  unfold Game.create_obstacle.
  destruct (find_position_rich (Game.far_from_emitters 150 (Game.emitters g))
              50 (Game.width g) (Game.height g) h) as [Ht Hv].
  destruct (Game.find_position _ _ _ _ _) as [[[x y] |] h1];
    cbn [fst snd] in *.
  - roll_tape_step h1 u1 h2 Ht2 Hu2. roll_tape_step h2 u2 h3 Ht3 Hu3.
    roll_tape_step h3 u3 h4 Ht4 Hu4.
    unfold Obstacle.new. cbn [draw fst snd].
    assert (Ht14 : tape_only h h4).
    { repeat (eapply tape_only_trans; [eassumption |]). apply tape_only_refl. }
    split.
    + eapply tape_only_trans; [exact Ht14 |]. eexists. reflexivity.
    + right. eexists. split; [reflexivity |].
      destruct (Hv x y eq_refl) as [Hval Hm].
      split; [| split; [reflexivity |]].
      * intros e He. cbn [Obstacle.x Obstacle.y].
        apply (far_from_emitters_spec 150 (Game.emitters g) x y);
          [exact Hval | exact He].
      * intros Hf. cbn [Obstacle.radius Obstacle.x Obstacle.y
                        Obstacle.o_radius]. split.
        -- apply js_or_range; [| lra].
           assert (Hu : 0 <= u1 < 1)
             by (rewrite Hu2; apply (tape_only_fair _ _ Ht Hf)).
           unfold random_between. nra.
        -- intros [Hw Hh]. apply Hm; assumption.
  - split; [exact Ht | left; reflexivity].
Qed.

Lemma repeat_create_obstacle_rich (n : nat) :
  forall (g : Game.t) (h : Host),
  exists os,
    fst (Game.repeat_body Game.create_obstacle n g h)
    = Game.with_obstacles (Game.obstacles g ++ os) g /\
    (List.length os <= n)%nat /\
    Forall (obstacle_placed g (fair h)) os /\
    tape_only h (snd (Game.repeat_body Game.create_obstacle n g h)).
Proof.
  induction n as [| k IH]; intros g h; cbn [Game.repeat_body].
  - exists []. rewrite app_nil_r, Game_with_obstacles_id. cbn [fst snd].
    repeat split; [reflexivity | constructor | apply tape_only_refl].
  - destruct (create_obstacle_rich g h) as [Hd Hg].
    destruct (Game.create_obstacle g h) as [g1 h1]. cbn [fst snd] in Hd, Hg.
    destruct (IH g1 h1) as (os & Hg' & Hlen & Hf & Hd').
    assert (Hweak : forall g0, Forall (obstacle_placed g0 (fair h1)) os ->
                               Forall (obstacle_placed g0 (fair h)) os).
    { intros g0. apply Forall_impl. intros o (H1 & H2 & H3).
      split; [exact H1 |]. split; [exact H2 |]. intros Hfair. apply H3.
      exact (tape_only_fair _ _ Hd Hfair). }
    destruct Hg as [-> | (o & -> & Ho)].
    + exists os. rewrite Hg'.
      repeat split; [lia | apply Hweak; exact Hf |].
      eapply tape_only_trans; eassumption.
    + exists (o :: os). rewrite Hg'.
      cbn [Game.obstacles Game.with_obstacles] in *.
      rewrite <- app_assoc. cbn [app List.length].
      repeat split; [lia | constructor; [exact Ho | apply Hweak; exact Hf] |].
      eapply tape_only_trans; eassumption.
Qed.

Lemma far_from_obstacles_spec (os : list Obstacle.t) (x y : R) :
  Game.far_from_obstacles os x y = true ->
  forall o, In o os ->
    Obstacle.radius o + 50 <= distance x y (Obstacle.x o) (Obstacle.y o).
Proof.
  unfold Game.far_from_obstacles. rewrite forallb_forall.
  intros H o Ho. specialize (H o Ho).
  apply negb_true_iff in H. apply Rltb_false_inv in H. exact H.
Qed.

Lemma create_collectionPoint_rich (g : Game.t) (h : Host) :
  tape_only h (snd (Game.create_collectionPoint g h)) /\
  (fst (Game.create_collectionPoint g h) = g \/
   exists c,
     fst (Game.create_collectionPoint g h)
     = Game.with_collectionPoints (Game.collectionPoints g ++ [c]) g /\
     point_placed g (fair h) c).
Proof.
  unfold Game.create_collectionPoint.
  match goal with |- context [Game.find_position ?v ?n ?w ?hg ?hs] =>
    destruct (find_position_rich v n w hg hs) as [Ht Hv];
    destruct (Game.find_position v n w hg hs) as [[[x y] |] h1] end;
    cbn [fst snd] in *.
  - roll_tape_step h1 u1 h2 Ht2 Hu2. roll_tape_step h2 u2 h3 Ht3 Hu3.
    unfold CollectionPoint.new. cbn [draw fst snd].
    assert (Ht13 : tape_only h h3).
    { repeat (eapply tape_only_trans; [eassumption |]). apply tape_only_refl. }
    split.
    + eapply tape_only_trans; [exact Ht13 |]. eexists. reflexivity.
    + right. eexists. split; [reflexivity |].
      destruct (Hv x y eq_refl) as [Hval Hm].
      apply andb_true_iff in Hval. destruct Hval as [Hve Hvo].
      split; [split; reflexivity |]. split; [reflexivity |].
      cbn [CollectionPoint.x CollectionPoint.y].
      split; [| split].
      * apply (far_from_emitters_spec 100 (Game.emitters g) x y Hve).
      * apply (far_from_obstacles_spec (Game.obstacles g) x y Hvo).
      * intros Hf [Hw Hh]. apply Hm; assumption.
  - split; [exact Ht | left; reflexivity].
Qed.

Lemma repeat_create_collectionPoint_rich (n : nat) :
  forall (g : Game.t) (h : Host),
  exists cs,
    fst (Game.repeat_body Game.create_collectionPoint n g h)
    = Game.with_collectionPoints (Game.collectionPoints g ++ cs) g /\
    (List.length cs <= n)%nat /\
    Forall (point_placed g (fair h)) cs /\
    tape_only h (snd (Game.repeat_body Game.create_collectionPoint n g h)).
Proof.
  induction n as [| k IH]; intros g h; cbn [Game.repeat_body].
  - exists []. rewrite app_nil_r, Game_with_collectionPoints_id.
    cbn [fst snd].
    repeat split; [reflexivity | constructor | apply tape_only_refl].
  - destruct (create_collectionPoint_rich g h) as [Hd Hg].
    destruct (Game.create_collectionPoint g h) as [g1 h1].
    cbn [fst snd] in Hd, Hg.
    destruct (IH g1 h1) as (cs & Hg' & Hlen & Hf & Hd').
    assert (Hweak : forall g0, Forall (point_placed g0 (fair h1)) cs ->
                               Forall (point_placed g0 (fair h)) cs).
    { intros g0. apply Forall_impl. intros c (H1 & H2 & H3 & H4 & H5).
      repeat (split; [assumption |]). intros Hfair. apply H5.
      exact (tape_only_fair _ _ Hd Hfair). }
    destruct Hg as [-> | (c & -> & Hc)].
    + exists cs. rewrite Hg'.
      repeat split; [lia | apply Hweak; exact Hf |].
      eapply tape_only_trans; eassumption.
    + exists (c :: cs). rewrite Hg'.
      cbn [Game.collectionPoints Game.with_collectionPoints] in *.
      rewrite <- app_assoc. cbn [app List.length].
      repeat split; [lia | constructor; [exact Hc | apply Hweak; exact Hf] |].
      eapply tape_only_trans; eassumption.
Qed.

(** [createLevel], with all that it decides: the emitters that it adds to
    those of the game, and the obstacles and the collection points that
    replace the former ones. *)
Lemma createLevel_layout (g : Game.t) (h : Host) :
  exists es os cs,
    let g1 := Game.with_emitters (Game.emitters g ++ es) g in
    let g2 := Game.with_obstacles os g1 in
    fst (Game.createLevel g h) = Game.with_collectionPoints cs g2 /\
    List.length es = Z.to_nat (Z.min (1 + Game.level g / 3) 3) /\
    Forall (emitter_of_level g) es /\
    (List.length os
     <= Z.to_nat (Game.obstacleCount g + Game.level g / 2))%nat /\
    Forall (obstacle_placed g1 (fair h)) os /\
    (List.length cs
     <= Z.to_nat (Game.collectionPointCount g + Game.level g / 3))%nat /\
    Forall (point_placed g2 (fair h)) cs /\
    tape_only h (snd (Game.createLevel g h)).
Proof.
  unfold Game.createLevel.
  destruct (for_index_create_emitter_rich (Z.min (1 + Game.level g / 3) 3)
              (Z.to_nat (Z.min (1 + Game.level g / 3) 3)) 0 g h)
    as (es & Hg1 & Hlen & Hfe & Hd1).
  destruct (Game.for_index _ _ _ _ _) as [g1 h1]. cbn [fst snd] in Hg1, Hd1.
  subst g1. cbn [Game.obstacleCount Game.level Game.with_emitters].
  match goal with |- context [Game.repeat_body Game.create_obstacle ?n ?x ?y] =>
    destruct (repeat_create_obstacle_rich n x y)
      as (os & Hg2 & Hlo & Hfo & Hd2);
    destruct (Game.repeat_body Game.create_obstacle n x y) as [g2 h2] end.
  cbn [fst snd] in Hg2, Hd2. subst g2.
  cbn [Game.collectionPointCount Game.level Game.with_emitters
       Game.with_obstacles Game.obstacles Game.emitters app] in *.
  match goal with
  |- context [Game.repeat_body Game.create_collectionPoint ?n ?x ?y] =>
    destruct (repeat_create_collectionPoint_rich n x y)
      as (cs & Hg3 & Hlc & Hfc & Hd3) end.
  exists es, os, cs. cbv zeta. rewrite Hg3.
  cbn [Game.collectionPoints Game.with_obstacles Game.with_emitters app].
  split; [reflexivity |]. split; [exact Hlen |]. split; [exact Hfe |].
  split; [exact Hlo |]. split.
  - eapply Forall_impl; [| exact Hfo]. intros o (H1 & H2 & H3).
    split; [exact H1 |]. split; [exact H2 |]. intros Hfair. apply H3.
    exact (tape_only_fair _ _ Hd1 Hfair).
  - split; [exact Hlc |]. split.
    + eapply Forall_impl; [| exact Hfc].
      intros c (H1 & H2 & H3 & H4 & H5).
      repeat (split; [assumption |]). intros Hfair. apply H5.
      exact (tape_only_fair _ _ Hd2 (tape_only_fair _ _ Hd1 Hfair)).
    + eapply tape_only_trans; [exact Hd1 |].
      eapply tape_only_trans; [exact Hd2 | exact Hd3].
Qed.

Lemma distance_ring (cx cy a r : R) :
  0 <= r -> distance cx cy (cx + cos a * r) (cy + sin a * r) = r.
Proof.
  intros Hr. unfold distance.
  replace ((cx + cos a * r - cx) ^ 2 + (cy + sin a * r - cy) ^ 2)
    with (r * r * (Rsqr (sin a) + Rsqr (cos a))) by (unfold Rsqr; ring).
  rewrite sin2_cos2, Rmult_1_r. apply sqrt_square. exact Hr.
Qed.

(** The emitters of a level.  [createLevel] adds
    [min(1 + floor(level / 3), 3)] emitters to those that the game has
    and removes none; each new emitter is active, has an empty pool and
    stands on the circle around the centre of the canvas whose radius is
    0.3 times the smaller side. *)
Theorem createLevel_emitters (g : Game.t) (h : Host) :
  0 <= Game.width g -> 0 <= Game.height g ->
  exists es,
    Game.emitters (fst (Game.createLevel g h)) = Game.emitters g ++ es /\
    List.length es = Z.to_nat (Z.min (1 + Game.level g / 3) 3) /\
    forall e, In e es ->
      distance (Game.width g / 2) (Game.height g / 2)
               (ParticleEmitter.x e) (ParticleEmitter.y e)
      = 0.3 * Rmin (Game.width g) (Game.height g) /\
      ParticleEmitter.active e = true /\
      ParticleEmitter.particles e = [] /\
      ParticleEmitter.rate e
      = js_or (Some (Game.spawnRate g * (1 + IZR (Game.level g) * 0.2))) 5.
Proof.
  intros Hw Hh.
  destruct (createLevel_layout g h)
    as (es & os & cs & Hg & Hlen & Hes & _).
  cbv zeta in Hg. exists es. rewrite Hg. split; [reflexivity |].
  split; [exact Hlen |]. intros e He. rewrite Forall_forall in Hes.
  destruct (Hes e He) as (Ha & Hp & _ & _ & Hr & a & Hx & Hy).
  split; [| auto]. rewrite Hx, Hy.
  rewrite distance_ring; [ring |].
  assert (0 <= Rmin (Game.width g) (Game.height g))
    by (apply Rmin_glb; assumption).
  lra.
Qed.

Lemma createLevel_emitters_witness :
  exists es,
    Game.emitters (fst (Game.createLevel small_game empty_host))
    = Game.emitters small_game ++ es /\
    List.length es = Z.to_nat (Z.min (1 + Game.level small_game / 3) 3) /\
    forall e, In e es ->
      distance (Game.width small_game / 2) (Game.height small_game / 2)
               (ParticleEmitter.x e) (ParticleEmitter.y e)
      = 0.3 * Rmin (Game.width small_game) (Game.height small_game) /\
      ParticleEmitter.active e = true /\
      ParticleEmitter.particles e = [] /\
      ParticleEmitter.rate e
      = js_or (Some (Game.spawnRate small_game
                     * (1 + IZR (Game.level small_game) * 0.2))) 5.
Proof.
  apply (createLevel_emitters small_game empty_host);
    cbn [small_game Game.new Game.width Game.height]; lra.
Defined.

(** The collection points of a level.  Each of them is at least 100
    from every emitter of the level and at least [radius + 50] from every
    obstacle, is not collected, and has the value and the radius of the
    level; there are at most [collectionPointCount + floor(level / 3)] of
    them.  Nothing keeps two collection points apart. *)
Theorem createLevel_collectionPoints (g : Game.t) (h : Host) :
  let g' := fst (Game.createLevel g h) in
  (List.length (Game.collectionPoints g')
   <= Z.to_nat (Game.collectionPointCount g + Game.level g / 3))%nat /\
  forall c, In c (Game.collectionPoints g') ->
    CollectionPoint.collected c = false /\
    CollectionPoint.value c
    = js_orZ (Some (10 * (1 + Game.level g / 2))%Z) 10 /\
    CollectionPoint.radius c = js_or (Some (15 + IZR (Game.level g))) 20 /\
    (forall e, In e (Game.emitters g') ->
       100 <= distance (CollectionPoint.x c) (CollectionPoint.y c)
                       (ParticleEmitter.x e) (ParticleEmitter.y e)) /\
    (forall o, In o (Game.obstacles g') ->
       Obstacle.radius o + 50
       <= distance (CollectionPoint.x c) (CollectionPoint.y c)
                   (Obstacle.x o) (Obstacle.y o)).
Proof.
  intros g'. unfold g'.
  destruct (createLevel_layout g h)
    as (es & os & cs & Hg & _ & _ & _ & _ & Hlen & Hcs & _).
  cbv zeta in Hg, Hcs. rewrite Hg.
  cbn [Game.collectionPoints Game.with_collectionPoints Game.emitters
       Game.obstacles Game.with_obstacles Game.with_emitters].
  split; [exact Hlen |]. intros c Hc. rewrite Forall_forall in Hcs.
  destruct (Hcs c Hc) as ((Hcol & Hval) & Hrad & Hem & Hob & _).
  cbn [Game.level Game.with_obstacles Game.with_emitters Game.emitters
       Game.obstacles] in *.
  repeat (split; [assumption |]). assumption.
Qed.

(** With a fair random tape, on a canvas of at least 100 by 100, every
    obstacle and every collection point of a level keeps 50 from each
    side of the canvas, and the radius of an obstacle is from 20 to 40. *)
Theorem createLevel_within_margins (g : Game.t) (h : Host) :
  fair h -> roomy g ->
  let g' := fst (Game.createLevel g h) in
  (forall o, In o (Game.obstacles g') ->
     within_margin g (Obstacle.x o) (Obstacle.y o) /\
     20 <= Obstacle.radius o <= 40) /\
  (forall c, In c (Game.collectionPoints g') ->
     within_margin g (CollectionPoint.x c) (CollectionPoint.y c)).
Proof.
  intros Hf Hr g'. unfold g'.
  destruct (createLevel_layout g h)
    as (es & os & cs & Hg & _ & _ & _ & Hos & _ & Hcs & _).
  cbv zeta in Hg, Hos, Hcs. rewrite Hg.
  cbn [Game.collectionPoints Game.with_collectionPoints
       Game.obstacles Game.with_obstacles Game.with_emitters].
  rewrite Forall_forall in Hos, Hcs. split.
  - intros o Ho. destruct (Hos o Ho) as (_ & _ & H). destruct (H Hf) as [H1 H2].
    split; [apply H2; exact Hr | exact H1].
  - intros c Hc. destruct (Hcs c Hc) as (_ & _ & _ & _ & H).
    apply H; assumption.
Qed.

Lemma createLevel_within_margins_witness :
  let g' := fst (Game.createLevel (Game.new 800 600) empty_host) in
  (forall o, In o (Game.obstacles g') ->
     within_margin (Game.new 800 600) (Obstacle.x o) (Obstacle.y o) /\
     20 <= Obstacle.radius o <= 40) /\
  (forall c, In c (Game.collectionPoints g') ->
     within_margin (Game.new 800 600)
                   (CollectionPoint.x c) (CollectionPoint.y c)).
Proof.
  apply (createLevel_within_margins (Game.new 800 600) empty_host).
  - intros n. cbn. lra.
  - split; cbn; lra.
Defined.

Lemma far_from_points_spec (cs : list CollectionPoint.t) (x y : R) :
  Game.far_from_points cs x y = true ->
  forall c, In c cs -> CollectionPoint.collected c = false ->
    CollectionPoint.radius c + 50
    <= distance x y (CollectionPoint.x c) (CollectionPoint.y c).
Proof.
  unfold Game.far_from_points. rewrite forallb_forall.
  intros H c Hc Hcol. specialize (H c Hc). rewrite Hcol in H.
  cbn [negb andb] in H.
  apply negb_true_iff in H. apply Rltb_false_inv in H. exact H.
Qed.

(** [spawnPowerUp] adds at most one power-up and changes nothing else.
    The power-up is at least 100 from every emitter, at least
    [radius + 50] from every obstacle and from every collection point
    that is not collected, has the radius 15 and lasts
    [5000 + 500 * level] milliseconds; with a fair tape on a roomy canvas
    it keeps 50 from each side.  When the 50 attempts find no such
    position the game is left as it is. *)
Theorem spawnPowerUp_places (g : Game.t) (h : Host) :
  tape_only h (snd (Game.spawnPowerUp g h)) /\
  (fst (Game.spawnPowerUp g h) = g \/
   exists p,
     fst (Game.spawnPowerUp g h)
     = Game.with_powerUps (Game.powerUps g ++ [p]) g /\
     powerUp_placed g (fair h) p).
Proof.
  unfold Game.spawnPowerUp.
  roll_tape_step h u h0 Ht0 Hu0.
  match goal with |- context [Game.find_position ?v ?n ?w ?hg ?hs] =>
    destruct (find_position_rich v n w hg hs) as [Ht Hv];
    destruct (Game.find_position v n w hg hs) as [[[x y] |] h1] end;
    cbn [fst snd] in *.
  - unfold PowerUp.new. cbn [draw fst snd]. split.
    + eapply tape_only_trans; [exact Ht0 |].
      eapply tape_only_trans; [exact Ht |]. eexists. reflexivity.
    + right. eexists. split; [reflexivity |].
      destruct (Hv x y eq_refl) as [Hval Hm].
      apply andb_true_iff in Hval. destruct Hval as [Hval Hvp].
      apply andb_true_iff in Hval. destruct Hval as [Hve Hvo].
      unfold powerUp_placed.
      cbn [PowerUp.collected PowerUp.active PowerUp.radius PowerUp.duration
           PowerUp.x PowerUp.y PowerUp.o_radius PowerUp.o_duration js_or].
      repeat (split; [reflexivity |]).
      split; [apply (far_from_emitters_spec 100 _ x y Hve) |].
      split; [apply (far_from_obstacles_spec _ x y Hvo) |].
      split; [apply (far_from_points_spec _ x y Hvp) |].
      intros Hf [Hw Hh]. apply Hm; try assumption.
      exact (tape_only_fair _ _ Ht0 Hf).
  - split; [| left; reflexivity].
    eapply tape_only_trans; [exact Ht0 | exact Ht].
Qed.

(** ** Pause *)

(** [togglePause] on a game in play sets [isPaused] to its opposite and
    then throws: a [Game] object has no [pauseButton] (the button is a
    property of the [UI] object).  So the call never comes to the line
    that starts the game loop again: a pause stops the loop, and the
    call that should end the pause leaves it stopped. *)
Theorem togglePause_throws (draw : Game.t -> Host -> outcome unit)
  (g : Game.t) (h : Host) :
  Game.isPlaying g = true ->
  Game.togglePause draw g h
  = (Throw TypeError, Game.with_isPaused (negb (Game.isPaused g)) g, h).
Proof.
  intros Hp. unfold Game.togglePause. rewrite Hp. reflexivity.
Qed.

Lemma togglePause_throws_witness :
  Game.togglePause plain_draw two_particle_game two_particle_host
  = (Throw TypeError,
     Game.with_isPaused (negb (Game.isPaused two_particle_game))
                        two_particle_game,
     two_particle_host).
Proof. apply togglePause_throws. reflexivity. Defined.

(** ** What a tick leaves alone *)

Lemma update_from_quiet (paths : list Path.t) (obstacles : list Obstacle.t)
  (w hgt : R) (i : nat) :
  forall (e : ParticleEmitter.t) (h : Host),
    let '(r, e', h') :=
      ParticleEmitter.update_from i paths obstacles w hgt e h in
    r = Normal tt /\
    e' = ParticleEmitter.with_particles (ParticleEmitter.particles e') e /\
    (List.length (ParticleEmitter.particles e')
     <= List.length (ParticleEmitter.particles e))%nat.
Proof.
  induction i as [| j IH]; intros e h; cbn [ParticleEmitter.update_from].
  - split; [reflexivity |]. split; [destruct e; reflexivity | lia].
  - destruct (nth_error (ParticleEmitter.particles e) j) as [a |];
      [| apply IH].
    destruct (load a h) as [p |]; [| apply IH].
    destruct (Particle_update_normal paths obstacles p) as [p' ->].
    match goal with
    |- context [ParticleEmitter.update_from j _ _ _ _ ?e1 ?h1] =>
      specialize (IH e1 h1);
      destruct (ParticleEmitter.update_from j paths obstacles w hgt e1 h1)
        as [[r e'] h'] end.
    destruct IH as (-> & He & Hl). split; [reflexivity |].
    destruct (negb _ || _).
    + cbn [ParticleEmitter.with_particles ParticleEmitter.particles] in *.
      split; [rewrite He; destruct e; reflexivity |].
      unfold splice in Hl. rewrite length_app, length_firstn, length_skipn in Hl.
      lia.
    + split; assumption.
Qed.

Lemma emit_throws_only (e : ParticleEmitter.t) (h : Host) :
  match fst (fst (ParticleEmitter.emit e h)) with
  | Throw ex => ex = TypeError
  | Normal _ => True
  end.
Proof.
  unfold ParticleEmitter.emit.
  destruct (negb (ParticleEmitter.active e)); [exact I |].
  destruct (Rleb 1 _); [reflexivity |].
  destruct (ParticleEmitter.emit_loop _ _ _ _) as [[l e'] h']. exact I.
Qed.

Lemma update_emitters_frame (paths : list Path.t)
  (todo : list ParticleEmitter.t) :
  forall (done : list ParticleEmitter.t) (g : Game.t) (h : Host),
    let '(r, g', h') := Game.update_emitters paths done todo g h in
    emitter_loop_frame g g' /\
    (exists rest, Game.emitters g' = done ++ rest) /\
    match r with Throw ex => ex = TypeError | Normal _ => True end.
Proof.
  induction todo as [| e todo IH]; intros done g h;
    cbn [Game.update_emitters].
  - split; [destruct g; reflexivity |]. split; [| exact I].
    exists []. rewrite app_nil_r. reflexivity.
  - pose proof (emit_throws_only e h) as Hex.
    destruct (ParticleEmitter.emit e h) as [[[l | ex] e1] h1];
      cbn [fst] in Hex.
    + pose proof (update_from_quiet paths (Game.obstacles g)
                    (Game.width g) (Game.height g)
                    (List.length (ParticleEmitter.particles e1)) e1 h1) as Hu.
      unfold ParticleEmitter.update.
      cbn [Game.obstacles Game.width Game.height Game.with_particles].
      destruct (ParticleEmitter.update_from _ _ _ _ _ e1 h1)
        as [[r2 e2] h2].
      destruct Hu as (-> & _ & _).
      match goal with
      |- context [Game.update_emitters paths ?d todo ?x ?y] =>
        specialize (IH d x y);
        destruct (Game.update_emitters paths d todo x y) as [[r g'] h'] end.
      destruct IH as (Hf & (rest & Hr) & Hex'). split; [| split].
      * unfold emitter_loop_frame in *. rewrite Hf. destruct g; reflexivity.
      * exists (e2 :: rest). rewrite Hr, <- app_assoc. reflexivity.
      * exact Hex'.
    + split; [destruct g; reflexivity |]. split; [| exact Hex].
      exists (e1 :: todo). reflexivity.
Qed.

Lemma update_particle_quiet (paths : list Path.t) (i : nat) (g : Game.t)
  (h : Host) :
  quiet g ->
  let '(r, g', h') := Game.update_particle paths i g h in
  r = Normal tt /\ particle_loop_frame g g' /\
  (List.length (Game.particles g') <= List.length (Game.particles g))%nat.
Proof.
  intros [Hpu Hact]. unfold Game.update_particle.
  assert (Hid : particle_loop_frame g g) by (destruct g; reflexivity).
  destruct (nth_error (Game.particles g) i) as [a |];
    [| split; [reflexivity | split; [exact Hid | lia]]].
  destruct (load a h) as [p |];
    [| split; [reflexivity | split; [exact Hid | lia]]].
  rewrite Hact. cbn [Game.a_magnet Game.a_shield Game.a_multiplier
                     Game.no_powerUps negb].
  destruct (Particle_update_normal paths (Game.obstacles g)
              (Game.time_slow Game.no_powerUps p)) as [p3 ->].
  destruct (Game.obstacle_tests a _ _ _ _) as [hit h2].
  rewrite collection_tests_closed.
  cbn [Game.powerUps Game.with_score Game.with_collectionPoints].
  rewrite Hpu. cbn [Game.powerUp_tests].
  split; [reflexivity |].
  destruct (negb _ || _); split;
    try (unfold particle_loop_frame; destruct g; cbn in Hpu |- *; subst;
         reflexivity).
  cbn [Game.particles Game.with_particles Game.with_powerUps
       Game.with_score Game.with_collectionPoints].
  unfold splice. rewrite length_app, length_firstn, length_skipn. lia.
Qed.

Lemma particle_loop_frame_trans (g1 g2 g3 : Game.t) :
  particle_loop_frame g1 g2 -> particle_loop_frame g2 g3 ->
  particle_loop_frame g1 g3.
Proof.
  unfold particle_loop_frame. intros H1 H2. rewrite H2, H1.
  destruct g1; reflexivity.
Qed.

Lemma particle_loop_frame_quiet (g g' : Game.t) :
  particle_loop_frame g g' -> quiet g -> quiet g'.
Proof.
  unfold particle_loop_frame, quiet. intros -> H. exact H.
Qed.

Lemma update_particles_quiet (paths : list Path.t) (n : nat) :
  forall (g : Game.t) (h : Host),
    quiet g ->
    let '(r, g', h') := Game.update_particles paths n g h in
    r = Normal tt /\ particle_loop_frame g g' /\
    (List.length (Game.particles g') <= List.length (Game.particles g))%nat.
Proof.
  induction n as [| i IH]; intros g h Hq; cbn [Game.update_particles].
  - split; [reflexivity |]. split; [destruct g; reflexivity | lia].
  - pose proof (update_particle_quiet paths i g h Hq) as H1.
    destruct (Game.update_particle paths i g h) as [[r1 g1] h1].
    destruct H1 as (-> & Hf1 & Hl1).
    specialize (IH g1 h1 (particle_loop_frame_quiet _ _ Hf1 Hq)).
    destruct (Game.update_particles paths i g1 h1) as [[r g'] h'].
    destruct IH as (-> & Hf & Hl). split; [reflexivity |].
    split; [eapply particle_loop_frame_trans; eassumption | lia].
Qed.

(** ** The first frames of a session *)

Lemma Math_floor_rate : Math_floor 1.2 = 1%Z.
Proof. apply Math_floor_between. lra. Qed.

Lemma emitter_loop_frame_fields (g g' : Game.t) :
  emitter_loop_frame g g' ->
  Game.isPlaying g' = Game.isPlaying g /\
  Game.isPaused g' = Game.isPaused g /\
  (quiet g -> quiet g').
Proof. unfold emitter_loop_frame, quiet. intros ->. cbn. auto. Qed.

Lemma fire_timers_quiet (due : list (Z * PowerUpType)) :
  fold_left (fun a tm => Game.set_active (snd tm) false a) due
            Game.no_powerUps
  = Game.no_powerUps.
Proof.
  induction due as [| [t ty] due IH]; [reflexivity |].
  cbn [fold_left snd]. destruct ty; exact IH.
Qed.

Lemma start_armed (g : Game.t) (h : Host) :
  Game.isPlaying g = false -> armed 0 (fst (Game.start g h)).
Proof.
  intros Hp. unfold Game.start. rewrite Hp.
  match goal with |- context [Game.createLevel ?g0 h] =>
    destruct (createLevel_layout g0 h)
      as (es & os & cs & Hg & Hlen & Hes & _) end.
  cbv zeta in Hg. rewrite Hg. clear Hg.
  cbn [Game.level Game.emitters app] in *.
  change (Z.to_nat (Z.min (1 + 1 / 3) 3)) with 1%nat in Hlen.
  destruct es as [| e [| e' es']]; try discriminate.
  inversion Hes as [| ? ? He _]; subst.
  destruct He as (Ha & Hpool & Hrf & Hm & Hr & _).
  cbn [Game.level Game.spawnRate] in Hm, Hr.
  split; [reflexivity |]. split; [reflexivity |].
  split; [split; reflexivity |].
  exists e, []. split; [reflexivity |]. split; [exact Ha |].
  split; [| split; [| split]].
  - rewrite Hr. unfold js_or, Reqb.
    destruct (Req_dec_T (1 * (1 + 1 * 0.2)) 0); lra.
  - rewrite Hrf. cbn [js_or INR]. ring.
  - rewrite Hpool. cbn. lia.
  - rewrite Hm. reflexivity.
Qed.

(** ** Power-ups in play *)

Lemma finish_tick_keeps_quiet (g : Game.t) (h : Host) :
  quiet g -> quiet (fst (Game.finish_tick g h)).
Proof.
  intros [Hpu Hact]. unfold Game.finish_tick.
  rewrite maybe_spawn_id. unfold Game.check_level.
  set (g1 := Game.update_entities g).
  assert (Hq1 : quiet g1).
  { unfold g1, Game.update_entities, quiet.
    cbn [Game.powerUps Game.activePowerUps Game.with_powerUps
         Game.with_collectionPoints Game.with_obstacles].
    rewrite Hpu. cbn [map filter]. auto. }
  assert (Hover : forall g2 h2, quiet g2 ->
                    quiet (fst (Game.check_gameOver g2 h2))).
  { intros g2 h2 Hq2. unfold Game.check_gameOver.
    destruct (_ =? _)%nat; [| exact Hq2].
    destruct (negb _); exact Hq2. }
  destruct (Game.level_complete g1).
  - destruct (nextLevel_spec g1 (log EvLevelCheck (snd (roll h))))
      as (es & os & cs & Hg & _).
    destruct (Game.nextLevel g1 _) as [g2 h2]. cbn [fst] in Hg.
    apply Hover. rewrite Hg. exact Hq1.
  - apply Hover. exact Hq1.
Qed.

Lemma update_keeps_quiet (g : Game.t) (h : Host) :
  quiet g ->
  let '(r, g', h') := Game.update g h in
  quiet g' /\ (r = Normal tt \/ r = Throw TypeError).
Proof.
  intros Hq. unfold Game.update.
  destruct (negb (Game.isPlaying g) || Game.isPaused g);
    [split; [exact Hq | left; reflexivity] |].
  match goal with |- context [Game.update_emitters ?p ?d ?t ?x ?y] =>
    pose proof (update_emitters_frame p t d x y) as H1;
    destruct (Game.update_emitters p d t x y) as [[r1 g1] h1] end.
  destruct H1 as (Hfr & _ & Hex).
  destruct (emitter_loop_frame_fields _ _ Hfr) as (_ & _ & Hq1).
  specialize (Hq1 Hq).
  destruct r1 as [[] | ex]; [| split; [exact Hq1 | right; congruence]].
  match goal with |- context [Game.update_particles ?p ?n ?x ?y] =>
    pose proof (update_particles_quiet p n x y Hq1) as H2;
    destruct (Game.update_particles p n x y) as [[r2 g2] h2] end.
  destruct H2 as (-> & Hfr2 & _).
  pose proof (particle_loop_frame_quiet _ _ Hfr2 Hq1) as Hq2.
  pose proof (finish_tick_keeps_quiet g2 h2 Hq2) as Hq3.
  destruct (Game.finish_tick g2 h2) as [g3 h3]. cbn [fst] in Hq3.
  split; [exact Hq3 | left; reflexivity].
Qed.

(** No power-up ever comes into play.  [start] leaves the field without
    power-ups and all four effects off; a tick of such a game leaves it
    so, whether it returns or throws, and what it may throw is the
    [TypeError] of [emit] only; and so does the time between two
    frames.  Time-slow, Magnet, Shield and Multiplier therefore act only
    in a game in which [activatePowerUp] has been called from outside. *)
Theorem play_has_no_powerUp :
  (forall (g : Game.t) (h : Host),
     Game.isPlaying g = false -> quiet (fst (Game.start g h))) /\
  (forall (g : Game.t) (h : Host),
     quiet g ->
     let '(r, g', h') := Game.update g h in
     quiet g' /\ (r = Normal tt \/ r = Throw TypeError)) /\
  (forall (inp : InputHandler.t) (now : Z) (g : Game.t) (h : Host),
     quiet g -> quiet (fst (Game.between_frames inp now g h))).
Proof.
  split; [| split].
  - intros g h Hp. destruct (start_armed g h Hp) as (_ & _ & Hq & _).
    exact Hq.
  - apply update_keeps_quiet.
  - intros inp now g h [Hpu Hact].
    unfold Game.between_frames, Game.advance, Game.fire_timers, quiet.
    cbn [fst Game.powerUps Game.activePowerUps Game.with_activePowerUps
         Game.with_input].
    rewrite Hact, fire_timers_quiet. auto.
Qed.

(** ** The first tick of a session *)

Lemma update_particle_block_of (paths : list Path.t) (i : nat) (a : addr)
  (g : Game.t) (h : Host) (p : Particle.t) :
  quiet g ->
  nth_error (Game.particles g) i = Some a ->
  load a h = Some p ->
  exists tests,
    trace (snd (Game.update_particle paths i g h))
    = trace h ++ EvPhysics a :: tests ++ [EvPrune a] /\
    Forall (is_test_of a) tests.
Proof.
  intros [Hpu Hact] Hi Hl. unfold Game.update_particle.
  rewrite Hi, Hl, Hact.
  cbn [Game.a_magnet Game.a_shield Game.a_multiplier Game.no_powerUps negb].
  destruct (Particle_update_normal paths (Game.obstacles g)
              (Game.time_slow Game.no_powerUps p)) as [p3 ->].
  destruct (obstacle_tests_closed a (Particle.x p3) (Particle.y p3)
              (Game.obstacles g) (log (EvPhysics a) (store a p3 h)))
    as (k & _ & ->).
  rewrite collection_tests_closed.
  cbn [Game.powerUps Game.with_score Game.with_collectionPoints].
  rewrite Hpu. cbn [Game.powerUp_tests snd].
  exists (repeat (EvObstacleTest a) k
          ++ repeat (EvCollectionTest a)
                    (List.length (Game.collectionPoints g))).
  split.
  - cbn [trace logs log store with_heap]. rewrite <- !app_assoc.
    reflexivity.
  - apply Forall_app; split; apply Forall_repeat; unfold is_test_of; auto.
Qed.

Lemma load_alloc (hp : list Particle.t) (p : Particle.t) :
  nth_error (hp ++ [p]) (List.length hp) = Some p.
Proof.
  rewrite nth_error_app2 by lia. rewrite Nat.sub_diag. reflexivity.
Qed.

(** The first call of [emit] on the emitter that [start] creates. *)
Lemma emit_first (e : ParticleEmitter.t) (h : Host) :
  ParticleEmitter.active e = true ->
  ParticleEmitter.rate e = 1.2 ->
  ParticleEmitter.rateFraction e = None ->
  ParticleEmitter.particles e = [] ->
  ParticleEmitter.maxParticles e = 110%Z ->
  let '(r, e', h') := ParticleEmitter.emit e h in
  r = Normal [List.length (heap h)] /\
  ParticleEmitter.particles e' = [List.length (heap h)] /\
  (exists p, heap h' = heap h ++ [p]) /\
  trace h' = trace h.
Proof.
  intros Ha Hr Hf Hp Hm. pose proof (emit_trace e h) as Ht.
  unfold ParticleEmitter.emit in *.
  rewrite Ha, Hr, Hf, Math_floor_rate in *. cbn [negb js_or] in *.
  rewrite Rleb_false in * by lra.
  match goal with |- context [ParticleEmitter.emit_loop ?n ?acc ?e0 ?h0] =>
    pose proof (emit_loop_spec n acc e0 h0) as H;
    destruct (ParticleEmitter.emit_loop n acc e0 h0) as [[l e'] h'] end.
  cbn [snd] in Ht.
  destruct H as (created & Hlen & -> & -> & Hh' & _).
  assert (Hone : List.length created = 1%nat).
  { rewrite Hlen. unfold room.
    cbn [ParticleEmitter.with_rateFraction ParticleEmitter.maxParticles
         ParticleEmitter.particles].
    rewrite Hm, Hp. reflexivity. }
  rewrite Hone.
  cbn [seq app ParticleEmitter.with_particles ParticleEmitter.particles
       ParticleEmitter.with_rateFraction].
  rewrite Hp. split; [reflexivity |]. split; [reflexivity |].
  split; [| exact Ht].
  destruct created as [| p [| q created]]; try discriminate.
  exists p. exact Hh'.
Qed.

Lemma start_first_emitter (g : Game.t) (h : Host) :
  Game.isPlaying g = false ->
  let (g1, h1) := Game.start g h in
  armed 0 g1 /\ Game.particles g1 = [] /\ tape_only h h1 /\
  exists e,
    Game.emitters g1 = [e] /\
    ParticleEmitter.rateFraction e = None /\
    ParticleEmitter.particles e = [].
Proof.
  intros Hp. pose proof (start_armed g h Hp) as Harm.
  unfold Game.start in *. rewrite Hp in *.
  match goal with |- context [Game.createLevel ?g0 h] =>
    destruct (createLevel_layout g0 h)
      as (es & os & cs & Hg & Hlen & Hes & _ & _ & _ & _ & Ht);
    destruct (Game.createLevel g0 h) as [g1 h1] end.
  cbv zeta in Hg. cbn [fst snd] in *. split; [exact Harm |].
  rewrite Hg. cbn [Game.level Game.emitters app] in *.
  change (Z.to_nat (Z.min (1 + 1 / 3) 3)) with 1%nat in Hlen.
  destruct es as [| e [| e' es']]; try discriminate.
  inversion Hes as [| ? ? He _]; subst.
  destruct He as (_ & Hpool & Hrf & _).
  split; [reflexivity |]. split; [exact Ht |].
  exists e. repeat split; assumption.
Qed.

(** In the first tick of a session the particle that the emitter
    creates has [Particle.update] called on it twice: once by the
    emitter, in whose pool it is, and once by the particle loop of the
    game, in whose list it is as well.  The tick returns, and what it does
    is: the two physics steps, the collision tests of the particle, its
    removal test, and the two checks. *)
Theorem new_particle_updated_twice (g : Game.t) (h : Host) :
  Game.isPlaying g = false ->
  let (g1, h1) := Game.start g h in
  let '(r, _, h2) := Game.update g1 h1 in
  let a := List.length (heap h) in
  r = Normal tt /\
  exists tests,
    trace h2
    = trace h ++ [EvPhysics a; EvPhysics a] ++ tests
      ++ [EvPrune a; EvLevelCheck; EvGameOverCheck] /\
    Forall (is_test_of a) tests.
Proof.
  intros Hp. pose proof (start_first_emitter g h Hp) as Hs.
  destruct (Game.start g h) as [g1 h1].
  destruct Hs as (Harm & Hparts & [n Ht] & e & He & Hrf & Hpool).
  destruct Harm as (Hp1 & Hq1 & Hquiet & e0 & rest & He0 & Ha & Hr & _
                    & _ & Hm).
  rewrite He in He0. inversion He0; subst e0 rest. clear He0.
  assert (Hheap : heap h1 = heap h) by (rewrite Ht; reflexivity).
  assert (Htrace : trace h1 = trace h) by (rewrite Ht; reflexivity).
  clear Ht. unfold Game.update. rewrite Hp1, Hq1. cbn [negb orb].
  set (g0 := Game.with_input _ g1).
  set (paths := InputHandler.getActivePaths (Game.input g0)).
  change (Game.emitters g0) with (Game.emitters g1). rewrite He.
  cbn [Game.update_emitters].
  pose proof (emit_first e h1 Ha Hr Hrf Hpool Hm) as H1.
  destruct (ParticleEmitter.emit e h1) as [[r1 e1] h1'].
  destruct H1 as (-> & Hpool1 & [p Hh1'] & Htr1).
  rewrite Hheap in *.
  set (a := List.length (heap h)) in *.
  assert (Hload : load a h1' = Some p).
  { unfold load. rewrite Hh1'. apply load_alloc. }
  unfold ParticleEmitter.update. rewrite Hpool1.
  cbn [List.length ParticleEmitter.update_from]. rewrite Hpool1.
  cbn [nth_error]. rewrite Hload.
  destruct (Particle_update_normal paths
              (Game.obstacles
                 (Game.with_particles (Game.particles g0 ++ [a]) g0)) p)
    as [p' Ep].
  rewrite Ep. cbn [app Game.update_emitters].
  set (h2 := store a p' (log (EvPhysics a) h1')).
  set (e2 := if negb (Particle.active p') || _ then _ else e1).
  assert (Hload2 : load a h2 = Some p').
  { unfold h2. apply (load_store_same a p' p). exact Hload. }
  assert (Htr2 : trace h2 = trace h ++ [EvPhysics a]).
  { unfold h2. cbn [trace store with_heap log]. rewrite Htr1, Htrace.
    reflexivity. }
  set (g2 := Game.with_emitters [e2]
               (Game.with_particles (Game.particles g0 ++ [a]) g0)).
  assert (Hq2 : quiet g2) by exact Hquiet.
  assert (Hparts2 : Game.particles g2 = [a]).
  { unfold g2, g0. cbn [Game.particles Game.with_emitters
                        Game.with_particles Game.with_input].
    rewrite Hparts. reflexivity. }
  rewrite Hparts2. cbn [List.length Game.update_particles].
  pose proof (update_particle_quiet paths 0 g2 h2 Hq2) as H3.
  destruct (update_particle_block_of paths 0 a g2 h2 p' Hq2) as
    (tests & Htr3 & Htests); [rewrite Hparts2; reflexivity | exact Hload2 |].
  destruct (Game.update_particle paths 0 g2 h2) as [[r3 g3] h3].
  cbn [snd] in Htr3. destruct H3 as (-> & _ & _).
  pose proof (finish_tick_trace g3 h3) as Htr4.
  destruct (Game.finish_tick g3 h3) as [g4 h4]. cbn [snd] in Htr4.
  split; [reflexivity |]. exists tests. split; [| exact Htests].
  rewrite Htr4, Htr3, Htr2. rewrite <- !app_assoc. cbn [app].
  rewrite <- app_assoc. reflexivity.
Qed.

Lemma new_particle_updated_twice_witness :
  let (g1, h1) := Game.start (Game.new 800 600) empty_host in
  let '(r, _, h2) := Game.update g1 h1 in
  let a := List.length (heap empty_host) in
  r = Normal tt /\
  exists tests,
    trace h2
    = trace empty_host ++ [EvPhysics a; EvPhysics a] ++ tests
      ++ [EvPrune a; EvLevelCheck; EvGameOverCheck] /\
    Forall (is_test_of a) tests.
Proof.
  apply (new_particle_updated_twice (Game.new 800 600) empty_host).
  reflexivity.
Defined.

(** ** The strokes of the player *)

Lemma Forall_list_set {A : Type} (P : A -> Prop) (l : list A) (i : nat)
  (v : A) :
  Forall P l -> P v -> Forall P (list_set l i v).
Proof.
  intros Hl Hv. revert i. induction Hl as [| a l Ha Hl IH]; intros i.
  - destruct i; constructor.
  - destruct i as [| i]; cbn [list_set]; constructor; auto.
Qed.

Lemma path_at_In (s : Drawing.t) (a : nat) :
  (a < List.length (Drawing.store s))%nat ->
  In (Drawing.path_at s a) (Drawing.store s).
Proof. intros H. unfold Drawing.path_at. apply nth_In. exact H. Qed.

Lemma NoDup_tl {A : Type} (l : list A) : NoDup l -> NoDup (tl l).
Proof. intros H. destruct H; [constructor | assumption]. Qed.

Lemma Forall_tl {A : Type} (P : A -> Prop) (l : list A) :
  Forall P l -> Forall P (tl l).
Proof. intros H. destruct H; [constructor | assumption]. Qed.

Lemma handleStart_ok (isPlaying : bool) (x y : R) (now : Z)
  (s : Drawing.t) :
  drawing_ok s -> drawing_ok (Drawing.handleStart isPlaying x y now s).
Proof.
  intros (Hmax & Hlen & Hnd & Hval & Hcur & Hst).
  unfold Drawing.handleStart. destruct isPlaying; cbn [negb];
    [| repeat split; assumption].
  set (a := List.length (Drawing.store s)).
  set (pushed := Drawing.paths s ++ [(a, now)]).
  assert (Hpl : List.length pushed = S (List.length (Drawing.paths s))).
  { unfold pushed. rewrite length_app. cbn [List.length]. lia. }
  assert (Hpnd : NoDup (map fst pushed)).
  { unfold pushed. rewrite map_app. cbn [map fst].
    apply NoDup_app; [exact Hnd | repeat constructor; intros [] |].
    intros b Hb [E | []]. rewrite <- E in Hb. apply in_map_iff in Hb.
    destruct Hb as (e & Ee & He). rewrite Forall_forall in Hval.
    specialize (Hval e He). rewrite Ee in Hval. unfold a in Hval. lia. }
  assert (Hpval : Forall (fun e => (fst e < S a)%nat) pushed).
  { unfold pushed. apply Forall_app. split.
    - eapply Forall_impl; [| exact Hval]. intros e He. cbv beta in He |- *.
      unfold a. lia.
    - repeat constructor. }
  split; [exact Hmax |].
  cbn [Drawing.paths Drawing.store Drawing.currentPath Drawing.maxPaths].
  rewrite length_app. cbn [List.length]. rewrite Nat.add_1_r. fold a.
  split; [| split; [| split; [| split]]].
  - rewrite Hmax. destruct (Nat.ltb_spec 5 (List.length pushed)).
    + destruct pushed; cbn [tl List.length] in *; lia.
    + assumption.
  - destruct (_ <? _)%nat; [| exact Hpnd].
    destruct pushed as [| e l]; [constructor |].
    cbn [tl map] in *. inversion Hpnd; assumption.
  - destruct (_ <? _)%nat; [apply Forall_tl |]; exact Hpval.
  - intros b Hb. inversion Hb. lia.
  - apply Forall_app. split; [exact Hst |]. repeat constructor.
Qed.

Lemma addPoint_stroke_ok (x y : R) (p : Path.t) :
  stroke_ok p -> stroke_ok (Path.addPoint x y p).
Proof.
  intros [[Hlo Hhi] Hm].
  destruct (addPoint_points x y p) as [E Hl]; [lia |].
  split; [| exact Hm]. rewrite Hm in *. split; [| exact Hl].
  rewrite E. unfold lastn. rewrite length_skipn, length_app.
  cbn [List.length]. lia.
Qed.

Lemma handleMove_ok (x y : R) (s : Drawing.t) :
  drawing_ok s -> drawing_ok (Drawing.handleMove x y s).
Proof.
  intros Hs. pose proof Hs as (Hmax & Hlen & Hnd & Hval & Hcur & Hst).
  unfold Drawing.handleMove.
  destruct (negb (Drawing.isDrawing s)); [exact Hs |].
  destruct (Drawing.currentPath s) as [a |] eqn:Ea; [| exact Hs].
  specialize (Hcur a eq_refl).
  split; [exact Hmax |].
  cbn [Drawing.with_store Drawing.paths Drawing.store Drawing.currentPath].
  rewrite list_set_length.
  repeat (split; [assumption |]). split.
  - intros b Hb. rewrite Ea in Hb. inversion Hb; subst. exact Hcur.
  - apply Forall_list_set; [exact Hst |]. apply addPoint_stroke_ok.
    rewrite Forall_forall in Hst. apply Hst, path_at_In, Hcur.
Qed.

Lemma update_from_ok (i : nat) (now : Z) :
  forall s : Drawing.t,
    drawing_ok s -> drawing_ok (Drawing.update_from i now s).
Proof.
  induction i as [| j IH]; intros s Hs; cbn [Drawing.update_from];
    [exact Hs |].
  destruct (nth_error (Drawing.paths s) j) as [[a ts] |] eqn:Ej;
    [| apply IH; exact Hs].
  destruct Hs as (Hmax & Hlen & Hnd & Hval & Hcur & Hst).
  assert (Hj : (j < List.length (Drawing.paths s))%nat).
  { apply nth_error_Some. rewrite Ej. discriminate. }
  destruct (_ <? _)%Z; apply IH.
  - split; [exact Hmax |].
    cbn [Drawing.with_paths Drawing.paths Drawing.store Drawing.currentPath].
    pose proof (split_at_nth _ _ _ Ej) as Hsplit.
    split; [| split; [| split; [| split]]]; try assumption.
    + unfold splice. rewrite length_app, length_firstn, length_skipn. lia.
    + unfold splice. rewrite Hsplit, map_app in Hnd. cbn [map] in Hnd.
      apply NoDup_remove_1 in Hnd. rewrite map_app. exact Hnd.
    + unfold splice. apply Forall_app. rewrite Forall_forall in Hval.
      split; apply Forall_forall; intros e He; apply Hval;
        [eapply In_firstn | eapply In_skipn]; exact He.
  - split; [exact Hmax |].
    cbn [Drawing.with_store Drawing.paths Drawing.store Drawing.currentPath].
    rewrite list_set_length.
    repeat (split; [assumption |]).
    apply Forall_list_set; [exact Hst |].
    assert (Ha : (a < List.length (Drawing.store s))%nat).
    { rewrite Forall_forall in Hval.
      apply (Hval (a, ts)). eapply nth_error_In; exact Ej. }
    rewrite Forall_forall in Hst.
    destruct (Hst _ (path_at_In s a Ha)) as [Hp Hm].
    split; assumption.
Qed.

Lemma handle_ok (s : Drawing.t) (ev : input_event) :
  drawing_ok s -> drawing_ok (handle s ev).
Proof.
  intros Hs. destruct ev as [b x y now | x y | | now |]; cbn [handle].
  - apply handleStart_ok. exact Hs.
  - apply handleMove_ok. exact Hs.
  - destruct Hs as (Hmax & Hlen & Hnd & Hval & Hcur & Hst).
    repeat split; try assumption. intros a Ha. discriminate.
  - apply update_from_ok. exact Hs.
  - destruct Hs as (Hmax & Hlen & Hnd & Hval & Hcur & Hst).
    split; [exact Hmax |]. cbn. repeat split; try assumption;
      try constructor; try lia. intros a Ha. discriminate.
Qed.

Lemma run_ok (evs : list input_event) :
  forall s : Drawing.t, drawing_ok s -> drawing_ok (run evs s).
Proof.
  induction evs as [| ev evs IH]; intros s Hs; [exact Hs |].
  apply IH, handle_ok, Hs.
Qed.

Lemma new_ok : drawing_ok Drawing.new.
Proof.
  split; [reflexivity |]. cbn.
  repeat split; try constructor; try lia. intros a Ha. discriminate.
Qed.

(** Whatever the player does, the engine sees at most five paths, and
    each of them holds from 1 to 100 points. *)
Theorem strokes_bounded (evs : list input_event) :
  let s := run evs Drawing.new in
  (List.length (Drawing.getActivePaths s) <= 5)%nat /\
  Forall stroke_ok (Drawing.getActivePaths s).
Proof.
  intros s. destruct (run_ok evs Drawing.new new_ok)
    as (_ & Hlen & _ & Hval & _ & Hst).
  fold s in Hlen, Hval, Hst. unfold Drawing.getActivePaths. split.
  - rewrite length_map. exact Hlen.
  - apply Forall_map. eapply Forall_impl; [| exact Hval].
    intros e He. rewrite Forall_forall in Hst.
    apply Hst, path_at_In, He.
Qed.

Lemma nth_list_set_same {A : Type} (l : list A) (i : nat) (v d : A) :
  (i < List.length l)%nat -> nth i (list_set l i v) d = v.
Proof.
  revert i. induction l as [| a l IH]; intros i Hi; cbn in Hi; [lia |].
  destruct i as [| i]; cbn [list_set nth]; [reflexivity |].
  apply IH. lia.
Qed.

Lemma nth_list_set_other {A : Type} (l : list A) (i j : nat) (v d : A) :
  i <> j -> nth j (list_set l i v) d = nth j l d.
Proof.
  revert i j. induction l as [| a l IH]; intros i j Hne.
  - destruct i; reflexivity.
  - destruct i as [| i]; destruct j as [| j]; cbn [list_set nth];
      try reflexivity; [contradiction | apply IH; congruence].
Qed.

Lemma filter_map_swap {A B : Type} (f : B -> bool) (g : A -> B)
  (l : list A) :
  filter f (map g l) = map g (filter (fun a => f (g a)) l).
Proof.
  induction l as [| a l IH]; [reflexivity |].
  cbn [map filter]. destruct (f (g a)); cbn [map]; rewrite IH; reflexivity.
Qed.

(** The loop of [update], in closed form. *)
Lemma drawing_update_from_closed (now : Z) (i : nat) :
  forall s : Drawing.t,
    NoDup (map fst (Drawing.paths s)) ->
    Forall (fun e => (fst e < List.length (Drawing.store s))%nat)
           (Drawing.paths s) ->
    (i <= List.length (Drawing.paths s))%nat ->
    let P := Drawing.paths s in
    let keep := young (Drawing.pathLifetime s) now in
    let s' := Drawing.update_from i now s in
    Drawing.paths s' = filter keep (firstn i P) ++ skipn i P /\
    List.length (Drawing.store s') = List.length (Drawing.store s) /\
    Drawing.maxPaths s' = Drawing.maxPaths s /\
    Drawing.pathLifetime s' = Drawing.pathLifetime s /\
    Drawing.isDrawing s' = Drawing.isDrawing s /\
    Drawing.currentPath s' = Drawing.currentPath s /\
    (forall a ts, In (a, ts) (filter keep (firstn i P)) ->
       Drawing.path_at s' a
       = refreshed (Drawing.pathLifetime s) now ts (Drawing.path_at s a)) /\
    (forall a, ~ In a (map fst (filter keep (firstn i P))) ->
       Drawing.path_at s' a = Drawing.path_at s a).
Proof.
  induction i as [| j IH]; intros s Hnd Hval Hi P keep s'; subst s'.
  - cbn [Drawing.update_from firstn skipn filter app].
    repeat split; try reflexivity. intros a ts [].
  - cbn [Drawing.update_from]. fold P.
    destruct (nth_error P j) as [[a ts] |] eqn:Ej.
    2:{ apply nth_error_None in Ej. fold P in Hi. lia. }
    fold P in Hnd, Hval, Hi.
    pose proof (split_at_nth P j (a, ts) Ej) as Hsplit.
    assert (Ha : (a < List.length (Drawing.store s))%nat).
    { rewrite Forall_forall in Hval. apply (Hval (a, ts)).
      eapply nth_error_In; exact Ej. }
    assert (Hfresh : ~ In a (map fst (firstn j P))).
    { intros Hin. rewrite Hsplit, map_app in Hnd. cbn [map fst] in Hnd.
      apply NoDup_remove_2 in Hnd. apply Hnd. apply in_or_app. left.
      exact Hin. }
    assert (Hfresh' : ~ In a (map fst (filter keep (firstn j P)))).
    { intros Hin. apply Hfresh. apply in_map_iff in Hin.
      destruct Hin as (e & Ee & He). apply filter_In in He.
      apply in_map_iff. exists e. split; [exact Ee | apply He]. }
    rewrite (firstn_S_nth P j (a, ts) Ej), filter_app. cbn [filter].
    change (keep (a, ts)) with (negb (Drawing.pathLifetime s <? now - ts)%Z).
    destruct (Drawing.pathLifetime s <? now - ts)%Z eqn:Eold; cbn [negb].
    + (* the entry is too old *)
      set (s1 := Drawing.with_paths (splice j P) s).
      assert (Hnd1 : NoDup (map fst (Drawing.paths s1))).
      { unfold s1, splice. cbn [Drawing.paths Drawing.with_paths].
        rewrite Hsplit, map_app in Hnd. cbn [map] in Hnd.
        apply NoDup_remove_1 in Hnd. rewrite map_app. exact Hnd. }
      assert (Hval1 : Forall (fun e => (fst e
                         < List.length (Drawing.store s1))%nat)
                        (Drawing.paths s1)).
      { unfold s1, splice.
        cbn [Drawing.paths Drawing.store Drawing.with_paths].
        apply Forall_app. rewrite Forall_forall in Hval.
        split; apply Forall_forall; intros e He; apply Hval;
          [eapply In_firstn | eapply In_skipn]; exact He. }
      assert (Hi1 : (j <= List.length (Drawing.paths s1))%nat).
      { unfold s1, splice. cbn [Drawing.paths Drawing.with_paths].
        rewrite length_app, length_firstn, length_skipn. lia. }
      destruct (IH s1 Hnd1 Hval1 Hi1)
        as (Hp & Hl & Hm & Hlt & Hd & Hc & Hin & Hout).
      cbn [Drawing.paths Drawing.store Drawing.with_paths Drawing.maxPaths
           Drawing.pathLifetime Drawing.isDrawing Drawing.currentPath s1]
        in Hp, Hl, Hm, Hlt, Hd, Hc, Hin, Hout.
      rewrite firstn_splice, skipn_splice in * by lia.
      fold keep in Hp, Hin, Hout.
      rewrite app_nil_r.
      split; [exact Hp |]. split; [exact Hl |]. split; [exact Hm |].
      split; [exact Hlt |]. split; [exact Hd |]. split; [exact Hc |]. split.
      * intros b tb Hb. rewrite (Hin b tb Hb). reflexivity.
      * intros b Hb. rewrite (Hout b Hb). reflexivity.
    + (* the entry stays *)
      set (q := Path.with_life
                  (1 - IZR (now - ts) / IZR (Drawing.pathLifetime s))
                  (Drawing.path_at s a)).
      set (s1 := Drawing.with_store (list_set (Drawing.store s) a q) s).
      assert (Hnd1 : NoDup (map fst (Drawing.paths s1))) by exact Hnd.
      assert (Hval1 : Forall (fun e => (fst e
                         < List.length (Drawing.store s1))%nat)
                        (Drawing.paths s1)).
      { unfold s1. cbn [Drawing.paths Drawing.store Drawing.with_store].
        rewrite list_set_length. exact Hval. }
      assert (Hi1 : (j <= List.length (Drawing.paths s1))%nat)
        by (unfold s1; cbn [Drawing.paths Drawing.with_store]; fold P; lia).
      destruct (IH s1 Hnd1 Hval1 Hi1)
        as (Hp & Hl & Hm & Hlt & Hd & Hc & Hin & Hout).
      cbn [Drawing.paths Drawing.store Drawing.with_store Drawing.maxPaths
           Drawing.pathLifetime Drawing.isDrawing Drawing.currentPath s1]
        in Hp, Hl, Hm, Hlt, Hd, Hc, Hin, Hout.
      fold P keep in Hp, Hin, Hout. rewrite list_set_length in Hl.
      assert (Hat : forall b, b <> a ->
                Drawing.path_at s1 b = Drawing.path_at s b).
      { intros b Hb. unfold Drawing.path_at, s1.
        cbn [Drawing.store Drawing.with_store].
        apply nth_list_set_other. congruence. }
      assert (Hata : Drawing.path_at s1 a = q).
      { unfold Drawing.path_at, s1. cbn [Drawing.store Drawing.with_store].
        apply nth_list_set_same. exact Ha. }
      split; [| split; [exact Hl |]; split; [exact Hm |];
                split; [exact Hlt |]; split; [exact Hd |];
                split; [exact Hc |]; split].
      * rewrite Hp, (skipn_nth P j (a, ts) Ej), <- app_assoc. reflexivity.
      * intros b tb Hb. apply in_app_or in Hb.
        destruct Hb as [Hb | [Hb | []]].
        -- rewrite (Hin b tb Hb). f_equal. apply Hat. intros ->.
           apply Hfresh'. apply in_map_iff. exists (a, tb).
           split; [reflexivity | exact Hb].
        -- inversion Hb; subst b tb. rewrite (Hout a Hfresh'). exact Hata.
      * intros b Hb. rewrite map_app in Hb. cbn [map fst] in Hb.
        assert (Hb1 : ~ In b (map fst (filter keep (firstn j P)))).
        { intros C. apply Hb. apply in_or_app. left. exact C. }
        rewrite (Hout b Hb1). apply Hat. intros ->. apply Hb.
        apply in_or_app. right. left. reflexivity.
Qed.

(** [update] of the handler, seen from the engine.  It drops the strokes
    that began more than [pathLifetime] (3000 ms) before [now], keeps the
    other ones in their order and sets the [life] of each to
    [1 - age / pathLifetime]: what the engine reads afterwards is
    [InputHandler.update] of what it read before.  The loop that runs
    backwards and splices skips no entry, and writing [life] through one
    entry changes no other. *)
Theorem update_agrees (now : Z) (s : Drawing.t) :
  drawing_ok s ->
  Drawing.paths (Drawing.update now s)
  = filter (young (Drawing.pathLifetime s) now) (Drawing.paths s) /\
  Drawing.view (Drawing.update now s)
  = InputHandler.update now (Drawing.view s).
Proof.
  intros (_ & _ & Hnd & Hval & _ & _).
  destruct (drawing_update_from_closed now (List.length (Drawing.paths s))
              s Hnd Hval (Nat.le_refl _))
    as (Hp & _ & Hm & Hlt & _ & _ & Hin & _).
  rewrite firstn_all, skipn_all, app_nil_r in *.
  fold (Drawing.update now s) in *. split; [exact Hp |].
  unfold Drawing.view, InputHandler.update.
  cbn [InputHandler.paths InputHandler.maxPaths InputHandler.pathLifetime].
  rewrite Hm, Hlt, Hp. f_equal.
  rewrite filter_map_swap, map_map. cbn [snd fst].
  apply map_ext_in. intros [a ts] He. cbn [fst snd].
  rewrite (Hin a ts He). reflexivity.
Qed.

Lemma update_agrees_witness :
  let s := run [Press true 10 10 0; Move 20 10] Drawing.new in
  Drawing.paths (Drawing.update 1000 s)
  = filter (young (Drawing.pathLifetime s) 1000) (Drawing.paths s) /\
  Drawing.view (Drawing.update 1000 s)
  = InputHandler.update 1000 (Drawing.view s).
Proof.
  apply (update_agrees 1000 (run [Press true 10 10 0; Move 20 10]
                                 Drawing.new)).
  unfold drawing_ok, stroke_ok. cbn.
  split; [reflexivity |]. split; [lia |].
  split; [repeat constructor; cbn; tauto |].
  split; [repeat constructor; cbn; lia |].
  split; [intros a E; inversion E; lia |].
  repeat constructor; cbn; lia.
Defined.

(** [start] and [restart].  On a game in play they do nothing.  On a game
    that is not in play they put it in play at level 1 with the score 0,
    the speed and the spawn rate 1, no particle, no power-up, no effect,
    no drawn path and one emitter, and they keep the size of the canvas.
    They do not set [powerUpChance] again, which [nextLevel] has raised
    in the session before, and they cancel no pending time-out. *)
Theorem start_resets (g : Game.t) (h : Host) :
  Game.restart g h = Game.start g h /\
  (Game.isPlaying g = true -> Game.start g h = (g, h)) /\
  (Game.isPlaying g = false ->
   let g1 := fst (Game.start g h) in
   let h1 := snd (Game.start g h) in
   Game.isPlaying g1 = true /\ Game.isPaused g1 = false /\
   Game.score g1 = 0%Z /\ Game.level g1 = 1%Z /\
   Game.particleSpeed g1 = 1 /\ Game.spawnRate g1 = 1 /\
   Game.particles g1 = [] /\ Game.powerUps g1 = [] /\
   Game.activePowerUps g1 = Game.no_powerUps /\
   InputHandler.paths (Game.input g1) = [] /\
   List.length (Game.emitters g1) = 1%nat /\
   (List.length (Game.obstacles g1)
    <= Z.to_nat (Game.obstacleCount g))%nat /\
   (List.length (Game.collectionPoints g1)
    <= Z.to_nat (Game.collectionPointCount g))%nat /\
   Game.width g1 = Game.width g /\ Game.height g1 = Game.height g /\
   Game.powerUpChance g1 = Game.powerUpChance g /\
   timers h1 = timers h /\ heap h1 = heap h).
Proof.
  split; [reflexivity |]. split.
  - intros Hp. unfold Game.start. rewrite Hp. reflexivity.
  - intros Hp. unfold Game.start. rewrite Hp.
    match goal with |- context [Game.createLevel ?g0 h] =>
      destruct (createLevel_layout g0 h)
        as (es & os & cs & Hg & Hlen & _ & Hlo & _ & Hlc & _ & n & Hh) end.
    cbv zeta in *. rewrite Hg, Hh. clear Hg Hh.
    cbn [Game.level Game.emitters Game.obstacleCount
         Game.collectionPointCount app] in *.
    change (Z.to_nat (Z.min (1 + 1 / 3) 3)) with 1%nat in Hlen.
    change (1 / 2)%Z with 0%Z in Hlo. change (1 / 3)%Z with 0%Z in Hlc.
    rewrite Z.add_0_r in Hlo, Hlc.
    repeat split; try reflexivity; assumption.
Qed.

Lemma load_heap (a : addr) (h h' : Host) :
  heap h' = heap h -> load a h' = load a h.
Proof. intros E. unfold load. rewrite E. reflexivity. Qed.

Lemma load_store_twice (a : addr) (p q r : Particle.t) (h : Host) :
  load a h = Some r -> load a (store a q (store a p h)) = Some q.
Proof.
  intros Hl. apply (load_store_same a q p).
  apply (load_store_same a p r). exact Hl.
Qed.

(** A particle and the obstacles, in a tick with the Magnet off.  After
    its physics step the particle is tested against the obstacles: when
    it is on one of them and the Shield is off, it is deactivated and
    leaves the list of the game in that same tick; when the Shield is on,
    or it is on none, it stays as the physics step has left it, and
    leaves the list only when it has no life left or is out of bounds. *)
Theorem obstacle_hit_removes (paths : list Path.t) (i : nat) (a : addr)
  (g : Game.t) (h : Host) (particle : Particle.t) :
  nth_error (Game.particles g) i = Some a ->
  load a h = Some particle ->
  Game.a_magnet (Game.activePowerUps g) = false ->
  exists p3,
    Particle.update paths (Game.obstacles g)
      (Game.time_slow (Game.activePowerUps g) particle) = Normal p3 /\
    let '(r, g', h') := Game.update_particle paths i g h in
    let touches :=
      existsb (Obstacle.checkCollision (Particle.x p3) (Particle.y p3))
              (Game.obstacles g) in
    r = Normal tt /\
    (Game.a_shield (Game.activePowerUps g) = false -> touches = true ->
     load a h' = Some (Particle.with_active false p3) /\
     Game.particles g' = splice i (Game.particles g)) /\
    (Game.a_shield (Game.activePowerUps g) = true \/ touches = false ->
     load a h' = Some p3 /\
     Game.particles g'
     = if negb (Particle.active p3)
          || Particle.isOutOfBounds (Game.width g) (Game.height g) p3
       then splice i (Game.particles g)
       else Game.particles g).
Proof.
  intros Hi Hl Hm.
  destruct (Particle_update_normal paths (Game.obstacles g)
              (Game.time_slow (Game.activePowerUps g) particle))
    as [p3 E].
  exists p3. split; [exact E |].
  unfold Game.update_particle. rewrite Hi, Hl, Hm, E.
  set (h1 := log (EvPhysics a) (store a p3 h)).
  destruct (obstacle_tests_closed a (Particle.x p3) (Particle.y p3)
              (Game.obstacles g) h1) as (k & _ & Eo).
  set (touches := existsb _ (Game.obstacles g)) in *.
  assert (Hrun : forall (hit : bool) (h2 : Host),
            heap h2 = heap h1 ->
            let p4 := if hit then Particle.with_active false p3 else p3 in
            let '(r, g', h') :=
              (let '(cs, s, h3) :=
                 Game.collection_tests a (Particle.x p4) (Particle.y p4)
                   (Game.a_multiplier (Game.activePowerUps g))
                   (Game.collectionPoints g) (Game.score g)
                   (store a p4 h2) in
               let g1 := Game.with_score s
                           (Game.with_collectionPoints cs g) in
               let (g2, h4) :=
                 Game.powerUp_tests a (Particle.x p4) (Particle.y p4) []
                                    (Game.powerUps g1) g1 h3 in
               let h5 := log (EvPrune a) h4 in
               let g3 :=
                 if negb (Particle.active p4)
                    || Particle.isOutOfBounds (Game.width g2)
                                              (Game.height g2) p4
                 then Game.with_particles (splice i (Game.particles g2)) g2
                 else g2 in
               (Normal tt, g3, h5)) in
            r = Normal tt /\ load a h' = Some p4 /\
            Game.particles g'
            = if negb (Particle.active p4)
                 || Particle.isOutOfBounds (Game.width g) (Game.height g) p4
              then splice i (Game.particles g)
              else Game.particles g).
  { intros hit h2 Hh2 p4. rewrite collection_tests_closed.
    cbv beta iota zeta.
    match goal with
    |- context [Game.powerUp_tests a ?px ?py [] ?todo ?g1 ?h3] =>
      pose proof (powerUp_tests_fields a px py todo [] g1 h3) as Hf;
      pose proof (powerUp_tests_host a px py todo [] g1 h3) as Hh;
      destruct (Game.powerUp_tests a px py [] todo g1 h3) as [g2 h4]
    end.
    cbv zeta in Hf, Hh. cbn [fst snd] in Hf, Hh.
    destruct Hf as (_ & _ & _ & Hp & Hw & Hht).
    destruct Hh as (Hheap & _).
    cbn [Game.particles Game.width Game.height Game.with_score
         Game.with_collectionPoints] in Hp, Hw, Hht.
    rewrite Hw, Hht. split; [reflexivity |]. split.
    - rewrite load_log. rewrite (load_heap a _ _ Hheap).
      unfold logs, load, store. cbn [heap with_heap]. rewrite Hh2.
      unfold h1, log, store. cbn [heap with_heap].
      assert (Ha : (a < List.length (heap h))%nat)
        by (apply load_some_iff; eexists; exact Hl).
      clear - Ha. revert a Ha.
      induction (heap h) as [| q l IH]; intros a Ha; cbn in Ha; [lia |].
      destruct a as [| a]; cbn [list_set nth_error]; [reflexivity |].
      apply IH. lia.
    - destruct (negb (Particle.active p4) || _);
        cbn [Game.particles Game.with_particles]; rewrite Hp; reflexivity. }
  destruct (Game.a_shield (Game.activePowerUps g)) eqn:Es; cbn [negb].
  - specialize (Hrun false h1 eq_refl). cbv zeta in Hrun.
    cbn match in Hrun.
    destruct (Game.collection_tests _ _ _ _ _ _ _) as [[cs s] h3].
    destruct (Game.powerUp_tests _ _ _ _ _ _ _) as [g2 h4].
    destruct Hrun as (Hr & Hload & Hparts).
    split; [exact Hr |]. split; [intros C; discriminate |].
    intros _. split; [exact Hload | exact Hparts].
  - rewrite Eo.
    specialize (Hrun touches (logs (repeat (EvObstacleTest a) k) h1)
                     eq_refl).
    cbv zeta in Hrun.
    destruct (Game.collection_tests _ _ _ _ _ _ _) as [[cs s] h3].
    destruct (Game.powerUp_tests _ _ _ _ _ _ _) as [g2 h4].
    destruct Hrun as (Hr & Hload & Hparts).
    split; [exact Hr |]. split.
    + intros _ Ht. rewrite Ht in Hload, Hparts |- *.
      cbn [Particle.active Particle.with_active negb orb] in Hparts |- *.
      split; [exact Hload | exact Hparts].
    + intros [C | Ht]; [discriminate |].
      rewrite Ht in Hload, Hparts |- *.
      split; [exact Hload | exact Hparts].
Qed.

Lemma obstacle_hit_removes_witness :
  exists p3,
    Particle.update [] (Game.obstacles two_particle_game)
      (Game.time_slow (Game.activePowerUps two_particle_game)
                      (resting_particle 0 0)) = Normal p3 /\
    let '(r, g', h') :=
      Game.update_particle [] 0 two_particle_game two_particle_host in
    let touches :=
      existsb (Obstacle.checkCollision (Particle.x p3) (Particle.y p3))
              (Game.obstacles two_particle_game) in
    r = Normal tt /\
    (Game.a_shield (Game.activePowerUps two_particle_game) = false ->
     touches = true ->
     load 0%nat h' = Some (Particle.with_active false p3) /\
     Game.particles g' = splice 0 (Game.particles two_particle_game)) /\
    (Game.a_shield (Game.activePowerUps two_particle_game) = true
     \/ touches = false ->
     load 0%nat h' = Some p3 /\
     Game.particles g'
     = if negb (Particle.active p3)
          || Particle.isOutOfBounds (Game.width two_particle_game)
                                    (Game.height two_particle_game) p3
       then splice 0 (Game.particles two_particle_game)
       else Game.particles two_particle_game).
Proof.
  apply (obstacle_hit_removes [] 0 0%nat two_particle_game two_particle_host
           (resting_particle 0 0)); reflexivity.
Defined.

(** ** The number of obstacles and collection points of a level *)










(** ** What a tick leaves as it is before the level is tested *)

Lemma same_settings_refl (g : Game.t) : same_settings g g.
Proof. unfold same_settings. repeat split. Qed.

Lemma same_settings_trans (g1 g2 g3 : Game.t) :
  same_settings g1 g2 -> same_settings g2 g3 -> same_settings g1 g3.
Proof.
  unfold same_settings. intros H1 H2.
  decompose [and] H1. decompose [and] H2. repeat split; congruence.
Qed.

Lemma same_point_refl (c : CollectionPoint.t) : same_point c c.
Proof. unfold same_point. repeat split. auto. Qed.

Lemma same_point_trans (c1 c2 c3 : CollectionPoint.t) :
  same_point c1 c2 -> same_point c2 c3 -> same_point c1 c3.
Proof.
  unfold same_point. intros (A1 & A2 & A3 & A4 & A5) (B1 & B2 & B3 & B4 & B5).
  repeat split; try congruence. auto.
Qed.

Lemma same_points_refl (cs : list CollectionPoint.t) :
  Forall2 same_point cs cs.
Proof. induction cs; constructor; [apply same_point_refl | assumption]. Qed.

Lemma same_points_trans (l1 l2 l3 : list CollectionPoint.t) :
  Forall2 same_point l1 l2 -> Forall2 same_point l2 l3 ->
  Forall2 same_point l1 l3.
Proof.
  intros H. revert l3. induction H as [| a b l1 l2 Hab _ IH]; intros l3 H3.
  - inversion H3. constructor.
  - inversion H3; subst. constructor.
    + eapply same_point_trans; eassumption.
    + apply IH. assumption.
Qed.

Lemma same_points_collect (px py : R) (cs : list CollectionPoint.t) :
  Forall2 same_point cs (map (collect_if_hit px py) cs).
Proof.
  induction cs as [| c cs IH]; cbn [map]; constructor; [| exact IH].
  destruct (collect_if_hit_spec px py c) as (H1 & H2 & H3 & H4 & H5).
  unfold same_point. repeat split; try assumption.
  intros E. rewrite H5, E. reflexivity.
Qed.

Lemma powerUp_tests_settings (a : addr) (px py : R) (todo : list PowerUp.t) :
  forall (done : list PowerUp.t) (g : Game.t) (h : Host),
    let g' := fst (Game.powerUp_tests a px py done todo g h) in
    same_settings g g' /\ Game.emitters g' = Game.emitters g.
Proof.
  induction todo as [| p todo IH]; intros done g h;
    cbn [Game.powerUp_tests].
  - cbn [fst]. split; [unfold same_settings; cbn; repeat split | reflexivity].
  - destruct (PowerUp.checkCollision px py p); [| apply IH].
    destruct (PowerUp.collect p) as [[[ty du] |] p']; [| apply IH].
    unfold Game.activatePowerUp.
    match goal with |- context [Game.powerUp_tests a px py ?d todo ?x ?y] =>
      destruct (IH d x y) as (Hs & He) end.
    cbv zeta. split; [| rewrite He; reflexivity].
    eapply same_settings_trans; [| exact Hs].
    unfold same_settings. cbn. repeat split.
Qed.

(** The body of the particle loop changes no setting and no emitter,
    reads no random number, and leaves the collection points as they
    were, some of them collected. *)
Lemma update_particle_static (paths : list Path.t) (i : nat) (g : Game.t)
  (h : Host) :
  let '(_, g', h') := Game.update_particle paths i g h in
  same_settings g g' /\ Game.emitters g' = Game.emitters g /\
  Forall2 same_point (Game.collectionPoints g) (Game.collectionPoints g') /\
  dice h' = dice h.
Proof.
  assert (Hid : same_settings g g /\ Game.emitters g = Game.emitters g /\
                Forall2 same_point (Game.collectionPoints g)
                        (Game.collectionPoints g))
    by (split; [apply same_settings_refl |];
        split; [reflexivity | apply same_points_refl]).
  destruct Hid as (I1 & I2 & I3).
  unfold Game.update_particle.
  destruct (nth_error (Game.particles g) i) as [a |];
    [| repeat split; assumption].
  destruct (load a h) as [p |]; [| repeat split; assumption].
  destruct (if Game.a_magnet (Game.activePowerUps g) then _ else _)
    as [p2 | ex]; [| repeat split; assumption].
  destruct (Particle.update paths (Game.obstacles g) p2) as [p3 | ex];
    [| repeat split; assumption].
  assert (Hhit : exists hit k,
            (if negb (Game.a_shield (Game.activePowerUps g))
             then Game.obstacle_tests a (Particle.x p3) (Particle.y p3)
                    (Game.obstacles g) (log (EvPhysics a) (store a p3 h))
             else (false, log (EvPhysics a) (store a p3 h)))
            = (hit, logs (repeat (EvObstacleTest a) k)
                         (log (EvPhysics a) (store a p3 h)))).
  { destruct (negb (Game.a_shield (Game.activePowerUps g))).
    - destruct (obstacle_tests_closed a (Particle.x p3) (Particle.y p3)
                  (Game.obstacles g) (log (EvPhysics a) (store a p3 h)))
        as (k & _ & ->).
      eexists; eexists; reflexivity.
    - exists false, 0%nat. cbn [repeat]. rewrite logs_nil. reflexivity. }
  destruct Hhit as (hit & k & ->).
  rewrite collection_tests_closed.
  match goal with |- context [Game.powerUp_tests ?a ?x ?y ?d ?t ?gg ?hh] =>
    pose proof (powerUp_tests_settings a x y t d gg hh) as Hs;
    pose proof (powerUp_tests_fields a x y t d gg hh) as Hf;
    pose proof (powerUp_tests_host a x y t d gg hh) as Hh;
    destruct (Game.powerUp_tests a x y d t gg hh) as [g2 h4] end.
  cbv zeta in Hs, Hf, Hh. cbn [fst snd] in Hs, Hf, Hh.
  destruct Hs as (Hs & He). destruct Hf as (_ & _ & Hc & _).
  destruct Hh as (_ & Hd & _).
  cbn [Game.collectionPoints Game.with_score Game.with_collectionPoints
       Game.emitters] in Hc, He.
  assert (Hs' : same_settings g g2).
  { eapply same_settings_trans; [| exact Hs].
    unfold same_settings. cbn. repeat split. }
  assert (Hpts : Forall2 same_point (Game.collectionPoints g)
                         (Game.collectionPoints g2)).
  { rewrite Hc. apply same_points_collect. }
  assert (Hdice : dice (log (EvPrune a) h4) = dice h).
  { cbn [log dice]. rewrite Hd. reflexivity. }
  destruct (negb _ || _);
    (split; [exact Hs' |]; split; [exact He |]; split; [exact Hpts |];
     exact Hdice).
Qed.

Lemma update_particles_static (paths : list Path.t) (n : nat) :
  forall (g : Game.t) (h : Host),
    let '(_, g', h') := Game.update_particles paths n g h in
    same_settings g g' /\ Game.emitters g' = Game.emitters g /\
    Forall2 same_point (Game.collectionPoints g) (Game.collectionPoints g') /\
    dice h' = dice h.
Proof.
  induction n as [| i IH]; intros g h; cbn [Game.update_particles].
  - split; [apply same_settings_refl |]. split; [reflexivity |].
    split; [apply same_points_refl | reflexivity].
  - pose proof (update_particle_static paths i g h) as H1.
    destruct (Game.update_particle paths i g h) as [[r1 g1] h1].
    destruct r1 as [[] | ex]; [| exact H1].
    destruct H1 as (S1 & E1 & P1 & D1).
    specialize (IH g1 h1).
    destruct (Game.update_particles paths i g1 h1) as [[r g'] h'].
    destruct IH as (S2 & E2 & P2 & D2).
    split; [eapply same_settings_trans; eassumption |].
    split; [congruence |].
    split; [eapply same_points_trans; eassumption | congruence].
Qed.









(** ** The level-complete transition in a tick (C8) *)









(** ** The time-slow scaling in a game with emitters (C4) *)

Lemma Particle_update_coast (p : Particle.t) :
  Particle.update [] [] p = Normal (coast p).
Proof.
  unfold coast, Particle.update.
  destruct (negb (Particle.active p)); reflexivity.
Qed.

Lemma coast_eq (p : Particle.t) :
  coast p
  = if Particle.active p
    then Particle.integrate
           (Particle.with_speed (Particle.speedX p)
              (Particle.speedY p + Particle.gravity p) p)
    else p.
Proof.
  unfold coast, Particle.update. destruct (Particle.active p); reflexivity.
Qed.

Lemma unforced_step (paths : list Path.t) (obstacles : list Obstacle.t)
  (p : Particle.t) :
  unforced paths obstacles p ->
  Particle.update paths obstacles p = Normal (coast p).
Proof. intros H. rewrite H. apply Particle_update_coast. Qed.

Lemma coast_active (p : Particle.t) :
  Particle.active (coast p) = true -> Particle.active p = true.
Proof.
  rewrite coast_eq. destruct (Particle.active p) eqn:E; [reflexivity |].
  rewrite E. discriminate.
Qed.

Lemma coast_speed (p : Particle.t) :
  Particle.active p = true ->
  Particle.gravity p = 0 ->
  Particle.gravity (coast p) = 0 /\
  Particle.speedX (coast p) = Particle.speedX p * 0.98 /\
  Particle.speedY (coast p) = Particle.speedY p * 0.98.
Proof.
  intros Ha Hg. rewrite coast_eq, Ha.
  cbn [Particle.integrate Particle.with_speed Particle.gravity
       Particle.speedX Particle.speedY].
  rewrite Hg, Rplus_0_r. repeat split.
Qed.

(** The velocity after [c] physics steps without force, when the particle
    is still alive after them. *)
Lemma iter_coast_speed (c : nat) (p : Particle.t) :
  Particle.gravity p = 0 ->
  Particle.active (Nat.iter c coast p) = true ->
  Particle.active p = true /\
  Particle.gravity (Nat.iter c coast p) = 0 /\
  Particle.speedX (Nat.iter c coast p) = 0.98 ^ c * Particle.speedX p /\
  Particle.speedY (Nat.iter c coast p) = 0.98 ^ c * Particle.speedY p.
Proof.
  intros Hg. induction c as [| c IH]; cbn [Nat.iter nat_rect]; intros Ha.
  - split; [exact Ha |]. split; [exact Hg |]. cbn [pow]. split; lra.
  - unfold Nat.iter in IH.
    destruct (IH (coast_active _ Ha)) as (Hp & Hg' & Hx & Hy).
    destruct (coast_speed _ (coast_active _ Ha) Hg') as (Hg1 & Hx1 & Hy1).
    split; [exact Hp |]. split; [exact Hg1 |].
    rewrite Hx1, Hy1, Hx, Hy. cbn [pow]. split; ring.
Qed.

Lemma occurrences_app (a : addr) (l1 l2 : list addr) :
  occurrences a (l1 ++ l2) = (occurrences a l1 + occurrences a l2)%nat.
Proof. apply count_occ_app. Qed.

(** The update of a pool calls [Particle.update] on the particle at [a]
    once for each occurrence of [a] in the pool. *)
Lemma update_from_cell (paths : list Path.t) (obstacles : list Obstacle.t)
  (w hgt : R) (a : addr) (j : nat) :
  forall (e : ParticleEmitter.t) (h : Host) (e' : ParticleEmitter.t)
         (h' : Host) (q : Particle.t),
    ParticleEmitter.update_from j paths obstacles w hgt e h
    = (Normal tt, e', h') ->
    load a h = Some q ->
    (forall i,
       (i < occurrences a (firstn j (ParticleEmitter.particles e)))%nat ->
       unforced paths obstacles (Nat.iter i coast q)) ->
    load a h'
    = Some (Nat.iter
              (occurrences a (firstn j (ParticleEmitter.particles e)))
              coast q).
Proof.
  induction j as [| j IH]; intros e h e' h' q H Hl Hu.
  - cbn in H. injection H as _ <-. exact Hl.
  - cbn [ParticleEmitter.update_from] in H.
    destruct (nth_error (ParticleEmitter.particles e) j) as [a1 |] eqn:En.
    + assert (Hj : (j < List.length (ParticleEmitter.particles e))%nat)
        by (apply nth_error_Some; rewrite En; discriminate).
      rewrite (firstn_S_nth _ _ _ En), occurrences_app in Hu |- *.
      unfold occurrences at 2 in Hu. unfold occurrences at 2.
      cbn [count_occ] in Hu |- *.
      destruct (Nat.eq_dec a1 a) as [-> | Hne].
      * rewrite Hl in H.
        pose proof (unforced_step _ _ _ (Hu 0%nat ltac:(lia))) as H0.
        change (Nat.iter 0 coast q) with q in H0. rewrite H0 in H. clear H0.
        rewrite Nat.add_1_r, Nat.iter_succ_r.
        match type of H with
        | ParticleEmitter.update_from j _ _ _ _ ?e1 ?h1 = _ =>
            assert (Hf : firstn j (ParticleEmitter.particles e1)
                         = firstn j (ParticleEmitter.particles e));
            [ destruct (negb _ || _);
              [ cbn [ParticleEmitter.particles ParticleEmitter.with_particles];
                apply firstn_splice; lia
              | reflexivity ]
            | specialize (IH e1 h1 e' h' (coast q) H) ]
        end.
        rewrite Hf in IH. apply IH.
        -- apply (load_store_same a (coast q) q). rewrite load_log. exact Hl.
        -- intros i Hi. rewrite <- Nat.iter_succ_r. apply Hu.
           rewrite Nat.add_1_r. apply -> Nat.succ_lt_mono. exact Hi.
      * rewrite Nat.add_0_r in Hu |- *.
        destruct (load a1 h) as [p1 |] eqn:Hl1; [| apply (IH e h e' h' q H Hl Hu)].
        destruct (Particle.update paths obstacles p1) as [p' | ex];
          [| discriminate].
        match type of H with
        | ParticleEmitter.update_from j _ _ _ _ ?e1 ?h1 = _ =>
            assert (Hf : firstn j (ParticleEmitter.particles e1)
                         = firstn j (ParticleEmitter.particles e));
            [ destruct (negb _ || _);
              [ cbn [ParticleEmitter.particles ParticleEmitter.with_particles];
                apply firstn_splice; lia
              | reflexivity ]
            | specialize (IH e1 h1 e' h' q H) ]
        end.
        rewrite Hf in IH. apply IH; [| exact Hu].
        rewrite load_store_other by exact Hne. rewrite load_log. exact Hl.
    + apply nth_error_None in En.
      rewrite firstn_all2 in Hu |- * by lia.
      specialize (IH e h e' h' q H Hl).
      rewrite firstn_all2 in IH by lia. apply IH, Hu.
Qed.

(** [emit] leaves the particles that exist as they are, and the particles
    that it creates are new. *)
Lemma emit_cell (e : ParticleEmitter.t) (h : Host) (l : list addr)
  (e1 : ParticleEmitter.t) (h1 : Host) (a : addr) (q : Particle.t) :
  ParticleEmitter.emit e h = (Normal l, e1, h1) ->
  load a h = Some q ->
  load a h1 = Some q /\
  ParticleEmitter.particles e1 = ParticleEmitter.particles e ++ l /\
  occurrences a l = 0%nat.
Proof.
  intros He Hl. pose proof (emit_creates e h) as H. rewrite He in H.
  destruct H as (Hp & Hs & _ & (created & Hh & _) & _).
  assert (Ha : (a < List.length (heap h))%nat)
    by (apply load_some_iff; exists q; exact Hl).
  split; [| split; [exact Hp |]].
  - unfold load in *. rewrite Hh, nth_error_app1 by exact Ha. exact Hl.
  - apply count_occ_not_In. rewrite Hs. intros Hin.
    apply in_seq in Hin. lia.
Qed.

(** The emitter loop of a tick calls [Particle.update] on the particle at
    [a] once for each occurrence of [a] in a pool, and adds only new
    particles to [Game.particles]. *)
Lemma update_emitters_cell (paths : list Path.t) (a : addr)
  (todo : list ParticleEmitter.t) :
  forall (done : list ParticleEmitter.t) (g : Game.t) (h : Host)
         (g' : Game.t) (h' : Host) (q : Particle.t),
    let c := list_sum
               (map (fun e => occurrences a (ParticleEmitter.particles e))
                    todo) in
    Game.update_emitters paths done todo g h = (Normal tt, g', h') ->
    load a h = Some q ->
    (forall i, (i < c)%nat ->
       unforced paths (Game.obstacles g) (Nat.iter i coast q)) ->
    load a h' = Some (Nat.iter c coast q) /\
    occurrences a (Game.particles g') = occurrences a (Game.particles g).
Proof.
  induction todo as [| e todo IH]; intros done g h g' h' q c H Hl Hu.
  - cbn in H. injection H as <- <-. split; [exact Hl | reflexivity].
  - cbn [Game.update_emitters] in H.
    destruct (ParticleEmitter.emit e h) as [[[l | ex] e1] h1] eqn:He;
      [| discriminate].
    destruct (emit_cell e h l e1 h1 a q He Hl) as (Hl1 & Hp1 & Hnew).
    destruct (ParticleEmitter.update paths _ _ _ e1 h1)
      as [[[[] | ex] e2] h2] eqn:Hup; [| discriminate].
    unfold ParticleEmitter.update in Hup.
    cbn [Game.obstacles Game.with_particles] in Hup.
    set (c1 := occurrences a (ParticleEmitter.particles e)).
    set (c2 := list_sum
                 (map (fun e => occurrences a (ParticleEmitter.particles e))
                      todo)).
    assert (Hc : c = (c1 + c2)%nat) by reflexivity.
    assert (Hc1 : occurrences a
                    (firstn (List.length (ParticleEmitter.particles e1))
                            (ParticleEmitter.particles e1)) = c1).
    { rewrite firstn_all, Hp1, occurrences_app, Hnew. unfold c1. lia. }
    pose proof (update_from_cell paths (Game.obstacles g) _ _ a _ e1 h1 e2
                  h2 q Hup Hl1) as Hcell.
    rewrite Hc1 in Hcell.
    specialize (Hcell (fun i Hi => Hu i ltac:(lia))).
    destruct (IH _ _ _ g' h' (Nat.iter c1 coast q) H Hcell) as (Hl' & Hcnt).
    { intros i Hi. cbn [Game.obstacles Game.with_particles].
      rewrite <- Nat.iter_add. apply Hu. fold c2 in Hi. lia. }
    fold c2 in Hl'. split.
    + rewrite Hl', <- Nat.iter_add, Hc. f_equal. f_equal. lia.
    + rewrite Hcnt. cbn [Game.particles Game.with_particles].
      rewrite occurrences_app, Hnew. lia.
Qed.

Lemma occurrences_splice (a a' : addr) (l : list addr) (i : nat) :
  nth_error l i = Some a' ->
  occurrences a l
  = (occurrences a (splice i l) + (if Nat.eq_dec a' a then 1 else 0))%nat.
Proof.
  intros E. rewrite (split_at_nth l i a' E) at 1. unfold splice.
  rewrite !occurrences_app.
  change (a' :: skipn (S i) l) with ([a'] ++ skipn (S i) l).
  rewrite occurrences_app. unfold occurrences at 2. cbn [count_occ].
  destruct (Nat.eq_dec a' a); lia.
Qed.

(** The magnet block returns only when it leaves the particle as it
    is. *)
Lemma magnet_effect_normal (pts : list CollectionPoint.t)
  (p p2 : Particle.t) :
  Game.magnet_effect pts p = Normal p2 -> p2 = p.
Proof.
  unfold Game.magnet_effect.
  destruct (fold_left _ _ _) as [[d c] |]; [| congruence].
  destruct (Rltb d 200); [discriminate | congruence].
Qed.

Lemma time_slow_bit (f1 f2 : Game.ActivePowerUps) (q : Particle.t) :
  Game.a_timeSlow f1 = Game.a_timeSlow f2 ->
  Game.time_slow f1 q = Game.time_slow f2 q.
Proof. intros H. unfold Game.time_slow. rewrite H. reflexivity. Qed.

(** A pickup sets flags and clears none. *)
Lemma powerUp_tests_timeSlow (a : addr) (px py : R)
  (todo : list PowerUp.t) :
  forall (done : list PowerUp.t) (g : Game.t) (h : Host),
    Game.a_timeSlow (Game.activePowerUps g) = true ->
    Game.a_timeSlow
      (Game.activePowerUps (fst (Game.powerUp_tests a px py done todo g h)))
    = true.
Proof.
  induction todo as [| p todo IH]; intros done g h Hf;
    cbn [Game.powerUp_tests].
  - exact Hf.
  - destruct (PowerUp.checkCollision px py p); [| apply IH; exact Hf].
    destruct (PowerUp.collect p) as [[[ty du] |] p'];
      [| apply IH; exact Hf].
    unfold Game.activatePowerUp. apply IH.
    cbn [Game.activePowerUps Game.with_activePowerUps].
    destruct ty; cbn [Game.set_active Game.a_timeSlow];
      first [reflexivity | exact Hf].
Qed.

(** The turn of the particle at index [i] of [Game.particles], whose
    address is [a']: the list keeps its particles or loses the one at
    [i]; no flag is cleared; no other particle is written; and when the
    turn returns and the particle stays in the list, it is alive and is
    what its physics step has made of the scaled particle. *)
Lemma update_particle_turn (paths : list Path.t) (i : nat) (a' : addr)
  (g : Game.t) (h : Host) :
  nth_error (Game.particles g) i = Some a' ->
  let '(r, g', h') := Game.update_particle paths i g h in
  (Game.particles g' = Game.particles g \/
   Game.particles g' = splice i (Game.particles g)) /\
  (Game.a_timeSlow (Game.activePowerUps g) = true ->
   Game.a_timeSlow (Game.activePowerUps g') = true) /\
  (forall a, a <> a' -> load a h' = load a h) /\
  (r = Normal tt ->
   forall q, load a' h = Some q ->
     Game.particles g' = splice i (Game.particles g) \/
     exists p3,
       Particle.update paths (Game.obstacles g)
         (Game.time_slow (Game.activePowerUps g) q) = Normal p3 /\
       load a' h' = Some p3 /\ Particle.active p3 = true).
Proof.
  intros Hi. unfold Game.update_particle. rewrite Hi.
  destruct (load a' h) as [particle |] eqn:Hl.
  2:{ split; [left; reflexivity |]. split; [auto |].
      split; [reflexivity |]. intros _ q Hq. discriminate. }
  set (p1 := Game.time_slow (Game.activePowerUps g) particle).
  assert (Hmag : (if Game.a_magnet (Game.activePowerUps g)
                  then Game.magnet_effect (Game.collectionPoints g) p1
                  else Normal p1) = Normal p1 \/
                 exists ex,
                   (if Game.a_magnet (Game.activePowerUps g)
                    then Game.magnet_effect (Game.collectionPoints g) p1
                    else Normal p1) = Throw ex).
  { destruct (Game.a_magnet (Game.activePowerUps g));
      [| left; reflexivity].
    destruct (Game.magnet_effect (Game.collectionPoints g) p1)
      as [p2 | ex] eqn:E; [| right; exists ex; reflexivity].
    apply magnet_effect_normal in E. subst p2. left; reflexivity. }
  destruct Hmag as [-> | [ex ->]].
  2:{ split; [left; reflexivity |]. split; [auto |].
      split; [| intros Hr; discriminate].
      intros a Ha. apply load_store_other. congruence. }
  destruct (Particle_update_normal paths (Game.obstacles g) p1) as [p3 Hp3].
  rewrite Hp3.
  assert (Hhit : exists hit h2,
            (if negb (Game.a_shield (Game.activePowerUps g))
             then Game.obstacle_tests a' (Particle.x p3) (Particle.y p3)
                    (Game.obstacles g) (log (EvPhysics a') (store a' p3 h))
             else (false, log (EvPhysics a') (store a' p3 h)))
            = (hit, h2)
            /\ heap h2 = heap (store a' p3 h)).
  { destruct (negb (Game.a_shield (Game.activePowerUps g))).
    - destruct (obstacle_tests_closed a' (Particle.x p3) (Particle.y p3)
                  (Game.obstacles g) (log (EvPhysics a') (store a' p3 h)))
        as (k & _ & ->).
      eexists. eexists. split; reflexivity.
    - eexists. eexists. split; reflexivity. }
  destruct Hhit as (hit & h2 & -> & Hh2).
  set (p4 := if hit then Particle.with_active false p3 else p3).
  rewrite collection_tests_closed.
  match goal with |- context [Game.powerUp_tests ?a ?x ?y ?d ?t ?gg ?hh] =>
    pose proof (powerUp_tests_fields a x y t d gg hh) as Hf;
    pose proof (powerUp_tests_host a x y t d gg hh) as Hh;
    pose proof (powerUp_tests_timeSlow a x y t d gg hh) as Hts;
    destruct (Game.powerUp_tests a x y d t gg hh) as [g2 h4] end.
  cbn [fst snd] in Hf, Hh, Hts.
  destruct Hf as (_ & _ & _ & Hps & _). destruct Hh as (Hheap & _).
  cbn [Game.particles Game.with_score Game.with_collectionPoints
       Game.activePowerUps] in Hps, Hts.
  assert (Hheap5 : heap (log (EvPrune a') h4) = heap (store a' p4 h)).
  { cbn [log heap]. rewrite Hheap. cbn [logs heap store with_heap].
    rewrite Hh2. cbn [store with_heap heap].
    clear. generalize (heap h). intros l. revert a'.
    induction l as [| x l IH]; intros [| a']; cbn [list_set];
      try reflexivity.
    rewrite IH. reflexivity. }
  assert (Hother : forall a, a <> a' ->
            load a (log (EvPrune a') h4) = load a h).
  { intros a Ha. rewrite (load_heap a (store a' p4 h) _ Hheap5).
    apply load_store_other. congruence. }
  assert (Hown : load a' (log (EvPrune a') h4) = Some p4).
  { rewrite (load_heap a' (store a' p4 h) _ Hheap5).
    apply (load_store_same a' p4 particle h Hl). }
  destruct (negb (Particle.active p4) || _) eqn:Hrm.
  - cbn [Game.particles Game.with_particles]. rewrite Hps.
    split; [right; reflexivity |]. split; [exact Hts |].
    split; [exact Hother |]. intros _ q Hq. left. reflexivity.
  - rewrite Hps. split; [left; reflexivity |]. split; [exact Hts |].
    split; [exact Hother |]. intros _ q Hq. right.
    injection Hq as <-. fold p1.
    apply orb_false_iff in Hrm. destruct Hrm as [Hact _].
    apply negb_false_iff in Hact.
    assert (E : p4 = p3).
    { unfold p4 in *. destruct hit; [discriminate Hact | reflexivity]. }
    rewrite E in *. exists p3. repeat split; assumption.
Qed.

Lemma update_particle_none (paths : list Path.t) (i : nat) (g : Game.t)
  (h : Host) :
  nth_error (Game.particles g) i = None ->
  Game.update_particle paths i g h = (Normal tt, g, h).
Proof. intros E. unfold Game.update_particle. rewrite E. reflexivity. Qed.

(** The particle loop adds no particle to the list and clears no flag. *)
Lemma update_particles_mono (paths : list Path.t) (a : addr) (n : nat) :
  forall (g : Game.t) (h : Host),
    let g' := snd (fst (Game.update_particles paths n g h)) in
    (occurrences a (Game.particles g')
     <= occurrences a (Game.particles g))%nat /\
    (Game.a_timeSlow (Game.activePowerUps g) = true ->
     Game.a_timeSlow (Game.activePowerUps g') = true).
Proof.
  induction n as [| i IH]; intros g h; cbn [Game.update_particles].
  - cbn [fst snd]. split; [lia | auto].
  - destruct (nth_error (Game.particles g) i) as [a' |] eqn:En.
    + pose proof (update_particle_turn paths i a' g h En) as Ht.
      destruct (Game.update_particle paths i g h) as [[r1 g1] h1].
      destruct Ht as (Hps & Hfl & _ & _).
      assert (Hle : (occurrences a (Game.particles g1)
                     <= occurrences a (Game.particles g))%nat).
      { destruct Hps as [-> | ->]; [lia |].
        rewrite (occurrences_splice a a' _ i En). lia. }
      destruct r1 as [[] | ex]; [| cbn [fst snd]; split; assumption].
      specialize (IH g1 h1). cbv zeta in IH. destruct IH as [IH1 IH2].
      split; [lia | auto].
    + rewrite (update_particle_none paths i g h En). apply IH.
Qed.

(** The turns of the other particles leave the particle at [a] as it
    is. *)
Lemma update_particles_rest (paths : list Path.t) (a : addr) (n : nat) :
  forall (g : Game.t) (h : Host),
    occurrences a (firstn n (Game.particles g)) = 0%nat ->
    load a (snd (Game.update_particles paths n g h)) = load a h.
Proof.
  induction n as [| i IH]; intros g h H0; cbn [Game.update_particles].
  - reflexivity.
  - destruct (nth_error (Game.particles g) i) as [a' |] eqn:En.
    + assert (Hi : (i < List.length (Game.particles g))%nat)
        by (apply nth_error_Some; rewrite En; discriminate).
      rewrite (firstn_S_nth _ _ _ En), occurrences_app in H0.
      unfold occurrences at 2 in H0. cbn [count_occ] in H0.
      destruct (Nat.eq_dec a' a) as [-> | Hne]; [lia |].
      pose proof (update_particle_turn paths i a' g h En) as Ht.
      destruct (Game.update_particle paths i g h) as [[r1 g1] h1].
      destruct Ht as (Hps & _ & Hother & _).
      destruct r1 as [[] | ex];
        [| cbn [snd]; apply Hother; congruence].
      rewrite IH; [apply Hother; congruence |].
      destruct Hps as [-> | ->]; [lia |].
      rewrite firstn_splice by lia. lia.
    + rewrite (update_particle_none paths i g h En).
      apply nth_error_None in En. apply IH.
      rewrite firstn_all2 in H0 |- * by lia. exact H0.
Qed.

(** The particle loop on a particle that occurs once in the list and is
    still there when the loop ends, while the Time-slow flag is [b]
    before and after the loop: the particle is alive and is what its
    physics step has made of the scaled particle. *)
Lemma update_particles_cell (paths : list Path.t) (a : addr) (b : bool)
  (n : nat) :
  forall (g : Game.t) (h : Host) (g' : Game.t) (h' : Host) (q : Particle.t),
    Game.update_particles paths n g h = (Normal tt, g', h') ->
    occurrences a (firstn n (Game.particles g)) = 1%nat ->
    occurrences a (Game.particles g) = 1%nat ->
    occurrences a (Game.particles g') = 1%nat ->
    Game.a_timeSlow (Game.activePowerUps g) = b ->
    Game.a_timeSlow (Game.activePowerUps g') = b ->
    load a h = Some q ->
    exists p3,
      Particle.update paths (Game.obstacles g)
        (Game.time_slow (Game.activePowerUps g) q) = Normal p3 /\
      load a h' = Some p3 /\ Particle.active p3 = true.
Proof.
  induction n as [| i IH]; intros g h g' h' q H H1 Hg Hg' Hb Hb' Hl.
  - cbn in H1. discriminate.
  - cbn [Game.update_particles] in H.
    destruct (nth_error (Game.particles g) i) as [a' |] eqn:En.
    + assert (Hi : (i < List.length (Game.particles g))%nat)
        by (apply nth_error_Some; rewrite En; discriminate).
      pose proof (update_particle_turn paths i a' g h En) as Ht.
      pose proof (update_particle_static paths i g h) as Hst.
      destruct (Game.update_particle paths i g h) as [[r1 g1] h1].
      destruct r1 as [[] | ex]; [| discriminate].
      destruct Ht as (Hps & Hfl & Hother & Hown).
      destruct Hst as ((_ & _ & _ & Hobs & _) & _).
      pose proof (update_particles_mono paths a i g1 h1) as Hmono.
      pose proof (update_particles_rest paths a i g1 h1) as Hrest.
      rewrite H in Hmono, Hrest. cbn [fst snd] in Hmono, Hrest.
      destruct Hmono as [Hle Hfl'].
      rewrite (firstn_S_nth _ _ _ En), occurrences_app in H1.
      unfold occurrences at 2 in H1. cbn [count_occ] in H1.
      pose proof (occurrences_splice a a' _ i En) as Hsp.
      assert (Hfirst : firstn i (Game.particles g1)
                       = firstn i (Game.particles g)).
      { destruct Hps as [-> | ->]; [reflexivity |].
        apply firstn_splice. lia. }
      destruct (Nat.eq_dec a' a) as [-> | Hne].
      * destruct (Hown eq_refl q Hl) as [Hs | (p3 & Hp3 & Hl3 & Ha3)].
        -- rewrite Hs in Hle. lia.
        -- exists p3. split; [exact Hp3 |]. split; [| exact Ha3].
           rewrite Hrest; [exact Hl3 |]. rewrite Hfirst. lia.
      * assert (Hg1 : occurrences a (Game.particles g1) = 1%nat).
        { destruct Hps as [-> | ->]; lia. }
        assert (Hb1 : Game.a_timeSlow (Game.activePowerUps g1) = b).
        { destruct b; [apply Hfl; exact Hb |].
          destruct (Game.a_timeSlow (Game.activePowerUps g1)) eqn:E;
            [| reflexivity].
          rewrite <- Hb'. symmetry. apply Hfl'. reflexivity. }
        destruct (IH g1 h1 g' h' q H) as (p3 & Hp3 & Hl3 & Ha3);
          try assumption.
        -- rewrite Hfirst. lia.
        -- rewrite Hother by congruence. exact Hl.
        -- exists p3. split; [| split; assumption].
           rewrite <- Hobs.
           rewrite (time_slow_bit (Game.activePowerUps g)
                      (Game.activePowerUps g1)) by congruence.
           exact Hp3.
    + rewrite (update_particle_none paths i g h En) in H.
      apply nth_error_None in En.
      apply (IH g h g' h' q H); try assumption.
      rewrite firstn_all2 in H1 |- * by lia. exact H1.
Qed.

(** What follows the particle loop writes no particle, removes none from
    the list and changes no flag; it ends the game only when the list is
    empty. *)
Lemma finish_tick_cell (g : Game.t) (h : Host) :
  let '(g', h') := Game.finish_tick g h in
  Game.particles g' = Game.particles g /\
  Game.activePowerUps g' = Game.activePowerUps g /\
  heap h' = heap h /\
  Game.isPaused g' = Game.isPaused g /\
  (Game.particles g <> [] -> Game.isPlaying g' = Game.isPlaying g).
Proof.
  unfold Game.finish_tick. rewrite maybe_spawn_id. unfold Game.check_level.
  assert (Hover : forall g3 h3,
            let '(g', h') := Game.check_gameOver g3 h3 in
            Game.particles g' = Game.particles g3 /\
            Game.activePowerUps g' = Game.activePowerUps g3 /\
            heap h' = heap h3 /\
            Game.isPaused g' = Game.isPaused g3 /\
            (Game.particles g3 <> [] ->
             Game.isPlaying g' = Game.isPlaying g3)).
  { intros g3 h3. unfold Game.check_gameOver.
    destruct (Game.particles g3) as [| x l] eqn:E; cbn [List.length Nat.eqb].
    - destruct (negb _); cbn; rewrite ?E; repeat split;
        intros Hne; contradiction.
    - cbn. rewrite E. repeat split. }
  destruct (Game.level_complete (Game.update_entities g)).
  - destruct (nextLevel_spec (Game.update_entities g)
                (log EvLevelCheck (snd (roll h))))
      as (es & os & cs & Hg & _ & _ & _ & _ & Hd).
    specialize (Hover (fst (Game.nextLevel (Game.update_entities g)
                              (log EvLevelCheck (snd (roll h)))))
                      (snd (Game.nextLevel (Game.update_entities g)
                              (log EvLevelCheck (snd (roll h)))))).
    destruct (Game.nextLevel _ _) as [g3 h3]. cbn [fst snd] in *.
    destruct (Game.check_gameOver g3 h3) as [g' h'].
    destruct Hover as (H1 & H2 & H3 & H4 & H5).
    rewrite Hg in H1, H2, H4, H5.
    cbn [Game.particles Game.activePowerUps Game.isPaused Game.isPlaying
         Game.with_score Game.with_collectionPoints Game.with_obstacles
         Game.with_emitters Game.with_difficulty Game.with_level
         Game.update_entities Game.with_powerUps] in H1, H2, H4, H5.
    split; [exact H1 |]. split; [exact H2 |].
    split; [| split; [exact H4 | exact H5]].
    rewrite H3, (dice_only_heap _ _ Hd). cbn [log heap].
    apply dice_only_heap, roll_dice_only.
  - specialize (Hover (Game.update_entities g)
                      (log EvLevelCheck (snd (roll h)))).
    destruct (Game.check_gameOver _ _) as [g' h'].
    destruct Hover as (H1 & H2 & H3 & H4 & H5).
    cbn [Game.particles Game.activePowerUps Game.isPaused Game.isPlaying
         Game.with_collectionPoints Game.with_obstacles
         Game.update_entities Game.with_powerUps] in H1, H2, H4, H5.
    split; [exact H1 |]. split; [exact H2 |].
    split; [| split; [exact H4 | exact H5]].
    rewrite H3. cbn [log heap]. apply dice_only_heap, roll_dice_only.
Qed.

(** One tick, for a particle of [Game.particles] that is still in the
    list after it: the emitter loop has moved the particle once for each
    pool that holds it, then the particle loop has scaled it and moved it
    once. *)
Lemma tick_cell (b : bool) (a : addr) (g : Game.t) (h : Host)
  (g' : Game.t) (h' : Host) (p : Particle.t) :
  Game.isPlaying g = true ->
  Game.isPaused g = false ->
  Game.update g h = (Normal tt, g', h') ->
  load a h = Some p ->
  occurrences a (Game.particles g) = 1%nat ->
  occurrences a (Game.particles g') = 1%nat ->
  Game.a_timeSlow (Game.activePowerUps g) = b ->
  Game.a_timeSlow (Game.activePowerUps g') = b ->
  force_free_tick a g h ->
  let p' := coast (Game.time_slow (Game.activePowerUps g)
                     (Nat.iter (pools_of a g) coast p)) in
  load a h' = Some p' /\ Particle.active p' = true /\
  Game.isPlaying g' = true /\ Game.isPaused g' = false.
Proof.
  intros Hplay Hpause H Hl Hg Hg' Hb Hb' Hff p'.
  destruct (Hff p Hl) as [Hpool Hloop].
  unfold Game.update in H. rewrite Hplay, Hpause in H.
  cbn [negb orb] in H.
  set (g0 := Game.with_input _ g) in H.
  change (InputHandler.getActivePaths (Game.input g0))
    with (tick_paths g h) in H.
  pose proof (update_emitters_frame (tick_paths g h) (Game.emitters g0) []
                g0 h) as Hfr.
  pose proof (update_emitters_cell (tick_paths g h) a (Game.emitters g0) []
                g0 h) as Hcell.
  destruct (Game.update_emitters _ _ _ g0 h) as [[r1 g1] h1].
  destruct r1 as [[] | ex]; [| discriminate].
  destruct Hfr as (Hfr & _).
  specialize (Hcell g1 h1 p eq_refl Hl Hpool).
  cbv zeta in Hcell. destruct Hcell as [Hl1 Hc1].
  change (list_sum _) with (pools_of a g) in Hl1.
  change (Game.particles g0) with (Game.particles g) in Hc1.
  assert (Hg1 : Game.activePowerUps g1 = Game.activePowerUps g /\
                Game.obstacles g1 = Game.obstacles g /\
                Game.isPlaying g1 = true /\ Game.isPaused g1 = false).
  { unfold emitter_loop_frame in Hfr. rewrite Hfr.
    cbn. rewrite Hplay, Hpause. repeat split. }
  destruct Hg1 as (Hf1 & Ho1 & Hplay1 & Hpause1).
  pose proof (update_particles_static (tick_paths g h)
                (List.length (Game.particles g1)) g1 h1) as Hst.
  destruct (Game.update_particles _ _ g1 h1) as [[r2 g2] h2] eqn:Hp.
  destruct r2 as [[] | ex]; [| discriminate].
  destruct Hst as ((Hplay2 & Hpause2 & _) & _).
  pose proof (finish_tick_cell g2 h2) as Hfin.
  destruct (Game.finish_tick g2 h2) as [g3 h3].
  injection H as <- <-.
  destruct Hfin as (Hps3 & Hf3 & Hh3 & Hpause3 & Hplay3).
  destruct (update_particles_cell (tick_paths g h) a b _ g1 h1 g2 h2
              (Nat.iter (pools_of a g) coast p) Hp)
    as (p3 & Hp3 & Hl3 & Ha3).
  - rewrite firstn_all, Hc1. exact Hg.
  - rewrite Hc1. exact Hg.
  - rewrite <- Hps3. exact Hg'.
  - rewrite Hf1. exact Hb.
  - rewrite <- Hf3. exact Hb'.
  - exact Hl1.
  - rewrite Ho1, Hf1, (unforced_step _ _ _ Hloop) in Hp3.
    injection Hp3 as <-. fold p' in Hl3, Ha3.
    split; [rewrite (load_heap a h2 h3 Hh3); exact Hl3 |].
    split; [exact Ha3 |].
    split; [| congruence].
    rewrite Hplay3; [congruence |].
    intros E. rewrite Hps3, E in Hg'. cbn in Hg'. discriminate.
Qed.

(** *** The scaling is the first step of a turn *)

Lemma with_timeSlow_true (g : Game.t) :
  Game.a_timeSlow (Game.activePowerUps g) = true ->
  with_timeSlow true g = g.
Proof.
  destruct g as [? ? ? ? ? ? ? ? ? ? [ts mg sh mu] ? ? ? ? ? ? ?].
  cbn. intros ->. reflexivity.
Qed.

Lemma list_set_twice {A : Type} (l : list A) (i : nat) (v w : A) :
  list_set (list_set l i v) i w = list_set l i w.
Proof.
  revert i. induction l as [| x l IH]; intros [| i]; cbn [list_set];
    try reflexivity.
  rewrite IH. reflexivity.
Qed.

Lemma store_twice (a : addr) (p q : Particle.t) (h : Host) :
  store a q (store a p h) = store a q h.
Proof.
  unfold store. cbn [with_heap heap dice clock timers trace].
  rewrite list_set_twice. reflexivity.
Qed.

(** The power-up loop in two games that differ at most in their
    Time-slow flag. *)
Lemma powerUp_tests_up_to_flag (a : addr) (px py : R)
  (todo : list PowerUp.t) :
  forall (done : list PowerUp.t) (g1 g2 : Game.t) (h : Host),
    with_timeSlow true g1 = with_timeSlow true g2 ->
    with_timeSlow true (fst (Game.powerUp_tests a px py done todo g1 h))
    = with_timeSlow true (fst (Game.powerUp_tests a px py done todo g2 h)) /\
    snd (Game.powerUp_tests a px py done todo g1 h)
    = snd (Game.powerUp_tests a px py done todo g2 h).
Proof.
  induction todo as [| p todo IH]; intros done g1 g2 h H;
    cbn [Game.powerUp_tests].
  - cbn [fst snd]. split; [| reflexivity].
    change (Game.with_powerUps done (with_timeSlow true g1)
            = Game.with_powerUps done (with_timeSlow true g2)).
    rewrite H. reflexivity.
  - destruct (PowerUp.checkCollision px py p); [| apply IH; exact H].
    destruct (PowerUp.collect p) as [[[ty du] |] p'];
      [| apply IH; exact H].
    unfold Game.activatePowerUp. apply IH.
    assert (E : forall g,
              with_timeSlow true
                (Game.with_activePowerUps
                   (Game.set_active ty true (Game.activePowerUps g)) g)
              = Game.with_activePowerUps
                  (Game.set_active timeSlow true
                     (Game.set_active ty true
                        (Game.activePowerUps (with_timeSlow true g))))
                  (with_timeSlow true g))
      by (intros g; destruct ty; reflexivity).
    rewrite (E g1), (E g2), H. reflexivity.
Qed.

(** A turn of the particle loop with Time-slow active is the turn
    without it of the particle with both velocity components multiplied
    by 0.5. *)
Lemma time_slow_turn (paths : list Path.t) (i : nat) (a : addr)
  (g : Game.t) (h : Host) (p : Particle.t) :
  Game.a_timeSlow (Game.activePowerUps g) = true ->
  nth_error (Game.particles g) i = Some a ->
  load a h = Some p ->
  Game.update_particle paths i g h
  = (let '(r, g', h') :=
       Game.update_particle paths i (with_timeSlow false g)
                            (store a (halved p) h) in
     (r, with_timeSlow true g', h')).
Proof.
  intros Hts Hi Hl. unfold Game.update_particle.
  change (Game.particles (with_timeSlow false g)) with (Game.particles g).
  rewrite Hi, Hl, (load_store_same a (halved p) p h Hl).
  assert (E1 : Game.time_slow (Game.activePowerUps g) p = halved p)
    by (unfold Game.time_slow; rewrite Hts; reflexivity).
  assert (E2 : Game.time_slow (Game.activePowerUps (with_timeSlow false g))
                              (halved p) = halved p).
  { unfold Game.time_slow, halved.
    cbn [with_timeSlow Game.activePowerUps Game.with_activePowerUps
         Game.set_active Game.a_timeSlow Particle.with_speed
         Particle.speedX Particle.speedY Particle.x Particle.y Particle.size
         Particle.color Particle.life Particle.decay Particle.gravity
         Particle.trail Particle.maxTrailLength Particle.active
         Particle.pathFollowForce Particle.mass].
    rewrite !Rmult_1_r. reflexivity. }
  rewrite E1, E2.
  change (Game.a_magnet (Game.activePowerUps (with_timeSlow false g)))
    with (Game.a_magnet (Game.activePowerUps g)).
  change (Game.a_shield (Game.activePowerUps (with_timeSlow false g)))
    with (Game.a_shield (Game.activePowerUps g)).
  change (Game.a_multiplier (Game.activePowerUps (with_timeSlow false g)))
    with (Game.a_multiplier (Game.activePowerUps g)).
  change (Game.collectionPoints (with_timeSlow false g))
    with (Game.collectionPoints g).
  change (Game.obstacles (with_timeSlow false g)) with (Game.obstacles g).
  change (Game.score (with_timeSlow false g)) with (Game.score g).
  assert (Hback : with_timeSlow true (with_timeSlow false g) = g).
  { rewrite <- (with_timeSlow_true g Hts) at 2. reflexivity. }
  destruct (if Game.a_magnet (Game.activePowerUps g) then _ else _)
    as [p2 | ex].
  2:{ rewrite store_twice, Hback. reflexivity. }
  destruct (Particle.update paths (Game.obstacles g) p2) as [p3 | ex].
  2:{ rewrite store_twice, Hback. reflexivity. }
  rewrite store_twice.
  destruct (if negb (Game.a_shield (Game.activePowerUps g)) then _ else _)
    as [hit h2].
  destruct (Game.collection_tests _ _ _ _ _ _ _) as [[cs s] h3].
  match goal with
  |- context [Game.powerUp_tests ?a ?x ?y ?d ?t
                (Game.with_score s (Game.with_collectionPoints cs g)) ?hh] =>
      pose proof (powerUp_tests_timeSlow a x y t d
                    (Game.with_score s (Game.with_collectionPoints cs g))
                    hh Hts) as Hflag;
      pose proof (powerUp_tests_up_to_flag a x y t d
                    (Game.with_score s (Game.with_collectionPoints cs g))
                    (Game.with_score s
                       (Game.with_collectionPoints cs
                          (with_timeSlow false g)))
                    hh) as Hup
  end.
  change (Game.powerUps
            (Game.with_score s
               (Game.with_collectionPoints cs (with_timeSlow false g))))
    with (Game.powerUps
            (Game.with_score s (Game.with_collectionPoints cs g))).
  destruct Hup as [Hg Hh].
  { change (Game.with_score s
              (Game.with_collectionPoints cs (with_timeSlow true g))
            = Game.with_score s
                (Game.with_collectionPoints cs
                   (with_timeSlow true (with_timeSlow false g)))).
    rewrite Hback, (with_timeSlow_true g Hts). reflexivity. }
  destruct (Game.powerUp_tests _ _ _ _ _
              (Game.with_score s (Game.with_collectionPoints cs g)) h3)
    as [g2 h4].
  destruct (Game.powerUp_tests _ _ _ _ _ _ h3) as [g2' h4'].
  cbn [fst snd] in Hg, Hh, Hflag. subst h4'.
  rewrite (with_timeSlow_true g2 Hflag) in Hg. subst g2.
  change (Game.width (with_timeSlow true g2')) with (Game.width g2').
  change (Game.height (with_timeSlow true g2')) with (Game.height g2').
  destruct (negb _ || _); reflexivity.
Qed.

(** *** The scaling over several ticks *)

Lemma ticks_S (n : nat) (g g1 : Game.t) (h h1 : Host) :
  Game.update g h = (Normal tt, g1, h1) ->
  ticks (S n) g h = ticks n g1 h1.
Proof. intros H. cbn [ticks]. rewrite H. reflexivity. Qed.

Lemma ticks_scale (b : bool) (a : addr) (n : nat) :
  forall (g : Game.t) (h : Host) (p : Particle.t),
    Game.isPlaying g = true ->
    Game.isPaused g = false ->
    load a h = Some p ->
    Particle.gravity p = 0 ->
    fst (fst (ticks n g h)) = Normal tt ->
    (forall k, (k <= n)%nat ->
       let gk := snd (fst (ticks k g h)) in
       occurrences a (Game.particles gk) = 1%nat /\
       Game.a_timeSlow (Game.activePowerUps gk) = b) ->
    (forall k, (k < n)%nat ->
       force_free_tick a (snd (fst (ticks k g h))) (snd (ticks k g h))) ->
    exists p',
      load a (snd (ticks n g h)) = Some p' /\
      Particle.gravity p' = 0 /\
      Particle.speedX p'
      = (if b then 0.5 else 1) ^ n * 0.98 ^ physics_steps a n g h
        * Particle.speedX p /\
      Particle.speedY p'
      = (if b then 0.5 else 1) ^ n * 0.98 ^ physics_steps a n g h
        * Particle.speedY p.
Proof.
  induction n as [| n IH]; intros g h p Hplay Hpause Hl Hgr Hr Hk Hff.
  - exists p. cbn [ticks snd physics_steps pow].
    split; [exact Hl |]. split; [exact Hgr |]. split; lra.
  - destruct (Hk 0%nat ltac:(lia)) as [Hg0 Hb0]. cbn [ticks fst snd] in Hg0, Hb0.
    pose proof (Hk 1%nat ltac:(lia)) as H1.
    pose proof (Hff 0%nat ltac:(lia)) as Hff0. cbn [ticks fst snd] in Hff0.
    destruct (Game.update g h) as [[r g1] h1] eqn:Hu.
    destruct r as [[] | ex];
      [| cbn [ticks] in Hr; rewrite Hu in Hr; discriminate].
    rewrite (ticks_S 0 g g1 h h1 Hu) in H1. cbn [ticks fst snd] in H1.
    destruct H1 as [Hg1 Hb1].
    destruct (tick_cell b a g h g1 h1 p Hplay Hpause Hu Hl Hg0 Hg1 Hb0 Hb1
                Hff0) as (Hl1 & Ha1 & Hplay1 & Hpause1).
    set (c := pools_of a g) in *.
    set (q := Nat.iter c coast p) in *.
    set (q1 := Game.time_slow (Game.activePowerUps g) q) in *.
    assert (Haq1 : Particle.active q1 = true) by (apply coast_active, Ha1).
    destruct (iter_coast_speed c p Hgr Haq1) as (_ & Hgq & Hxq & Hyq).
    fold q in Hgq, Hxq, Hyq.
    assert (Hq1 : Particle.gravity q1 = 0 /\
                  Particle.speedX q1
                  = Particle.speedX q * (if b then 0.5 else 1) /\
                  Particle.speedY q1
                  = Particle.speedY q * (if b then 0.5 else 1)).
    { unfold q1, Game.time_slow. rewrite Hb0. cbn. repeat split. exact Hgq. }
    destruct Hq1 as (Hgq1 & Hxq1 & Hyq1).
    destruct (coast_speed q1 Haq1 Hgq1) as (Hg' & Hx' & Hy').
    destruct (IH g1 h1 (coast q1) Hplay1 Hpause1 Hl1 Hg')
      as (p' & Hlp & Hgp & Hxp & Hyp).
    + rewrite <- (ticks_S n g g1 h h1 Hu). exact Hr.
    + intros k Hle. rewrite <- (ticks_S k g g1 h h1 Hu). apply Hk. lia.
    + intros k Hlt. rewrite <- (ticks_S k g g1 h h1 Hu). apply Hff. lia.
    + exists p'. rewrite (ticks_S n g g1 h h1 Hu).
      split; [exact Hlp |]. split; [exact Hgp |].
      cbn [physics_steps]. rewrite Hu. fold c.
      rewrite Hxp, Hyp, Hx', Hy', Hxq1, Hyq1, Hxq, Hyq.
      cbn [Nat.add pow]. rewrite pow_add. split; ring.
Qed.

(** *** A game whose particle is in a pool *)

(** One tick of a game with a pooled particle that nothing hinders. *)
Lemma pooled_tick (flags : Game.ActivePowerUps) (a : addr)
  (p : Particle.t) (g : Game.t) (h : Host) :
  Game.a_magnet flags = false ->
  pooled flags a p g h ->
  unhindered g (coast p) ->
  unhindered g (pooled_step flags p) ->
  let '(r, g', h') := Game.update g h in
  r = Normal tt /\
  pooled flags a (pooled_step flags p) g' h' /\
  Game.width g' = Game.width g /\ Game.height g' = Game.height g /\
  Game.collectionPoints g'
  = map CollectionPoint.update (Game.collectionPoints g).
Proof.
  unfold pooled at 1, unhindered.
  intros Hm (Hplay & Hpause & (e & He & Hidle & Hpool) & Ho & Hu & Hpaths
             & Hf & Hps & Hl & Hlc)
         (Hact0 & Hoob0 & _) (Hact & Hoob & Hmiss).
  unfold Game.update. rewrite Hplay, Hpause. cbn [negb orb].
  set (g0 := Game.with_input _ g).
  assert (Hin : InputHandler.paths (Game.input g0) = []).
  { unfold g0. cbn [Game.input Game.with_input].
    unfold InputHandler.update. cbn [InputHandler.paths].
    rewrite Hpaths. reflexivity. }
  unfold InputHandler.getActivePaths. rewrite Hin. cbn [map].
  change (Game.emitters g0) with (Game.emitters g). rewrite He.
  cbn [Game.update_emitters].
  assert (Hemit : ParticleEmitter.emit e h = (Normal [], e, h))
    by (unfold ParticleEmitter.emit; rewrite Hidle; reflexivity).
  rewrite Hemit.
  change (Game.particles g0) with (Game.particles g).
  rewrite Hps. cbn [app].
  set (g1 := Game.with_particles [a] g0).
  change (Game.obstacles g1) with (Game.obstacles g).
  change (Game.width g1) with (Game.width g).
  change (Game.height g1) with (Game.height g).
  assert (Hupd : ParticleEmitter.update [] (Game.obstacles g) (Game.width g)
                   (Game.height g) e h
                 = (Normal tt, e,
                    store a (coast p) (log (EvPhysics a) h))).
  { unfold ParticleEmitter.update. rewrite Hpool, Ho.
    cbn [List.length ParticleEmitter.update_from].
    rewrite Hpool. cbn [nth_error]. rewrite Hl, Particle_update_coast.
    rewrite Hact0, Hoob0. reflexivity. }
  rewrite Hupd. cbn [app Game.update_emitters].
  set (g2 := Game.with_emitters [e] g1).
  set (h1 := store a (coast p) (log (EvPhysics a) h)).
  assert (Hl1 : load a h1 = Some (coast p)).
  { apply (load_store_same a (coast p) p). rewrite load_log. exact Hl. }
  change (Game.particles g2) with [a].
  cbn [List.length Game.update_particles].
  fold (pooled_step flags p) in *.
  assert (Hphys : particle_physics [] g2 (coast p)
                  = Normal (pooled_step flags p)).
  { unfold pooled_step. rewrite <- Hf. apply (particle_physics_free g2).
    - change (Game.activePowerUps g2) with (Game.activePowerUps g).
      rewrite Hf. exact Hm.
    - exact Ho. }
  assert (Hi1 : nth_error (Game.particles g2) 0 = Some a) by reflexivity.
  pose proof (update_particle_collects [] 0 a g2 h1 (coast p)
                (pooled_step flags p) Hi1 Hl1 Hphys) as Hc.
  assert (Hnohit : obstacle_hit g2 (pooled_step flags p) = false).
  { unfold obstacle_hit. change (Game.obstacles g2) with (Game.obstacles g).
    rewrite Ho. apply andb_false_r. }
  rewrite Hnohit in Hc. cbv zeta in Hc.
  unfold Game.update_particle in *. rewrite Hi1, Hl1 in *.
  unfold particle_physics in Hphys.
  destruct (if Game.a_magnet (Game.activePowerUps g2) then _ else _)
    as [p2 | ex]; [| discriminate].
  cbn [obind] in Hphys.
  change (Game.obstacles g2) with (Game.obstacles g) in *.
  rewrite Hphys in *. rewrite Ho in *.
  assert (Hsh : (if negb (Game.a_shield (Game.activePowerUps g2))
                 then Game.obstacle_tests a
                        (Particle.x (pooled_step flags p))
                        (Particle.y (pooled_step flags p)) []
                        (log (EvPhysics a)
                           (store a (pooled_step flags p) h1))
                 else (false,
                       log (EvPhysics a)
                         (store a (pooled_step flags p) h1)))
                = (false,
                   log (EvPhysics a) (store a (pooled_step flags p) h1)))
    by (destruct (negb _); reflexivity).
  rewrite Hsh in *. clear Hsh.
  rewrite collection_tests_closed in *.
  change (Game.collectionPoints g2) with (Game.collectionPoints g) in *.
  destruct (collect_if_hit_missed _ _ _ Hmiss) as (Hmap & Hgain).
  rewrite Hmap, Hgain, Z.add_0_r in *.
  change (Game.powerUps
            (Game.with_score (Game.score g2)
               (Game.with_collectionPoints (Game.collectionPoints g) g2)))
    with (Game.powerUps g) in *.
  rewrite Hu in *. cbn [Game.powerUp_tests] in *.
  cbn [Game.width Game.height Game.with_powerUps Game.with_score
       Game.with_collectionPoints Game.with_emitters Game.with_particles
       g2 g1 g0 Game.with_input] in *.
  rewrite Hact, Hoob in *. cbn [negb orb] in *.
  destruct Hc as (_ & Hload & _ & _).
  rewrite finish_tick_quiet.
  - split; [reflexivity |].
    split; [| repeat split].
    unfold pooled.
    split; [exact Hplay |]. split; [exact Hpause |].
    split; [exists e; repeat split; assumption |].
    split; [change (map Obstacle.update (Game.obstacles g) = []);
            rewrite Ho; reflexivity |].
    split; [reflexivity |]. split; [exact Hin |]. split; [exact Hf |].
    split; [reflexivity |].
    split.
    + unfold load. cbn [log heap].
      rewrite (dice_only_heap _ _ (roll_dice_only _)). exact Hload.
    + rewrite level_complete_update_entities. exact Hlc.
  - exact Hlc.
  - discriminate.
Qed.

Lemma pooled_ticks (flags : Game.ActivePowerUps) (a : addr) (n : nat) :
  Game.a_magnet flags = false ->
  forall (p : Particle.t) (g : Game.t) (h : Host),
  pooled flags a p g h ->
  (forall k, (k < n)%nat ->
     unhindered g (coast (Nat.iter k (pooled_step flags) p))) ->
  (forall k, (k < n)%nat ->
     unhindered g (Nat.iter (S k) (pooled_step flags) p)) ->
  let '(r, g', h') := ticks n g h in
  r = Normal tt /\ pooled flags a (Nat.iter n (pooled_step flags) p) g' h'.
Proof.
  intros Hm. induction n as [| n IH]; intros p g h Ho Hu Hv; cbn [ticks].
  - split; [reflexivity | exact Ho].
  - pose proof (pooled_tick flags a p g h Hm Ho (Hu 0%nat ltac:(lia))
                  (Hv 0%nat ltac:(lia))) as H1.
    destruct (Game.update g h) as [[r g1] h1].
    destruct H1 as (-> & Ho1 & Hw & Hh & Hc).
    rewrite Nat.iter_succ_r.
    apply (IH (pooled_step flags p) g1 h1 Ho1);
      intros k Hk; rewrite <- !Nat.iter_succ_r;
      apply (unhindered_next g g1); try assumption;
      [apply (Hu (S k)) | apply (Hv (S k))]; lia.
Qed.

(** A step without force of a particle that is alive and stays alive. *)
Lemma coast_alive (p : Particle.t) :
  Particle.active p = true ->
  Particle.decay p < Particle.life p ->
  let sx := Particle.speedX p * 0.98 in
  let sy := (Particle.speedY p + Particle.gravity p) * 0.98 in
  coast p
  = Particle.mk (Particle.x p + sx) (Particle.y p + sy) (Particle.size p)
      sx sy (Particle.color p) (Particle.life p - Particle.decay p)
      (Particle.decay p) (Particle.gravity p)
      (if Nat.ltb (Particle.maxTrailLength p)
                  (List.length
                     (Particle.trail p
                      ++ [(Particle.x p + sx, Particle.y p + sy)]))
       then tl (Particle.trail p ++ [(Particle.x p + sx, Particle.y p + sy)])
       else Particle.trail p ++ [(Particle.x p + sx, Particle.y p + sy)])
      (Particle.maxTrailLength p) true (Particle.pathFollowForce p)
      (Particle.mass p).
Proof.
  intros Ha Hl sx sy. rewrite coast_eq, Ha. unfold Particle.integrate.
  cbn [Particle.with_speed Particle.x Particle.y Particle.size
       Particle.speedX Particle.speedY Particle.color Particle.life
       Particle.decay Particle.gravity Particle.trail
       Particle.maxTrailLength Particle.active Particle.pathFollowForce
       Particle.mass].
  rewrite Rleb_false by lra. rewrite Ha. reflexivity.
Qed.

(** The first two ticks of [pooled_game] keep its particle alive, on the
    canvas and far from the collection point. *)
Ltac particle_fields :=
  cbn [moving_particle Particle.x Particle.y Particle.size Particle.speedX
       Particle.speedY Particle.color Particle.life Particle.decay
       Particle.gravity Particle.trail Particle.maxTrailLength
       Particle.active Particle.pathFollowForce Particle.mass
       Game.a_timeSlow time_slow_on Game.no_powerUps
       app List.length Nat.ltb Nat.leb].

Ltac pooled_step_eval :=
  unfold Nat.iter; cbn [nat_rect]; unfold pooled_step;
  repeat
    (match goal with
     | |- context [coast ?p] =>
         rewrite (coast_alive p)
           by (particle_fields; first [reflexivity | lra])
     | |- context [free_step ?f ?p] =>
         rewrite (free_step_alive f p)
           by (particle_fields; first [reflexivity | lra])
     end;
     particle_fields).

Ltac pooled_unhindered_eval :=
  unfold unhindered;
  cbn [Particle.x Particle.y Particle.active Game.width Game.height
       Game.collectionPoints pooled_game];
  split; [reflexivity |];
  split;
  [ unfold Particle.isOutOfBounds; cbn [Particle.x Particle.y];
    rewrite !Rltb_false by lra; reflexivity
  | apply Forall_cons; [| apply Forall_nil];
    unfold CollectionPoint.checkCollision;
    cbn [CollectionPoint.collected CollectionPoint.x CollectionPoint.y
         CollectionPoint.radius target negb andb];
    apply Rleb_false; apply distance_gt; lra ].

Lemma pooled_game_unhindered_pool (k : nat) :
  (k < 2)%nat ->
  unhindered pooled_game
    (coast (Nat.iter k (pooled_step time_slow_on) moving_particle)).
Proof.
  intros Hk. destruct k as [| [| k]]; [| | lia];
    pooled_step_eval; pooled_unhindered_eval.
Qed.

Lemma pooled_game_unhindered (k : nat) :
  (k < 2)%nat ->
  unhindered pooled_game
    (Nat.iter (S k) (pooled_step time_slow_on) moving_particle).
Proof.
  intros Hk. destruct k as [| [| k]]; [| | lia];
    pooled_step_eval; pooled_unhindered_eval.
Qed.

Lemma pooled_game_pooled :
  pooled time_slow_on 0%nat moving_particle pooled_game
         (one_particle_host moving_particle).
Proof.
  unfold pooled. repeat split.
  exists idle_emitter. repeat split.
Qed.

(** The first ticks of [pooled_game]: each returns, and leaves a game of
    the same kind. *)
Lemma pooled_game_ticks (k : nat) :
  (k <= 2)%nat ->
  let '(r, g', h') :=
    ticks k pooled_game (one_particle_host moving_particle) in
  r = Normal tt /\
  pooled time_slow_on 0%nat
         (Nat.iter k (pooled_step time_slow_on) moving_particle) g' h'.
Proof.
  intros Hk.
  apply (pooled_ticks time_slow_on 0%nat k eq_refl moving_particle
           pooled_game (one_particle_host moving_particle)
           pooled_game_pooled).
  - intros j Hj. apply pooled_game_unhindered_pool. lia.
  - intros j Hj. apply pooled_game_unhindered. lia.
Qed.

Lemma pooled_pools_of (flags : Game.ActivePowerUps) (a : addr)
  (p : Particle.t) (g : Game.t) (h : Host) :
  pooled flags a p g h ->
  occurrences a (Game.particles g) = 1%nat /\ pools_of a g = 1%nat /\
  force_free_tick a g h.
Proof.
  intros (_ & _ & (e & He & _ & Hpool) & Ho & _ & Hpaths & _ & Hps & _).
  assert (Ha : occurrences a [a] = 1%nat).
  { unfold occurrences. cbn [count_occ].
    destruct (Nat.eq_dec a a); [reflexivity | contradiction]. }
  split; [rewrite Hps; exact Ha |].
  split; [unfold pools_of; rewrite He; cbn [map list_sum]; rewrite Hpool, Ha;
          reflexivity |].
  intros q _.
  assert (Hp : tick_paths g h = []).
  { unfold tick_paths, InputHandler.getActivePaths, InputHandler.update.
    cbn [InputHandler.paths]. rewrite Hpaths. reflexivity. }
  rewrite Hp, Ho. split; [intros j _ |]; reflexivity.
Qed.

(** C4, amended.  When Time-slow is active the particle loop multiplies
    both velocity components of every particle of [Game.particles] by 0.5
    once in each tick and stores the product in the particle: the turn of
    a particle is the turn that the game without Time-slow gives the
    particle with the scaled velocity.  So the scale compounds.  Take a
    particle that occurs once in [Game.particles] and stays there through
    [n] ticks that return, with the Time-slow flag equal to [b] before
    and after each of them, without gravity, and with no path and no
    obstacle acting on it at its physics steps (the Magnet block returns
    only when it adds no force).  After the [n] ticks each component of
    its velocity is the initial one times 0.5 to the power [n], or 1 when
    the flag is off, times 0.98, the friction, to the number of its
    physics steps.  The slow-down factor after [n] active ticks is
    therefore 0.5 to the power [n], 0.25 after two ticks and 0.125 after
    three, and not 0.5. *)
Theorem time_slow_compounds :
  (forall (paths : list Path.t) (i : nat) (a : addr) (g : Game.t)
          (h : Host) (p : Particle.t),
      Game.a_timeSlow (Game.activePowerUps g) = true ->
      nth_error (Game.particles g) i = Some a ->
      load a h = Some p ->
      Game.update_particle paths i g h
      = (let '(r, g', h') :=
           Game.update_particle paths i (with_timeSlow false g)
                                (store a (halved p) h) in
         (r, with_timeSlow true g', h'))) /\
  (forall (b : bool) (n : nat) (a : addr) (g : Game.t) (h : Host)
          (p : Particle.t),
      Game.isPlaying g = true ->
      Game.isPaused g = false ->
      load a h = Some p ->
      Particle.gravity p = 0 ->
      fst (fst (ticks n g h)) = Normal tt ->
      (forall k, (k <= n)%nat ->
         let gk := snd (fst (ticks k g h)) in
         occurrences a (Game.particles gk) = 1%nat /\
         Game.a_timeSlow (Game.activePowerUps gk) = b) ->
      (forall k, (k < n)%nat ->
         force_free_tick a (snd (fst (ticks k g h))) (snd (ticks k g h))) ->
      exists p',
        load a (snd (ticks n g h)) = Some p' /\
        Particle.speedX p'
        = (if b then 0.5 else 1) ^ n * 0.98 ^ physics_steps a n g h
          * Particle.speedX p /\
        Particle.speedY p'
        = (if b then 0.5 else 1) ^ n * 0.98 ^ physics_steps a n g h
          * Particle.speedY p).
Proof.
  split.
  - exact time_slow_turn.
  - intros b n a g h p Hplay Hpause Hl Hgr Hr Hk Hff.
    destruct (ticks_scale b a n g h p Hplay Hpause Hl Hgr Hr Hk Hff)
      as (p' & Hl' & _ & Hx & Hy).
    exists p'. split; [exact Hl' |]. split; assumption.
Qed.

Lemma time_slow_compounds_witness :
  (exists p',
     load 0%nat
          (snd (ticks 2 pooled_game (one_particle_host moving_particle)))
     = Some p' /\
     Particle.speedX p'
     = (if true then 0.5 else 1) ^ 2
       * 0.98 ^ physics_steps 0%nat 2 pooled_game
                  (one_particle_host moving_particle)
       * Particle.speedX moving_particle /\
     Particle.speedY p'
     = (if true then 0.5 else 1) ^ 2
       * 0.98 ^ physics_steps 0%nat 2 pooled_game
                  (one_particle_host moving_particle)
       * Particle.speedY moving_particle) /\
  physics_steps 0%nat 2 pooled_game (one_particle_host moving_particle)
  = 4%nat.
Proof.
  split.
  - apply (proj2 time_slow_compounds true 2%nat 0%nat pooled_game
             (one_particle_host moving_particle) moving_particle).
    + reflexivity.
    + reflexivity.
    + reflexivity.
    + reflexivity.
    + pose proof (pooled_game_ticks 2 (le_n 2)) as H.
      destruct (ticks 2 pooled_game _) as [[r g'] h']. apply H.
    + intros k Hk. pose proof (pooled_game_ticks k Hk) as H.
      destruct (ticks k pooled_game _) as [[r gk] hk].
      destruct H as [_ H]. cbn [fst snd].
      destruct (pooled_pools_of _ _ _ _ _ H) as (Ho & _ & _).
      split; [exact Ho |].
      destruct H as (_ & _ & _ & _ & _ & _ & -> & _). reflexivity.
    + intros k Hk.
      pose proof (pooled_game_ticks k (Nat.lt_le_incl _ _ Hk)) as H.
      destruct (ticks k pooled_game _) as [[r gk] hk].
      destruct H as [_ H]. cbn [fst snd].
      apply (pooled_pools_of _ _ _ _ _ H).
  - cbn [physics_steps].
    pose proof (pooled_game_ticks 1 (le_S _ _ (le_n 1))) as H1.
    cbn [ticks] in H1.
    destruct (Game.update pooled_game _) as [[r1 g1] h1].
    destruct r1 as [[] | ex]; [| destruct H1 as [H1 _]; discriminate].
    destruct H1 as [_ H1].
    destruct (pooled_pools_of _ _ _ _ _ H1) as (_ & -> & _).
    destruct (Game.update g1 h1) as [[r2 g2] h2].
    reflexivity.
Defined.
